(** * kernFeatureWriter: classification of kerning pairs and measured subtables

    A shallow embedding of [kernFeatureWriter.py]: the normalisation and
    classification done by [KernProcessor] and the greedy partition done by
    [MakeMeasuredSubtables], with the properties of the specification stated
    over them.

    Conventions of the embedding.
    - A Python [str] is a [string]; glyph and group names are ASCII, so the
      order of [sorted] is the byte-wise lexicographic order.
    - A Python [dict] is an association list in insertion order with unique
      keys ([dict_set] overwrites in place, or appends a new key at the end;
      [dict_del] removes the key), so that iteration order, on which
      "last write wins" depends, is the one of the interpreter.
    - A Python [set] that is only tested for membership, measured with [len]
      or sorted is a duplicate-free list.
    - A raised exception is a value of [exn]; a method that can raise returns
      [result]. *)

From Stdlib Require Import Bool Arith ZArith List Ascii String Lia.
From Stdlib Require Import Permutation Sorted.
Import ListNotations.
Open Scope string_scope.
Open Scope list_scope.

Set Implicit Arguments.

(* ------------------------------------------------------------------ *)
(** ** Python string operations *)

(** [s.startswith(p)] *)
Fixpoint startswith (p s : string) : bool :=
  match p with
  | EmptyString => true
  | String a p' =>
      match s with
      | EmptyString => false
      | String b s' => Ascii.eqb a b && startswith p' s'
      end
  end.

(** [sub in s] *)
Fixpoint contains (sub s : string) : bool :=
  startswith sub s ||
  match s with
  | EmptyString => false
  | String _ s' => contains sub s'
  end.

(** [s.replace(old, new)] for a non-empty [old]: the occurrences of [old]
    are found from left to right and do not overlap.  [skip] counts the
    characters of the occurrence being replaced that are still to be
    dropped. *)
Fixpoint replace_from (old new : string) (skip : nat) (s : string) : string :=
  match s with
  | EmptyString => EmptyString
  | String c s' =>
      match skip with
      | S k => replace_from old new k s'
      | O =>
          if startswith old s
          then (new ++ replace_from old new (String.length old - 1) s')%string
          else String c (replace_from old new 0 s')
      end
  end.

Definition replace (old new s : string) : string := replace_from old new 0 s.

(* ------------------------------------------------------------------ *)
(** ** Module constants *)

Definition group_RTL : string := "RTL_KERNING".
Definition tag_ara : string := "_ARA".
Definition tag_heb : string := "_HEB".
Definition tag_RTL : string := "_RTL".
Definition tag_exception : string := "EXC_".
Definition tag_ignore : string := ".cxt".

(* ------------------------------------------------------------------ *)
(** ** [KernProcessor._remap_group_name] *)

Definition _remap_group_name (group_name : string) : string :=
  if contains "public.kern1." group_name then
    let stripped_name := replace "public.kern1." "" group_name in
    if startswith "@MMK_L_" stripped_name
    then stripped_name
    else replace "public.kern1." "@MMK_L_" group_name
  else if contains "public.kern2." group_name then
    let stripped_name := replace "public.kern2." "" group_name in
    if startswith "@MMK_R_" stripped_name
    then stripped_name
    else replace "public.kern2." "@MMK_R_" group_name
  else group_name.

(** A name is _plain_ when neither storage prefix occurs anywhere in it. *)
Definition plain_name (s : string) : Prop :=
  contains "public.kern1." s = false /\ contains "public.kern2." s = false.

(** A name in which a storage prefix occurs at most once, in front. *)
Definition prefixed_once (x : string) : Prop :=
  exists s, plain_name s /\
            (x = s \/ x = ("public.kern1." ++ s)%string
             \/ x = ("public.kern2." ++ s)%string).

(* ------------------------------------------------------------------ *)
(** ** Python values, exceptions *)

(** A kerning pair: the tuple [(left, right)]. *)
Definition pair : Type := (string * string)%type.

(** A kerning value: an [int], or, for a Multiple Master font, the string
    ['<v1 v2 ...>'] built by [FLKerningData._readFLKerning].  (Values that
    are floats are outside the model.) *)
Inductive value : Type :=
| VInt (z : Z)
| VMaster (s : string).

(** [value == 0] *)
Definition is_zero (v : value) : bool :=
  match v with
  | VInt z => Z.eqb z 0
  | VMaster _ => false
  end.

Inductive exn : Type :=
| IndexError
| KeyError
| AttributeError
| TypeError
| UnboundLocalError.

Inductive result (A : Type) : Type :=
| Ok (a : A)
| Raise (e : exn).

Arguments Ok {A} a.
Arguments Raise {A} e.

Definition bind {A B : Type} (m : result A) (k : A -> result B) : result B :=
  match m with
  | Ok a => k a
  | Raise e => Raise e
  end.

Notation "x <- m ;; k" := (bind m (fun x => k))
  (at level 61, m at next level, right associativity).
Notation "' p <- m ;; k" := (bind m (fun x => match x with p => k end))
  (at level 61, p pattern, m at next level, right associativity).

(** A [for] loop whose body can raise: the state is threaded from left to
    right and the first exception ends the loop. *)
Fixpoint for_each {A S : Type} (body : S -> A -> result S) (l : list A) (s : S)
  : result S :=
  match l with
  | [] => Ok s
  | a :: l' => s' <- body s a ;; for_each body l' s'
  end.

(** A list comprehension [[x for x in l if cond(x)]] whose condition can
    raise. *)
Fixpoint filter_r {A : Type} (cond : A -> result bool) (l : list A)
  : result (list A) :=
  match l with
  | [] => Ok []
  | a :: l' =>
      b <- cond a ;;
      r <- filter_r cond l' ;;
      Ok (if b then a :: r else r)
  end.

(** Reading an attribute that may not have been assigned. *)
Definition attr {A : Type} (a : option A) : result A :=
  match a with
  | Some x => Ok x
  | None => Raise AttributeError
  end.

(* ------------------------------------------------------------------ *)
(** ** Keys, lists used as sets, dictionaries, [sorted] *)

Class Key (K : Type) : Type := {
  key_eqb : K -> K -> bool;
  key_eqb_spec : forall a b : K, reflect (a = b) (key_eqb a b)
}.

#[export] Instance string_Key : Key string :=
  {| key_eqb := String.eqb; key_eqb_spec := String.eqb_spec |}.

Definition pair_eqb (p q : pair) : bool :=
  String.eqb (fst p) (fst q) && String.eqb (snd p) (snd q).

Lemma pair_eqb_spec (p q : pair) : reflect (p = q) (pair_eqb p q).
Proof.
  destruct p as [a b], q as [c d]. unfold pair_eqb. cbn [fst snd].
  destruct (String.eqb_spec a c) as [->|Hac]; cbn.
  - destruct (String.eqb_spec b d) as [->|Hbd]; constructor; congruence.
  - constructor. congruence.
Qed.

#[export] Instance pair_Key : Key pair :=
  {| key_eqb := pair_eqb; key_eqb_spec := pair_eqb_spec |}.

Section Containers.
Context {K : Type} `{Key K}.

(** [x in l] for a list (or a set kept as a list). *)
Definition mem (x : K) (l : list K) : bool := existsb (key_eqb x) l.

(** [s.add(x)] *)
Definition set_add (s : list K) (x : K) : list K :=
  if mem x s then s else s ++ [x].

(** [s.update(l)] *)
Definition set_update (s : list K) (l : list K) : list K :=
  fold_left set_add l s.

(** [set(l)] *)
Definition to_set (l : list K) : list K := set_update [] l.

Variable V : Type.

Definition dict : Type := list (K * V).

(** [d.get(k)], [None] when the key is absent. *)
Fixpoint dict_get (d : dict) (k : K) : option V :=
  match d with
  | [] => None
  | (k', v) :: d' => if key_eqb k k' then Some v else dict_get d' k
  end.

(** [d.get(k, default)] *)
Definition dict_get_default (d : dict) (k : K) (default : V) : V :=
  match dict_get d k with
  | Some v => v
  | None => default
  end.

(** [d[k]] *)
Definition getitem (d : dict) (k : K) : result V :=
  match dict_get d k with
  | Some v => Ok v
  | None => Raise KeyError
  end.

(** [k in d] *)
Definition dict_mem (d : dict) (k : K) : bool :=
  match dict_get d k with
  | Some _ => true
  | None => false
  end.

(** [d[k] = v]: an existing key keeps its place. *)
Fixpoint dict_set (d : dict) (k : K) (v : V) : dict :=
  match d with
  | [] => [(k, v)]
  | (k', v') :: d' =>
      if key_eqb k k' then (k', v) :: d' else (k', v') :: dict_set d' k v
  end.

(** [del d[k]] for a key that is present. *)
Definition dict_del (d : dict) (k : K) : dict :=
  filter (fun kv => negb (key_eqb k (fst kv))) d.

(** [d.keys()] *)
Definition dict_keys (d : dict) : list K := map fst d.

(** A dictionary holds every key once. *)
Definition wf_dict (d : dict) : Prop := NoDup (dict_keys d).
End Containers.

Arguments dict K V : clear implicits.

Section Sorting.
Variable A : Type.
Variable leb : A -> A -> bool.

Fixpoint insert_sorted (x : A) (l : list A) : list A :=
  match l with
  | [] => [x]
  | y :: l' => if leb x y then x :: l else y :: insert_sorted x l'
  end.

(** [sorted(l)] *)
Definition sorted (l : list A) : list A := fold_right insert_sorted [] l.
End Sorting.

(** Order of tuples of two strings. *)
Definition pair_leb (p q : pair) : bool :=
  match String.compare (fst p) (fst q) with
  | Lt => true
  | Eq => String.leb (snd p) (snd q)
  | Gt => false
  end.

Definition sorted_names : list string -> list string := sorted String.leb.
Definition sorted_pairs : list pair -> list pair := sorted pair_leb.

(* ------------------------------------------------------------------ *)
(** ** [class KernProcessor] *)

Module KernProcessor.

(** The seven kinds of kerning dictionaries; each exists once for
    left-to-right pairs ([self.glyph_group], ...) and once for right-to-left
    pairs ([self.rtl_glyph_group], ...). *)
Inductive category : Type :=
| glyph_glyph
| glyph_glyph_exceptions
| glyph_group
| glyph_group_exceptions
| group_glyph_exceptions
| group_group
| predefined_exceptions.

Inductive direction : Type := LTR | RTL.

Definition category_eqb (c d : category) : bool :=
  match c, d with
  | glyph_glyph, glyph_glyph
  | glyph_glyph_exceptions, glyph_glyph_exceptions
  | glyph_group, glyph_group
  | glyph_group_exceptions, glyph_group_exceptions
  | group_glyph_exceptions, group_glyph_exceptions
  | group_group, group_group
  | predefined_exceptions, predefined_exceptions => true
  | _, _ => false
  end.

Definition direction_eqb (a b : direction) : bool :=
  match a, b with
  | LTR, LTR | RTL, RTL => true
  | _, _ => false
  end.

(** The attributes of a [KernProcessor] object.  [bucket st LTR c] is
    [self.c] and [bucket st RTL c] is [self.rtl_c]; an attribute that
    [__init__] assigns only on some paths is an [option]. *)
Record state : Type := mkState {
  bucket : direction -> category -> dict pair value;
  pairs_unprocessed : list pair;
  pairs_processed : list pair;
  reference_groups : dict string (list string);
  groups : dict string (list string);
  kerning : dict pair value;
  grouped_left : option (list string);
  grouped_right : option (list string);
  exceptionPairs : option (list pair);
  RTLexceptionPairs : option (list pair);
  group_order : option (list string)
}.

(** [self.<bucket>[p] = v] *)
Definition put (d : direction) (c : category) (p : pair) (v : value)
           (st : state) : state :=
  mkState
    (fun d' c' =>
       if direction_eqb d d' && category_eqb c c'
       then dict_set (bucket st d' c') p v
       else bucket st d' c')
    (pairs_unprocessed st) (pairs_processed st) (reference_groups st)
    (groups st) (kerning st) (grouped_left st) (grouped_right st)
    (exceptionPairs st) (RTLexceptionPairs st) (group_order st).

(** [self.pairs_unprocessed.append(p)] *)
Definition append_unprocessed (p : pair) (st : state) : state :=
  mkState (bucket st) (pairs_unprocessed st ++ [p]) (pairs_processed st)
          (reference_groups st) (groups st) (kerning st) (grouped_left st)
          (grouped_right st) (exceptionPairs st) (RTLexceptionPairs st)
          (group_order st).

(** [self.pairs_processed.append(p)] *)
Definition append_processed (p : pair) (st : state) : state :=
  mkState (bucket st) (pairs_unprocessed st) (pairs_processed st ++ [p])
          (reference_groups st) (groups st) (kerning st) (grouped_left st)
          (grouped_right st) (exceptionPairs st) (RTLexceptionPairs st)
          (group_order st).

(** [del self.kerning[p]] *)
Definition del_kerning (p : pair) (st : state) : state :=
  mkState (bucket st) (pairs_unprocessed st) (pairs_processed st)
          (reference_groups st) (groups st) (dict_del (kerning st) p)
          (grouped_left st) (grouped_right st) (exceptionPairs st)
          (RTLexceptionPairs st) (group_order st).

Definition set_grouped (l r : list string) (st : state) : state :=
  mkState (bucket st) (pairs_unprocessed st) (pairs_processed st)
          (reference_groups st) (groups st) (kerning st)
          (Some l) (Some r) (exceptionPairs st) (RTLexceptionPairs st)
          (group_order st).

Definition set_exceptionPairs (e r : list pair) (st : state) : state :=
  mkState (bucket st) (pairs_unprocessed st) (pairs_processed st)
          (reference_groups st) (groups st) (kerning st)
          (grouped_left st) (grouped_right st) (Some e) (Some r)
          (group_order st).

Definition set_group_order (o : list string) (st : state) : state :=
  mkState (bucket st) (pairs_unprocessed st) (pairs_processed st)
          (reference_groups st) (groups st) (kerning st)
          (grouped_left st) (grouped_right st) (exceptionPairs st)
          (RTLexceptionPairs st) (Some o).

(** The attributes as the first lines of [__init__] leave them, with
    [self.reference_groups], [self.groups] and [self.kerning] as given. *)
Definition new_state (reference_groups groups : dict string (list string))
           (kerning : dict pair value) : state :=
  mkState (fun _ _ => []) [] [] reference_groups groups kerning
          None None None None None.

(** [split_head sep s] is [s.split(sep)[0]]. *)
Fixpoint split_head (sep : ascii) (s : string) : string :=
  match s with
  | EmptyString => EmptyString
  | String c s' =>
      if Ascii.eqb c sep then EmptyString else String c (split_head sep s')
  end.

(** [itemName[0]] raises [IndexError] on the empty string. *)
Definition _isGroup (itemName : string) : result bool :=
  match itemName with
  | EmptyString => Raise IndexError
  | String c _ =>
      if Ascii.eqb c "@" then Ok true
      else if String.eqb (split_head "." itemName) "public" then Ok true
      else Ok false
  end.

Definition _isKerningGroup (groupName : string) : bool :=
  if startswith "@MMK_" groupName then true
  else if startswith "public.kern" groupName then true
  else false.

Definition RTLkerningTags : list string := [tag_ara; tag_heb; tag_RTL].

Definition _isRTL (reference_groups : dict string (list string)) (p : pair)
  : bool :=
  let RTLGlyphs := dict_get_default reference_groups group_RTL [] in
  if mem (fst p) RTLGlyphs || mem (snd p) RTLGlyphs then true
  else existsb
         (fun tag => contains tag (fst p) || contains tag (snd p))
         RTLkerningTags.

Definition _isRTLGroup (groupName : string) : bool :=
  existsb (fun tag => contains tag groupName) RTLkerningTags.

(** The names are looked up once the set of kerned items is complete; an
    empty item name makes [_isGroup] raise whatever the order of the set. *)
Definition sanitize_kerning (groups : dict string (list string))
           (kerning : dict pair value) : result (dict pair value) :=
  let all_pairs := dict_keys kerning in
  let all_kerned_items :=
    to_set (flat_map (fun p : pair => [fst p; snd p]) all_pairs) in
  all_kerned_groups <- filter_r _isGroup all_kerned_items ;;
  let bad_groups :=
    filter (fun g => negb (dict_mem groups g)) (to_set all_kerned_groups) in
  Ok (filter
        (fun pv : pair * value =>
           negb (mem (fst (fst pv)) bad_groups
                 || mem (snd (fst pv)) bad_groups))
        kerning).

Definition _remap_groups (groups : dict string (list string))
  : dict string (list string) :=
  fold_left
    (fun remapped_groups (gl : string * list string) =>
       dict_set remapped_groups (_remap_group_name (fst gl)) (snd gl))
    groups [].

Definition _remap_kerning (kerning : dict pair value) : dict pair value :=
  fold_left
    (fun remapped_kerning (pv : pair * value) =>
       let remapped_pair :=
         (_remap_group_name (fst (fst pv)), _remap_group_name (snd (fst pv)))
       in dict_set remapped_kerning remapped_pair (snd pv))
    kerning [].

Definition _get_used_groups (kerning : dict pair value)
  : result (list string) :=
  groupList <-
    for_each
      (fun groupList (p : pair) =>
         l <- _isGroup (fst p) ;;
         let groupList := if l then groupList ++ [fst p] else groupList in
         r <- _isGroup (snd p) ;;
         Ok (if r then groupList ++ [snd p] else groupList))
      (dict_keys kerning) [] ;;
  Ok (sorted_names (to_set groupList)).

(** [{g_name: groups.get(g_name) for g_name in used_group_names}].  A used
    group name is a key of [groups] ([sanitize_kerning] dropped the pairs of
    the others), so [groups.get] finds it: lemma [used_groups_defined]
    below.  Were it absent, the [None] stored here would make [len] in
    [_dissolveSingleGroups] or [extend] in [_getAllGroupedGlyphs] raise
    [TypeError] before any classification. *)
Definition used_groups_of (groups : dict string (list string))
           (used_group_names : list string)
  : result (dict string (list string)) :=
  for_each
    (fun used g_name =>
       match dict_get groups g_name with
       | Some glyph_list => Ok (dict_set used g_name glyph_list)
       | None => Raise TypeError
       end)
    used_group_names [].

Inductive side : Type := left | right.

(** Both lists are built whatever [side] is asked for. *)
Definition _getAllGroupedGlyphs (st : state) (s : side)
  : result (list string) :=
  let groupFilterList := dict_keys (groups st) in
  '(grouped_left, grouped_right) <-
    for_each
      (fun (acc : list string * list string) (p : pair) =>
         l <- _isGroup (fst p) ;;
         grouped_left <-
           (if l && mem (fst p) groupFilterList then
              match dict_get (groups st) (fst p) with
              | Some glyphs => Ok (fst acc ++ glyphs)
              | None => Raise TypeError
              end
            else Ok (fst acc)) ;;
         r <- _isGroup (snd p) ;;
         grouped_right <-
           (if r && mem (snd p) groupFilterList then
              match dict_get (groups st) (snd p) with
              | Some glyphs => Ok (snd acc ++ glyphs)
              | None => Raise TypeError
              end
            else Ok (snd acc)) ;;
         Ok (grouped_left, grouped_right))
      (dict_keys (kerning st)) ([], []) ;;
  match s with
  | left => Ok (sorted_names (to_set grouped_left))
  | right => Ok (sorted_names (to_set grouped_right))
  end.

(** The body of the loop of [_getAllGroupedGlyphs], by name. *)
Definition grouped_body (st : state) (acc : list string * list string)
           (p : pair) : result (list string * list string) :=
  l <- _isGroup (fst p) ;;
  grouped_left <-
    (if l && mem (fst p) (dict_keys (groups st)) then
       match dict_get (groups st) (fst p) with
       | Some glyphs => Ok (fst acc ++ glyphs)
       | None => Raise TypeError
       end
     else Ok (fst acc)) ;;
  r <- _isGroup (snd p) ;;
  grouped_right <-
    (if r && mem (snd p) (dict_keys (groups st)) then
       match dict_get (groups st) (snd p) with
       | Some glyphs => Ok (snd acc ++ glyphs)
       | None => Raise TypeError
       end
     else Ok (snd acc)) ;;
  Ok (grouped_left, grouped_right).

(** [singleGroups.get(item, [item])[0]] *)
Definition dissolved_item (singleGroups : dict string (list string))
           (item : string) : string :=
  hd item (dict_get_default singleGroups item [item]).

(** The dictionary [singleGroups] of [_dissolveSingleGroups]. *)
Definition singleGroups_of (groups : dict string (list string))
  : dict string (list string) :=
  filter
    (fun gl : string * list string =>
       Nat.eqb (List.length (snd gl)) 1 && negb (_isRTLGroup (fst gl)))
    groups.

(** The key under which [_dissolveSingleGroups] stores a pair. *)
Definition dissolved_pair (singleGroups : dict string (list string))
           (p : pair) : pair :=
  (dissolved_item singleGroups (fst p), dissolved_item singleGroups (snd p)).

Definition _dissolveSingleGroups (groups : dict string (list string))
           (kerning : dict pair value)
  : dict string (list string) * dict pair value :=
  let singleGroups := singleGroups_of groups in
  match singleGroups with
  | _ :: _ =>
      let dissolvedKerning :=
        fold_left
          (fun dissolvedKerning (pv : pair * value) =>
             dict_set dissolvedKerning
                      (dissolved_pair singleGroups (fst pv)) (snd pv))
          kerning [] in
      let remainingGroups :=
        filter
          (fun gl : string * list string =>
             negb (dict_mem singleGroups (fst gl)))
          groups in
      (remainingGroups, dissolvedKerning)
  | [] => (groups, kerning)
  end.

(** [_sanityCheck] only prints; the result is [None] when nothing is
    printed, and otherwise the three numbers of the message: pairs
    provided, entries generated, pairs not processed. *)
Definition _sanityCheck (st : state) : option (Z * Z * Z) :=
  let num_pairs_total := Z.of_nat (List.length (dict_keys (kerning st))) in
  let num_pairs_processed := Z.of_nat (List.length (pairs_processed st)) in
  let num_pairs_unprocessed :=
    Z.of_nat (List.length (pairs_unprocessed st)) in
  if negb (Z.eqb num_pairs_total
                 (num_pairs_processed + num_pairs_unprocessed))
  then Some (num_pairs_total,
             num_pairs_processed + num_pairs_unprocessed,
             num_pairs_total
             - (num_pairs_processed + num_pairs_unprocessed))%Z
  else None.

Definition _explode (leftGlyphList rightGlyphList : list string)
  : list pair :=
  list_prod leftGlyphList rightGlyphList.

(** Both items of the pair are glyph names: [_isGroup] returns [False]. *)
Definition glyph_pair (p : pair) : Prop :=
  _isGroup (fst p) = Ok false /\ _isGroup (snd p) = Ok false.

(** *** [_findExceptions] *)

(** First loop: the pairs are visited in reverse order of
    [self.kerning.keys()]; an ignored pair is deleted, a pre-defined
    exception is moved to [self.predefined_exceptions]. *)
(** [tag_ignore in pair[0]] *)
Definition ignored (p : pair) : bool := contains tag_ignore (fst p).

(** [any([tag_exception in item for item in pair])] *)
Definition predefined (p : pair) : bool :=
  contains tag_exception (fst p) || contains tag_exception (snd p).

Definition strip_step (st : state) (p : pair) : result state :=
  if ignored p then Ok (del_kerning p st)
  else if predefined p then
    v <- getitem (kerning st) p ;;
    Ok (del_kerning p (put LTR predefined_exceptions p v st))
  else Ok st.

(** The pairs the first loop deletes, and those it moves to
    [self.predefined_exceptions]. *)
Definition stripped (p : pair) : bool := ignored p || predefined p.
Definition moved (p : pair) : bool := negb (ignored p) && predefined p.

Definition strip_pairs (st : state) : result state :=
  for_each strip_step (rev (dict_keys (kerning st))) st.

(** The three comprehensions over [self.kerning.keys()]; [and] does not
    evaluate its second operand when the first is false. *)
Definition is_glyph_2_glyph (p : pair) : result bool :=
  l <- _isGroup (fst p) ;;
  if negb l then r <- _isGroup (snd p) ;; Ok (negb r) else Ok false.

Definition is_glyph_2_group (p : pair) : result bool :=
  l <- _isGroup (fst p) ;;
  if negb l then _isGroup (snd p) else Ok false.

Definition is_group_2_item (p : pair) : result bool := _isGroup (fst p).

Definition dir_of (isRTLpair : bool) : direction :=
  if isRTLpair then RTL else LTR.

(** Body of [for groupedGlyph in groupList]; the loop variable [value] of
    the enclosing loop is assigned here. *)
Definition member_step (glyph_2_glyph : list pair) (isRTLpair : bool)
           (glyph : string) (acc : value * state) (groupedGlyph : string)
  : result (value * state) :=
  let x_pair : pair := (glyph, groupedGlyph) in
  if mem x_pair glyph_2_glyph then
    value <- getitem (kerning (snd acc)) x_pair ;;
    Ok (value, put (dir_of isRTLpair) glyph_glyph_exceptions x_pair value
                   (snd acc))
  else Ok acc.

(** Body of [for (glyph, group) in glyph_2_group].  The inner [for] has no
    [break], so its [else] clause always runs after it. *)
Definition glyph_group_step (glyph_2_glyph : list pair) (st : state)
           (p : pair) : result state :=
  let glyph := fst p in
  let group := snd p in
  let pair := (glyph, group) in
  value <- getitem (kerning st) pair ;;
  groupList <- getitem (groups st) group ;;
  let isRTLpair := _isRTL (reference_groups st) pair in
  grouped_left <- attr (grouped_left st) ;;
  if mem glyph grouped_left then
    Ok (append_processed pair
          (put (dir_of isRTLpair) glyph_group_exceptions pair value st))
  else
    '(value, st) <-
      for_each (member_step glyph_2_glyph isRTLpair glyph) groupList
               (value, st) ;;
    if is_zero value then Ok (append_unprocessed pair st)
    else
      Ok (append_processed pair
            (put (dir_of isRTLpair) glyph_group pair value st)).

Definition glyph_group_pass (glyph_2_glyph glyph_2_group : list pair)
           (st : state) : result state :=
  for_each (glyph_group_step glyph_2_glyph) glyph_2_group st.

(** Body of [for (leftGroup, rightItem) in group_2_item]; the loop state
    is [self] with [explodedPairList] and [RTLexplodedPairList]. *)
Definition group_item_step (acc : state * list pair * list pair) (p : pair)
  : result (state * list pair * list pair) :=
  let '(st, explodedPairList, RTLexplodedPairList) := acc in
  let leftGroup := fst p in
  let rightItem := snd p in
  let pair := (leftGroup, rightItem) in
  value <- getitem (kerning st) pair ;;
  let isRTLpair := _isRTL (reference_groups st) pair in
  l_group_glyphs <- getitem (groups st) leftGroup ;;
  right_is_group <- _isGroup rightItem ;;
  (* [None] stands for the [continue] of the exception branch. *)
  r_group_glyphs <-
    (if right_is_group then
       r <- getitem (groups st) rightItem ;; Ok (st, Some r)
     else
       grouped_right <- attr (grouped_right st) ;;
       if mem rightItem grouped_right then
         if isRTLpair then
           Ok (put RTL group_glyph_exceptions pair value st, None)
         else
           Ok (append_processed pair
                 (put LTR group_glyph_exceptions pair value st), None)
       else Ok (st, Some [rightItem])) ;;
  match r_group_glyphs with
  | (st, None) => Ok (st, explodedPairList, RTLexplodedPairList)
  | (st, Some r_group_glyphs) =>
      if is_zero value then
        Ok (append_unprocessed pair st, explodedPairList,
            RTLexplodedPairList)
      else if isRTLpair then
        Ok (append_processed pair (put RTL group_group pair value st),
            explodedPairList,
            RTLexplodedPairList ++ _explode l_group_glyphs r_group_glyphs)
      else
        Ok (append_processed pair (put LTR group_group pair value st),
            explodedPairList ++ _explode l_group_glyphs r_group_glyphs,
            RTLexplodedPairList)
  end.

Definition group_item_pass (group_2_item : list pair) (st : state)
  : result (state * list pair * list pair) :=
  for_each group_item_step group_2_item (st, [], []).

(** [set(explodedPairList) & set(glyph_2_glyph)], then the two loops over
    the intersections.  The order in which Python visits a set is not
    fixed; the pairs are distinct keys, so only the order of the keys
    inside the two dictionaries depends on it. *)
Definition exception_pairs_pass (glyph_2_glyph : list pair)
           (explodedPairList RTLexplodedPairList : list pair) (st : state)
  : result state :=
  let exceptionPairs :=
    filter (fun p => mem p glyph_2_glyph) (to_set explodedPairList) in
  let RTLexceptionPairs :=
    filter (fun p => mem p glyph_2_glyph) (to_set RTLexplodedPairList) in
  let st := set_exceptionPairs exceptionPairs RTLexceptionPairs st in
  st <-
    for_each
      (fun st p =>
         v <- getitem (kerning st) p ;;
         Ok (put LTR glyph_glyph_exceptions p v st))
      exceptionPairs st ;;
  for_each
    (fun st p =>
       v <- getitem (kerning st) p ;;
       Ok (put RTL glyph_glyph_exceptions p v st))
    RTLexceptionPairs st.

(** Body of [for glyph_1, glyph_2 in glyph_2_glyph]; the list given to
    [any] is built in full, so both attributes are read. *)
Definition glyph_glyph_step (st : state) (p : pair) : result state :=
  let glyph_1 := fst p in
  let glyph_2 := snd p in
  let pair := (glyph_1, glyph_2) in
  value <- getitem (kerning st) pair ;;
  grouped_left <- attr (grouped_left st) ;;
  grouped_right <- attr (grouped_right st) ;;
  st <-
    (if mem glyph_1 grouped_left || mem glyph_2 grouped_right then
       Ok (put (dir_of (_isRTL (reference_groups st) pair))
               glyph_glyph_exceptions pair value st)
     else if negb (dict_mem (bucket st LTR glyph_glyph_exceptions) pair)
             && negb (dict_mem (bucket st RTL glyph_glyph_exceptions) pair)
     then
       v <- getitem (kerning st) pair ;;
       Ok (put (dir_of (_isRTL (reference_groups st) pair))
               glyph_glyph pair v st)
     else Ok st) ;;
  Ok (append_processed pair st).

Definition glyph_glyph_pass (glyph_2_glyph : list pair) (st : state)
  : result state :=
  for_each glyph_glyph_step glyph_2_glyph st.

Definition _findExceptions (st : state) : result state :=
  st <- strip_pairs st ;;
  glyph_2_glyph <- filter_r is_glyph_2_glyph (dict_keys (kerning st)) ;;
  let glyph_2_glyph := sorted_pairs glyph_2_glyph in
  glyph_2_group <- filter_r is_glyph_2_group (dict_keys (kerning st)) ;;
  let glyph_2_group := sorted_pairs glyph_2_group in
  group_2_item <- filter_r is_group_2_item (dict_keys (kerning st)) ;;
  let group_2_item := sorted_pairs group_2_item in
  st <- glyph_group_pass glyph_2_glyph glyph_2_group st ;;
  '(st, explodedPairList, RTLexplodedPairList) <-
    group_item_pass group_2_item st ;;
  st <- exception_pairs_pass glyph_2_glyph explodedPairList
                             RTLexplodedPairList st ;;
  glyph_glyph_pass glyph_2_glyph st.

(** Two states with the same groups, reference groups and grouped
    glyphs. *)
Definition same_context (st st' : state) : Prop :=
  groups st' = groups st /\
  reference_groups st' = reference_groups st /\
  grouped_left st' = grouped_left st /\
  grouped_right st' = grouped_right st.

(** Two states with the same kerning, context and pre-defined exceptions:
    what the passes after the first loop leave alone. *)
Definition keeps_inputs (st st' : state) : Prop :=
  kerning st' = kerning st /\
  same_context st st' /\
  (forall d, bucket st' d predefined_exceptions
             = bucket st d predefined_exceptions).

(** The state is the one of a run with this kerning, these groups,
    reference groups and grouped glyphs. *)
Definition in_context (K : dict pair value)
           (G R : dict string (list string)) (gl gr : list string)
           (st : state) : Prop :=
  kerning st = K /\ groups st = G /\ reference_groups st = R /\
  grouped_left st = Some gl /\ grouped_right st = Some gr.

(** What the passes of [_findExceptions] guarantee of a pair [p] stored
    with value [v] in the dictionary of category [c] and direction [d]. *)
Definition entry_ok (K : dict pair value) (R : dict string (list string))
           (gl gr : list string) (d : direction) (c : category)
           (p : pair) (v : value) : Prop :=
  match c with
  | predefined_exceptions => True
  | glyph_glyph =>
      _isGroup (fst p) = Ok false /\ _isGroup (snd p) = Ok false /\
      mem (fst p) gl = false /\ mem (snd p) gr = false /\
      d = dir_of (_isRTL R p) /\ dict_get K p = Some v
  | glyph_glyph_exceptions =>
      _isGroup (fst p) = Ok false /\ _isGroup (snd p) = Ok false /\
      dict_get K p = Some v
  | glyph_group =>
      _isGroup (fst p) = Ok false /\ _isGroup (snd p) = Ok true /\
      mem (fst p) gl = false /\
      d = dir_of (_isRTL R p) /\ In p (dict_keys K)
  | glyph_group_exceptions =>
      _isGroup (fst p) = Ok false /\ _isGroup (snd p) = Ok true /\
      mem (fst p) gl = true /\
      d = dir_of (_isRTL R p) /\ dict_get K p = Some v
  | group_glyph_exceptions =>
      _isGroup (fst p) = Ok true /\ _isGroup (snd p) = Ok false /\
      mem (snd p) gr = true /\
      d = dir_of (_isRTL R p) /\ dict_get K p = Some v
  | group_group =>
      _isGroup (fst p) = Ok true /\
      (_isGroup (snd p) = Ok true \/
       (_isGroup (snd p) = Ok false /\ mem (snd p) gr = false)) /\
      d = dir_of (_isRTL R p) /\ dict_get K p = Some v /\
      is_zero v = false
  end.

Definition buckets_ok (K : dict pair value) (R : dict string (list string))
           (gl gr : list string) (st : state) : Prop :=
  forall d c p v, dict_get (bucket st d c) p = Some v ->
                  entry_ok K R gl gr d c p v.

(** The pairs of the list are keys of the kerning [K] and pairs of glyph
    names. *)
Definition glyph_pairs_of_kerning (K : dict pair value)
           (glyph_2_glyph : list pair) : Prop :=
  forall q, In q glyph_2_glyph ->
            dict_get K q <> None /\
            _isGroup (fst q) = Ok false /\ _isGroup (snd q) = Ok false.

(** The pairs the passes have put on one of the two lists. *)
Definition handled (st : state) : nat :=
  List.length (pairs_processed st) + List.length (pairs_unprocessed st).

(** The dictionaries selected by [F] are the same in both states. *)
Definition untouched (F : direction -> category -> bool) (st st' : state)
  : Prop :=
  forall d c, F d c = true -> bucket st' d c = bucket st d c.

(** [n] more pairs are on the lists, the dictionaries of [F] are as
    before. *)
Definition acts (n : nat) (F : direction -> category -> bool)
           (st st' : state) : Prop :=
  handled st' = handled st + n /\ untouched F st st'.

(** Every item of a pair of [K] has a name [_isGroup] answers for, and
    every group among them is a key of [G]. *)
Definition items_defined (G : dict string (list string))
           (K : dict pair value) : Prop :=
  forall p item,
    In p (dict_keys K) -> item = fst p \/ item = snd p ->
    exists b, _isGroup item = Ok b /\
              (b = true -> In item (dict_keys G)).

(** The states a state can become under the assignments the loops of
    [_findExceptions] make: storing a pair in a dictionary, appending a pair
    to one of the two lists, deleting a pair of the kerning, setting the
    two lists of exception pairs. *)
Inductive evolves (st : state) : state -> Prop :=
| evolves_refl : evolves st st
| evolves_put (s : state) (d : direction) (c : category) (p : pair)
              (v : value) :
    evolves st s -> evolves st (put d c p v s)
| evolves_processed (s : state) (p : pair) :
    evolves st s -> evolves st (append_processed p s)
| evolves_unprocessed (s : state) (p : pair) :
    evolves st s -> evolves st (append_unprocessed p s)
| evolves_del (s : state) (p : pair) :
    evolves st s -> evolves st (del_kerning p s)
| evolves_exceptionPairs (s : state) (e r : list pair) :
    evolves st s -> evolves st (set_exceptionPairs e r s).

(** The pair is stored in one of the dictionaries of the classification,
    or is on the list of unprocessed pairs. *)
Definition covered (st : state) (q : pair) : Prop :=
  (exists d c, c <> predefined_exceptions /\
               In q (dict_keys (bucket st d c))) \/
  In q (pairs_unprocessed st).

(** The glyphs on the right of a pair whose left item is a group:
    [r_group_glyphs] in [_findExceptions]. *)
Definition right_glyphs (st : state) (p : pair) (rg : list string) : Prop :=
  (_isGroup (snd p) = Ok true /\ dict_get (groups st) (snd p) = Some rg) \/
  (_isGroup (snd p) = Ok false /\ rg = [snd p]).

(** The list holds the glyph pairs of every pair stored as group to group
    on the side [d]. *)
Definition exploded (st : state) (d : direction) (l : list pair) : Prop :=
  forall p lg rg q,
    In p (dict_keys (bucket st d group_group)) ->
    dict_get (groups st) (fst p) = Some lg -> right_glyphs st p rg ->
    In q (_explode lg rg) -> In q l.

(** The unprocessed pairs are among the pairs [done] and in no dictionary
    of the classification; what the dictionaries hold is among [done] or a
    pair of glyph names. *)
Definition tidy (done : list pair) (st : state) : Prop :=
  (forall q, In q (pairs_unprocessed st) ->
             In q done /\
             forall d c, c <> predefined_exceptions ->
                         ~ In q (dict_keys (bucket st d c))) /\
  (forall d c q, c <> predefined_exceptions ->
                 In q (dict_keys (bucket st d c)) ->
                 In q done \/ glyph_pair q).

(** Every glyph-to-glyph exception has a glyph that is grouped on its
    side. *)
Definition exceptions_grouped (gl gr : list string) (st : state) : Prop :=
  forall d q,
    In q (dict_keys (bucket st d glyph_glyph_exceptions)) ->
    mem (fst q) gl = true \/ mem (snd q) gr = true.

(** The lists [gl] and [gr] hold the glyphs of the groups that stand on the
    left and on the right of the pairs of [K]. *)
Definition grouped_cover (K : dict pair value)
           (G : dict string (list string)) (gl gr : list string) : Prop :=
  (forall p glyphs x,
      In p (dict_keys K) -> _isGroup (fst p) = Ok true ->
      dict_get G (fst p) = Some glyphs -> In x glyphs -> mem x gl = true) /\
  (forall p glyphs x,
      In p (dict_keys K) -> _isGroup (snd p) = Ok true ->
      dict_get G (snd p) = Some glyphs -> In x glyphs -> mem x gr = true).

(** The pair is on one of the two lists, or is an RTL exception of a
    group against a glyph. *)
Definition accounted (st : state) (q : pair) : Prop :=
  In q (pairs_processed st) \/ In q (pairs_unprocessed st) \/
  In q (dict_keys (bucket st RTL group_glyph_exceptions)).

(** The pair is stored in a dictionary of the classification other than
    [rtl_group_glyph_exceptions]. *)
Definition placed (st : state) (q : pair) : Prop :=
  exists d c,
    c <> predefined_exceptions /\
    ~ (d = RTL /\ c = group_glyph_exceptions) /\
    In q (dict_keys (bucket st d c)).

(** What a step adds to [pairs_processed]: nothing, or its own pair, which
    is then stored. *)
Definition processed_step (st st' : state) (p : pair) : Prop :=
  evolves st st' /\ accounted st' p /\
  forall q, In q (pairs_processed st') ->
            In q (pairs_processed st) \/ (q = p /\ placed st' p).

(** *** [__init__] *)

(** The object [__init__] leaves, or the exception it raises.  Its last
    call, [self._sanityCheck()], only prints: see [_sanityCheck]. *)
Definition __init__ (groups : dict string (list string))
           (kerning : dict pair value) (option_dissolve : bool)
  : result state :=
  let reference_groups :=
    filter (fun gl : string * list string => negb (_isKerningGroup (fst gl)))
           groups in
  sanitized_kerning <- sanitize_kerning groups kerning ;;
  used_group_names <- _get_used_groups sanitized_kerning ;;
  used_groups <- used_groups_of groups used_group_names ;;
  let st :=
    match used_groups, option_dissolve with
    | _ :: _, true =>
        let '(dissolved_groups, dissolved_kerning) :=
          _dissolveSingleGroups used_groups sanitized_kerning in
        new_state reference_groups (_remap_groups dissolved_groups)
                  (_remap_kerning dissolved_kerning)
    | _, _ =>
        new_state reference_groups (_remap_groups used_groups)
                  (_remap_kerning sanitized_kerning)
    end in
  st <-
    match used_groups with
    | _ :: _ =>
        l <- _getAllGroupedGlyphs st left ;;
        r <- _getAllGroupedGlyphs st right ;;
        Ok (set_grouped l r st)
    | [] => Ok st
    end ;;
  st <- _findExceptions st ;;
  match KernProcessor.kerning st with
  | _ :: _ =>
      Ok (set_group_order
            (sorted_names (dict_keys (KernProcessor.groups st))) st)
  | [] => Ok st
  end.

End KernProcessor.

(* ------------------------------------------------------------------ *)
(** ** [class MakeMeasuredSubtables] *)

Module MakeMeasuredSubtables.

(** [groups.get(item, [item])] *)
Definition expand (groups : dict string (list string)) (item : string)
  : list string :=
  dict_get_default groups item [item].

Definition _getNumberOfKernedGlyphs (kerning : dict pair value)
           (groups : dict string (list string)) : nat :=
  let lists :=
    fold_left
      (fun (acc : list string * list string) (p : pair) =>
         (fst acc ++ expand groups (fst p), snd acc ++ expand groups (snd p)))
      (dict_keys kerning) ([], []) in
  let allKernedGlyphs := set_update (to_set (fst lists)) (to_set (snd lists)) in
  List.length allKernedGlyphs.

(** The local variables of [__init__] that its main loop assigns.
    [sizes] holds [subtableMetadataSize] and [subtable_size], which are
    unbound until the inner loop has run once. *)
Record locals : Type := mkLocals {
  measuredSubtables : list (list string);
  subtable : list string;
  groupedGlyphsLeft : list string;
  groupedGlyphsRight : list string;
  usedGroupsLeft : list string;
  usedGroupsRight : list string;
  sizes : option (Z * Z)
}.

(** Body of [for left, right in itemPair]. *)
Definition absorb_pair (groups : dict string (list string))
           (coverageTableSize : Z) (v : locals) (p : pair) : locals :=
  let groupedGlyphsLeft :=
    set_update (groupedGlyphsLeft v) (expand groups (fst p)) in
  let groupedGlyphsRight :=
    set_update (groupedGlyphsRight v) (expand groups (snd p)) in
  let usedGroupsLeft := set_add (usedGroupsLeft v) (fst p) in
  let usedGroupsRight := set_add (usedGroupsRight v) (snd p) in
  let leftClassSize := (6 + 2 * Z.of_nat (List.length groupedGlyphsLeft))%Z in
  let rightClassSize :=
    (6 + 2 * Z.of_nat (List.length groupedGlyphsRight))%Z in
  let subtableMetadataSize :=
    (coverageTableSize + leftClassSize + rightClassSize)%Z in
  let subtable_size :=
    (16 + Z.of_nat (List.length usedGroupsLeft)
          * Z.of_nat (List.length usedGroupsRight) * 2)%Z in
  mkLocals (measuredSubtables v) (subtable v)
           groupedGlyphsLeft groupedGlyphsRight usedGroupsLeft
           usedGroupsRight (Some (subtableMetadataSize, subtable_size)).

(** The shape of the locals once an empty subtable has been closed and
    [item] has opened the next one: either that one is still open, or it is
    closed and a later, non-empty one is open. *)
Definition after_first (item : string) (v : locals) : Prop :=
  exists l,
    (measuredSubtables v = [[]] /\ subtable v = item :: l) \/
    (exists more, measuredSubtables v = [] :: (item :: l) :: more /\
                  subtable v <> []).

(** [[pair for pair in self.kernDict.keys() if pair[0] == item]] *)
Definition pairs_of (kernDict : dict pair value) (item : string)
  : list pair :=
  filter (fun p : pair => String.eqb (fst p) item) (dict_keys kernDict).

(** Body of [for item in leftItems]. *)
Definition measure_item (kernDict : dict pair value)
           (groups : dict string (list string))
           (coverageTableSize maxSubtableSize : Z)
           (v : locals) (item : string) : result locals :=
  let itemPair := pairs_of kernDict item in
  let v := fold_left (absorb_pair groups coverageTableSize) itemPair v in
  match sizes v with
  | None => Raise UnboundLocalError
  | Some (subtableMetadataSize, subtable_size) =>
      if (subtableMetadataSize + subtable_size <? maxSubtableSize)%Z then
        Ok (mkLocals (measuredSubtables v) (subtable v ++ [item])
                     (groupedGlyphsLeft v) (groupedGlyphsRight v)
                     (usedGroupsLeft v) (usedGroupsRight v) (sizes v))
      else
        Ok (mkLocals (measuredSubtables v ++ [subtable v]) [item]
                     [] [] [] [] (sizes v))
  end.

Definition leftItems (kernDict : dict pair value) : list string :=
  sorted_names (to_set (map fst (dict_keys kernDict))).

(** The list [measuredSubtables] when the main loop and the
    "last subtable" test are done. *)
Definition measure (kernDict kerning : dict pair value)
           (groups : dict string (list string)) (maxSubtableSize : Z)
  : result (list (list string)) :=
  let numberOfKernedGlyphs := _getNumberOfKernedGlyphs kerning groups in
  let coverageTableSize := (2 + 2 * Z.of_nat numberOfKernedGlyphs)%Z in
  v <- for_each
         (measure_item kernDict groups coverageTableSize maxSubtableSize)
         (leftItems kernDict)
         (mkLocals [] [] [] [] [] [] None) ;;
  match subtable v with
  | _ :: _ => Ok (measuredSubtables v ++ [subtable v])
  | [] => Ok (measuredSubtables v)
  end.

(** The dictionary [stDict] of one list of left items; a pair absent from
    [kerning] gets [kerning.get(pair)], that is [None]. *)
Definition stDict_of (kernDict kerning : dict pair value)
           (leftItemList : list string) : dict pair (option value) :=
  fold_left
    (fun stDict leftItem =>
       fold_left
         (fun stDict pair => dict_set stDict pair (dict_get kerning pair))
         (pairs_of kernDict leftItem) stDict)
    leftItemList [].

(** The entries a subtable is expected to hold for a list of left items:
    their pairs, in the order of [kernDict], each with [kerning.get(pair)]. *)
Definition entries_of (kernDict kerning : dict pair value)
           (leftItemList : list string) : dict pair (option value) :=
  map (fun p => (p, dict_get kerning p))
      (flat_map (pairs_of kernDict) leftItemList).

(** [self.subtables] after [__init__]. *)
Definition __init__ (kernDict kerning : dict pair value)
           (groups : dict string (list string)) (maxSubtableSize : Z)
  : result (list (dict pair (option value))) :=
  measuredSubtables <- measure kernDict kerning groups maxSubtableSize ;;
  Ok (map (stDict_of kernDict kerning) measuredSubtables).

(** The estimate compared with [maxSubtableSize] after the pairs of the
    first left item have been absorbed into empty accumulators. *)
Definition first_item_cost (kernDict kerning : dict pair value)
           (groups : dict string (list string)) (item : string) : Z :=
  let coverageTableSize :=
    (2 + 2 * Z.of_nat (_getNumberOfKernedGlyphs kerning groups))%Z in
  let v := fold_left (absorb_pair groups coverageTableSize)
                     (pairs_of kernDict item)
                     (mkLocals [] [] [] [] [] [] None) in
  match sizes v with
  | Some (subtableMetadataSize, subtable_size) =>
      (subtableMetadataSize + subtable_size)%Z
  | None => 0%Z
  end.

(** The sum compared with [maxSubtableSize], as the locals hold it. *)
Definition cost (v : locals) : Z :=
  match sizes v with
  | Some (subtableMetadataSize, subtable_size) =>
      (subtableMetadataSize + subtable_size)%Z
  | None => 0%Z
  end.

(** The estimate once the pairs of every left item have been absorbed into
    accumulators that were never reset. *)
Definition whole_cost (kernDict kerning : dict pair value)
           (groups : dict string (list string)) : Z :=
  let coverageTableSize :=
    (2 + 2 * Z.of_nat (_getNumberOfKernedGlyphs kerning groups))%Z in
  cost (fold_left (absorb_pair groups coverageTableSize)
                  (flat_map (pairs_of kernDict) (leftItems kernDict))
                  (mkLocals [] [] [] [] [] [] None)).

(** The locals with [subtable] replaced. *)
Definition with_subtable (t : list string) (v : locals) : locals :=
  mkLocals (measuredSubtables v) t (groupedGlyphsLeft v)
           (groupedGlyphsRight v) (usedGroupsLeft v) (usedGroupsRight v)
           (sizes v).

(** The two sizes are those of the accumulators. *)
Definition measured_ok (coverageTableSize : Z) (v : locals) : Prop :=
  sizes v
  = Some ((coverageTableSize
           + (6 + 2 * Z.of_nat (List.length (groupedGlyphsLeft v)))
           + (6 + 2 * Z.of_nat (List.length (groupedGlyphsRight v))))%Z,
          (16 + Z.of_nat (List.length (usedGroupsLeft v))
                * Z.of_nat (List.length (usedGroupsRight v)) * 2)%Z).

End MakeMeasuredSubtables.

(* ------------------------------------------------------------------ *)
(** ** [class run]: rendering of the dictionaries *)

Module run.

(** A line of the feature file: ['pos <left> <right> <value>;'], the same
    after ['enum '], or the same after ['# ']. *)
Inductive line : Type :=
| pos (p : pair) (valueString : value)
| enum (l : line)
| hash (l : line).

(** Body of the loop of [_dict2pos] for [RTL=False] ([valueString] is then
    the value itself); [acc] is [data] with [trimmed].  [abs] of the string
    of a Multiple Master value raises [TypeError]. *)
Definition dict2pos_step (MM write_trimmed_pairs : bool) (minimum : Z)
           (enum_ : bool) (acc : list line * Z) (pv : pair * value)
  : result (list line * Z) :=
  let '(data, trimmed) := acc in
  let kernValue := snd pv in
  let posLine := pos (fst pv) (snd pv) in
  let enumLine := enum posLine in
  if MM then
    if enum_ then Ok (data ++ [enumLine], trimmed)
    else Ok (data ++ [posLine], trimmed)
  else if enum_ then Ok (data ++ [enumLine], trimmed)
  else
    match kernValue with
    | VInt z =>
        if (Z.abs z <? minimum)%Z then
          Ok (if write_trimmed_pairs then data ++ [hash posLine] else data,
              (trimmed + 1)%Z)
        else Ok (data ++ [posLine], trimmed)
    | VMaster _ => Raise TypeError
    end.

(** [_dict2pos] for [RTL=False].  The result is the list [data] as it is
    before [data.sort()] and the joining into one string, with the number
    added to [self.trimmedPairs]. *)
Definition _dict2pos (MM write_trimmed_pairs : bool)
           (pairValueDict : dict pair value) (minimum : Z) (enum_ : bool)
  : result (list line * Z) :=
  for_each (dict2pos_step MM write_trimmed_pairs minimum enum_)
           pairValueDict ([], 0%Z).


(** ['%s = [%s];' % (groupName, ' '.join(glyphList))] *)
Definition group_line (groupName : string) (glyphList : list string)
  : string :=
  (groupName ++ " = [" ++ String.concat " " glyphList ++ "];")%string.

(** The first loop of [_makeOutputData], over [kp.group_order]: the lines
    it appends to [output].  A group without glyphs gets a warning and no
    line. *)
Definition group_lines (kp : KernProcessor.state) : result (list string) :=
  group_order <- attr (KernProcessor.group_order kp) ;;
  for_each
    (fun output groupName =>
       glyphList <- getitem (KernProcessor.groups kp) groupName ;;
       match glyphList with
       | [] => Ok output
       | _ :: _ => Ok (output ++ [group_line groupName glyphList])
       end)
    group_order [].

(** [self.subtablesCreated] and [self.RTLsubtablesCreated]. *)
Record counters : Type := mkCounters {
  subtablesCreated : Z;
  RTLsubtablesCreated : Z
}.

(** ['\nsubtable;'] *)
Definition subtableBreak : string := String "010" "subtable;".

Section BuildSubtableOutput.
(** What else of [self] a call of [_dict2pos] reads and changes
    ([self.trimmedPairs]), and the call [self._dict2pos(table, self.minKern,
    RTL=RTL)] on a subtable, whose values are what [kerning.get] gave. *)
Variable S : Type.
Variable dict2pos :
  dict pair (option value) -> bool -> S -> result (string * S).

(** Body of [for table in subtableList]. *)
Definition build_step (RTL : bool) (acc : list string * counters * S)
           (table : dict pair (option value))
  : result (list string * counters * S) :=
  let '(subtableOutput, created, s) := acc in
  match table with
  | [] => Ok acc
  | _ :: _ =>
      let created :=
        if RTL then
          mkCounters (subtablesCreated created)
                     (RTLsubtablesCreated created + 1)%Z
        else
          mkCounters (subtablesCreated created + 1)%Z
                     (RTLsubtablesCreated created) in
      let n :=
        if RTL then RTLsubtablesCreated created
        else subtablesCreated created in
      let subtableOutput :=
        if (1 <? n)%Z then subtableOutput ++ [subtableBreak]
        else subtableOutput in
      '(text, s) <- dict2pos table RTL s ;;
      Ok (subtableOutput ++ [text], created, s)
  end.

(** The list returned, with the counters and the rest of [self] as the
    method leaves them. *)
Definition _buildSubtableOutput
           (subtableList : list (dict pair (option value))) (comment : string)
           (RTL : bool) (created : counters) (s : S)
  : result (list string * counters * S) :=
  let total :=
    fold_right Z.add 0%Z
               (map (fun subtable : dict pair (option value) =>
                       Z.of_nat (List.length (dict_keys subtable)))
                    subtableList) in
  let subtableOutput := if (0 <? total)%Z then [comment] else [] in
  for_each (build_step RTL) subtableList (subtableOutput, created, s).
End BuildSubtableOutput.

End run.

(* ================================================================== *)
(** * Properties *)

(* ------------------------------------------------------------------ *)
(** ** The exception monad and its loops *)

(** A loop whose body preserves an invariant and cannot raise under it
    ends, and the invariant holds at its end. *)
Lemma for_each_invariant {A S : Type} (body : S -> A -> result S)
      (Inv : S -> Prop) (l : list A) :
  (forall s a, In a l -> Inv s -> exists s', body s a = Ok s' /\ Inv s') ->
  forall s, Inv s -> exists s', for_each body l s = Ok s' /\ Inv s'.
Proof.
  induction l as [|a l IH]; intros Hbody s Hs; cbn.
  - eauto.
  - destruct (Hbody s a (or_introl eq_refl) Hs) as (s1 & -> & Hs1). cbn.
    apply IH; [|assumption]. intros s2 b Hb. apply Hbody. now right.
Qed.

Lemma find_app_last {A : Type} (f : A -> bool) (l : list A) (a : A) :
  find f (l ++ [a]) =
  match find f l with
  | Some x => Some x
  | None => if f a then Some a else None
  end.
Proof.
  induction l as [|x l IH]; cbn; [reflexivity|].
  destruct (f x); [reflexivity|exact IH].
Qed.

(** What holds of the state before a loop and is kept by every step that
    returns holds of the state the loop returns. *)
Lemma for_each_returned {A S : Type} (body : S -> A -> result S)
      (Inv : S -> Prop) (l : list A) :
  (forall s a s', In a l -> Inv s -> body s a = Ok s' -> Inv s') ->
  forall s s', Inv s -> for_each body l s = Ok s' -> Inv s'.
Proof.
  induction l as [|a l IH]; intros Hbody s s' Hs; cbn.
  - now intros [= <-].
  - destruct (body s a) as [s1|] eqn:E; cbn; [|discriminate].
    apply IH.
    + intros s2 b s3 Hb. apply Hbody. now right.
    + eapply Hbody; [now left|exact Hs|exact E].
Qed.

Lemma filter_r_returned {A : Type} (cond : A -> result bool) (l r : list A) :
  filter_r cond l = Ok r ->
  forall a, In a l -> cond a = Ok true -> In a r.
Proof.
  revert r. induction l as [|x l IH]; intros r; cbn; [intros _ a []|].
  destruct (cond x) as [b|] eqn:Ex; cbn; [|discriminate].
  destruct (filter_r cond l) as [r'|]; cbn; [|discriminate].
  intros [= <-] a [->|Ha] Hc.
  - rewrite Hc in Ex. injection Ex as <-. now left.
  - destruct b; [right|]; now apply (IH r').
Qed.

Lemma filter_r_total {A : Type} (cond : A -> result bool) (f : A -> bool)
      (l : list A) :
  (forall a, In a l -> cond a = Ok (f a)) ->
  filter_r cond l = Ok (filter f l).
Proof.
  induction l as [|a l IH]; intros Hc; cbn; [reflexivity|].
  rewrite (Hc a (or_introl eq_refl)). cbn.
  rewrite IH by (intros b Hb; apply Hc; now right). cbn.
  reflexivity.
Qed.

(* ------------------------------------------------------------------ *)
(** ** Lists used as sets, dictionaries *)

Section ContainerFacts.
Context {K : Type} `{Key K}.

Lemma key_eqb_refl (k : K) : key_eqb k k = true.
Proof. destruct (key_eqb_spec k k); congruence. Qed.

Lemma key_eqb_eq (a b : K) : key_eqb a b = true <-> a = b.
Proof. destruct (key_eqb_spec a b); split; congruence. Qed.

Lemma key_eqb_neq (a b : K) : key_eqb a b = false <-> a <> b.
Proof. destruct (key_eqb_spec a b); split; congruence. Qed.

Lemma mem_In (x : K) (l : list K) : mem x l = true <-> In x l.
Proof.
  unfold mem. rewrite existsb_exists. split.
  - intros (y & Hy & E). apply key_eqb_eq in E. now subst.
  - intros Hx. exists x. split; [assumption|apply key_eqb_refl].
Qed.

Lemma mem_cons (x a : K) (l : list K) :
  mem x (a :: l) = key_eqb x a || mem x l.
Proof. reflexivity. Qed.

Lemma mem_not_In (x : K) (l : list K) : mem x l = false <-> ~ In x l.
Proof.
  rewrite <- mem_In. destruct (mem x l); split; congruence.
Qed.

Lemma In_set_add (s : list K) (x y : K) :
  In y (set_add s x) <-> In y s \/ y = x.
Proof.
  unfold set_add. destruct (mem x s) eqn:E.
  - apply mem_In in E. split; [auto|]. intros [Hy| ->]; assumption.
  - rewrite in_app_iff. cbn. intuition congruence.
Qed.

Lemma NoDup_set_add (s : list K) (x : K) : NoDup s -> NoDup (set_add s x).
Proof.
  intros Hs. unfold set_add. destruct (mem x s) eqn:E; [assumption|].
  apply mem_not_In in E.
  apply NoDup_app; [assumption|repeat constructor; auto|].
  intros y Hy [<-|[]]. contradiction.
Qed.

Lemma In_set_update (l s : list K) (y : K) :
  In y (set_update s l) <-> In y s \/ In y l.
Proof.
  unfold set_update. revert s. induction l as [|x l IH]; intros s; cbn.
  - tauto.
  - rewrite IH, In_set_add. intuition congruence.
Qed.

Lemma NoDup_set_update (l s : list K) : NoDup s -> NoDup (set_update s l).
Proof.
  unfold set_update. revert s. induction l as [|x l IH]; intros s Hs; cbn.
  - assumption.
  - apply IH, NoDup_set_add, Hs.
Qed.

Lemma In_to_set (l : list K) (y : K) : In y (to_set l) <-> In y l.
Proof. unfold to_set. rewrite In_set_update. cbn. tauto. Qed.

Lemma NoDup_to_set (l : list K) : NoDup (to_set l).
Proof. apply NoDup_set_update. constructor. Qed.

Variable V : Type.
Implicit Types (d : dict K V) (k : K) (v : V).

Lemma dict_get_In d k v : dict_get d k = Some v -> In (k, v) d.
Proof.
  induction d as [|[k' v'] d IH]; cbn; [discriminate|].
  destruct (key_eqb_spec k k') as [->|Hne].
  - intros [= ->]. now left.
  - intros Hg. right. auto.
Qed.

Lemma dict_get_None d k : dict_get d k = None <-> ~ In k (dict_keys d).
Proof.
  induction d as [|[k' v'] d IH]; cbn; [tauto|].
  destruct (key_eqb_spec k k') as [->|Hne].
  - split; [discriminate|]. intros Hn. exfalso. apply Hn. now left.
  - rewrite IH. intuition congruence.
Qed.

Lemma dict_get_Some_key d k v :
  dict_get d k = Some v -> In k (dict_keys d).
Proof.
  intros Hg. apply dict_get_In in Hg.
  unfold dict_keys. apply in_map_iff. exists (k, v). auto.
Qed.

Lemma In_key_get d k :
  In k (dict_keys d) -> exists v, dict_get d k = Some v.
Proof.
  intros Hk. destruct (dict_get d k) as [v|] eqn:E; [eauto|].
  apply dict_get_None in E. contradiction.
Qed.

Lemma In_dict_get d k v : wf_dict d -> In (k, v) d -> dict_get d k = Some v.
Proof.
  unfold wf_dict. induction d as [|[k' v'] d IH]; cbn; [tauto|].
  intros Hnd [[= -> ->]|Hin].
  - now rewrite key_eqb_refl.
  - inversion Hnd as [|? ? Hk' Hnd']; subst.
    destruct (key_eqb_spec k k') as [->|Hne]; [|auto].
    exfalso. apply Hk'. unfold dict_keys. apply in_map_iff.
    exists (k', v). auto.
Qed.

Lemma dict_mem_In d k : dict_mem d k = true <-> In k (dict_keys d).
Proof.
  unfold dict_mem. destruct (dict_get d k) as [v|] eqn:E.
  - split; [|reflexivity]. intros _. eapply dict_get_Some_key, E.
  - apply dict_get_None in E. split; [discriminate|contradiction].
Qed.

Lemma dict_get_set d k v k' :
  dict_get (dict_set d k v) k' =
  if key_eqb k' k then Some v else dict_get d k'.
Proof.
  induction d as [|[k0 v0] d IH]; cbn.
  - reflexivity.
  - destruct (key_eqb_spec k k0) as [->|Hne]; cbn.
    + destruct (key_eqb k' k0); reflexivity.
    + rewrite IH. destruct (key_eqb_spec k' k0) as [->|Hne'].
      * destruct (key_eqb_spec k0 k); congruence.
      * reflexivity.
Qed.

Lemma dict_keys_set d k v :
  dict_keys (dict_set d k v) =
  if dict_mem d k then dict_keys d else dict_keys d ++ [k].
Proof.
  unfold dict_mem, dict_keys. induction d as [|[k0 v0] d IH]; cbn.
  - reflexivity.
  - destruct (key_eqb_spec k k0) as [->|Hne]; cbn.
    + reflexivity.
    + rewrite IH. destruct (dict_get d k); reflexivity.
Qed.

Lemma wf_dict_set d k v : wf_dict d -> wf_dict (dict_set d k v).
Proof.
  unfold wf_dict. intros Hd. rewrite dict_keys_set.
  destruct (dict_mem d k) eqn:E; [assumption|].
  apply NoDup_app; [assumption|repeat constructor; auto|].
  intros y Hy [<-|[]]. apply dict_mem_In in Hy. congruence.
Qed.

Lemma dict_get_del d k k' :
  dict_get (dict_del d k) k' =
  if key_eqb k k' then None else dict_get d k'.
Proof.
  unfold dict_del. induction d as [|[k0 v0] d IH]; cbn.
  - now destruct (key_eqb k k').
  - destruct (key_eqb_spec k k0) as [->|Hne]; cbn.
    + rewrite IH. destruct (key_eqb_spec k0 k') as [->|Hne'];
        [reflexivity|].
      destruct (key_eqb_spec k' k0); congruence.
    + rewrite IH. destruct (key_eqb_spec k' k0) as [->|Hne'];
        [|reflexivity].
      destruct (key_eqb_spec k k0); congruence.
Qed.

Lemma wf_dict_filter (f : K * V -> bool) d :
  wf_dict d -> wf_dict (filter f d).
Proof.
  unfold wf_dict, dict_keys. induction d as [|kv d IH]; cbn; [auto|].
  intros Hnd. inversion Hnd as [|? ? Hk Hnd']; subst.
  destruct (f kv); cbn; [|auto].
  constructor; [|auto]. intros Hin. apply Hk.
  apply in_map_iff in Hin as (x & Hx & Hin). apply filter_In in Hin.
  apply in_map_iff. exists x. tauto.
Qed.

(** A dictionary filled by a loop of assignments holds, at each key, the
    value of the last assignment to it. *)
Lemma dict_get_fold_set {A : Type} (key : A -> K) (val : A -> V)
      (l : list A) d k :
  dict_get (fold_left (fun d a => dict_set d (key a) (val a)) l d) k =
  match find (fun a => key_eqb k (key a)) (rev l) with
  | Some a => Some (val a)
  | None => dict_get d k
  end.
Proof.
  revert d. induction l as [|a l IH]; intros d; cbn; [reflexivity|].
  rewrite IH, find_app_last.
  destruct (find (fun a0 => key_eqb k (key a0)) (rev l)); [reflexivity|].
  rewrite dict_get_set. destruct (key_eqb k (key a)); reflexivity.
Qed.

Lemma wf_dict_fold_set {A : Type} (key : A -> K) (val : A -> V)
      (l : list A) d :
  wf_dict d ->
  wf_dict (fold_left (fun d a => dict_set d (key a) (val a)) l d).
Proof.
  revert d. induction l as [|a l IH]; intros d Hd; cbn; [assumption|].
  apply IH, wf_dict_set, Hd.
Qed.

Lemma dict_keys_fold_set {A : Type} (key : A -> K) (val : A -> V)
      (l : list A) d k :
  In k (dict_keys (fold_left (fun d a => dict_set d (key a) (val a)) l d))
  <-> In k (dict_keys d) \/ In k (map key l).
Proof.
  revert d. induction l as [|a l IH]; intros d; cbn [fold_left map In];
    [tauto|].
  rewrite IH, dict_keys_set.
  destruct (dict_mem d (key a)) eqn:E.
  - apply dict_mem_In in E. intuition congruence.
  - rewrite in_app_iff. cbn. intuition congruence.
Qed.
End ContainerFacts.

(* ------------------------------------------------------------------ *)
(** ** [sorted] *)

Section SortingFacts.
Variable A : Type.
Variable leb : A -> A -> bool.

Lemma insert_sorted_perm (x : A) (l : list A) :
  Permutation (insert_sorted leb x l) (x :: l).
Proof.
  induction l as [|y l IH]; cbn; [reflexivity|].
  destruct (leb x y); [reflexivity|].
  rewrite IH. apply perm_swap.
Qed.

Lemma sorted_perm (l : list A) : Permutation (sorted leb l) l.
Proof.
  unfold sorted. induction l as [|x l IH]; cbn; [reflexivity|].
  rewrite insert_sorted_perm. now constructor.
Qed.

Lemma In_sorted (l : list A) (x : A) : In x (sorted leb l) <-> In x l.
Proof.
  split; apply Permutation_in;
    [apply sorted_perm|apply Permutation_sym, sorted_perm].
Qed.

Lemma NoDup_sorted (l : list A) : NoDup l -> NoDup (sorted leb l).
Proof.
  apply Permutation_NoDup, Permutation_sym, sorted_perm.
Qed.

Hypothesis leb_total : forall a b, leb a b = true \/ leb b a = true.

Let le (a b : A) : Prop := leb a b = true.

Lemma insert_sorted_Sorted (x : A) (l : list A) :
  Sorted le l -> Sorted le (insert_sorted leb x l).
Proof.
  induction l as [|y l IH]; cbn; intros Hs.
  - repeat constructor.
  - destruct (leb x y) eqn:E.
    + constructor; [assumption|]. now constructor.
    + inversion Hs as [|? ? Hs' Hhd]; subst.
      constructor; [auto|].
      destruct l as [|z l]; cbn.
      * constructor. destruct (leb_total x y); [congruence|assumption].
      * destruct (leb x z); constructor.
        -- destruct (leb_total x y); [congruence|assumption].
        -- now inversion Hhd.
Qed.

Lemma sorted_Sorted (l : list A) : Sorted le (sorted leb l).
Proof.
  unfold sorted. induction l as [|x l IH]; cbn; [constructor|].
  now apply insert_sorted_Sorted.
Qed.
End SortingFacts.

(* ------------------------------------------------------------------ *)
(** ** Remapping of group names *)

Lemma replace_absent (old new s : string) :
  contains old s = false -> replace old new s = s.
Proof.
  unfold replace. induction s as [|c s IH]; intros H; [reflexivity|].
  cbn [contains] in H. apply orb_false_iff in H as [H1 H2].
  cbn [replace_from]. rewrite H1, (IH H2). reflexivity.
Qed.

Lemma remap_plain (s : string) : plain_name s -> _remap_group_name s = s.
Proof.
  intros [H1 H2]. unfold _remap_group_name. rewrite H1, H2. reflexivity.
Qed.

Lemma plain_display_L (s : string) :
  plain_name s -> plain_name ("@MMK_L_" ++ s)%string.
Proof. intros [H1 H2]. split; cbn; assumption. Qed.

Lemma plain_display_R (s : string) :
  plain_name s -> plain_name ("@MMK_R_" ++ s)%string.
Proof. intros [H1 H2]. split; cbn; assumption. Qed.

Lemma remap_storage_L (s : string) :
  plain_name s ->
  _remap_group_name ("public.kern1." ++ s)%string =
  if startswith "@MMK_L_" s then s else ("@MMK_L_" ++ s)%string.
Proof.
  intros [H1 H2]. unfold _remap_group_name.
  replace (contains "public.kern1." ("public.kern1." ++ s)%string) with true
    by reflexivity.
  replace (replace "public.kern1." "" ("public.kern1." ++ s)%string)
    with (replace "public.kern1." "" s) by reflexivity.
  replace (replace "public.kern1." "@MMK_L_" ("public.kern1." ++ s)%string)
    with ("@MMK_L_" ++ replace "public.kern1." "@MMK_L_" s)%string
    by reflexivity.
  rewrite !replace_absent by assumption. reflexivity.
Qed.

Lemma remap_storage_R (s : string) :
  plain_name s ->
  _remap_group_name ("public.kern2." ++ s)%string =
  if startswith "@MMK_R_" s then s else ("@MMK_R_" ++ s)%string.
Proof.
  intros [H1 H2]. unfold _remap_group_name.
  replace (contains "public.kern1." ("public.kern2." ++ s)%string)
    with (contains "public.kern1." s) by reflexivity.
  rewrite H1.
  replace (contains "public.kern2." ("public.kern2." ++ s)%string) with true
    by reflexivity.
  replace (replace "public.kern2." "" ("public.kern2." ++ s)%string)
    with (replace "public.kern2." "" s) by reflexivity.
  replace (replace "public.kern2." "@MMK_R_" ("public.kern2." ++ s)%string)
    with ("@MMK_R_" ++ replace "public.kern2." "@MMK_R_" s)%string
    by reflexivity.
  rewrite !replace_absent by assumption. reflexivity.
Qed.

(** C8, as stated, fails: a group name in which both storage prefixes occur
    is remapped a second time. *)
Lemma remap_group_name_not_idempotent :
  KernProcessor._isGroup "public.kern1.public.kern2.A" = Ok true /\
  _remap_group_name "public.kern1.public.kern2.A" = "@MMK_L_public.kern2.A" /\
  _remap_group_name (_remap_group_name "public.kern1.public.kern2.A")
  <> _remap_group_name "public.kern1.public.kern2.A".
Proof.
  split; [reflexivity|]. split; [reflexivity|].
  vm_compute. discriminate.
Qed.

(** C8, amended: remapping is idempotent on every name in which a storage
    prefix ([public.kern1.] or [public.kern2.]) occurs at most once, at the
    very front; and a name in which no storage prefix occurs (a name already
    in the [@MMK] convention, a glyph name) is returned unchanged. *)
Theorem remap_group_name_idempotent (x : string) :
  prefixed_once x ->
  _remap_group_name (_remap_group_name x) = _remap_group_name x /\
  (plain_name x -> _remap_group_name x = x).
Proof.
  intros (s & Hs & Hx). split; [|apply remap_plain].
  destruct Hx as [->|[->| ->]].
  - rewrite !(remap_plain Hs). reflexivity.
  - rewrite remap_storage_L by assumption.
    destruct (startswith "@MMK_L_" s).
    + now apply remap_plain.
    + now apply remap_plain, plain_display_L.
  - rewrite remap_storage_R by assumption.
    destruct (startswith "@MMK_R_" s).
    + now apply remap_plain.
    + now apply remap_plain, plain_display_R.
Qed.

Lemma remap_group_name_idempotent_witness :
  prefixed_once "public.kern1.A" /\
  (_remap_group_name (_remap_group_name "public.kern1.A")
   = _remap_group_name "public.kern1.A" /\
   (plain_name "public.kern1.A" -> _remap_group_name "public.kern1.A"
                                    = "public.kern1.A")).
Proof.
  assert (Hp : prefixed_once "public.kern1.A").
  { exists "A". split; [split; reflexivity|right; left; reflexivity]. }
  split; [exact Hp|exact (remap_group_name_idempotent Hp)].
Defined.

(* ------------------------------------------------------------------ *)
(** ** Dissolving single-glyph groups *)

Lemma find_exists {A : Type} (f : A -> bool) (l : list A) (a : A) :
  In a l -> f a = true -> exists b, find f l = Some b.
Proof.
  intros Hin Hf. destruct (find f l) as [b|] eqn:E; [eauto|].
  rewrite (find_none f l E a Hin) in Hf. discriminate.
Qed.

Section Dissolve.
Import KernProcessor.
Variable groups : dict string (list string).
Variable kerning : dict pair value.

Let singleGroups := singleGroups_of groups.

Lemma In_singleGroups (g : string) (glyphs : list string) :
  In (g, glyphs) singleGroups <->
  In (g, glyphs) groups /\ List.length glyphs = 1 /\ _isRTLGroup g = false.
Proof.
  unfold singleGroups, singleGroups_of. rewrite filter_In. cbn [fst snd].
  rewrite andb_true_iff, Nat.eqb_eq, negb_true_iff. tauto.
Qed.



Lemma remaining_groups (g : string) (glyphs : list string) :
  In (g, glyphs) (fst (_dissolveSingleGroups groups kerning)) ->
  In (g, glyphs) groups /\
  ~ (List.length glyphs = 1 /\ _isRTLGroup g = false).
Proof.
  unfold _dissolveSingleGroups. fold singleGroups.
  destruct singleGroups as [|sg0 sgs] eqn:E; cbn [fst].
  - intros Hin. split; [assumption|]. intros Hsingle.
    assert (Hs : In (g, glyphs) singleGroups) by (apply In_singleGroups; tauto).
    rewrite E in Hs. destruct Hs.
  - rewrite <- E. intros Hin. apply filter_In in Hin as [Hin Hmem].
    split; [assumption|]. intros Hsingle.
    assert (Hs : In (g, glyphs) singleGroups) by (apply In_singleGroups; tauto).
    cbn [fst] in Hmem. apply negb_true_iff in Hmem.
    assert (Hk : dict_mem singleGroups g = true).
    { apply dict_mem_In. unfold dict_keys. apply in_map_iff.
      exists (g, glyphs). auto. }
    congruence.
Qed.



End Dissolve.





(* ------------------------------------------------------------------ *)
(** ** Measured subtables *)

Lemma dict_set_fresh {K V : Type} `{Key K} (d : dict K V) (k : K) (v : V) :
  ~ In k (dict_keys d) -> dict_set d k v = d ++ [(k, v)].
Proof.
  induction d as [|[k0 v0] d IH]; cbn; intros Hk; [reflexivity|].
  destruct (key_eqb_spec k k0) as [->|Hne]; [tauto|].
  rewrite IH by tauto. reflexivity.
Qed.

Lemma fold_set_fresh {K V : Type} `{Key K} (val : K -> V) (ks : list K)
      (d : dict K V) :
  NoDup (dict_keys d ++ ks) ->
  fold_left (fun d k => dict_set d k (val k)) ks d
  = d ++ map (fun k => (k, val k)) ks.
Proof.
  revert d. induction ks as [|k ks IH]; intros d Hnd; cbn.
  - now rewrite app_nil_r.
  - rewrite dict_set_fresh.
    + rewrite IH.
      * now rewrite <- app_assoc.
      * unfold dict_keys in *. rewrite map_app. cbn.
        now rewrite <- app_assoc.
    + apply NoDup_remove_2 in Hnd. rewrite in_app_iff in Hnd. tauto.
Qed.

Lemma fold_left_flat_map {A B S : Type} (f : S -> B -> S) (g : A -> list B)
      (l : list A) (s : S) :
  fold_left (fun s a => fold_left f (g a) s) l s
  = fold_left f (flat_map g l) s.
Proof.
  revert s. induction l as [|a l IH]; intros s; cbn; [reflexivity|].
  now rewrite fold_left_app, IH.
Qed.

Lemma flat_map_concat_map {A B : Type} (f : A -> list B) (m : list (list A)) :
  flat_map f (List.concat m) = List.concat (map (flat_map f) m).
Proof.
  induction m as [|l m IH]; cbn; [reflexivity|].
  now rewrite flat_map_app, IH.
Qed.

Lemma NoDup_concat_In {A : Type} (m : list (list A)) (l : list A) :
  NoDup (List.concat m) -> In l m -> NoDup l.
Proof.
  induction m as [|l0 m IH]; cbn; [tauto|].
  intros Hnd [->|Hin].
  - eapply NoDup_app_remove_r, Hnd.
  - apply IH; [|assumption]. eapply NoDup_app_remove_l, Hnd.
Qed.

Section Partition.
Import MakeMeasuredSubtables.
Variables kernDict kerning : dict pair value.
Variable groups : dict string (list string).
Variable maxSubtableSize : Z.

Lemma In_pairs_of (item : string) (p : pair) :
  In p (pairs_of kernDict item) <->
  In p (dict_keys kernDict) /\ fst p = item.
Proof.
  unfold pairs_of. rewrite filter_In, String.eqb_eq. reflexivity.
Qed.

Lemma In_leftItems (item : string) :
  In item (leftItems kernDict) <->
  exists p, In p (dict_keys kernDict) /\ fst p = item.
Proof.
  unfold leftItems, sorted_names.
  rewrite In_sorted, In_to_set, in_map_iff.
  split; intros (p & H1 & H2); exists p; tauto.
Qed.

Lemma NoDup_leftItems : NoDup (leftItems kernDict).
Proof. apply NoDup_sorted, NoDup_to_set. Qed.

Lemma pairs_of_leftItem (item : string) :
  In item (leftItems kernDict) -> pairs_of kernDict item <> [].
Proof.
  intros Hin Hnil. apply In_leftItems in Hin as (p & Hp & Hfst).
  assert (Hin : In p (pairs_of kernDict item)) by now apply In_pairs_of.
  rewrite Hnil in Hin. destruct Hin.
Qed.

Lemma NoDup_pairs_of_items (l : list string) :
  wf_dict kernDict -> NoDup l -> NoDup (flat_map (pairs_of kernDict) l).
Proof.
  intros Hwf. induction l as [|item l IH]; intros Hnd; cbn; [constructor|].
  inversion Hnd as [|? ? Hitem Hnd']; subst.
  apply NoDup_app.
  - apply NoDup_filter, Hwf.
  - auto.
  - intros p Hp Hq. apply In_pairs_of in Hp as [_ Hfst].
    apply in_flat_map in Hq as (item' & Hin' & Hq).
    apply In_pairs_of in Hq as [_ Hfst']. congruence.
Qed.

Lemma pairs_of_leftItems_perm :
  wf_dict kernDict ->
  Permutation (flat_map (pairs_of kernDict) (leftItems kernDict))
              (dict_keys kernDict).
Proof.
  intros Hwf. apply NoDup_Permutation.
  - apply NoDup_pairs_of_items; [assumption|apply NoDup_leftItems].
  - exact Hwf.
  - intros p. rewrite in_flat_map. split.
    + intros (item & _ & Hp). now apply In_pairs_of in Hp.
    + intros Hp. exists (fst p). split.
      * apply In_leftItems. eauto.
      * now apply In_pairs_of.
Qed.

Lemma stDict_of_entries (l : list string) :
  wf_dict kernDict -> NoDup l ->
  stDict_of kernDict kerning l = entries_of kernDict kerning l.
Proof.
  intros Hwf Hnd. unfold stDict_of, entries_of.
  rewrite (fold_left_flat_map
             (fun stDict pair => dict_set stDict pair (dict_get kerning pair))).
  rewrite (fold_set_fresh (dict_get kerning)); [reflexivity|].
  cbn. now apply NoDup_pairs_of_items.
Qed.

(** *** The main loop *)

Variable coverageTableSize : Z.

Lemma absorb_pairs_fields (l : list pair) (v : locals) :
  let v' := fold_left (absorb_pair groups coverageTableSize) l v in
  measuredSubtables v' = measuredSubtables v /\
  subtable v' = subtable v /\
  (l <> [] \/ sizes v <> None -> sizes v' <> None).
Proof.
  revert v. induction l as [|p l IH]; intros v; cbn.
  - intuition congruence.
  - destruct (IH (absorb_pair groups coverageTableSize v p))
      as (H1 & H2 & H3).
    cbn in *. repeat split; try assumption.
    intros _. apply H3. right. discriminate.
Qed.

(** One left item is measured without raising, and lands either at the
    end of the open subtable or at the head of a new one. *)
Lemma measure_item_spec (v : locals) (item : string) :
  In item (leftItems kernDict) ->
  exists v',
    measure_item kernDict groups coverageTableSize maxSubtableSize v item
    = Ok v' /\
    sizes v' <> None /\
    ((measuredSubtables v' = measuredSubtables v /\
      subtable v' = subtable v ++ [item]) \/
     (measuredSubtables v' = measuredSubtables v ++ [subtable v] /\
      subtable v' = [item])).
Proof.
  intros Hin. unfold measure_item.
  pose proof (absorb_pairs_fields (pairs_of kernDict item) v)
    as (Hm & Hs & Hz).
  cbn zeta in *.
  set (v1 := fold_left (absorb_pair groups coverageTableSize)
                       (pairs_of kernDict item) v) in *.
  assert (Hsome : sizes v1 <> None).
  { apply Hz. left. now apply pairs_of_leftItem. }
  destruct (sizes v1) as [[m s]|] eqn:E; [|congruence].
  destruct (m + s <? maxSubtableSize)%Z; eexists; (split; [reflexivity|]);
    cbn; rewrite ?Hm, ?Hs; (split; [congruence|]); auto.
Qed.

Lemma measure_loop_spec (l : list string) (v : locals) :
  (forall item, In item l -> In item (leftItems kernDict)) ->
  exists v',
    for_each (measure_item kernDict groups coverageTableSize maxSubtableSize)
             l v = Ok v' /\
    List.concat (measuredSubtables v' ++ [subtable v'])
    = List.concat (measuredSubtables v ++ [subtable v]) ++ l /\
    (l <> [] -> subtable v' <> []).
Proof.
  revert v. induction l as [|item l IH]; intros v Hl; cbn.
  - exists v. rewrite app_nil_r. intuition congruence.
  - destruct (measure_item_spec v item (Hl item (or_introl eq_refl)))
      as (v1 & -> & _ & Hshape).
    cbn. destruct (IH v1) as (v' & Hloop & Hcat & Hne).
    { intros x Hx. apply Hl. now right. }
    exists v'. split; [assumption|]. split.
    + rewrite Hcat.
      destruct Hshape as [[-> ->]|[-> ->]];
        rewrite !concat_app; cbn; rewrite ?app_nil_r, <- ?app_assoc;
        reflexivity.
    + intros _. destruct l as [|x l].
      * cbn in Hloop. injection Hloop as <-.
        destruct Hshape as [[_ ->]|[_ ->]]; [|discriminate].
        now destruct (subtable v).
      * apply Hne. discriminate.
Qed.
End Partition.

Lemma map_constant {A B : Type} (f : A -> B) (b : B) (l : list A) :
  (forall a, In a l -> f a = b) -> map f l = repeat b (List.length l).
Proof.
  induction l as [|a l IH]; intros Hf; cbn; [reflexivity|].
  rewrite (Hf a (or_introl eq_refl)), IH; [reflexivity|].
  intros x Hx. apply Hf. now right.
Qed.

Lemma map_flat_map {A B C : Type} (f : B -> C) (g : A -> list B)
      (l : list A) :
  map f (flat_map g l) = flat_map (fun a => map f (g a)) l.
Proof.
  induction l as [|a l IH]; cbn; [reflexivity|].
  now rewrite map_app, IH.
Qed.

Lemma concat_map_map {A B C : Type} (f : B -> C) (g : A -> list B)
      (m : list (list A)) :
  List.concat (map (fun l => map f (flat_map g l)) m)
  = map f (flat_map g (List.concat m)).
Proof.
  induction m as [|l m IH]; cbn; [reflexivity|].
  now rewrite flat_map_app, map_app, IH.
Qed.

(** Runs of equal elements laid out along a sorted list are sorted. *)
Lemma Sorted_runs {A : Type} (R : A -> A -> Prop) (n : A -> nat)
      (l : list A) :
  (forall a, R a a) -> (forall a, In a l -> n a <> 0) -> Sorted R l ->
  Sorted R (flat_map (fun a => repeat a (n a)) l).
Proof.
  intros Hrefl. induction l as [|a l IH]; intros Hn Hs; cbn; [constructor|].
  inversion Hs as [|? ? Hs' Hhd]; subst.
  assert (Hrest : Sorted R (flat_map (fun a => repeat a (n a)) l)).
  { apply IH; [|assumption]. intros b Hb. apply Hn. now right. }
  assert (Hfirst : HdRel R a (flat_map (fun a => repeat a (n a)) l)).
  { destruct l as [|b l]; cbn; [constructor|].
    assert (Hb : n b <> 0) by (apply Hn; right; now left).
    destruct (n b); [congruence|]. cbn. constructor. now inversion Hhd. }
  clear Hn. induction (n a) as [|k IHk]; cbn; [assumption|].
  constructor; [assumption|].
  destruct k; cbn; [assumption|]. constructor. apply Hrefl.
Qed.

Section PartitionResult.
Import MakeMeasuredSubtables.
Variables kernDict kerning : dict pair value.
Variable groups : dict string (list string).
Variable maxSubtableSize : Z.

Lemma measure_spec :
  exists measured,
    measure kernDict kerning groups maxSubtableSize = Ok measured /\
    List.concat measured = leftItems kernDict.
Proof.
  unfold measure.
  destruct (measure_loop_spec kernDict groups maxSubtableSize
              (2 + 2 * Z.of_nat (_getNumberOfKernedGlyphs kerning groups))
              (leftItems kernDict) (mkLocals [] [] [] [] [] [] None))
    as (v & -> & Hcat & _); [auto|].
  cbn in Hcat. cbn [bind]. rewrite concat_app in Hcat. cbn in Hcat.
  rewrite app_nil_r in Hcat.
  destruct (subtable v) as [|x t] eqn:E.
  - exists (measuredSubtables v). split; [reflexivity|].
    now rewrite app_nil_r in Hcat.
  - exists (measuredSubtables v ++ [x :: t]). split; [reflexivity|].
    rewrite concat_app. cbn. now rewrite app_nil_r.
Qed.

(** [__init__] never raises, and each subtable holds the pairs of its left
    items with the values [kerning.get] gives. *)
Lemma init_spec :
  wf_dict kernDict ->
  exists measured,
    measure kernDict kerning groups maxSubtableSize = Ok measured /\
    List.concat measured = leftItems kernDict /\
    __init__ kernDict kerning groups maxSubtableSize
    = Ok (map (entries_of kernDict kerning) measured).
Proof.
  intros Hwf. destruct measure_spec as (measured & Hm & Hcat).
  exists measured. split; [assumption|]. split; [assumption|].
  unfold __init__. rewrite Hm. cbn [bind]. f_equal.
  apply map_ext_in. intros l Hl. apply stDict_of_entries; [assumption|].
  apply (NoDup_concat_In measured); [|assumption].
  rewrite Hcat. apply NoDup_leftItems.
Qed.

Lemma keys_entries_of (l : list string) :
  dict_keys (entries_of kernDict kerning l) = flat_map (pairs_of kernDict) l.
Proof.
  unfold dict_keys, entries_of. rewrite map_map. cbn. apply map_id.
Qed.

Lemma keys_subtables (measured : list (list string)) :
  List.concat (map (@dict_keys pair (option value))
                   (map (entries_of kernDict kerning) measured))
  = flat_map (pairs_of kernDict) (List.concat measured).
Proof.
  rewrite map_map, flat_map_concat_map. f_equal.
  apply map_ext. apply keys_entries_of.
Qed.

Lemma left_items_in_order :
  Sorted (fun a b => String.leb a b = true)
         (map fst (flat_map (pairs_of kernDict) (leftItems kernDict))).
Proof.
  rewrite map_flat_map.
  rewrite (flat_map_ext
             (fun item => map fst (pairs_of kernDict item))
             (fun item => repeat item (List.length (pairs_of kernDict item)))).
  - apply Sorted_runs.
    + intros a. now destruct (String.leb_total a a).
    + intros item Hin Hlen. apply (@pairs_of_leftItem kernDict item Hin).
      now apply length_zero_iff_nil.
    + apply sorted_Sorted, String.leb_total.
  - intros item. apply map_constant. intros p Hp.
    now apply In_pairs_of in Hp.
Qed.
End PartitionResult.

Section Oversized.
Import MakeMeasuredSubtables.
Variables kernDict kerning : dict pair value.
Variable groups : dict string (list string).
Variable maxSubtableSize : Z.
Variable item : string.
Variable rest : list string.
Hypothesis leftItems_eq : leftItems kernDict = item :: rest.
Hypothesis oversized :
  (maxSubtableSize <= first_item_cost kernDict kerning groups item)%Z.

Let coverageTableSize : Z :=
  (2 + 2 * Z.of_nat (_getNumberOfKernedGlyphs kerning groups))%Z.

(** After the first left item an empty subtable is closed and the item
    opens the next one. *)
Lemma first_item_closes_empty :
  measure_item kernDict groups coverageTableSize maxSubtableSize
               (mkLocals [] [] [] [] [] [] None) item
  = Ok (mkLocals [[]] [item] [] [] [] []
                 (sizes (fold_left (absorb_pair groups coverageTableSize)
                                   (pairs_of kernDict item)
                                   (mkLocals [] [] [] [] [] [] None)))).
Proof.
  unfold measure_item.
  pose proof (absorb_pairs_fields groups coverageTableSize
                (pairs_of kernDict item) (mkLocals [] [] [] [] [] [] None))
    as (Hm & Hs & Hz).
  cbn zeta in Hm, Hs, Hz.
  pose proof oversized as Hover. unfold first_item_cost in Hover.
  fold coverageTableSize in Hover. cbn zeta in Hover.
  set (v1 := fold_left (absorb_pair groups coverageTableSize)
                       (pairs_of kernDict item)
                       (mkLocals [] [] [] [] [] [] None)) in *.
  assert (Hsome : sizes v1 <> None).
  { apply Hz. left. apply pairs_of_leftItem. rewrite leftItems_eq. now left. }
  destruct (sizes v1) as [[m s]|] eqn:E; [|congruence].
  apply Z.ltb_ge in Hover. rewrite Hover, Hm, Hs. reflexivity.
Qed.

Lemma measure_oversized :
  exists l more,
    measure kernDict kerning groups maxSubtableSize
    = Ok ([] :: (item :: l) :: more).
Proof.
  unfold measure. fold coverageTableSize. rewrite leftItems_eq.
  cbn [for_each]. rewrite first_item_closes_empty. cbn [bind].
  match goal with
  | |- context [for_each ?body rest ?v1] =>
      destruct (for_each_invariant body (after_first item) rest)
        with (s := v1) as (v & -> & Hv)
  end.
  - intros v a Ha Hv.
    destruct (measure_item_spec kernDict groups maxSubtableSize
                                coverageTableSize v a)
      as (v' & Hstep & _ & Hshape).
    { rewrite leftItems_eq. now right. }
    exists v'. split; [assumption|].
    destruct Hv as (l & [(Hm & Hs)|(more & Hm & Hs)]);
      destruct Hshape as [[Hm' Hs']|[Hm' Hs']].
    + exists (l ++ [a]). left. rewrite Hm', Hs', Hm, Hs. auto.
    + exists l. right. exists []. rewrite Hm', Hs', Hm, Hs.
      split; [reflexivity|discriminate].
    + exists l. right. exists more. rewrite Hm', Hs', Hm.
      split; [reflexivity|]. now destruct (subtable v).
    + exists l. right. exists (more ++ [subtable v]). rewrite Hm', Hs', Hm.
      split; [reflexivity|discriminate].
  - exists []. left. auto.
  - cbn [bind]. destruct Hv as (l & [(Hm & Hs)|(more & Hm & Hs)]).
    + rewrite Hs, Hm. exists l, []. reflexivity.
    + rewrite Hm. exists l.
      destruct (subtable v) as [|x t]; [congruence|].
      exists (more ++ [x :: t]). reflexivity.
Qed.
End Oversized.

(* ------------------------------------------------------------------ *)
(** ** Claims about the measured subtables *)

(** C2, as stated, fails: the values of the subtables are those of the
    kerning mapping given for the lookup, not those of the bucket.  The
    bucket [glyph_group] that [KernProcessor] builds here holds 7 for a pair
    of value 0 in the kerning, and the subtable holds 0. *)
Lemma partition_values_from_kerning :
  exists st,
    KernProcessor.__init__
      [("@MMK_R_B", ["b"])]
      [(("x", "@MMK_R_B"), VInt 0); (("x", "b"), VInt 7)] false = Ok st /\
    KernProcessor.bucket st KernProcessor.LTR KernProcessor.glyph_group
    = [(("x", "@MMK_R_B"), VInt 7)] /\
    MakeMeasuredSubtables.__init__
      (KernProcessor.bucket st KernProcessor.LTR KernProcessor.glyph_group)
      (KernProcessor.kerning st) (KernProcessor.groups st) 8192
    = Ok [[(("x", "@MMK_R_B"), Some (VInt 0))]].
Proof.
  eexists. split; [vm_compute; reflexivity|]. split; reflexivity.
Qed.

(** C2, amended: for every bucket, kerning mapping, group mapping and
    maximum size the partitioner returns a sequence of subtables whose
    pairs, concatenated in order, are the pairs of the bucket grouped by left
    item, the left items in lexicographic order -- every pair of the bucket
    once, none dropped -- each with the value the kerning mapping holds for
    it ([None] when it holds none); these are the values of the bucket
    whenever the kerning mapping agrees with the bucket on the bucket's
    pairs. *)
Theorem partition_reconstruction
        (kernDict kerning : dict pair value)
        (groups : dict string (list string)) (maxSubtableSize : Z) :
  wf_dict kernDict ->
  exists subtables,
    MakeMeasuredSubtables.__init__ kernDict kerning groups maxSubtableSize
    = Ok subtables /\
    let pairs := List.concat (map (@dict_keys pair (option value)) subtables) in
    pairs = flat_map (MakeMeasuredSubtables.pairs_of kernDict)
                     (MakeMeasuredSubtables.leftItems kernDict) /\
    Permutation pairs (dict_keys kernDict) /\
    NoDup pairs /\
    Sorted (fun a b => String.leb a b = true) (map fst pairs) /\
    (forall st p v, In st subtables -> In (p, v) st -> v = dict_get kerning p) /\
    ((forall p, In p (dict_keys kernDict) ->
                dict_get kerning p = dict_get kernDict p) ->
     Permutation (List.concat subtables)
                 (map (fun pv => (fst pv, Some (snd pv))) kernDict)).
Proof.
  intros Hwf.
  destruct (@init_spec kernDict kerning groups maxSubtableSize Hwf)
    as (measured & _ & Hcat & Hinit).
  eexists. split; [exact Hinit|]. cbn zeta.
  rewrite keys_subtables, Hcat.
  pose proof (pairs_of_leftItems_perm Hwf) as Hperm.
  split; [reflexivity|]. split; [exact Hperm|].
  split; [eapply Permutation_NoDup; [apply Permutation_sym, Hperm|exact Hwf]|].
  split; [apply left_items_in_order|].
  split.
  - intros st p v Hst Hin. apply in_map_iff in Hst as (l & <- & _).
    unfold MakeMeasuredSubtables.entries_of in Hin.
    apply in_map_iff in Hin as (q & [= <- <-] & _). reflexivity.
  - intros Hagree. unfold MakeMeasuredSubtables.entries_of.
    rewrite (concat_map_map (fun p : pair => (p, dict_get kerning p))
                            (MakeMeasuredSubtables.pairs_of kernDict)
                            measured), Hcat.
    rewrite (Permutation_map _ Hperm). unfold dict_keys. rewrite map_map.
    rewrite (map_ext_in
               (fun x : pair * value => (fst x, dict_get kerning (fst x)))
               (fun pv => (fst pv, Some (snd pv)))); [reflexivity|].
    intros [p v] Hin. cbn [fst snd]. f_equal.
    rewrite Hagree.
    + now apply In_dict_get.
    + unfold dict_keys. apply in_map_iff. exists (p, v). auto.
Qed.

Lemma partition_reconstruction_witness :
  exists subtables,
    MakeMeasuredSubtables.__init__
      [(("b", "@X"), VInt 1); (("a", "@X"), VInt 2); (("b", "@Y"), VInt 3)]
      [(("b", "@X"), VInt 1); (("a", "@X"), VInt 2); (("b", "@Y"), VInt 3)]
      [("@X", ["x"]); ("@Y", ["y"])] 52
    = Ok subtables /\
    List.concat (map (@dict_keys pair (option value)) subtables)
    = [("a", "@X"); ("b", "@X"); ("b", "@Y")].
Proof.
  assert (Hwf : wf_dict
                  [(("b", "@X"), VInt 1); (("a", "@X"), VInt 2);
                   (("b", "@Y"), VInt 3)]).
  { repeat constructor; cbn; intuition discriminate. }
  destruct (@partition_reconstruction
              [(("b", "@X"), VInt 1); (("a", "@X"), VInt 2);
               (("b", "@Y"), VInt 3)]
              [(("b", "@X"), VInt 1); (("a", "@X"), VInt 2);
               (("b", "@Y"), VInt 3)]
              [("@X", ["x"]); ("@Y", ["y"])] 52 Hwf)
    as (subtables & Hinit & Hpairs & _).
  exists subtables. split; [exact Hinit|]. exact Hpairs.
Defined.

(** C6, as stated, fails: with a maximum size below the cost of the first
    left item the partitioner returns two subtables, and the first of them
    is empty. *)
Lemma oversized_first_item_empty_subtable :
  let bucket := [(("a", "@MMK_R_B"), VInt 5)] in
  let groups := [("@MMK_R_B", ["b"])] in
  MakeMeasuredSubtables.first_item_cost bucket bucket groups "a" = 40%Z /\
  MakeMeasuredSubtables.__init__ bucket bucket groups 10
  = Ok [[]; [(("a", "@MMK_R_B"), Some (VInt 5))]].
Proof. split; reflexivity. Qed.

(** C6, amended: for every non-empty bucket, when the maximum subtable size
    is at most the estimated cost of the first left item alone, the
    partitioner returns an empty first subtable and, second, a subtable that
    starts with the pairs of that item (there is at least one); the item
    occurs in no other subtable. *)
Theorem oversized_first_item
        (kernDict kerning : dict pair value)
        (groups : dict string (list string)) (maxSubtableSize : Z)
        (item : string) (rest : list string) :
  wf_dict kernDict ->
  MakeMeasuredSubtables.leftItems kernDict = item :: rest ->
  (maxSubtableSize
   <= MakeMeasuredSubtables.first_item_cost kernDict kerning groups item)%Z ->
  exists l more,
    MakeMeasuredSubtables.measure kernDict kerning groups maxSubtableSize
    = Ok ([] :: (item :: l) :: more) /\
    MakeMeasuredSubtables.__init__ kernDict kerning groups maxSubtableSize
    = Ok ([] :: map (fun p => (p, dict_get kerning p))
                    (MakeMeasuredSubtables.pairs_of kernDict item
                     ++ flat_map (MakeMeasuredSubtables.pairs_of kernDict) l)
             :: map (MakeMeasuredSubtables.entries_of kernDict kerning) more) /\
    MakeMeasuredSubtables.pairs_of kernDict item <> [] /\
    l ++ List.concat more = rest /\
    ~ In item rest.
Proof.
  intros Hwf Hleft Hover.
  destruct (@measure_oversized kernDict kerning groups maxSubtableSize
                               item rest Hleft Hover) as (l & more & Hm).
  destruct (@init_spec kernDict kerning groups maxSubtableSize Hwf)
    as (measured & Hm' & Hcat & Hinit).
  rewrite Hm in Hm'. injection Hm' as <-.
  exists l, more. split; [exact Hm|]. split; [exact Hinit|].
  split; [apply pairs_of_leftItem; rewrite Hleft; now left|].
  cbn in Hcat. rewrite Hleft in Hcat. injection Hcat as Hcat.
  split; [exact Hcat|].
  pose proof (NoDup_leftItems kernDict) as Hnd. rewrite Hleft in Hnd.
  now inversion Hnd.
Qed.

Lemma oversized_first_item_witness :
  exists l more,
    MakeMeasuredSubtables.measure
      [(("b", "@X"), VInt 1); (("a", "@X"), VInt 2)]
      [(("b", "@X"), VInt 1); (("a", "@X"), VInt 2)]
      [("@X", ["x"])] 10
    = Ok ([] :: ("a" :: l) :: more).
Proof.
  assert (Hwf : wf_dict [(("b", "@X"), VInt 1); (("a", "@X"), VInt 2)]).
  { repeat constructor; cbn; intuition discriminate. }
  destruct (@oversized_first_item
              [(("b", "@X"), VInt 1); (("a", "@X"), VInt 2)]
              [(("b", "@X"), VInt 1); (("a", "@X"), VInt 2)]
              [("@X", ["x"])] 10 "a" ["b"] Hwf eq_refl)
    as (l & more & Hm & _).
  { vm_compute. discriminate. }
  exists l, more. exact Hm.
Defined.

(** C7, as stated, fails: the lookup of a pair that the kerning mapping
    does not hold raises nothing, and the entry of the subtable is [None]. *)
Lemma absent_pair_defaults_to_None :
  let bucket := [(("a", "@MMK_R_B"), VInt 5)] in
  let kerning := [] in
  dict_get kerning ("a", "@MMK_R_B") = None /\
  MakeMeasuredSubtables.__init__ bucket kerning [("@MMK_R_B", ["b"])] 8192
  = Ok [[(("a", "@MMK_R_B"), None)]].
Proof. split; reflexivity. Qed.

(** C7, amended: during partitioning the value of a pair is looked up with
    [kerning.get]; the partitioner raises nothing whatever the kerning
    mapping is, every entry of a subtable carries what [kerning.get] returns
    for its pair, and a pair of the bucket that is absent from the kerning
    mapping is entered in a subtable with the placeholder [None]. *)
Theorem absent_pair_lookup
        (kernDict kerning : dict pair value)
        (groups : dict string (list string)) (maxSubtableSize : Z) :
  wf_dict kernDict ->
  exists subtables,
    MakeMeasuredSubtables.__init__ kernDict kerning groups maxSubtableSize
    = Ok subtables /\
    (forall st p v, In st subtables -> In (p, v) st -> v = dict_get kerning p) /\
    (forall p, In p (dict_keys kernDict) -> dict_get kerning p = None ->
               exists st, In st subtables /\ In (p, None) st).
Proof.
  intros Hwf.
  destruct (@init_spec kernDict kerning groups maxSubtableSize Hwf)
    as (measured & _ & Hcat & Hinit).
  eexists. split; [exact Hinit|]. split.
  - intros st p v Hst Hin. apply in_map_iff in Hst as (l & <- & _).
    unfold MakeMeasuredSubtables.entries_of in Hin.
    apply in_map_iff in Hin as (q & [= <- <-] & _). reflexivity.
  - intros p Hp Habsent.
    assert (Hitem : In (fst p) (List.concat measured)).
    { rewrite Hcat. apply In_leftItems. eauto. }
    apply in_concat in Hitem as (l & Hl & Hitem).
    exists (MakeMeasuredSubtables.entries_of kernDict kerning l).
    split; [now apply in_map|].
    unfold MakeMeasuredSubtables.entries_of. apply in_map_iff.
    exists p. split; [now rewrite Habsent|].
    apply in_flat_map. exists (fst p). split; [assumption|].
    now apply In_pairs_of.
Qed.

Lemma absent_pair_lookup_witness :
  exists subtables,
    MakeMeasuredSubtables.__init__
      [(("a", "@X"), VInt 2)] [] [("@X", ["x"])] 8192 = Ok subtables /\
    exists st, In st subtables /\ In (("a", "@X"), None) st.
Proof.
  assert (Hwf : wf_dict [(("a", "@X"), VInt 2)]).
  { repeat constructor; cbn; intuition discriminate. }
  destruct (@absent_pair_lookup [(("a", "@X"), VInt 2)] []
                                [("@X", ["x"])] 8192 Hwf)
    as (subtables & Hinit & _ & Habsent).
  exists subtables. split; [exact Hinit|].
  apply Habsent; [now left|reflexivity].
Defined.

(* ------------------------------------------------------------------ *)
(** ** Classification: the pairs that are counted *)

(** C1: the code breaks the claim.  A right-to-left pair of a group and a
    glyph that is grouped on the right is stored in
    [rtl_group_glyph_exceptions] but never appended to [pairs_processed]
    (the [append] sits in the left-to-right branch), so [_sanityCheck]
    reports a pair as not processed.  The same pair without the RTL tag is
    counted. *)
Theorem rtl_group_glyph_exception_not_counted :
  let groups := [("@MMK_L_A_RTL", ["a"]); ("@MMK_R_B", ["b"])] in
  let kerning :=
    [(("@MMK_L_A_RTL", "b"), VInt 10); (("x", "@MMK_R_B"), VInt 5)] in
  (exists st,
      KernProcessor.__init__ groups kerning false = Ok st /\
      dict_keys (KernProcessor.kerning st)
      = [("@MMK_L_A_RTL", "b"); ("x", "@MMK_R_B")] /\
      KernProcessor.bucket st KernProcessor.RTL
                           KernProcessor.group_glyph_exceptions
      = [(("@MMK_L_A_RTL", "b"), VInt 10)] /\
      KernProcessor.pairs_processed st = [("x", "@MMK_R_B")] /\
      KernProcessor.pairs_unprocessed st = [] /\
      KernProcessor._sanityCheck st = Some (2, 1, 1)%Z) /\
  (exists st,
      KernProcessor.__init__
        [("@MMK_L_A", ["a"]); ("@MMK_R_B", ["b"])]
        [(("@MMK_L_A", "b"), VInt 10); (("x", "@MMK_R_B"), VInt 5)] false
      = Ok st /\
      KernProcessor.pairs_processed st
      = [("x", "@MMK_R_B"); ("@MMK_L_A", "b")] /\
      KernProcessor._sanityCheck st = None).
Proof.
  split; eexists; (split; [vm_compute; reflexivity|]);
    repeat split; reflexivity.
Qed.

(** C3: the code breaks the claim.  The loop over the members of the group
    assigns the variable [value] that the zero test reads afterwards: a
    glyph-to-group pair of value 0 whose glyph is also kerned with a member
    of the group is stored in [glyph_group] with the value of that other
    pair, and is not recorded as unprocessed.  Without the other pair the
    zero pair is suppressed. *)
Theorem zero_glyph_group_pair_not_suppressed :
  let groups := [("@MMK_R_B", ["b"])] in
  (exists st,
      KernProcessor.__init__
        groups [(("x", "@MMK_R_B"), VInt 0); (("x", "b"), VInt 7)] false
      = Ok st /\
      dict_get (KernProcessor.kerning st) ("x", "@MMK_R_B") = Some (VInt 0) /\
      KernProcessor.grouped_left st = Some [] /\
      KernProcessor.bucket st KernProcessor.LTR KernProcessor.glyph_group
      = [(("x", "@MMK_R_B"), VInt 7)] /\
      KernProcessor.pairs_unprocessed st = []) /\
  (exists st,
      KernProcessor.__init__ groups [(("x", "@MMK_R_B"), VInt 0)] false
      = Ok st /\
      KernProcessor.bucket st KernProcessor.LTR KernProcessor.glyph_group
      = [] /\
      KernProcessor.pairs_unprocessed st = [("x", "@MMK_R_B")]).
Proof.
  split; eexists; (split; [vm_compute; reflexivity|]);
    repeat split; reflexivity.
Qed.

(* ------------------------------------------------------------------ *)
(** ** Classification: the first loop of [_findExceptions] *)

Lemma filter_filter_and {A : Type} (f g : A -> bool) (l : list A) :
  filter f (filter g l) = filter (fun x => g x && f x) l.
Proof.
  induction l as [|a l IH]; cbn; [reflexivity|].
  destruct (g a); cbn; [destruct (f a)|]; now rewrite IH.
Qed.

Section Strip.
Import KernProcessor.

Lemma same_context_refl (st : state) : same_context st st.
Proof. repeat split. Qed.

Lemma same_context_trans (st1 st2 st3 : state) :
  same_context st1 st2 -> same_context st2 st3 -> same_context st1 st3.
Proof.
  unfold same_context. intros (A1 & A2 & A3 & A4) (B1 & B2 & B3 & B4).
  repeat split; congruence.
Qed.

Lemma strip_step_spec (st : state) (p : pair) (v : value) :
  dict_get (kerning st) p = Some v ->
  exists st1,
    strip_step st p = Ok st1 /\
    kerning st1 = (if stripped p then dict_del (kerning st) p else kerning st) /\
    same_context st st1 /\
    pairs_processed st1 = pairs_processed st /\
    pairs_unprocessed st1 = pairs_unprocessed st /\
    bucket st1 LTR predefined_exceptions
    = (if moved p then dict_set (bucket st LTR predefined_exceptions) p v
       else bucket st LTR predefined_exceptions) /\
    bucket st1 RTL predefined_exceptions = bucket st RTL predefined_exceptions.
Proof.
  intros Hv. unfold strip_step, stripped, moved, getitem. rewrite Hv.
  destruct (ignored p); cbn; [|destruct (predefined p); cbn];
    eexists; (split; [reflexivity|]); repeat split; reflexivity.
Qed.

Lemma strip_loop_spec (l : list pair) :
  forall st,
    NoDup l -> (forall p, In p l -> In p (dict_keys (kerning st))) ->
    exists st',
      for_each strip_step l st = Ok st' /\
      kerning st'
      = filter (fun pv : pair * value =>
                  negb (mem (fst pv) l && stripped (fst pv)))
               (kerning st) /\
      same_context st st' /\
      pairs_processed st' = pairs_processed st /\
      pairs_unprocessed st' = pairs_unprocessed st /\
      (forall q,
          dict_get (bucket st' LTR predefined_exceptions) q
          = if mem q l && moved q then dict_get (kerning st) q
            else dict_get (bucket st LTR predefined_exceptions) q) /\
      bucket st' RTL predefined_exceptions
      = bucket st RTL predefined_exceptions.
Proof.
  induction l as [|p l IH]; intros st Hnd Hkeys.
  - exists st. cbn. repeat split.
    induction (kerning st) as [|kv d IHd]; cbn; [reflexivity|].
    now rewrite <- IHd.
  - inversion Hnd as [|? ? Hp Hnd']; subst.
    destruct (In_key_get (kerning st) p (Hkeys p (or_introl eq_refl)))
      as (v & Hv).
    destruct (strip_step_spec st p Hv)
      as (st1 & Hstep & Hk1 & Hc1 & Hpp1 & Hpu1 & Hb1 & Hr1).
    assert (Hget1 : forall q, q <> p ->
                              dict_get (kerning st1) q = dict_get (kerning st) q).
    { intros q Hq. rewrite Hk1. destruct (stripped p); [|reflexivity].
      rewrite dict_get_del.
      destruct (key_eqb_spec p q); [congruence|reflexivity]. }
    destruct (IH st1 Hnd') as (st' & Hloop & Hk & Hc & Hpp & Hpu & Hb & Hr).
    { intros q Hq.
      destruct (In_key_get (kerning st) q (Hkeys q (or_intror Hq)))
        as (w & Hw).
      apply dict_get_Some_key with (v := w). rewrite Hget1; [assumption|].
      intros ->. contradiction. }
    exists st'. cbn [for_each]. rewrite Hstep. cbn [bind].
    split; [assumption|]. split; [|split; [|split; [|split; [|split]]]].
    + rewrite Hk, Hk1. destruct (stripped p) eqn:Es.
      * unfold dict_del. rewrite filter_filter_and. apply filter_ext.
        intros [q w]. cbn [fst]. rewrite mem_cons.
        destruct (key_eqb_spec p q) as [<-|Hne]; cbn [negb andb].
        -- now rewrite key_eqb_refl, Es.
        -- destruct (key_eqb_spec q p); [congruence|reflexivity].
      * apply filter_ext. intros [q w]. cbn [fst]. rewrite mem_cons.
        destruct (key_eqb_spec q p) as [->|Hne]; cbn [orb]; [|reflexivity].
        rewrite Es. now rewrite !andb_false_r.
    + eapply same_context_trans; eassumption.
    + congruence.
    + congruence.
    + intros q. rewrite Hb, mem_cons.
      destruct (key_eqb_spec q p) as [->|Hne]; cbn [orb].
      * apply mem_not_In in Hp. rewrite Hp. cbn [andb].
        rewrite Hb1. destruct (moved p).
        -- now rewrite dict_get_set, key_eqb_refl.
        -- reflexivity.
      * destruct (mem q l && moved q).
        -- now apply Hget1.
        -- rewrite Hb1. destruct (moved p); [|reflexivity].
           rewrite dict_get_set.
           destruct (key_eqb_spec q p); [congruence|reflexivity].
    + congruence.
Qed.

(** The first loop as a whole. *)
Lemma strip_pairs_spec (st : state) :
  wf_dict (kerning st) ->
  exists st',
    strip_pairs st = Ok st' /\
    kerning st'
    = filter (fun pv : pair * value => negb (stripped (fst pv))) (kerning st) /\
    same_context st st' /\
    pairs_processed st' = pairs_processed st /\
    pairs_unprocessed st' = pairs_unprocessed st /\
    (forall q v,
        dict_get (kerning st) q = Some v -> moved q = true ->
        dict_get (bucket st' LTR predefined_exceptions) q = Some v) /\
    bucket st' RTL predefined_exceptions
    = bucket st RTL predefined_exceptions.
Proof.
  intros Hwf. unfold strip_pairs.
  destruct (@strip_loop_spec (rev (dict_keys (kerning st))) st)
    as (st' & Hloop & Hk & Hc & Hpp & Hpu & Hb & Hr).
  { apply NoDup_rev, Hwf. }
  { intros p Hp. now apply in_rev. }
  exists st'. split; [assumption|].
  split; [|split; [assumption|split; [assumption|split; [assumption|
               split; [|assumption]]]]].
  - rewrite Hk. apply filter_ext_in. intros [q w] Hin. cbn [fst].
    assert (Hm : mem q (rev (dict_keys (kerning st))) = true).
    { apply mem_In, in_rev. rewrite rev_involutive.
      unfold dict_keys. apply in_map_iff. exists (q, w). auto. }
    now rewrite Hm.
  - intros q v Hq Hmoved. rewrite Hb, Hmoved.
    assert (Hm : mem q (rev (dict_keys (kerning st))) = true).
    { apply mem_In, in_rev. rewrite rev_involutive.
      eapply dict_get_Some_key, Hq. }
    now rewrite Hm.
Qed.
End Strip.

(* ------------------------------------------------------------------ *)
(** ** Classification: what the later passes leave alone *)

Lemma for_each_preserves {A S : Type} (body : S -> A -> result S)
      (R : S -> S -> Prop) (l : list A) :
  (forall s, R s s) -> (forall a b c, R a b -> R b c -> R a c) ->
  (forall s a s', body s a = Ok s' -> R s s') ->
  forall s s', for_each body l s = Ok s' -> R s s'.
Proof.
  intros Hrefl Htrans Hbody. induction l as [|a l IH]; intros s s'; cbn.
  - intros [= <-]. apply Hrefl.
  - destruct (body s a) as [s1|] eqn:E; cbn; [|discriminate].
    intros Hl. apply Htrans with s1; [eapply Hbody, E|apply IH, Hl].
Qed.

Section Passes.
Import KernProcessor.

Lemma keeps_refl (st : state) : keeps_inputs st st.
Proof. repeat split. Qed.

Lemma keeps_trans (st1 st2 st3 : state) :
  keeps_inputs st1 st2 -> keeps_inputs st2 st3 -> keeps_inputs st1 st3.
Proof.
  intros (A1 & A2 & A3) (B1 & B2 & B3). split; [congruence|]. split.
  - eapply same_context_trans; eassumption.
  - intros d. now rewrite B3.
Qed.

Lemma keeps_put (d : direction) (c : category) (p : pair) (v : value)
      (st : state) :
  category_eqb c predefined_exceptions = false ->
  keeps_inputs st (put d c p v st).
Proof.
  intros Hc. split; [reflexivity|]. split; [repeat split|].
  intros d'. cbn. rewrite Hc. now rewrite andb_false_r.
Qed.

Lemma keeps_append_processed (p : pair) (st : state) :
  keeps_inputs st (append_processed p st).
Proof. repeat split. Qed.

Lemma keeps_append_unprocessed (p : pair) (st : state) :
  keeps_inputs st (append_unprocessed p st).
Proof. repeat split. Qed.

Lemma keeps_set_exceptionPairs (e r : list pair) (st : state) :
  keeps_inputs st (set_exceptionPairs e r st).
Proof. repeat split. Qed.

Ltac keeps_chain :=
  lazymatch goal with
  | |- keeps_inputs ?s ?s => apply keeps_refl
  | |- keeps_inputs _ (append_processed _ ?t) =>
      apply keeps_trans with t; [keeps_chain|apply keeps_append_processed]
  | |- keeps_inputs _ (append_unprocessed _ ?t) =>
      apply keeps_trans with t; [keeps_chain|apply keeps_append_unprocessed]
  | |- keeps_inputs _ (set_exceptionPairs _ _ ?t) =>
      apply keeps_trans with t; [keeps_chain|apply keeps_set_exceptionPairs]
  | |- keeps_inputs _ (put _ _ _ _ ?t) =>
      apply keeps_trans with t; [keeps_chain|apply keeps_put; reflexivity]
  end.

(** Case analysis of a straight-line body that returned. *)
Ltac returned H :=
  repeat match type of H with
         | bind ?m _ = Ok _ =>
             let E := fresh "E" in
             destruct m eqn:E; cbn [bind] in H; [|discriminate H]
         | (if ?b then _ else _) = Ok _ => destruct b
         | match ?x with _ => _ end = Ok _ => destruct x
         end.

Lemma member_step_keeps (g2g : list pair) (r : bool) (glyph : string)
      (acc acc' : value * state) (m : string) :
  member_step g2g r glyph acc m = Ok acc' ->
  keeps_inputs (snd acc) (snd acc').
Proof.
  unfold member_step. intros H. returned H; injection H as <-; cbn [snd].
  - apply keeps_put. reflexivity.
  - apply keeps_refl.
Qed.

Lemma member_loop_keeps (g2g : list pair) (r : bool) (glyph : string)
      (l : list string) (acc acc' : value * state) :
  for_each (member_step g2g r glyph) l acc = Ok acc' ->
  keeps_inputs (snd acc) (snd acc').
Proof.
  apply (for_each_preserves
           (member_step g2g r glyph)
           (fun a b => keeps_inputs (snd a) (snd b))).
  - intros s. apply keeps_refl.
  - intros a b c. apply keeps_trans.
  - intros s a s'. apply member_step_keeps.
Qed.

Lemma glyph_group_step_keeps (g2g : list pair) (st st' : state) (p : pair) :
  glyph_group_step g2g st p = Ok st' -> keeps_inputs st st'.
Proof.
  unfold glyph_group_step. intros H.
  destruct (getitem (kerning st) (fst p, snd p)) as [value|]; [|discriminate].
  destruct (getitem (groups st) (snd p)) as [groupList|]; [|discriminate].
  destruct (attr (grouped_left st)) as [gl|]; [|discriminate].
  cbn [bind] in H. destruct (mem (fst p) gl).
  - injection H as <-.
    eapply keeps_trans; [|apply keeps_append_processed].
    apply keeps_put. reflexivity.
  - destruct (for_each _ groupList (value, st)) as [[value' st1]|] eqn:E;
      [|discriminate].
    apply member_loop_keeps in E. cbn [snd bind] in *.
    destruct (is_zero value'); injection H as <-.
    + eapply keeps_trans; [exact E|apply keeps_append_unprocessed].
    + eapply keeps_trans; [exact E|].
      eapply keeps_trans; [|apply keeps_append_processed].
      apply keeps_put. reflexivity.
Qed.

Lemma glyph_group_pass_keeps (g2g g2grp : list pair) (st st' : state) :
  glyph_group_pass g2g g2grp st = Ok st' -> keeps_inputs st st'.
Proof.
  apply (for_each_preserves (glyph_group_step g2g) keeps_inputs).
  - apply keeps_refl.
  - apply keeps_trans.
  - intros s a s'. apply glyph_group_step_keeps.
Qed.

Lemma group_item_step_keeps (acc acc' : state * list pair * list pair)
      (p : pair) :
  group_item_step acc p = Ok acc' ->
  keeps_inputs (fst (fst acc)) (fst (fst acc')).
Proof.
  destruct acc as [[st e] r]. unfold group_item_step. intros H.
  destruct (getitem (kerning st) (fst p, snd p)) as [value|]; [|discriminate].
  destruct (getitem (groups st) (fst p)) as [lg|]; [|discriminate].
  destruct (_isGroup (snd p)) as [[|]|]; [| |discriminate]; cbn [bind] in H.
  - destruct (getitem (groups st) (snd p)) as [rg|]; [|discriminate].
    cbn [bind] in H.
    destruct (is_zero value); [|destruct (_isRTL _ _)];
      injection H as <-; cbn [fst]; keeps_chain.
  - destruct (attr (grouped_right st)) as [gr|]; [|discriminate].
    cbn [bind] in H.
    destruct (mem (snd p) gr); [destruct (_isRTL _ _)|]; cbn [bind] in H.
    + injection H as <-; cbn [fst]; keeps_chain.
    + injection H as <-; cbn [fst]; keeps_chain.
    + destruct (is_zero value); [|destruct (_isRTL _ _)];
        injection H as <-; cbn [fst]; keeps_chain.
Qed.

Lemma group_item_pass_keeps (g2i : list pair) (st : state)
      (acc' : state * list pair * list pair) :
  group_item_pass g2i st = Ok acc' -> keeps_inputs st (fst (fst acc')).
Proof.
  unfold group_item_pass. intros H.
  apply (for_each_preserves
           group_item_step
           (fun a b => keeps_inputs (fst (fst a)) (fst (fst b)))) in H;
    [exact H| | |].
  - intros s. apply keeps_refl.
  - intros a b c. apply keeps_trans.
  - intros s a s'. apply group_item_step_keeps.
Qed.

Lemma put_loop_keeps (d : direction) (l : list pair) (st st' : state) :
  for_each
    (fun st p =>
       v <- getitem (kerning st) p ;;
       Ok (put d glyph_glyph_exceptions p v st)) l st = Ok st' ->
  keeps_inputs st st'.
Proof.
  apply (for_each_preserves _ keeps_inputs).
  - apply keeps_refl.
  - apply keeps_trans.
  - intros s a s' H. returned H. injection H as <-.
    apply keeps_put. reflexivity.
Qed.

Lemma exception_pairs_pass_keeps (g2g e r : list pair) (st st' : state) :
  exception_pairs_pass g2g e r st = Ok st' -> keeps_inputs st st'.
Proof.
  unfold exception_pairs_pass. intros H.
  match type of H with
  | bind ?m _ = _ => destruct m as [st1|] eqn:E1; [|discriminate]
  end.
  cbn [bind] in H. apply put_loop_keeps in E1, H.
  eapply keeps_trans; [apply keeps_set_exceptionPairs|].
  eapply keeps_trans; eassumption.
Qed.

Lemma glyph_glyph_step_keeps (st st' : state) (p : pair) :
  glyph_glyph_step st p = Ok st' -> keeps_inputs st st'.
Proof.
  unfold glyph_glyph_step. intros H.
  destruct (getitem (kerning st) (fst p, snd p)) as [value|]; [|discriminate].
  destruct (attr (grouped_left st)) as [gl|]; [|discriminate].
  destruct (attr (grouped_right st)) as [gr|]; [|discriminate].
  cbn [bind] in H.
  destruct (mem (fst p) gl || mem (snd p) gr); cbn [bind] in H.
  - injection H as <-. keeps_chain.
  - destruct (negb _ && negb _); cbn [bind] in H;
      injection H as <-; keeps_chain.
Qed.

Lemma glyph_glyph_pass_keeps (g2g : list pair) (st st' : state) :
  glyph_glyph_pass g2g st = Ok st' -> keeps_inputs st st'.
Proof.
  apply (for_each_preserves glyph_glyph_step keeps_inputs).
  - apply keeps_refl.
  - apply keeps_trans.
  - intros s a s'. apply glyph_glyph_step_keeps.
Qed.

(** After the first loop, [_findExceptions] changes neither the kerning nor
    the pre-defined exceptions. *)
Lemma findExceptions_keeps (st st' : state) :
  _findExceptions st = Ok st' ->
  exists st1, strip_pairs st = Ok st1 /\ keeps_inputs st1 st'.
Proof.
  unfold _findExceptions. intros H.
  destruct (strip_pairs st) as [st1|]; [|discriminate]. cbn [bind] in H.
  exists st1. split; [reflexivity|].
  destruct (filter_r is_glyph_2_glyph _) as [g2g|]; [|discriminate].
  cbn [bind] in H.
  destruct (filter_r is_glyph_2_group _) as [g2grp|]; [|discriminate].
  cbn [bind] in H.
  destruct (filter_r is_group_2_item _) as [g2i|]; [|discriminate].
  cbn [bind] in H.
  destruct (glyph_group_pass _ _ st1) as [st2|] eqn:E2; [|discriminate].
  cbn [bind] in H.
  destruct (group_item_pass _ st2) as [[[st3 e] r]|] eqn:E3; [|discriminate].
  cbn [bind] in H.
  destruct (exception_pairs_pass _ e r st3) as [st4|] eqn:E4; [|discriminate].
  cbn [bind] in H.
  apply glyph_group_pass_keeps in E2. apply group_item_pass_keeps in E3.
  apply exception_pairs_pass_keeps in E4. apply glyph_glyph_pass_keeps in H.
  cbn [fst] in E3.
  eapply keeps_trans; [exact E2|]. eapply keeps_trans; [exact E3|].
  eapply keeps_trans; eassumption.
Qed.
End Passes.

(* ------------------------------------------------------------------ *)
(** ** Pre-defined exceptions *)






(* ------------------------------------------------------------------ *)
(** ** The member-override check of glyph-to-group pairs *)

Section MemberCheck.
Import KernProcessor.

Lemma bucket_put_same (d : direction) (c : category) (p : pair) (v : value)
      (st : state) :
  bucket (put d c p v st) d c = dict_set (bucket st d c) p v.
Proof. cbn. now destruct d, c. Qed.

Variable glyph_2_glyph : list pair.
Variable isRTLpair : bool.
Variable glyph : string.

(** The pairs the loop over [groupList] looks at and finds among the
    glyph-to-glyph pairs. *)
Let checked (l : list string) (q : pair) : bool :=
  key_eqb (fst q) glyph && mem (snd q) l && mem q glyph_2_glyph.

Lemma member_loop_spec (l : list string) :
  forall (v : value) (st : state),
    (forall q, In q glyph_2_glyph -> dict_get (kerning st) q <> None) ->
    exists v' st',
      for_each (member_step glyph_2_glyph isRTLpair glyph) l (v, st)
      = Ok (v', st') /\
      kerning st' = kerning st /\
      (forall q,
          dict_get (bucket st' (dir_of isRTLpair) glyph_glyph_exceptions) q
          = if checked l q then dict_get (kerning st) q
            else dict_get (bucket st (dir_of isRTLpair)
                                  glyph_glyph_exceptions) q).
Proof.
  induction l as [|m l IH]; intros v st Hkeys.
  - exists v, st. cbn [for_each]. repeat split.
    intros q. unfold checked. cbn. now rewrite andb_false_r.
  - cbn [for_each]. unfold member_step at 1. cbn [snd].
    assert (Hcond : forall q st1,
               kerning st1 = kerning st ->
               (if mem (K:=pair) (glyph, m) glyph_2_glyph
                then dict_get (bucket st1 (dir_of isRTLpair)
                                      glyph_glyph_exceptions) q
                     = if key_eqb q (glyph, m) then dict_get (kerning st) q
                       else dict_get (bucket st (dir_of isRTLpair)
                                             glyph_glyph_exceptions) q
                else bucket st1 = bucket st) ->
               (if checked l q then dict_get (kerning st1) q
                else dict_get (bucket st1 (dir_of isRTLpair)
                                      glyph_glyph_exceptions) q)
               = if checked (m :: l) q then dict_get (kerning st) q
                 else dict_get (bucket st (dir_of isRTLpair)
                                       glyph_glyph_exceptions) q).
    { intros q st1 Hk1 Hb1. unfold checked. rewrite mem_cons, Hk1.
      destruct (key_eqb_spec q (glyph, m)) as [->|Hne].
      - cbn [fst snd]. rewrite !key_eqb_refl. cbn [andb orb].
        destruct (mem (K:=pair) (glyph, m) glyph_2_glyph).
        + rewrite Hb1. now destruct (mem m l).
        + rewrite Hb1. now rewrite !andb_false_r.
      - assert (Hsame : key_eqb (fst q) glyph && key_eqb (snd q) m = false).
        { destruct q as [a b]. cbn [fst snd].
          destruct (key_eqb_spec a glyph) as [->|]; [|reflexivity].
          destruct (key_eqb_spec b m) as [->|]; [congruence|reflexivity]. }
        assert (Hc : key_eqb (fst q) glyph && (key_eqb (snd q) m || mem (snd q) l)
                     = key_eqb (fst q) glyph && mem (snd q) l).
        { destruct (key_eqb (fst q) glyph); [|reflexivity].
          cbn in Hsame |- *. now rewrite Hsame. }
        rewrite Hc.
        destruct (mem (K:=pair) (glyph, m) glyph_2_glyph); now rewrite Hb1. }
    destruct (mem (K:=pair) (glyph, m) glyph_2_glyph) eqn:Em.
    + destruct (dict_get (kerning st) (glyph, m)) as [w|] eqn:Ew.
      2:{ apply mem_In in Em. now apply Hkeys in Em. }
      unfold getitem. rewrite Ew. cbn [bind].
      destruct (IH w (put (dir_of isRTLpair) glyph_glyph_exceptions
                          (glyph, m) w st) Hkeys)
        as (v' & st' & Hloop & Hk & Hb).
      exists v', st'. split; [exact Hloop|]. split; [exact Hk|].
      intros q. rewrite Hb. apply Hcond; [reflexivity|].
      rewrite bucket_put_same, dict_get_set.
      destruct (key_eqb_spec q (glyph, m)) as [->|]; [now rewrite Ew|reflexivity].
    + destruct (IH v st Hkeys) as (v' & st' & Hloop & Hk & Hb).
      exists v', st'. split; [exact Hloop|]. split; [exact Hk|].
      intros q. rewrite Hb. now apply Hcond.
Qed.
End MemberCheck.

(** C5, as stated, fails: for a glyph-to-group pair whose glyph is grouped on
    the left the loop over the members of the group is not run, and the
    glyph-to-glyph pair of the glyph and a member reaches no exception
    dictionary in this step. *)
Lemma member_check_skipped_when_grouped_left :
  let groups := [("@MMK_L_A", ["x"]); ("@MMK_R_B", ["b"])] in
  let kerning :=
    [(("x", "@MMK_R_B"), VInt 5); (("x", "b"), VInt 7);
     (("@MMK_L_A", "q"), VInt 3)] in
  let base := KernProcessor.new_state [] groups kerning in
  let st := KernProcessor.set_grouped ["x"] ["b"] base in
  KernProcessor._getAllGroupedGlyphs base KernProcessor.left = Ok ["x"] /\
  KernProcessor._getAllGroupedGlyphs base KernProcessor.right = Ok ["b"] /\
  exists st',
    KernProcessor.glyph_group_step [("x", "b")] st ("x", "@MMK_R_B") = Ok st' /\
    KernProcessor.bucket st' KernProcessor.LTR
                         KernProcessor.glyph_group_exceptions
    = [(("x", "@MMK_R_B"), VInt 5)] /\
    KernProcessor.bucket st' KernProcessor.LTR
                         KernProcessor.glyph_glyph_exceptions = [] /\
    KernProcessor.bucket st' KernProcessor.RTL
                         KernProcessor.glyph_glyph_exceptions = [].
Proof.
  split; [reflexivity|]. split; [reflexivity|].
  eexists. split; [vm_compute; reflexivity|]. repeat split; reflexivity.
Qed.

(** The step of a glyph-to-group pair (glyph, group): where the glyph is
    not grouped on the left, every pair (glyph, member) for a member of the
    group that is among the glyph-to-glyph pairs is stored with its own
    value in [glyph_glyph_exceptions], or in the RTL sibling when the
    glyph-to-group pair passes the RTL test; where the glyph is grouped on
    the left the members are not looked at, and the step leaves both
    dictionaries as they are. *)
Lemma glyph_group_step_members
        (glyph_2_glyph : list pair) (st : KernProcessor.state)
        (glyph group : string) (v : value) (groupList gl : list string) :
  dict_get (KernProcessor.kerning st) (glyph, group) = Some v ->
  dict_get (KernProcessor.groups st) group = Some groupList ->
  KernProcessor.grouped_left st = Some gl ->
  (forall q, In q glyph_2_glyph ->
             dict_get (KernProcessor.kerning st) q <> None) ->
  exists st',
    KernProcessor.glyph_group_step glyph_2_glyph st (glyph, group) = Ok st' /\
    (mem glyph gl = false ->
     forall member,
       In member groupList -> In (glyph, member) glyph_2_glyph ->
       dict_get
         (KernProcessor.bucket
            st'
            (KernProcessor.dir_of
               (KernProcessor._isRTL (KernProcessor.reference_groups st)
                                     (glyph, group)))
            KernProcessor.glyph_glyph_exceptions)
         (glyph, member)
       = dict_get (KernProcessor.kerning st) (glyph, member)) /\
    (mem glyph gl = true ->
     forall d,
       KernProcessor.bucket st' d KernProcessor.glyph_glyph_exceptions
       = KernProcessor.bucket st d KernProcessor.glyph_glyph_exceptions).
Proof.
  intros Hv Hg Hgl Hkeys.
  unfold KernProcessor.glyph_group_step, getitem. cbn [fst snd].
  rewrite Hv, Hg, Hgl. cbn [bind attr].
  destruct (mem glyph gl) eqn:Egl.
  - eexists. split; [reflexivity|]. split; [discriminate|].
    intros _ d. cbn. now rewrite andb_false_r.
  - destruct (@member_loop_spec
                glyph_2_glyph
                (KernProcessor._isRTL (KernProcessor.reference_groups st)
                                      (glyph, group))
                glyph groupList v st Hkeys)
      as (v' & st1 & Hloop & Hk & Hb).
    rewrite Hloop. cbn [bind].
    assert (Hin : forall member,
               In member groupList -> In (glyph, member) glyph_2_glyph ->
               dict_get
                 (KernProcessor.bucket
                    st1
                    (KernProcessor.dir_of
                       (KernProcessor._isRTL
                          (KernProcessor.reference_groups st) (glyph, group)))
                    KernProcessor.glyph_glyph_exceptions)
                 (glyph, member)
               = dict_get (KernProcessor.kerning st) (glyph, member)).
    { intros member Hm Hq. rewrite Hb. cbn [fst snd].
      rewrite key_eqb_refl.
      assert (Hq' : mem (K:=pair) (glyph, member) glyph_2_glyph = true)
        by (apply mem_In; exact Hq).
      apply mem_In in Hm. now rewrite Hm, Hq'. }
    destruct (is_zero v'); eexists; (split; [reflexivity|]);
      (split; [|discriminate]); intros _ member Hm Hq;
      rewrite <- (Hin member Hm Hq).
    + reflexivity.
    + cbn. now rewrite andb_false_r.
Qed.

(* ------------------------------------------------------------------ *)
(** ** Glyph names stay glyph names under remapping *)

Section RemapGlyph.
Import KernProcessor.

(** Where the text before the first dot has no ["@"], replacing a string by
    one that starts with ["@"] leaves that text as it is. *)
Lemma split_head_replace (old new' t x : string) :
  contains "@" t = false ->
  split_head "." (replace old (String "@" new') x) = t ->
  split_head "." x = t.
Proof.
  unfold replace. revert t.
  induction x as [|c x IH]; intros t Ht; [trivial|].
  cbn [replace_from].
  destruct (startswith old (String c x)).
  - cbn. intros <-. cbn in Ht. discriminate.
  - cbn [split_head]. destruct (Ascii.eqb c "."); [trivial|].
    destruct t as [|c' t]; [discriminate|].
    intros [= -> Hrest]. f_equal. apply IH; [|assumption].
    cbn in Ht. apply orb_false_iff in Ht as [_ Ht]. exact Ht.
Qed.

Lemma startswith_public (x : string) :
  startswith "public." x = true -> split_head "." x = "public".
Proof.
  intros H.
  repeat (destruct x as [|? x]; [discriminate H|];
          cbn [startswith] in H;
          apply andb_true_iff in H as [Hc H];
          apply Ascii.eqb_eq in Hc; subst).
  reflexivity.
Qed.

Lemma startswith_app (p q x : string) :
  startswith (p ++ q)%string x = true -> startswith p x = true.
Proof.
  revert x. induction p as [|a p IH]; intros x; cbn; [trivial|].
  destruct x as [|b x]; [trivial|].
  intros H. apply andb_true_iff in H as [-> H]. cbn. now apply IH.
Qed.

Lemma isGroup_false_inv (x : string) :
  _isGroup x = Ok false ->
  exists a s, x = String a s /\ Ascii.eqb a "@" = false /\
              split_head "." x <> "public".
Proof.
  unfold _isGroup. destruct x as [|a s]; [discriminate|].
  destruct (Ascii.eqb a "@") eqn:Ea; [discriminate|].
  destruct (String.eqb_spec (split_head "." (String a s)) "public");
    [discriminate|].
  intros _. eauto.
Qed.

Lemma isGroup_false_intro (a : ascii) (s : string) :
  Ascii.eqb a "@" = false ->
  split_head "." (String a s) <> "public" ->
  _isGroup (String a s) = Ok false.
Proof.
  intros Ea Hs. unfold _isGroup. rewrite Ea.
  destruct (String.eqb_spec (split_head "." (String a s)) "public");
    [contradiction|reflexivity].
Qed.

Lemma remap_glyph_name (x : string) :
  _isGroup x = Ok false -> _isGroup (_remap_group_name x) = Ok false.
Proof.
  intros Hx. pose proof Hx as Hx'.
  apply isGroup_false_inv in Hx' as (a & s & -> & Ea & Hhead).
  assert (Hrep : forall kern new',
             (exists y, replace ("public." ++ kern)%string "" (String a s)
                        = String a y) /\
             _isGroup (replace ("public." ++ kern)%string
                               (String "@" new') (String a s)) = Ok false).
  { intros kern new'. split.
    - unfold replace. cbn [replace_from].
      destruct (startswith ("public." ++ kern)%string (String a s)) eqn:E;
        [|eauto].
      apply startswith_app in E. apply startswith_public in E. contradiction.
    - assert (Hy : exists y, replace ("public." ++ kern)%string
                                     (String "@" new') (String a s)
                             = String a y).
      { unfold replace. cbn [replace_from].
        destruct (startswith ("public." ++ kern)%string (String a s)) eqn:E;
          [|eauto].
        apply startswith_app in E. apply startswith_public in E.
        contradiction. }
      destruct Hy as (y & Hy). rewrite Hy.
      apply isGroup_false_intro; [assumption|].
      intros Hpub. apply Hhead.
      apply (@split_head_replace ("public." ++ kern)%string new' "public");
        [reflexivity|].
      now rewrite Hy. }
  unfold _remap_group_name.
  destruct (contains "public.kern1." (String a s)).
  - destruct (Hrep "kern1." "MMK_L_") as ((y & Hy) & Hgroup).
    change ("public." ++ "kern1.")%string with "public.kern1." in *.
    change (String "@" "MMK_L_") with "@MMK_L_" in *.
    rewrite Hy.
    replace (startswith "@MMK_L_" (String a y)) with false; [exact Hgroup|].
    cbn [startswith]. now rewrite Ascii.eqb_sym, Ea.
  - destruct (contains "public.kern2." (String a s)); [|assumption].
    destruct (Hrep "kern2." "MMK_R_") as ((y & Hy) & Hgroup).
    change ("public." ++ "kern2.")%string with "public.kern2." in *.
    change (String "@" "MMK_R_") with "@MMK_R_" in *.
    rewrite Hy.
    replace (startswith "@MMK_R_" (String a y)) with false; [exact Hgroup|].
    cbn [startswith]. now rewrite Ascii.eqb_sym, Ea.
Qed.
End RemapGlyph.

(* ------------------------------------------------------------------ *)
(** ** Kerning without groups *)

Lemma filter_all {A : Type} (l : list A) : filter (fun _ => true) l = l.
Proof. induction l as [|a l IH]; cbn; congruence. Qed.

Lemma filter_none {A : Type} (l : list A) : filter (fun _ => false) l = [].
Proof. induction l as [|a l IH]; cbn; congruence. Qed.

Lemma sorted_nonempty {A : Type} (leb : A -> A -> bool) (l : list A) :
  l <> [] -> exists a rest, sorted leb l = a :: rest /\ In a l.
Proof.
  intros Hl. destruct (sorted leb l) as [|a rest] eqn:E.
  - exfalso. apply Hl. apply Permutation_nil.
    rewrite <- E. apply sorted_perm.
  - exists a, rest. split; [reflexivity|].
    apply (In_sorted leb). rewrite E. now left.
Qed.

Section NoGroups.
Import KernProcessor.

Lemma get_used_groups_none (kerning : dict pair value) :
  (forall p, In p (dict_keys kerning) -> glyph_pair p) ->
  _get_used_groups kerning = Ok [].
Proof.
  intros Hg. unfold _get_used_groups.
  assert (Hloop : forall l acc,
             (forall p, In p l -> glyph_pair p) ->
             for_each
               (fun groupList (p : pair) =>
                  l <- _isGroup (fst p) ;;
                  let groupList :=
                    if l then groupList ++ [fst p] else groupList in
                  r <- _isGroup (snd p) ;;
                  Ok (if r then groupList ++ [snd p] else groupList))
               l acc = Ok acc).
  { induction l as [|p l IH]; intros acc Hl; cbn [for_each]; [reflexivity|].
    destruct (Hl p (or_introl eq_refl)) as [-> ->]. cbn [bind].
    apply IH. intros q Hq. apply Hl. now right. }
  rewrite Hloop by assumption. reflexivity.
Qed.

Lemma remap_kerning_wf (kerning : dict pair value) :
  wf_dict (_remap_kerning kerning).
Proof.
  unfold _remap_kerning.
  apply (wf_dict_fold_set
           (fun pv : pair * value =>
              (_remap_group_name (fst (fst pv)),
               _remap_group_name (snd (fst pv))))
           (@snd pair value)).
  constructor.
Qed.

Lemma remap_kerning_glyph_pairs (kerning : dict pair value) :
  (forall p, In p (dict_keys kerning) -> glyph_pair p) ->
  forall p, In p (dict_keys (_remap_kerning kerning)) -> glyph_pair p.
Proof.
  intros Hg p Hp. unfold _remap_kerning in Hp.
  apply (dict_keys_fold_set
           (fun pv : pair * value =>
              (_remap_group_name (fst (fst pv)),
               _remap_group_name (snd (fst pv))))
           (@snd pair value)) in Hp.
  destruct Hp as [[]|Hp].
  apply in_map_iff in Hp as ([q w] & <- & Hq). cbn [fst snd].
  destruct (Hg q) as [Hl Hr].
  { unfold dict_keys. apply in_map_iff. exists (q, w). auto. }
  split; now apply remap_glyph_name.
Qed.

(** Without grouped glyphs the last pass raises at its first pair. *)
Lemma glyph_glyph_pass_unset (st : state) (p : pair) (l : list pair) :
  In p (dict_keys (kerning st)) -> grouped_left st = None ->
  glyph_glyph_pass (p :: l) st = Raise AttributeError.
Proof.
  intros Hp Hgl. unfold glyph_glyph_pass. cbn [for_each].
  unfold glyph_glyph_step. destruct p as [a b]. cbn [fst snd].
  destruct (In_key_get _ _ Hp) as (v & Hv).
  unfold getitem. rewrite Hv, Hgl. reflexivity.
Qed.

Lemma findExceptions_no_groups (st : state) :
  wf_dict (kerning st) ->
  grouped_left st = None ->
  (forall p, In p (dict_keys (kerning st)) -> glyph_pair p) ->
  (exists p, In p (dict_keys (kerning st)) /\ stripped p = false) ->
  _findExceptions st = Raise AttributeError.
Proof.
  intros Hwf Hgl Hglyph (p & Hp & Hkept).
  destruct (strip_pairs_spec st Hwf)
    as (st1 & Hstrip & Hk & (_ & _ & Hgl1 & _) & _).
  unfold _findExceptions. rewrite Hstrip. cbn [bind].
  assert (Hsub : forall q, In q (dict_keys (kerning st1)) ->
                           In q (dict_keys (kerning st))).
  { intros q Hq. rewrite Hk in Hq. unfold dict_keys in *.
    apply in_map_iff in Hq as (x & <- & Hx). apply filter_In in Hx as [Hx _].
    now apply in_map. }
  assert (Hp1 : In p (dict_keys (kerning st1))).
  { rewrite Hk. unfold dict_keys in *.
    apply in_map_iff in Hp as ([q w] & Hq & Hin). cbn [fst] in Hq. subst q.
    apply in_map_iff. exists (p, w). split; [reflexivity|].
    apply filter_In. split; [assumption|]. cbn [fst]. now rewrite Hkept. }
  rewrite (@filter_r_total _ is_glyph_2_glyph (fun _ => true)).
  2:{ intros q Hq. destruct (Hglyph q (Hsub q Hq)) as [Hl Hr].
      unfold is_glyph_2_glyph. now rewrite Hl, Hr. }
  rewrite (@filter_r_total _ is_glyph_2_group (fun _ => false)).
  2:{ intros q Hq. destruct (Hglyph q (Hsub q Hq)) as [Hl Hr].
      unfold is_glyph_2_group. now rewrite Hl, Hr. }
  rewrite (@filter_r_total _ is_group_2_item (fun _ => false)).
  2:{ intros q Hq. destruct (Hglyph q (Hsub q Hq)) as [Hl Hr].
      unfold is_group_2_item. now rewrite Hl. }
  rewrite filter_all, !filter_none. cbn [bind].
  destruct (@sorted_nonempty _ pair_leb (dict_keys (kerning st1)))
    as (p0 & rest & Hsorted & Hp0).
  { intros Hnil. rewrite Hnil in Hp1. destruct Hp1. }
  unfold sorted_pairs. rewrite Hsorted.
  change (sorted pair_leb []) with (@nil pair).
  unfold glyph_group_pass, group_item_pass. cbn [for_each bind].
  unfold exception_pairs_pass. cbn [to_set set_update fold_left filter].
  cbn [for_each bind].
  apply glyph_glyph_pass_unset; [exact Hp0|].
  cbn. now rewrite Hgl1.
Qed.
End NoGroups.

(** C10, as stated, fails: a kerning without groups all of whose pairs are
    dropped by the first loop of [_findExceptions] is classified without an
    exception; no glyph-to-glyph pair is left to read [grouped_left]. *)
Lemma ignored_glyph_pair_raises_nothing :
  let kerning := [(("a.cxt", "b"), VInt 7)] in
  KernProcessor.sanitize_kerning [] kerning = Ok kerning /\
  KernProcessor._isGroup "a.cxt" = Ok false /\
  KernProcessor._isGroup "b" = Ok false /\
  exists st,
    KernProcessor.__init__ [] kerning false = Ok st /\
    KernProcessor.grouped_left st = None /\
    KernProcessor.kerning st = [].
Proof.
  repeat (split; [reflexivity|]).
  eexists. split; [vm_compute; reflexivity|]. split; reflexivity.
Qed.

(** C10, amended: if the sanitized kerning contains no pair referencing a
    group name (every item is a glyph name) and, once its names are
    remapped, at least one of its pairs is kept by the first loop of
    [_findExceptions] (the left item has no ignore tag and neither item has
    the exception tag), then [KernProcessor] raises [AttributeError]:
    [grouped_left] and [grouped_right] are not assigned, and the pass over
    the glyph-to-glyph pairs reads them. *)
Theorem glyph_only_kerning_raises
        (groups : dict string (list string)) (kerning sanitized : dict pair value)
        (option_dissolve : bool) :
  KernProcessor.sanitize_kerning groups kerning = Ok sanitized ->
  (forall p, In p (dict_keys sanitized) ->
             KernProcessor._isGroup (fst p) = Ok false /\
             KernProcessor._isGroup (snd p) = Ok false) ->
  (exists p, In p (dict_keys (KernProcessor._remap_kerning sanitized)) /\
             KernProcessor.stripped p = false) ->
  KernProcessor.__init__ groups kerning option_dissolve = Raise AttributeError.
Proof.
  intros Hsan Hglyph Hkept. unfold KernProcessor.__init__.
  rewrite Hsan. cbn [bind].
  rewrite (get_used_groups_none sanitized Hglyph). cbn [bind].
  cbn [KernProcessor.used_groups_of for_each bind].
  rewrite findExceptions_no_groups; [reflexivity| | | |].
  - apply remap_kerning_wf.
  - reflexivity.
  - apply remap_kerning_glyph_pairs. exact Hglyph.
  - exact Hkept.
Qed.

Lemma glyph_only_kerning_raises_witness :
  KernProcessor.__init__ [] [(("a", "b"), VInt 7)] false
  = Raise AttributeError.
Proof.
  apply (@glyph_only_kerning_raises [] [(("a", "b"), VInt 7)]
                                    [(("a", "b"), VInt 7)] false eq_refl).
  - intros p [<-|[]]. split; reflexivity.
  - exists ("a", "b"). split; [now left|reflexivity].
Defined.

(* ------------------------------------------------------------------ *)
(** ** The used groups are groups of the font *)

Section UsedGroups.
Import KernProcessor.
Variable groups : dict string (list string).
Variables kerning sanitized : dict pair value.
Hypothesis sanitized_eq : sanitize_kerning groups kerning = Ok sanitized.

(** A group name that a sanitized pair refers to is a key of [groups]. *)
Lemma sanitized_group_defined (p : pair) (item : string) :
  In p (dict_keys sanitized) -> item = fst p \/ item = snd p ->
  _isGroup item = Ok true -> dict_mem groups item = true.
Proof.
  intros Hp Hitem Hgroup. pose proof sanitized_eq as Hs.
  unfold sanitize_kerning in Hs.
  destruct (filter_r _isGroup _) as [all_kerned_groups|] eqn:Ef;
    [|discriminate].
  cbn [bind] in Hs. injection Hs as <-.
  unfold dict_keys in Hp. apply in_map_iff in Hp as ([q v] & Hq & Hin).
  cbn [fst] in Hq. subst q. apply filter_In in Hin as [Hin Hgood].
  cbn [fst] in Hgood. apply negb_true_iff, orb_false_iff in Hgood.
  destruct (dict_mem groups item) eqn:Em; [reflexivity|exfalso].
  assert (Hbad : mem item
                     (filter (fun g => negb (dict_mem groups g))
                             (to_set all_kerned_groups)) = true).
  { apply mem_In, filter_In. split; [|now rewrite Em].
    apply In_to_set. apply (filter_r_returned _ _ Ef); [|assumption].
    apply In_to_set, in_flat_map. exists p. split.
    - unfold dict_keys. apply in_map_iff. exists (p, v). auto.
    - cbn. destruct Hitem as [->| ->]; auto. }
  destruct Hitem as [->| ->]; destruct Hgood; congruence.
Qed.

(** [groups.get] finds every used group: the comprehension that builds
    [used_groups] stores no [None]. *)
Lemma used_groups_defined (used_group_names : list string) :
  _get_used_groups sanitized = Ok used_group_names ->
  exists used_groups, used_groups_of groups used_group_names = Ok used_groups.
Proof.
  unfold _get_used_groups. intros Hused.
  set (body := fun groupList (p : pair) =>
                 l <- _isGroup (fst p) ;;
                 let groupList :=
                   if l then groupList ++ [fst p] else groupList in
                 r <- _isGroup (snd p) ;;
                 Ok (if r then groupList ++ [snd p] else groupList)) in *.
  destruct (for_each body (dict_keys sanitized) []) as [groupList|] eqn:Eloop;
    [|discriminate].
  cbn [bind] in Hused. injection Hused as <-.
  assert (Hdefined : forall g, In g groupList -> dict_mem groups g = true).
  { apply (for_each_returned
             body (fun acc => forall g, In g acc -> dict_mem groups g = true)
             (dict_keys sanitized)) with (s := []); [|intros g []|exact Eloop].
    intros acc p acc' Hp Hacc Hbody g Hg. unfold body in Hbody.
    destruct (_isGroup (fst p)) as [l|] eqn:El; [|discriminate].
    cbn [bind] in Hbody.
    destruct (_isGroup (snd p)) as [r|] eqn:Er; [|discriminate].
    cbn [bind] in Hbody. injection Hbody as <-.
    assert (Hfst : l = true -> dict_mem groups (fst p) = true).
    { intros ->. eapply sanitized_group_defined; eauto. }
    assert (Hsnd : r = true -> dict_mem groups (snd p) = true).
    { intros ->. eapply sanitized_group_defined; eauto. }
    destruct r; [apply in_app_iff in Hg as [Hg|[<-|[]]]; [|now apply Hsnd]|];
      (destruct l; [apply in_app_iff in Hg as [Hg|[<-|[]]];
                    [|now apply Hfst]|]); now apply Hacc. }
  unfold used_groups_of.
  destruct (for_each_invariant
              (fun used g_name =>
                 match dict_get groups g_name with
                 | Some glyph_list => Ok (dict_set used g_name glyph_list)
                 | None => Raise TypeError
                 end)
              (fun _ : dict string (list string) => True)
              (sorted_names (to_set groupList)))
    with (s := @nil (string * list string)) as (used & Hloop & _);
    [|trivial|eauto].
  intros used g Hg _. unfold sorted_names in Hg.
  apply In_sorted, In_to_set, Hdefined in Hg.
  unfold dict_mem in Hg. destruct (dict_get groups g); [eauto|discriminate].
Qed.
End UsedGroups.

(* ================================================================== *)
(** * Further properties of the code *)

(* ------------------------------------------------------------------ *)
(** ** Remapping keeps groups groups *)

Section RemapGroup.
Import KernProcessor.

Lemma replace_cons (old new : string) (c : ascii) (s : string) :
  replace old new (String c s)
  = if startswith old (String c s)
    then (new ++ replace_from old new (String.length old - 1) s)%string
    else String c (replace old new s).
Proof. reflexivity. Qed.

Lemma split_head_public_inv (x : string) :
  split_head "." x = "public" ->
  x = "public" \/ exists r, x = ("public." ++ r)%string.
Proof.
  intros H.
  do 6 (destruct x as [|c x]; [discriminate H|];
        cbn [split_head] in H;
        destruct (Ascii.eqb c "."); [discriminate H|];
        injection H as -> H).
  destruct x as [|c x]; [now left|]. cbn [split_head] in H.
  destruct (Ascii.eqb_spec c "."); [|discriminate H].
  subst c. right. now exists x.
Qed.

Lemma isGroup_display (p y : string) :
  startswith (String "@" p) y = true -> _isGroup y = Ok true.
Proof.
  destruct y as [|c y]; [discriminate|]. cbn [startswith].
  intros H. apply andb_true_iff in H as [Hc _].
  apply Ascii.eqb_eq in Hc. now subst c.
Qed.

(** A name that starts with ["@"] keeps its first character. *)
Lemma remap_at (s : string) :
  _isGroup (_remap_group_name (String "@" s)) = Ok true.
Proof.
  unfold _remap_group_name.
  destruct (contains "public.kern1." (String "@" s)).
  - destruct (startswith "@MMK_L_" _) eqn:E.
    + eapply isGroup_display, E.
    + reflexivity.
  - destruct (contains "public.kern2." (String "@" s)); [|reflexivity].
    destruct (startswith "@MMK_R_" _) eqn:E.
    + eapply isGroup_display, E.
    + reflexivity.
Qed.

(** A name that starts with ["public."] either loses a storage prefix at its
    front for a display prefix, or keeps its front. *)
Lemma remap_public_dot (r : string) :
  _isGroup (_remap_group_name ("public." ++ r)%string) = Ok true.
Proof.
  unfold _remap_group_name.
  destruct (contains "public.kern1." ("public." ++ r)%string).
  - destruct (startswith "@MMK_L_" _) eqn:E.
    + eapply isGroup_display, E.
    + change (replace "public.kern1." "@MMK_L_" ("public." ++ r)%string)
        with (if startswith "kern1." r
              then ("@MMK_L_"
                      ++ replace_from "public.kern1." "@MMK_L_" 6 r)%string
              else ("public." ++ replace "public.kern1." "@MMK_L_" r)%string).
      now destruct (startswith "kern1." r).
  - destruct (contains "public.kern2." ("public." ++ r)%string); [|reflexivity].
    destruct (startswith "@MMK_R_" _) eqn:E.
    + eapply isGroup_display, E.
    + change (replace "public.kern2." "@MMK_R_" ("public." ++ r)%string)
        with (if startswith "kern2." r
              then ("@MMK_R_"
                      ++ replace_from "public.kern2." "@MMK_R_" 6 r)%string
              else ("public." ++ replace "public.kern2." "@MMK_R_" r)%string).
      now destruct (startswith "kern2." r).
Qed.

Lemma remap_group_stays (x : string) :
  _isGroup x = Ok true -> _isGroup (_remap_group_name x) = Ok true.
Proof.
  unfold _isGroup at 1. destruct x as [|c s]; [discriminate|].
  destruct (Ascii.eqb_spec c "@") as [->|Hc].
  - intros _. apply remap_at.
  - destruct (String.eqb_spec (split_head "." (String c s)) "public")
      as [Hpub|]; [|discriminate].
    intros _. apply split_head_public_inv in Hpub as [->|(r & ->)].
    + reflexivity.
    + apply remap_public_dot.
Qed.
End RemapGroup.

(** X1: remapping a name never changes what [_isGroup] answers for it: a
    group name stays a group name, a glyph name stays a glyph name, and the
    empty name, on which [_isGroup] raises [IndexError], stays empty. *)
Theorem remap_group_name_keeps_isGroup (x : string) :
  KernProcessor._isGroup (_remap_group_name x) = KernProcessor._isGroup x.
Proof.
  destruct (KernProcessor._isGroup x) as [[|]|e] eqn:E.
  - now apply remap_group_stays.
  - now apply remap_glyph_name.
  - destruct x as [|c s]; [rewrite <- E; reflexivity|].
    unfold KernProcessor._isGroup in E.
    destruct (Ascii.eqb c "@"); [discriminate|].
    destruct (String.eqb _ "public"); discriminate.
Qed.

(* ------------------------------------------------------------------ *)
(** ** Sanitizing the kerning *)

Lemma filter_r_In {A : Type} (cond : A -> result bool) (l r : list A) :
  filter_r cond l = Ok r ->
  forall a, In a r <-> In a l /\ cond a = Ok true.
Proof.
  revert r. induction l as [|x l IH]; intros r; cbn.
  - intros [= <-] a. cbn. tauto.
  - destruct (cond x) as [b|] eqn:Ex; cbn; [|discriminate].
    destruct (filter_r cond l) as [r'|]; cbn; [|discriminate].
    intros [= <-] a. specialize (IH r' eq_refl a).
    destruct b; cbn; rewrite ?IH; intuition (subst; congruence).
Qed.

Lemma filter_r_raises {A : Type} (cond : A -> result bool) (l : list A)
      (a : A) (e : exn) :
  In a l -> cond a = Raise e ->
  (forall b e', In b l -> cond b = Raise e' -> e' = e) ->
  filter_r cond l = Raise e.
Proof.
  induction l as [|x l IH]; intros Hin Ha Hall; [destruct Hin|]. cbn.
  destruct (cond x) as [b|e'] eqn:Ex; cbn.
  - rewrite IH; [reflexivity| |assumption|].
    + destruct Hin as [->|Hin]; [congruence|assumption].
    + intros c e' Hc. apply Hall. now right.
  - f_equal. eapply Hall; [now left|exact Ex].
Qed.

Lemma filter_r_returns {A : Type} (cond : A -> result bool) (l : list A) :
  (forall a, In a l -> exists b, cond a = Ok b) ->
  exists r, filter_r cond l = Ok r.
Proof.
  induction l as [|x l IH]; intros Hall; cbn; [eauto|].
  destruct (Hall x (or_introl eq_refl)) as (b & ->). cbn.
  destruct IH as (r & ->); [intros a Ha; apply Hall; now right|].
  cbn. eauto.
Qed.

Section Sanitize.
Import KernProcessor.

Lemma isGroup_raises (x : string) (e : exn) :
  _isGroup x = Raise e -> x = "" /\ e = IndexError.
Proof.
  unfold _isGroup. destruct x as [|c s]; [intros [= <-]; auto|].
  destruct (Ascii.eqb c "@"); [discriminate|].
  destruct (String.eqb _ "public"); discriminate.
Qed.

Lemma isGroup_returns (x : string) :
  x <> "" -> exists b, _isGroup x = Ok b.
Proof.
  intros Hx. destruct (_isGroup x) as [b|e] eqn:E; [eauto|].
  apply isGroup_raises in E as [-> _]. contradiction.
Qed.

(** The items of the pairs: [all_kerned_items]. *)
Lemma In_kerned_items (kerning : dict pair value) (item : string) :
  In item (to_set (flat_map (fun p : pair => [fst p; snd p])
                            (dict_keys kerning))) <->
  exists p, In p (dict_keys kerning) /\ (item = fst p \/ item = snd p).
Proof.
  rewrite In_to_set, in_flat_map. split; intros (p & Hp & Hitem); exists p;
    (split; [assumption|]); cbn in *; intuition congruence.
Qed.

Variable groups : dict string (list string).
Variable kerning : dict pair value.

(** The pairs [sanitize_kerning] keeps, when it returns. *)
Lemma sanitize_returned (sanitized : dict pair value) :
  sanitize_kerning groups kerning = Ok sanitized ->
  exists bad_groups,
    sanitized
    = filter (fun pv : pair * value =>
                negb (mem (fst (fst pv)) bad_groups
                      || mem (snd (fst pv)) bad_groups)) kerning /\
    forall item,
      In item bad_groups <->
      (exists p, In p (dict_keys kerning) /\ (item = fst p \/ item = snd p)) /\
      _isGroup item = Ok true /\ dict_mem groups item = false.
Proof.
  unfold sanitize_kerning. intros Hs.
  destruct (filter_r _isGroup _) as [all_kerned_groups|] eqn:Ef;
    [|discriminate].
  cbn [bind] in Hs. injection Hs as <-.
  eexists. split; [reflexivity|]. intros item.
  rewrite filter_In, In_to_set, (filter_r_In _ _ Ef), In_kerned_items.
  rewrite negb_true_iff. tauto.
Qed.
End Sanitize.

(** X2: when [sanitize_kerning] returns, it has kept, in their order and
    with their values, exactly the pairs both of whose items are glyph names
    or names of groups that [groups] defines. *)
Theorem sanitize_kerning_keeps
        (groups : dict string (list string))
        (kerning sanitized : dict pair value) :
  KernProcessor.sanitize_kerning groups kerning = Ok sanitized ->
  (exists keep, sanitized = filter keep kerning) /\
  (forall p v,
      In (p, v) sanitized <->
      In (p, v) kerning /\
      forall item, item = fst p \/ item = snd p ->
                   KernProcessor._isGroup item = Ok true ->
                   dict_mem groups item = true).
Proof.
  intros Hs. destruct (sanitize_returned groups kerning Hs)
    as (bad_groups & -> & Hbad).
  split; [eauto|]. intros p v. rewrite filter_In. cbn [fst].
  rewrite negb_true_iff, orb_false_iff, !mem_not_In, !Hbad.
  assert (Hkey : In (p, v) kerning -> In p (dict_keys kerning)).
  { intros Hin. unfold dict_keys. apply in_map_iff. exists (p, v). auto. }
  split.
  - intros (Hin & Hl & Hr). split; [assumption|].
    intros item [->| ->] Hgroup.
    + destruct (dict_mem groups (fst p)) eqn:E; [reflexivity|].
      exfalso. apply Hl. split; [exists p; auto|auto].
    + destruct (dict_mem groups (snd p)) eqn:E; [reflexivity|].
      exfalso. apply Hr. split; [exists p; auto|auto].
  - intros (Hin & Hdef). split; [assumption|].
    split; intros (_ & Hgroup & Hmiss);
      rewrite Hdef in Hmiss by auto; discriminate.
Qed.

Lemma sanitize_kerning_keeps_witness :
  In (("a", "@MMK_R_B"), VInt 5)
     [(("a", "@MMK_R_B"), VInt 5); (("a", "@MMK_R_X"), VInt 6)] /\
  forall item, item = "a" \/ item = "@MMK_R_B" ->
               KernProcessor._isGroup item = Ok true ->
               dict_mem [("@MMK_R_B", ["b"])] item = true.
Proof.
  exact (proj1 (proj2 (@sanitize_kerning_keeps
                         [("@MMK_R_B", ["b"])]
                         [(("a", "@MMK_R_B"), VInt 5);
                          (("a", "@MMK_R_X"), VInt 6)]
                         [(("a", "@MMK_R_B"), VInt 5)] eq_refl)
                      ("a", "@MMK_R_B") (VInt 5)) (or_introl eq_refl)).
Defined.

Lemma empty_item_dec (l : list pair) :
  (exists p, In p l /\ (fst p = "" \/ snd p = "")) \/
  ~ (exists p, In p l /\ (fst p = "" \/ snd p = "")).
Proof.
  induction l as [|q l IH].
  - right. intros (p & [] & _).
  - destruct (string_dec (fst q) "") as [Hq|Hq];
      [left; exists q; cbn; auto|].
    destruct (string_dec (snd q) "") as [Hq'|Hq'];
      [left; exists q; cbn; auto|].
    destruct IH as [(p & Hp & He)|Hno].
    + left. exists p. cbn. auto.
    + right. intros (p & [<-|Hp] & He); [tauto|]. apply Hno. eauto.
Qed.

(** X3: [sanitize_kerning] raises exactly when an item of some pair is the
    empty string, and what it raises is then [IndexError] (from
    [itemName[0]] in [_isGroup]); a missing group raises nothing. *)
Theorem sanitize_kerning_raises
        (groups : dict string (list string)) (kerning : dict pair value) :
  (KernProcessor.sanitize_kerning groups kerning = Raise IndexError <->
   exists p, In p (dict_keys kerning) /\ (fst p = "" \/ snd p = "")) /\
  (forall e, KernProcessor.sanitize_kerning groups kerning = Raise e ->
             e = IndexError).
Proof.
  assert (Hsome : (exists p, In p (dict_keys kerning) /\
                             (fst p = "" \/ snd p = "")) ->
                  KernProcessor.sanitize_kerning groups kerning
                  = Raise IndexError).
  { intros (p & Hp & Hempty). unfold KernProcessor.sanitize_kerning.
    rewrite (@filter_r_raises _ KernProcessor._isGroup _ "" IndexError);
      [reflexivity| |reflexivity|].
    - apply In_kerned_items. exists p. split; [assumption|].
      destruct Hempty as [->| ->]; auto.
    - intros b e' _ Hb. now apply isGroup_raises in Hb. }
  assert (Hnone : ~ (exists p, In p (dict_keys kerning) /\
                               (fst p = "" \/ snd p = "")) ->
                  exists sanitized,
                    KernProcessor.sanitize_kerning groups kerning
                    = Ok sanitized).
  { intros Hno. unfold KernProcessor.sanitize_kerning.
    destruct (@filter_r_returns
                _ KernProcessor._isGroup
                (to_set (flat_map (fun p : pair => [fst p; snd p])
                                  (dict_keys kerning)))) as (r & ->).
    - intros item Hitem. apply isGroup_returns. intros ->.
      apply In_kerned_items in Hitem as (p & Hp & Hitem).
      apply Hno. exists p. split; [assumption|].
      destruct Hitem as [<-|<-]; auto.
    - cbn [bind]. eauto. }
  pose proof (empty_item_dec (dict_keys kerning)) as Hdec.
  split; [split; [|exact Hsome]|].
  - intros Hraise. destruct Hdec as [H|H]; [assumption|].
    destruct (Hnone H) as (sk & Hsk). congruence.
  - intros e Hraise. destruct Hdec as [H|H].
    + rewrite (Hsome H) in Hraise. congruence.
    + destruct (Hnone H) as (sk & Hsk). congruence.
Qed.

(* ------------------------------------------------------------------ *)
(** ** The used groups *)

Section UsedGroupNames.
Import KernProcessor.

Lemma used_groups_loop (l : list pair) :
  forall acc acc',
    for_each
      (fun groupList (p : pair) =>
         l <- _isGroup (fst p) ;;
         let groupList := if l then groupList ++ [fst p] else groupList in
         r <- _isGroup (snd p) ;;
         Ok (if r then groupList ++ [snd p] else groupList))
      l acc = Ok acc' ->
    forall g,
      In g acc' <->
      In g acc \/
      exists p, In p l /\ (g = fst p \/ g = snd p) /\ _isGroup g = Ok true.
Proof.
  induction l as [|p l IH]; intros acc acc'; cbn [for_each].
  - intros [= <-] g. split; [auto|]. intros [Hg|(p & [] & _)]. exact Hg.
  - destruct (_isGroup (fst p)) as [a|] eqn:Ea; [|discriminate].
    cbn [bind].
    destruct (_isGroup (snd p)) as [b|] eqn:Eb; [|discriminate].
    cbn [bind]. intros Hloop g. rewrite (IH _ _ Hloop g).
    assert (Hhead :
              In g (if b then (if a then acc ++ [fst p] else acc) ++ [snd p]
                    else if a then acc ++ [fst p] else acc) <->
              In g acc \/ (g = fst p /\ a = true) \/ (g = snd p /\ b = true)).
    { destruct a, b; rewrite ?in_app_iff; cbn; intuition congruence. }
    rewrite Hhead. split.
    + intros [[Hg|[[-> ->]|[-> ->]]]|(q & Hq & Hitem & Hgroup)].
      * now left.
      * right. exists p. split; [now left|]. split; [now left|exact Ea].
      * right. exists p. split; [now left|]. split; [now right|exact Eb].
      * right. exists q. split; [now right|]. split; assumption.
    + intros [Hg|(q & [<-|Hq] & Hitem & Hgroup)];
        [now left; left| |right; exists q; auto].
      left. right. destruct Hitem as [->| ->].
      * left. split; [reflexivity|congruence].
      * right. split; [reflexivity|congruence].
Qed.

Lemma get_used_groups_In (kerning : dict pair value) (names : list string) :
  _get_used_groups kerning = Ok names ->
  forall g,
    In g names <->
    exists p, In p (dict_keys kerning) /\ (g = fst p \/ g = snd p) /\
              _isGroup g = Ok true.
Proof.
  unfold _get_used_groups. intros Hused.
  destruct (for_each _ (dict_keys kerning) []) as [groupList|] eqn:Eloop;
    [|discriminate].
  cbn [bind] in Hused. injection Hused as <-. intros g.
  unfold sorted_names. rewrite In_sorted, In_to_set.
  rewrite (used_groups_loop _ _ Eloop g). cbn. tauto.
Qed.

Variable groups : dict string (list string).

(** The loop of [used_groups_of] over names that [groups] defines. *)
Lemma used_groups_of_loop (names : list string) :
  forall used,
    (forall g, In g names -> dict_mem groups g = true) ->
    NoDup (dict_keys used ++ names) ->
    for_each
      (fun used g_name =>
         match dict_get groups g_name with
         | Some glyph_list => Ok (dict_set used g_name glyph_list)
         | None => Raise TypeError
         end)
      names used
    = Ok (used ++ map (fun g => (g, dict_get_default groups g [])) names).
Proof.
  induction names as [|g names IH]; intros used Hdef Hnd; cbn [for_each map].
  - now rewrite app_nil_r.
  - pose proof (Hdef g (or_introl eq_refl)) as Hg.
    unfold dict_mem in Hg. unfold dict_get_default at 1.
    destruct (dict_get groups g) as [glyphs|]; [|discriminate].
    cbn [bind]. rewrite dict_set_fresh.
    + rewrite IH.
      * now rewrite <- app_assoc.
      * intros x Hx. apply Hdef. now right.
      * unfold dict_keys in *. rewrite map_app. cbn.
        now rewrite <- app_assoc.
    + apply NoDup_remove_2 in Hnd. rewrite in_app_iff in Hnd. tauto.
Qed.
End UsedGroupNames.

Lemma used_groups_from_nil (groups : dict string (list string))
      (names : list string) :
  KernProcessor.used_groups_of groups names = Ok [] -> names = [].
Proof.
  unfold KernProcessor.used_groups_of. destruct names as [|g names];
    [reflexivity|].
  cbn [for_each]. destruct (dict_get groups g) as [glyphs|]; [|discriminate].
  cbn [bind dict_set]. intros Hloop. exfalso.
  apply (for_each_returned
           (fun used g_name =>
              match dict_get groups g_name with
              | Some glyph_list => Ok (dict_set used g_name glyph_list)
              | None => Raise TypeError
              end)
           (fun used : dict string (list string) => used <> []) names)
    in Hloop; [now apply Hloop| |discriminate].
  intros used g' used' _ Hused. cbn beta.
  destruct (dict_get groups g'); [|discriminate].
  intros [= <-]. destruct used as [|[k v] used]; [congruence|].
  cbn [dict_set]. destruct (key_eqb g' k); discriminate.
Qed.

(** X4: when [_get_used_groups] returns, its list is sorted, holds no name
    twice, and holds exactly the items of the kerning pairs that [_isGroup]
    accepts. *)
Theorem get_used_groups_spec (kerning : dict pair value) (names : list string) :
  KernProcessor._get_used_groups kerning = Ok names ->
  NoDup names /\
  Sorted (fun a b => String.leb a b = true) names /\
  (forall g,
      In g names <->
      exists p, In p (dict_keys kerning) /\ (g = fst p \/ g = snd p) /\
                KernProcessor._isGroup g = Ok true).
Proof.
  intros Hused. split; [|split].
  - unfold KernProcessor._get_used_groups in Hused.
    destruct (for_each _ _ _) as [groupList|]; [|discriminate].
    injection Hused as <-. apply NoDup_sorted, NoDup_to_set.
  - unfold KernProcessor._get_used_groups in Hused.
    destruct (for_each _ _ _) as [groupList|]; [|discriminate].
    injection Hused as <-. apply sorted_Sorted, String.leb_total.
  - now apply get_used_groups_In.
Qed.

Lemma get_used_groups_spec_witness :
  NoDup ["@MMK_L_A"; "@MMK_R_B"].
Proof.
  exact (proj1 (@get_used_groups_spec
                  [(("x", "@MMK_R_B"), VInt 5); (("@MMK_L_A", "y"), VInt 3);
                   (("@MMK_L_A", "@MMK_R_B"), VInt 1)]
                  ["@MMK_L_A"; "@MMK_R_B"] eq_refl)).
Defined.

(** X5: after [sanitize_kerning], every used group is a group of the font:
    the dictionary [used_groups] that [__init__] builds with [groups.get]
    holds no [None]; its keys are the used group names, in order, each with
    the glyph list [groups] gives it. *)
Theorem used_groups_from_groups
        (groups : dict string (list string))
        (kerning sanitized : dict pair value) (names : list string) :
  KernProcessor.sanitize_kerning groups kerning = Ok sanitized ->
  KernProcessor._get_used_groups sanitized = Ok names ->
  exists used_groups,
    KernProcessor.used_groups_of groups names = Ok used_groups /\
    dict_keys used_groups = names /\
    (forall g, In g names ->
               dict_get groups g <> None /\
               dict_get used_groups g = dict_get groups g).
Proof.
  intros Hsan Hused.
  assert (Hdef : forall g, In g names -> dict_mem groups g = true).
  { intros g Hg. apply (get_used_groups_In _ Hused) in Hg
      as (p & Hp & Hitem & Hgroup).
    eapply sanitized_group_defined; eauto. }
  assert (Hnd : NoDup names).
  { unfold KernProcessor._get_used_groups in Hused.
    destruct (for_each _ _ _) as [groupList|]; [|discriminate].
    injection Hused as <-. apply NoDup_sorted, NoDup_to_set. }
  eexists. split; [|split].
  - unfold KernProcessor.used_groups_of.
    apply used_groups_of_loop; assumption.
  - cbn. unfold dict_keys. rewrite map_map. cbn. apply map_id.
  - intros g Hg. apply Hdef in Hg as Hmem. unfold dict_mem in Hmem.
    destruct (dict_get groups g) as [glyphs|] eqn:Eg; [|discriminate].
    split; [discriminate|]. cbn [app]. apply In_dict_get.
    + unfold wf_dict, dict_keys. rewrite map_map. cbn. now rewrite map_id.
    + apply in_map_iff. exists g. split; [|assumption].
      unfold dict_get_default. now rewrite Eg.
Qed.

Lemma used_groups_from_groups_witness :
  exists used_groups,
    KernProcessor.used_groups_of [("@MMK_R_B", ["b"]); ("@MMK_R_C", ["c"])]
                                 ["@MMK_R_B"] = Ok used_groups /\
    dict_keys used_groups = ["@MMK_R_B"].
Proof.
  destruct (@used_groups_from_groups
              [("@MMK_R_B", ["b"]); ("@MMK_R_C", ["c"])]
              [(("x", "@MMK_R_B"), VInt 5); (("x", "@MMK_R_X"), VInt 6)]
              [(("x", "@MMK_R_B"), VInt 5)] ["@MMK_R_B"] eq_refl eq_refl)
    as (used & Hused & Hkeys & _).
  exists used. split; assumption.
Defined.

(* ------------------------------------------------------------------ *)
(** ** Remapping of dictionaries *)

Lemma fold_set_identity {K V : Type} `{Key K} (key : K * V -> K)
      (l : dict K V) :
  forall d,
    (forall kv, In kv l -> key kv = fst kv) ->
    NoDup (dict_keys d ++ dict_keys l) ->
    fold_left (fun d kv => dict_set d (key kv) (snd kv)) l d = d ++ l.
Proof.
  induction l as [|[k v] l IH]; intros d Hkey Hnd; cbn [fold_left].
  - now rewrite app_nil_r.
  - rewrite (Hkey (k, v) (or_introl eq_refl)). cbn [fst snd].
    rewrite dict_set_fresh.
    + rewrite IH.
      * now rewrite <- app_assoc.
      * intros kv Hkv. apply Hkey. now right.
      * unfold dict_keys in *. rewrite map_app. cbn in *.
        now rewrite <- app_assoc.
    + cbn in Hnd. apply NoDup_remove_2 in Hnd. rewrite in_app_iff in Hnd.
      tauto.
Qed.

(** X6: groups and kerning that are already free of storage prefixes come
    out of [_remap_groups] and [_remap_kerning] unchanged, in the same
    order. *)
Theorem remap_display_convention
        (groups : dict string (list string)) (kerning : dict pair value) :
  wf_dict groups -> wf_dict kerning ->
  (forall g, In g (dict_keys groups) -> plain_name g) ->
  (forall p, In p (dict_keys kerning) ->
             plain_name (fst p) /\ plain_name (snd p)) ->
  KernProcessor._remap_groups groups = groups /\
  KernProcessor._remap_kerning kerning = kerning.
Proof.
  intros Hwg Hwk Hg Hk. split.
  - unfold KernProcessor._remap_groups.
    apply (fold_set_identity
             (fun gl : string * list string => _remap_group_name (fst gl))).
    + intros [g l] Hin. apply remap_plain, Hg.
      unfold dict_keys. apply in_map_iff. exists (g, l). auto.
    + exact Hwg.
  - unfold KernProcessor._remap_kerning.
    apply (fold_set_identity
             (fun pv : pair * value =>
                (_remap_group_name (fst (fst pv)),
                 _remap_group_name (snd (fst pv))))).
    + intros [[a b] v] Hin. cbn [fst snd].
      destruct (Hk (a, b)) as [Ha Hb].
      { unfold dict_keys. apply in_map_iff. exists ((a, b), v). auto. }
      cbn [fst snd] in Ha, Hb. now rewrite !remap_plain.
    + exact Hwk.
Qed.

Lemma remap_display_convention_witness :
  KernProcessor._remap_groups [("@MMK_R_B", ["b"])] = [("@MMK_R_B", ["b"])] /\
  KernProcessor._remap_kerning [(("a", "@MMK_R_B"), VInt 5)]
  = [(("a", "@MMK_R_B"), VInt 5)].
Proof.
  apply remap_display_convention.
  - repeat constructor; cbn; intuition discriminate.
  - repeat constructor; cbn; intuition discriminate.
  - intros g [<-|[]]. split; reflexivity.
  - intros p [<-|[]]. repeat split; reflexivity.
Defined.

(** X7: [_remap_kerning] returns a dictionary whose keys are exactly the
    remapped pairs of its input; where two pairs are remapped to one key the
    last one in the order of the input gives the value, so a pair keeps its
    value whenever every pair remapped to its key carries that value. *)
Theorem remap_kerning_spec (kerning : dict pair value) :
  let remapped (p : pair) : pair :=
    (_remap_group_name (fst p), _remap_group_name (snd p)) in
  wf_dict (KernProcessor._remap_kerning kerning) /\
  (forall q,
      In q (dict_keys (KernProcessor._remap_kerning kerning)) <->
      exists p, In p (dict_keys kerning) /\ q = remapped p) /\
  (forall q,
      dict_get (KernProcessor._remap_kerning kerning) q
      = option_map snd
          (find (fun pv : pair * value => key_eqb q (remapped (fst pv)))
                (rev kerning))) /\
  (forall p v,
      In (p, v) kerning ->
      (forall p' v', In (p', v') kerning -> remapped p' = remapped p ->
                     v' = v) ->
      dict_get (KernProcessor._remap_kerning kerning) (remapped p) = Some v).
Proof.
  intros remapped.
  assert (Hget : forall q,
             dict_get (KernProcessor._remap_kerning kerning) q
             = option_map snd
                 (find (fun pv : pair * value => key_eqb q (remapped (fst pv)))
                       (rev kerning))).
  { intros q. unfold KernProcessor._remap_kerning.
    rewrite (dict_get_fold_set
               (fun pv : pair * value => remapped (fst pv)) (@snd pair value)).
    cbn beta. now destruct (find _ (rev kerning)). }
  split; [apply remap_kerning_wf|]. split; [|split; [exact Hget|]].
  - intros q.
    pose proof (dict_keys_fold_set
                  (fun pv : pair * value => remapped (fst pv))
                  (@snd pair value) kerning [] q) as Hkeys.
    change (fold_left _ kerning [])
      with (KernProcessor._remap_kerning kerning) in Hkeys.
    rewrite Hkeys. unfold dict_keys. cbn [map In]. rewrite !in_map_iff. split.
    + intros [[]|([p v] & <- & Hin)]. exists p. split; [|reflexivity].
      apply in_map_iff. exists (p, v). auto.
    + intros (p & Hp & ->). right.
      apply in_map_iff in Hp as ([p' v] & <- & Hin). exists (p', v). auto.
  - intros p v Hin Hsame. rewrite Hget.
    destruct (@find_exists
                _ (fun pv : pair * value =>
                     key_eqb (remapped p) (remapped (fst pv)))
                (rev kerning) (p, v)) as [[p' v'] Hfind].
    { now apply in_rev in Hin. }
    { apply key_eqb_refl. }
    rewrite Hfind. cbn. f_equal.
    apply find_some in Hfind as [Hin' Heq]. apply in_rev in Hin'.
    cbn [fst] in Heq. apply key_eqb_eq in Heq.
    apply (Hsame p' v' Hin'). congruence.
Qed.

(* ------------------------------------------------------------------ *)
(** ** Dissolving twice *)

Lemma filter_nil_iff {A : Type} (f : A -> bool) (l : list A) :
  filter f l = [] <-> forall a, In a l -> f a = false.
Proof.
  induction l as [|x l IH]; cbn; [intuition|].
  destruct (f x) eqn:E.
  - split; [discriminate|]. intros H. specialize (H x (or_introl eq_refl)).
    congruence.
  - rewrite IH. split; [intros H a [<-|Ha]; auto|intros H a Ha; auto].
Qed.

(** X8: [_dissolveSingleGroups] does its work in one pass: applied to its
    own result it changes nothing. *)
Theorem dissolveSingleGroups_twice
        (groups : dict string (list string)) (kerning : dict pair value) :
  let dissolved := KernProcessor._dissolveSingleGroups groups kerning in
  KernProcessor._dissolveSingleGroups (fst dissolved) (snd dissolved)
  = dissolved.
Proof.
  intros dissolved.
  assert (Hnone : KernProcessor.singleGroups_of (fst dissolved) = []).
  { unfold KernProcessor.singleGroups_of. apply filter_nil_iff.
    intros [g glyphs] Hin. cbn [fst snd].
    apply remaining_groups in Hin as [_ Hnot].
    destruct (Nat.eqb_spec (List.length glyphs) 1) as [Hlen|]; [|reflexivity].
    destruct (KernProcessor._isRTLGroup g) eqn:Ertl; [reflexivity|].
    exfalso. apply Hnot. auto. }
  unfold KernProcessor._dissolveSingleGroups at 1. rewrite Hnone.
  now destruct dissolved.
Qed.

(* ------------------------------------------------------------------ *)
(** ** The grouped glyphs *)

Lemma for_each_raised {A S : Type} (body : S -> A -> result S)
      (P : exn -> Prop) (l : list A) :
  (forall s a e, body s a = Raise e -> P e) ->
  forall s e, for_each body l s = Raise e -> P e.
Proof.
  intros Hbody. induction l as [|a l IH]; intros s e; cbn; [discriminate|].
  destruct (body s a) as [s1|e1] eqn:E; cbn.
  - apply IH.
  - intros [= <-]. eapply Hbody, E.
Qed.

Section GroupedGlyphs.
Import KernProcessor.
Variable st : state.

(** One side of the body of the loop of [_getAllGroupedGlyphs]. *)
Lemma extend_side (is_group : bool) (item : string) (acc : list string) :
  exists acc',
    (if is_group && mem item (dict_keys (groups st)) then
       match dict_get (groups st) item with
       | Some glyphs => Ok (acc ++ glyphs)
       | None => Raise TypeError
       end
     else Ok acc) = Ok acc' /\
    forall x,
      In x acc' <->
      In x acc \/
      (is_group = true /\
       exists glyphs, dict_get (groups st) item = Some glyphs /\ In x glyphs).
Proof.
  destruct is_group; cbn [andb].
  - destruct (mem item (dict_keys (groups st))) eqn:Em.
    + apply mem_In, In_key_get in Em as (glyphs & Hg). rewrite Hg.
      eexists. split; [reflexivity|]. intros x. rewrite in_app_iff. split.
      * intros [Hx|Hx]; [now left|right; eauto].
      * intros [Hx|(_ & glyphs' & [= <-] & Hx)]; auto.
    + exists acc. split; [reflexivity|]. intros x. split; [auto|].
      intros [Hx|(_ & glyphs & Hg & _)]; [assumption|].
      apply dict_get_Some_key, mem_In in Hg. congruence.
  - exists acc. split; [reflexivity|]. intros x. split; [auto|].
    intros [Hx|(Hf & _)]; [assumption|discriminate].
Qed.

Lemma grouped_body_raised (acc : list string * list string) (p : pair)
      (e : exn) :
  grouped_body st acc p = Raise e -> e = IndexError.
Proof.
  unfold grouped_body.
  destruct (_isGroup (fst p)) as [l|e1] eqn:El; cbn [bind].
  2:{ intros [= <-]. now apply isGroup_raises in El. }
  destruct (extend_side l (fst p) (fst acc)) as (L & -> & _). cbn [bind].
  destruct (_isGroup (snd p)) as [r|e1] eqn:Er; cbn [bind].
  2:{ intros [= <-]. now apply isGroup_raises in Er. }
  destruct (extend_side r (snd p) (snd acc)) as (R & -> & _). cbn [bind].
  discriminate.
Qed.

Lemma grouped_loop (l : list pair) :
  forall acc acc',
    for_each (grouped_body st) l acc = Ok acc' ->
    (forall x,
        In x (fst acc') <->
        In x (fst acc) \/
        exists p glyphs,
          In p l /\ _isGroup (fst p) = Ok true /\
          dict_get (groups st) (fst p) = Some glyphs /\ In x glyphs) /\
    (forall x,
        In x (snd acc') <->
        In x (snd acc) \/
        exists p glyphs,
          In p l /\ _isGroup (snd p) = Ok true /\
          dict_get (groups st) (snd p) = Some glyphs /\ In x glyphs).
Proof.
  induction l as [|p l IH]; intros acc acc'; cbn [for_each].
  - intros [= <-]. split; intros x; (split; [auto|]);
      intros [Hx|(p & glyphs & [] & _)]; exact Hx.
  - unfold grouped_body at 1.
    destruct (_isGroup (fst p)) as [a|] eqn:Ea; [|discriminate]. cbn [bind].
    destruct (extend_side a (fst p) (fst acc)) as (L & -> & HL). cbn [bind].
    destruct (_isGroup (snd p)) as [b|] eqn:Eb; [|discriminate]. cbn [bind].
    destruct (extend_side b (snd p) (snd acc)) as (R & -> & HR). cbn [bind].
    intros Hloop. destruct (IH _ _ Hloop) as [IHl IHr]. cbn [fst snd] in *.
    split; intros x.
    + rewrite IHl, HL. split.
      * intros [[Hx|(-> & glyphs & Hg & Hx)]|(q & glyphs & Hq & Hrest)].
        -- now left.
        -- right. exists p, glyphs. split; [now left|]. auto.
        -- right. exists q, glyphs. split; [now right|]. assumption.
      * intros [Hx|(q & glyphs & [<-|Hq] & Hgroup & Hg & Hx)].
        -- now left; left.
        -- left. right. split; [congruence|]. eauto.
        -- right. exists q, glyphs. auto.
    + rewrite IHr, HR. split.
      * intros [[Hx|(-> & glyphs & Hg & Hx)]|(q & glyphs & Hq & Hrest)].
        -- now left.
        -- right. exists p, glyphs. split; [now left|]. auto.
        -- right. exists q, glyphs. split; [now right|]. assumption.
      * intros [Hx|(q & glyphs & [<-|Hq] & Hgroup & Hg & Hx)].
        -- now left; left.
        -- left. right. split; [congruence|]. eauto.
        -- right. exists q, glyphs. auto.
Qed.
End GroupedGlyphs.

(** X9: when [_getAllGroupedGlyphs] returns for a side, its list is sorted
    and duplicate-free and holds exactly the members of the groups that
    stand on that side of some kerning pair; the method raises nothing but
    the [IndexError] of an empty item name. *)
Theorem getAllGroupedGlyphs_spec
        (st : KernProcessor.state) (s : KernProcessor.side) :
  let item (p : pair) : string :=
    match s with
    | KernProcessor.left => fst p
    | KernProcessor.right => snd p
    end in
  (forall grouped,
      KernProcessor._getAllGroupedGlyphs st s = Ok grouped ->
      NoDup grouped /\
      Sorted (fun a b => String.leb a b = true) grouped /\
      forall x,
        In x grouped <->
        exists p glyphs,
          In p (dict_keys (KernProcessor.kerning st)) /\
          KernProcessor._isGroup (item p) = Ok true /\
          dict_get (KernProcessor.groups st) (item p) = Some glyphs /\
          In x glyphs) /\
  (forall e, KernProcessor._getAllGroupedGlyphs st s = Raise e ->
             e = IndexError).
Proof.
  intros item. unfold KernProcessor._getAllGroupedGlyphs.
  change (for_each _ (dict_keys (KernProcessor.kerning st)) ([], []))
    with (for_each (KernProcessor.grouped_body st)
                   (dict_keys (KernProcessor.kerning st)) ([], [])).
  destruct (for_each (KernProcessor.grouped_body st) _ ([], [])) as [[L R]|e0] eqn:Eloop;
    cbn [bind].
  - split; [|destruct s; discriminate].
    destruct (grouped_loop st _ _ Eloop) as [HL HR]. cbn [fst snd] in HL, HR.
    intros grouped Hg.
    assert (Hshape : exists acc,
               grouped = sorted_names (to_set acc) /\
               forall x,
                 In x acc <->
                 exists p glyphs,
                   In p (dict_keys (KernProcessor.kerning st)) /\
                   KernProcessor._isGroup (item p) = Ok true /\
                   dict_get (KernProcessor.groups st) (item p) = Some glyphs /\
                   In x glyphs).
    { unfold item. destruct s; injection Hg as <-;
        [exists L|exists R]; (split; [reflexivity|]); intros x;
        rewrite ?HL, ?HR; cbn; tauto. }
    destruct Hshape as (acc & -> & Hacc). unfold sorted_names.
    split; [apply NoDup_sorted, NoDup_to_set|].
    split; [apply sorted_Sorted, String.leb_total|].
    intros x. now rewrite In_sorted, In_to_set.
  - split; [discriminate|]. intros e [= <-].
    eapply (for_each_raised (KernProcessor.grouped_body st) (fun e => e = IndexError)),
      Eloop.
    intros acc p e. apply grouped_body_raised.
Qed.

(* ------------------------------------------------------------------ *)
(** ** What the dictionaries of [_findExceptions] hold *)

Section Classified.
Import KernProcessor.

Lemma direction_eqb_eq (a b : direction) : direction_eqb a b = true -> a = b.
Proof. now destruct a, b. Qed.

Lemma category_eqb_eq (a b : category) : category_eqb a b = true -> a = b.
Proof. now destruct a, b. Qed.

Lemma is_glyph_2_glyph_true (p : pair) :
  is_glyph_2_glyph p = Ok true <->
  _isGroup (fst p) = Ok false /\ _isGroup (snd p) = Ok false.
Proof.
  unfold is_glyph_2_glyph.
  destruct (_isGroup (fst p)) as [[|]|]; cbn;
    destruct (_isGroup (snd p)) as [[|]|]; cbn; intuition congruence.
Qed.

Lemma is_glyph_2_group_true (p : pair) :
  is_glyph_2_group p = Ok true <->
  _isGroup (fst p) = Ok false /\ _isGroup (snd p) = Ok true.
Proof.
  unfold is_glyph_2_group.
  destruct (_isGroup (fst p)) as [[|]|]; cbn;
    destruct (_isGroup (snd p)) as [[|]|]; cbn; intuition congruence.
Qed.

Variable K : dict pair value.
Variables G R : dict string (list string).
Variables gl gr : list string.

Lemma in_context_keeps (st st' : state) :
  in_context K G R gl gr st -> keeps_inputs st st' ->
  in_context K G R gl gr st'.
Proof.
  intros (A1 & A2 & A3 & A4 & A5) (B1 & (B2 & B3 & B4 & B5) & _).
  repeat split; congruence.
Qed.

Lemma put_buckets_ok (d : direction) (c : category) (p : pair) (v : value)
      (st : state) :
  buckets_ok K R gl gr st -> entry_ok K R gl gr d c p v ->
  buckets_ok K R gl gr (put d c p v st).
Proof.
  intros Hst Hentry d' c' q w. cbn.
  destruct (direction_eqb d d' && category_eqb c c') eqn:E; [|apply Hst].
  apply andb_true_iff in E as [Ed Ec].
  apply direction_eqb_eq in Ed. apply category_eqb_eq in Ec. subst d' c'.
  rewrite dict_get_set. destruct (key_eqb_spec q p) as [->|]; [|apply Hst].
  now intros [= <-].
Qed.

Variable glyph_2_glyph : list pair.
Hypothesis glyph_2_glyph_ok : glyph_pairs_of_kerning K glyph_2_glyph.

Lemma member_step_buckets (r : bool) (glyph : string)
      (acc acc' : value * state) (m : string) :
  kerning (snd acc) = K /\ buckets_ok K R gl gr (snd acc) ->
  member_step glyph_2_glyph r glyph acc m = Ok acc' ->
  kerning (snd acc') = K /\ buckets_ok K R gl gr (snd acc').
Proof.
  intros [Hk Hb]. unfold member_step.
  destruct (mem (K:=pair) (glyph, m) glyph_2_glyph) eqn:Em.
  - unfold getitem. rewrite Hk.
    destruct (dict_get K (glyph, m)) as [w|] eqn:Ew; [|discriminate].
    cbn [bind]. intros [= <-]. cbn [snd]. split; [exact Hk|].
    apply put_buckets_ok; [assumption|]. cbn.
    apply mem_In, glyph_2_glyph_ok in Em as (_ & Hl & Hr). auto.
  - intros [= <-]. auto.
Qed.

Lemma glyph_group_step_buckets (st st' : state) (p : pair) :
  in_context K G R gl gr st -> buckets_ok K R gl gr st ->
  _isGroup (fst p) = Ok false -> _isGroup (snd p) = Ok true ->
  glyph_group_step glyph_2_glyph st p = Ok st' ->
  buckets_ok K R gl gr st'.
Proof.
  intros (Hk & _ & Hr & Hgl & _) Hb Hfst Hsnd. unfold glyph_group_step.
  destruct p as [glyph group]. cbn [fst snd] in *.
  unfold getitem at 1. rewrite Hk.
  destruct (dict_get K (glyph, group)) as [v|] eqn:Ev; [|discriminate].
  destruct (getitem (groups st) group) as [groupList|]; [|discriminate].
  rewrite Hgl, Hr. cbn [bind attr].
  destruct (mem glyph gl) eqn:Eg.
  - intros [= <-]. intros d c q w. cbn [bucket append_processed].
    apply put_buckets_ok; [assumption|]. cbn. auto 6.
  - destruct (for_each _ groupList (v, st)) as [[v' st1]|] eqn:Eloop;
      [|discriminate].
    apply (for_each_returned
             (member_step glyph_2_glyph (_isRTL R (glyph, group)) glyph)
             (fun acc => kerning (snd acc) = K /\
                         buckets_ok K R gl gr (snd acc)))
      in Eloop; [| |cbn; auto].
    2:{ intros acc m acc' _. apply member_step_buckets. }
    destruct Eloop as [Hk1 Hb1]. cbn [snd bind] in *.
    destruct (is_zero v'); intros [= <-].
    + exact Hb1.
    + intros d c q w. cbn [bucket append_processed].
      apply put_buckets_ok; [assumption|]. cbn. repeat split; auto.
      eapply dict_get_Some_key, Ev.
Qed.

Lemma group_item_step_buckets (acc acc' : state * list pair * list pair)
      (p : pair) :
  in_context K G R gl gr (fst (fst acc)) ->
  buckets_ok K R gl gr (fst (fst acc)) ->
  _isGroup (fst p) = Ok true ->
  group_item_step acc p = Ok acc' ->
  buckets_ok K R gl gr (fst (fst acc')).
Proof.
  destruct acc as [[st e] r]. cbn [fst].
  intros (Hk & _ & Hr & _ & Hgr) Hb Hfst. unfold group_item_step.
  destruct p as [leftGroup rightItem]. cbn [fst snd] in *.
  unfold getitem at 1. rewrite Hk.
  destruct (dict_get K (leftGroup, rightItem)) as [v|] eqn:Ev; [|discriminate].
  destruct (getitem (groups st) leftGroup) as [lg|]; [|discriminate].
  rewrite Hr, Hgr. cbn [bind attr].
  destruct (_isGroup rightItem) as [[|]|] eqn:Eright; [| |discriminate];
    cbn [bind].
  - destruct (getitem (groups st) rightItem) as [rg|]; [|discriminate].
    cbn [bind]. destruct (is_zero v) eqn:Ez.
    + intros [= <-]. exact Hb.
    + destruct (_isRTL R (leftGroup, rightItem)) eqn:Ertl;
        intros [= <-]; cbn [fst]; intros d c q w;
        cbn [bucket append_processed];
        (apply put_buckets_ok; [assumption|]); cbn; rewrite ?Ertl; auto 8.
  - destruct (mem rightItem gr) eqn:Egr.
    + destruct (_isRTL R (leftGroup, rightItem)) eqn:Ertl; cbn [bind];
        intros [= <-]; cbn [fst]; intros d c q w;
        cbn [bucket append_processed];
        (apply put_buckets_ok; [assumption|]); cbn; rewrite ?Ertl; auto 8.
    + cbn [bind]. destruct (is_zero v) eqn:Ez.
      * intros [= <-]. exact Hb.
      * destruct (_isRTL R (leftGroup, rightItem)) eqn:Ertl;
          intros [= <-]; cbn [fst]; intros d c q w;
          cbn [bucket append_processed];
          (apply put_buckets_ok; [assumption|]); cbn; rewrite ?Ertl; auto 8.
Qed.

Lemma put_loop_buckets (d : direction) (l : list pair) (st st' : state) :
  (forall q, In q l -> In q glyph_2_glyph) ->
  kerning st = K /\ buckets_ok K R gl gr st ->
  for_each
    (fun st p =>
       v <- getitem (kerning st) p ;;
       Ok (put d glyph_glyph_exceptions p v st)) l st = Ok st' ->
  kerning st' = K /\ buckets_ok K R gl gr st'.
Proof.
  intros Hl Hst Hloop.
  apply (for_each_returned
           (fun st p =>
              v <- getitem (kerning st) p ;;
              Ok (put d glyph_glyph_exceptions p v st))
           (fun st => kerning st = K /\ buckets_ok K R gl gr st) l)
    with (s := st); [|assumption|assumption].
  intros s q s' Hq [Hk Hb]. unfold getitem. rewrite Hk.
  destruct (dict_get K q) as [w|] eqn:Ew; [|discriminate].
  cbn [bind]. intros [= <-]. split; [exact Hk|].
  apply put_buckets_ok; [assumption|]. cbn.
  apply Hl, glyph_2_glyph_ok in Hq as (_ & Hfst & Hsnd). auto.
Qed.

Lemma exception_pairs_pass_buckets (e r : list pair) (st st' : state) :
  kerning st = K -> buckets_ok K R gl gr st ->
  exception_pairs_pass glyph_2_glyph e r st = Ok st' ->
  buckets_ok K R gl gr st'.
Proof.
  intros Hk Hb. unfold exception_pairs_pass.
  match goal with
  | |- bind ?m _ = _ -> _ => destruct m as [st1|] eqn:E1; [|discriminate]
  end.
  cbn [bind]. intros E2.
  apply put_loop_buckets in E1.
  - apply put_loop_buckets in E2; [tauto| |assumption].
    intros q Hq. apply filter_In in Hq as [_ Hq]. now apply mem_In in Hq.
  - intros q Hq. apply filter_In in Hq as [_ Hq]. now apply mem_In in Hq.
  - split; assumption.
Qed.

Lemma glyph_glyph_step_buckets (st st' : state) (p : pair) :
  in_context K G R gl gr st -> buckets_ok K R gl gr st ->
  _isGroup (fst p) = Ok false -> _isGroup (snd p) = Ok false ->
  glyph_glyph_step st p = Ok st' ->
  buckets_ok K R gl gr st'.
Proof.
  intros (Hk & _ & Hr & Hgl & Hgr) Hb Hfst Hsnd. unfold glyph_glyph_step.
  destruct p as [glyph_1 glyph_2]. cbn [fst snd] in *.
  unfold getitem. rewrite Hk.
  destruct (dict_get K (glyph_1, glyph_2)) as [v|] eqn:Ev; [|discriminate].
  rewrite Hgl, Hgr, Hr. cbn [bind attr].
  destruct (mem glyph_1 gl || mem glyph_2 gr) eqn:Egrouped; cbn [bind].
  - intros [= <-]. intros d c q w. cbn [bucket append_processed].
    apply put_buckets_ok; [assumption|]. cbn. auto.
  - apply orb_false_iff in Egrouped as [E1 E2].
    destruct (negb _ && negb _); cbn [bind]; intros [= <-].
    + intros d c q w. cbn [bucket append_processed].
      apply put_buckets_ok; [assumption|]. cbn. auto 8.
    + exact Hb.
Qed.
End Classified.

Section ClassifiedRun.
Import KernProcessor.

Lemma strip_step_other_buckets (st st' : state) (p : pair) :
  strip_step st p = Ok st' ->
  forall d c, category_eqb c predefined_exceptions = false ->
              bucket st' d c = bucket st d c.
Proof.
  unfold strip_step. intros H d c Hc.
  destruct (ignored p); [injection H as <-; reflexivity|].
  destruct (predefined p); [|injection H as <-; reflexivity].
  destruct (getitem (kerning st) p) as [v|]; [|discriminate].
  cbn [bind] in H. injection H as <-. cbn.
  destruct d, c; try reflexivity; discriminate.
Qed.

Lemma strip_pairs_other_buckets (st st' : state) :
  strip_pairs st = Ok st' ->
  forall d c, category_eqb c predefined_exceptions = false ->
              bucket st' d c = bucket st d c.
Proof.
  unfold strip_pairs.
  apply (for_each_preserves
           strip_step
           (fun s s' =>
              forall d c, category_eqb c predefined_exceptions = false ->
                          bucket s' d c = bucket s d c)).
  - reflexivity.
  - intros a b c Hab Hbc d c' Hc. now rewrite Hbc, Hab.
  - intros s a s'. apply strip_step_other_buckets.
Qed.

(** The three lists of pairs that [_findExceptions] sorts out of the
    keys. *)
Lemma sorted_filter_r_In (cond : pair -> result bool) (l r : list pair)
      (q : pair) :
  filter_r cond l = Ok r ->
  In q (sorted_pairs r) <-> In q l /\ cond q = Ok true.
Proof.
  intros Hf. unfold sorted_pairs. rewrite In_sorted.
  apply (filter_r_In _ _ Hf).
Qed.

Variables gl gr : list string.

Lemma findExceptions_classified (st st' : state) :
  wf_dict (kerning st) ->
  grouped_left st = Some gl -> grouped_right st = Some gr ->
  (forall d c, bucket st d c = []) ->
  _findExceptions st = Ok st' ->
  kerning st'
  = filter (fun pv : pair * value => negb (stripped (fst pv))) (kerning st) /\
  in_context (kerning st') (groups st) (reference_groups st) gl gr st' /\
  buckets_ok (kerning st') (reference_groups st) gl gr st'.
Proof.
  intros Hwf Hgl Hgr Hempty Hfind.
  destruct (strip_pairs_spec st Hwf)
    as (st1 & Hstrip & Hk1 & (Hc1 & Hc2 & Hc3 & Hc4) & _).
  pose proof (strip_pairs_other_buckets st Hstrip) as Hother.
  unfold _findExceptions in Hfind. rewrite Hstrip in Hfind.
  cbn [bind] in Hfind.
  set (K := kerning st1) in *.
  set (G := groups st) in *. set (R := reference_groups st) in *.
  assert (Hctx1 : in_context K G R gl gr st1).
  { repeat split; congruence. }
  assert (Hb1 : buckets_ok K R gl gr st1).
  { intros d c p v Hget. destruct c; try exact I;
      rewrite Hother, Hempty in Hget by reflexivity; discriminate. }
  destruct (filter_r is_glyph_2_glyph (dict_keys K)) as [g2g|] eqn:Eg2g;
    [|discriminate].
  cbn [bind] in Hfind.
  destruct (filter_r is_glyph_2_group (dict_keys K)) as [g2grp|] eqn:Eg2grp;
    [|discriminate].
  cbn [bind] in Hfind.
  destruct (filter_r is_group_2_item (dict_keys K)) as [g2i|] eqn:Eg2i;
    [|discriminate].
  cbn [bind] in Hfind.
  assert (Hg2g : glyph_pairs_of_kerning K (sorted_pairs g2g)).
  { intros q Hq. apply (sorted_filter_r_In _ _ q Eg2g) in Hq as [Hq Hshape].
    apply is_glyph_2_glyph_true in Hshape.
    split; [|exact Hshape]. apply In_key_get in Hq as (v & ->). discriminate. }
  destruct (glyph_group_pass _ _ st1) as [st2|] eqn:E2; [|discriminate].
  cbn [bind] in Hfind.
  assert (H2 : in_context K G R gl gr st2 /\ buckets_ok K R gl gr st2).
  { unfold glyph_group_pass in E2.
    apply (for_each_returned
             (glyph_group_step (sorted_pairs g2g))
             (fun s => in_context K G R gl gr s /\ buckets_ok K R gl gr s)
             (sorted_pairs g2grp)) with (s := st1); [|auto|exact E2].
    intros s p s' Hp [Hctx Hb] Hstep.
    apply (sorted_filter_r_In _ _ p Eg2grp) in Hp as [_ Hshape].
    apply is_glyph_2_group_true in Hshape as [Hl Hr].
    split.
    - eapply in_context_keeps; [exact Hctx|].
      eapply glyph_group_step_keeps, Hstep.
    - eapply glyph_group_step_buckets; eauto. }
  destruct H2 as [Hctx2 Hb2].
  destruct (group_item_pass _ st2) as [[[st3 e] r]|] eqn:E3; [|discriminate].
  cbn [bind] in Hfind.
  assert (H3 : in_context K G R gl gr st3 /\ buckets_ok K R gl gr st3).
  { unfold group_item_pass in E3.
    apply (for_each_returned
             group_item_step
             (fun acc => in_context K G R gl gr (fst (fst acc)) /\
                         buckets_ok K R gl gr (fst (fst acc)))
             (sorted_pairs g2i)) with (s := (st2, [], [])) in E3;
      [exact E3| |auto].
    intros s p s' Hp [Hctx Hb] Hstep.
    apply (sorted_filter_r_In _ _ p Eg2i) in Hp as [_ Hshape].
    split.
    - eapply in_context_keeps; [exact Hctx|].
      eapply group_item_step_keeps, Hstep.
    - eapply group_item_step_buckets; eauto. }
  destruct H3 as [Hctx3 Hb3].
  destruct (exception_pairs_pass _ e r st3) as [st4|] eqn:E4; [|discriminate].
  cbn [bind] in Hfind.
  assert (H4 : in_context K G R gl gr st4 /\ buckets_ok K R gl gr st4).
  { split.
    - eapply in_context_keeps; [exact Hctx3|].
      eapply exception_pairs_pass_keeps, E4.
    - eapply exception_pairs_pass_buckets; [exact Hg2g| |exact Hb3|exact E4].
      apply Hctx3. }
  assert (H5 : in_context K G R gl gr st' /\ buckets_ok K R gl gr st').
  { unfold glyph_glyph_pass in Hfind.
    apply (for_each_returned
             glyph_glyph_step
             (fun s => in_context K G R gl gr s /\ buckets_ok K R gl gr s)
             (sorted_pairs g2g)) with (s := st4); [|exact H4|exact Hfind].
    intros s p s' Hp [Hctx Hb] Hstep.
    apply Hg2g in Hp as (_ & Hl & Hr).
    split.
    - eapply in_context_keeps; [exact Hctx|].
      eapply glyph_glyph_step_keeps, Hstep.
    - eapply glyph_glyph_step_buckets; eauto. }
  destruct H5 as [Hctx5 Hb5].
  assert (Hk' : kerning st' = K) by apply Hctx5.
  rewrite Hk'. split; [exact Hk1|]. split; assumption.
Qed.
End ClassifiedRun.

(* ------------------------------------------------------------------ *)
(** ** A run of [KernProcessor] that returns *)

Section Returned.
Import KernProcessor.

Lemma sanitize_items_nonempty (groups : dict string (list string))
      (kerning sanitized : dict pair value) (p : pair) :
  sanitize_kerning groups kerning = Ok sanitized ->
  In p (dict_keys kerning) ->
  (exists a, _isGroup (fst p) = Ok a) /\ (exists b, _isGroup (snd p) = Ok b).
Proof.
  unfold sanitize_kerning. intros Hs Hp.
  destruct (filter_r _isGroup _) as [all_kerned_groups|] eqn:Ef;
    [|discriminate].
  assert (Hitem : forall item, item = fst p \/ item = snd p ->
                               exists a, _isGroup item = Ok a).
  { intros item Hitem. destruct (_isGroup item) as [a|e] eqn:E; [eauto|].
    exfalso.
    rewrite (@filter_r_raises _ _isGroup _ item e) in Ef;
      [discriminate| |exact E|].
    - apply In_kerned_items. eauto.
    - intros b e' _ Hb. apply isGroup_raises in Hb as [_ ->].
      now apply isGroup_raises in E as [_ ->]. }
  split; apply Hitem; auto.
Qed.

Lemma sanitized_keys (groups : dict string (list string))
      (kerning sanitized : dict pair value) (p : pair) :
  sanitize_kerning groups kerning = Ok sanitized ->
  In p (dict_keys sanitized) -> In p (dict_keys kerning).
Proof.
  intros Hs Hp. destruct (sanitize_returned groups kerning Hs)
    as (bad & -> & _).
  unfold dict_keys in *. apply in_map_iff in Hp as (pv & <- & Hin).
  apply filter_In in Hin as [Hin _]. now apply in_map.
Qed.

(** What [__init__] has done when it returns: it has run
    [_findExceptions] on a state with empty dictionaries, whose kerning holds
    every key once, and in which the grouped glyphs are either both set or
    both unset, the kerning holding only glyph pairs in the second case. *)
Lemma init_returned (groups : dict string (list string))
      (kerning : dict pair value) (option_dissolve : bool) (st' : state) :
  __init__ groups kerning option_dissolve = Ok st' ->
  exists st0 st1,
    wf_dict (KernProcessor.kerning st0) /\
    (forall d c, bucket st0 d c = []) /\
    pairs_processed st0 = [] /\ pairs_unprocessed st0 = [] /\
    ((exists gl gr, grouped_left st0 = Some gl /\ grouped_right st0 = Some gr)
     \/ (grouped_left st0 = None /\
         forall p, In p (dict_keys (KernProcessor.kerning st0)) ->
                   glyph_pair p)) /\
    _findExceptions st0 = Ok st1 /\
    (st' = st1 \/ exists o, st' = set_group_order o st1).
Proof.
  unfold __init__. intros H.
  destruct (sanitize_kerning groups kerning) as [sk|] eqn:Esan;
    [|discriminate].
  cbn [bind] in H.
  destruct (_get_used_groups sk) as [names|] eqn:Enames; [|discriminate].
  cbn [bind] in H.
  destruct (used_groups_of groups names) as [used|] eqn:Eused;
    [|discriminate].
  cbn [bind] in H.
  match type of H with
  | bind ?m _ = _ => destruct m as [st0|] eqn:E0; [|discriminate]
  end.
  cbn [bind] in H.
  destruct (_findExceptions st0) as [st1|] eqn:Efind; [|discriminate].
  cbn [bind] in H.
  exists st0, st1.
  assert (Hlast : st' = st1 \/ exists o, st' = set_group_order o st1).
  { destruct (KernProcessor.kerning st1); injection H as <-; eauto. }
  destruct used as [|u used].
  - injection E0 as <-. cbn [new_state KernProcessor.kerning bucket
                              pairs_processed pairs_unprocessed
                              grouped_left].
    split; [apply remap_kerning_wf|]. repeat (split; [reflexivity|]).
    split; [|split; assumption].
    right. split; [reflexivity|].
    apply remap_kerning_glyph_pairs. intros p Hp.
    assert (Hnames : names = []).
    { destruct (@used_groups_from_nil groups names Eused). reflexivity. }
    subst names.
    destruct (sanitize_items_nonempty groups kerning p Esan
                                      (sanitized_keys groups kerning p Esan Hp))
      as [(a & Ha) (b & Hb)].
    split.
    + destruct a; [|assumption]. exfalso.
      apply (get_used_groups_In _ Enames (fst p)). eauto.
    + destruct b; [|assumption]. exfalso.
      apply (get_used_groups_In _ Enames (snd p)). eauto.
  - match type of E0 with
    | bind (_getAllGroupedGlyphs ?s left) _ = _ =>
        destruct (_getAllGroupedGlyphs s left) as [l|]; [|discriminate];
        cbn [bind] in E0;
        destruct (_getAllGroupedGlyphs s right) as [r|]; [|discriminate];
        cbn [bind] in E0; injection E0 as <-
    end.
    split.
    { destruct option_dissolve;
        [destruct (_dissolveSingleGroups _ _)|]; apply remap_kerning_wf. }
    split.
    { intros d c. destruct option_dissolve;
        [destruct (_dissolveSingleGroups _ _)|]; reflexivity. }
    split.
    { destruct option_dissolve;
        [destruct (_dissolveSingleGroups _ _)|]; reflexivity. }
    split.
    { destruct option_dissolve;
        [destruct (_dissolveSingleGroups _ _)|]; reflexivity. }
    split; [left; exists l, r; split; reflexivity|].
    split; assumption.
Qed.
End Returned.

Section ReturnedBuckets.
Import KernProcessor.

(** Without grouped glyphs [_findExceptions] returns only when its first
    loop has emptied the kerning. *)
Lemma findExceptions_none (st st' : state) :
  wf_dict (kerning st) -> grouped_left st = None ->
  (forall p, In p (dict_keys (kerning st)) -> glyph_pair p) ->
  _findExceptions st = Ok st' ->
  exists st1,
    strip_pairs st = Ok st1 /\ kerning st1 = [] /\
    st' = set_exceptionPairs [] [] st1.
Proof.
  intros Hwf Hgl Hglyph Hfind.
  destruct (strip_pairs_spec st Hwf) as (st1 & Hstrip & Hk & _).
  exists st1. split; [assumption|].
  destruct (kerning st1) as [|[p v] rest] eqn:Ek.
  - split; [reflexivity|].
    unfold _findExceptions in Hfind. rewrite Hstrip in Hfind.
    cbn [bind] in Hfind. rewrite Ek in Hfind. cbn in Hfind.
    now injection Hfind as <-.
  - exfalso.
    assert (Hin : In (p, v) (filter (fun pv : pair * value =>
                                       negb (stripped (fst pv)))
                                    (kerning st))).
    { rewrite <- Hk. now left. }
    apply filter_In in Hin as [Hin Hkept]. cbn [fst] in Hkept.
    apply negb_true_iff in Hkept.
    rewrite findExceptions_no_groups in Hfind; [discriminate|assumption..|].
    exists p. split; [|assumption].
    unfold dict_keys. apply in_map_iff. exists (p, v). auto.
Qed.

Lemma init_buckets_ok (groups : dict string (list string))
      (kerning : dict pair value) (option_dissolve : bool) (st : state) :
  __init__ groups kerning option_dissolve = Ok st ->
  exists gl gr,
    buckets_ok (KernProcessor.kerning st) (reference_groups st) gl gr st.
Proof.
  intros Hinit.
  destruct (init_returned _ _ _ Hinit)
    as (st0 & st1 & Hwf & Hempty & _ & _ & Hgrouped & Hfind & Hlast).
  assert (H1 : exists gl gr,
             buckets_ok (KernProcessor.kerning st1) (reference_groups st1)
                        gl gr st1).
  { destruct Hgrouped as [(gl & gr & Hgl & Hgr)|[Hgl Hglyph]].
    - exists gl, gr.
      destruct (@findExceptions_classified gl gr st0 st1
                                           Hwf Hgl Hgr Hempty Hfind)
        as (_ & (_ & _ & Hr & _) & Hb).
      now rewrite Hr.
    - exists [], [].
      destruct (@findExceptions_none st0 st1 Hwf Hgl Hglyph Hfind)
        as (st1' & Hstrip & _ & ->).
      intros d c p v Hget. cbn [bucket set_exceptionPairs] in Hget.
      destruct c; try exact I;
        rewrite (strip_pairs_other_buckets st0 Hstrip), Hempty in Hget
          by reflexivity; discriminate. }
  destruct H1 as (gl & gr & Hb). exists gl, gr.
  destruct Hlast as [->|(o & ->)]; exact Hb.
Qed.
End ReturnedBuckets.

(** X10: in the object a run of [KernProcessor] returns, a pair stored in
    any dictionary but [predefined_exceptions] is a key of the final kerning;
    outside [glyph_group] it is stored with its kerning value; and outside
    [glyph_glyph_exceptions] it is stored on the side the RTL test gives:
    the [rtl_] dictionaries hold RTL pairs only, the others none. *)
Theorem bucket_entries
        (groups : dict string (list string)) (kerning : dict pair value)
        (option_dissolve : bool) (st : KernProcessor.state) :
  KernProcessor.__init__ groups kerning option_dissolve = Ok st ->
  forall d c p v,
    dict_get (KernProcessor.bucket st d c) p = Some v ->
    c <> KernProcessor.predefined_exceptions ->
    In p (dict_keys (KernProcessor.kerning st)) /\
    (c <> KernProcessor.glyph_group ->
     dict_get (KernProcessor.kerning st) p = Some v) /\
    (c <> KernProcessor.glyph_glyph_exceptions ->
     d = KernProcessor.dir_of
           (KernProcessor._isRTL (KernProcessor.reference_groups st) p)).
Proof.
  intros Hinit d c p v Hget Hc.
  destruct (init_buckets_ok _ _ _ Hinit) as (gl & gr & Hb).
  specialize (Hb d c p v Hget).
  destruct c; cbn in Hb; try congruence;
    repeat match type of Hb with _ /\ _ => destruct Hb as [? Hb] end;
    (split; [first [assumption|eapply dict_get_Some_key; eassumption]|]);
    split; intros; congruence.
Qed.

Lemma bucket_entries_witness :
  exists st,
    KernProcessor.__init__
      [("@MMK_R_B_RTL", ["b"])] [(("x", "@MMK_R_B_RTL"), VInt 5)] false
    = Ok st /\
    KernProcessor.RTL
    = KernProcessor.dir_of
        (KernProcessor._isRTL (KernProcessor.reference_groups st)
                              ("x", "@MMK_R_B_RTL")).
Proof.
  destruct (KernProcessor.__init__
              [("@MMK_R_B_RTL", ["b"])] [(("x", "@MMK_R_B_RTL"), VInt 5)]
              false) as [st|] eqn:Hinit;
    [|vm_compute in Hinit; discriminate].
  exists st. split; [reflexivity|].
  assert (Hget : dict_get (KernProcessor.bucket st KernProcessor.RTL
                                                KernProcessor.glyph_group)
                          ("x", "@MMK_R_B_RTL") = Some (VInt 5)).
  { vm_compute in Hinit. injection Hinit as <-. reflexivity. }
  destruct (@bucket_entries _ _ _ _ Hinit KernProcessor.RTL
                            KernProcessor.glyph_group
                            ("x", "@MMK_R_B_RTL") (VInt 5) Hget)
    as (_ & _ & Hd); [discriminate|].
  apply Hd. discriminate.
Defined.

(* ------------------------------------------------------------------ *)
(** ** The pre-defined exceptions of a run *)

Section ReturnedPredefined.
Import KernProcessor.

Lemma strip_pairs_predefined (st st1 : state) :
  wf_dict (kerning st) -> strip_pairs st = Ok st1 ->
  bucket st LTR predefined_exceptions = [] ->
  forall q v,
    dict_get (bucket st1 LTR predefined_exceptions) q = Some v ->
    moved q = true /\ dict_get (kerning st) q = Some v.
Proof.
  intros Hwf Hstrip Hempty q v Hget.
  destruct (@strip_loop_spec (rev (dict_keys (kerning st))) st)
    as (st' & Hloop & _ & _ & _ & _ & Hb & _).
  { apply NoDup_rev, Hwf. }
  { intros p Hp. now apply in_rev. }
  unfold strip_pairs in Hstrip. rewrite Hloop in Hstrip.
  injection Hstrip as <-. rewrite Hb, Hempty in Hget.
  destruct (mem q (rev (dict_keys (kerning st)))); cbn [andb] in Hget;
    [|discriminate].
  destruct (moved q); [auto|discriminate].
Qed.

Lemma init_predefined (groups : dict string (list string))
      (kerning : dict pair value) (option_dissolve : bool) (st : state) :
  __init__ groups kerning option_dissolve = Ok st ->
  exists st0 st1,
    wf_dict (KernProcessor.kerning st0) /\
    (forall d c, bucket st0 d c = []) /\
    strip_pairs st0 = Ok st1 /\
    KernProcessor.kerning st = KernProcessor.kerning st1 /\
    (forall d, bucket st d predefined_exceptions
               = bucket st1 d predefined_exceptions).
Proof.
  intros Hinit.
  destruct (init_returned _ _ _ Hinit)
    as (st0 & st2 & Hwf & Hempty & _ & _ & _ & Hfind & Hlast).
  destruct (findExceptions_keeps st0 Hfind) as (st1 & Hstrip & Hk & _ & Hb).
  exists st0, st1. repeat (split; [assumption|]).
  destruct Hlast as [->|(o & ->)]; split; assumption.
Qed.

(** The pairs the first loop has moved or dropped, seen from the object
    returned. *)
Lemma init_stripped (groups : dict string (list string))
      (kerning : dict pair value) (option_dissolve : bool) (st : state) :
  __init__ groups kerning option_dissolve = Ok st ->
  bucket st RTL predefined_exceptions = [] /\
  (forall p, In p (dict_keys (bucket st LTR predefined_exceptions)) ->
             moved p = true) /\
  (forall p, In p (dict_keys (KernProcessor.kerning st)) ->
             stripped p = false).
Proof.
  intros Hinit.
  destruct (init_predefined _ _ _ Hinit)
    as (st0 & st1 & Hwf & Hempty & Hstrip & Hk & Hb).
  destruct (strip_pairs_spec st0 Hwf)
    as (st1' & Hstrip' & Hk1 & _ & _ & _ & _ & Hrtl).
  rewrite Hstrip in Hstrip'. injection Hstrip' as <-.
  split; [now rewrite Hb, Hrtl, Hempty|]. split.
  - intros p Hp. apply In_key_get in Hp as (v & Hget). rewrite Hb in Hget.
    now apply (strip_pairs_predefined st0 Hwf Hstrip (Hempty _ _)) in Hget.
  - intros p Hp. rewrite Hk, Hk1 in Hp. unfold dict_keys in Hp.
    apply in_map_iff in Hp as ([q w] & <- & Hin).
    apply filter_In in Hin as [_ Hin]. now apply negb_true_iff in Hin.
Qed.

Lemma moved_stripped (p : pair) : moved p = true -> stripped p = true.
Proof.
  unfold moved, stripped. intros H. apply andb_true_iff in H as [_ ->].
  apply orb_true_r.
Qed.
End ReturnedPredefined.

(** X11: in the object a run of [KernProcessor] returns,
    [rtl_predefined_exceptions] is empty whatever the pairs are;
    [predefined_exceptions] holds only pairs with the exception tag whose
    left item has no ignore tag, and none of them is left in the kerning; no
    pair left in the kerning has the ignore tag on its left item or the
    exception tag on either item. *)
Theorem predefined_exceptions_of_run
        (groups : dict string (list string)) (kerning : dict pair value)
        (option_dissolve : bool) (st : KernProcessor.state) :
  KernProcessor.__init__ groups kerning option_dissolve = Ok st ->
  KernProcessor.bucket st KernProcessor.RTL
                       KernProcessor.predefined_exceptions = [] /\
  (forall p v,
      dict_get (KernProcessor.bucket st KernProcessor.LTR
                                     KernProcessor.predefined_exceptions) p
      = Some v ->
      KernProcessor.ignored p = false /\ KernProcessor.predefined p = true /\
      dict_get (KernProcessor.kerning st) p = None) /\
  (forall p,
      In p (dict_keys (KernProcessor.kerning st)) ->
      KernProcessor.ignored p = false /\ KernProcessor.predefined p = false).
Proof.
  intros Hinit.
  destruct (init_stripped _ _ _ Hinit) as (Hrtl & Hmoved & Hkept).
  split; [exact Hrtl|]. split.
  - intros p v Hget. apply dict_get_Some_key in Hget.
    specialize (Hmoved p Hget).
    pose proof (moved_stripped p Hmoved) as Hs.
    unfold KernProcessor.moved in Hmoved.
    apply andb_true_iff in Hmoved as [Hign Hpre].
    apply negb_true_iff in Hign. repeat split; try assumption.
    apply dict_get_None. intros Hin. apply Hkept in Hin. congruence.
  - intros p Hp. apply Hkept in Hp. unfold KernProcessor.stripped in Hp.
    now apply orb_false_iff in Hp.
Qed.

Lemma predefined_exceptions_of_run_witness :
  exists st,
    KernProcessor.__init__
      [("@MMK_R_B_RTL", ["b"])]
      [(("EXC_x", "@MMK_R_B_RTL"), VInt 5); (("y", "@MMK_R_B_RTL"), VInt 2)]
      false = Ok st /\
    KernProcessor.bucket st KernProcessor.RTL
                         KernProcessor.predefined_exceptions = [].
Proof.
  destruct (KernProcessor.__init__
              [("@MMK_R_B_RTL", ["b"])]
              [(("EXC_x", "@MMK_R_B_RTL"), VInt 5);
               (("y", "@MMK_R_B_RTL"), VInt 2)] false) as [st|] eqn:Hinit;
    [|vm_compute in Hinit; discriminate].
  exists st. split; [reflexivity|].
  exact (proj1 (@predefined_exceptions_of_run _ _ _ _ Hinit)).
Defined.

(* ------------------------------------------------------------------ *)
(** ** What each pass writes to, and how many pairs it puts on the lists *)

Lemma for_each_prefix {A S : Type} (body : S -> A -> result S)
      (Inv : list A -> S -> Prop) (l : list A) :
  (forall done a rest s s',
      l = done ++ a :: rest -> Inv done s -> body s a = Ok s' ->
      Inv (done ++ [a]) s') ->
  forall s s', Inv [] s -> for_each body l s = Ok s' -> Inv l s'.
Proof.
  intros Hstep.
  assert (Hgen : forall rest done s s',
             l = done ++ rest -> Inv done s ->
             for_each body rest s = Ok s' -> Inv l s').
  { induction rest as [|a rest IH]; intros done s s' Hl Hinv; cbn.
    - intros [= <-]. now rewrite Hl, app_nil_r.
    - destruct (body s a) as [s1|] eqn:E; cbn; [|discriminate].
      apply (IH (done ++ [a])).
      + now rewrite <- app_assoc.
      + eapply Hstep; eassumption. }
  intros s s'. now apply (Hgen l []).
Qed.

Lemma filter_r_NoDup {A : Type} (cond : A -> result bool) (l r : list A) :
  NoDup l -> filter_r cond l = Ok r -> NoDup r.
Proof.
  intros Hnd. revert r. induction Hnd as [|x l Hx Hnd IH]; intros r; cbn.
  - intros [= <-]. constructor.
  - destruct (cond x) as [b|]; cbn; [|discriminate].
    destruct (filter_r cond l) as [r'|] eqn:E; cbn; [|discriminate].
    intros [= <-]. specialize (IH r' eq_refl).
    destruct b; [|assumption]. constructor; [|assumption].
    intros Hin. apply (filter_r_In _ _ E) in Hin. tauto.
Qed.

Section Footprint.
Import KernProcessor.

Variable F : direction -> category -> bool.

Lemma acts_refl (st : state) : acts 0 F st st.
Proof. split; [symmetry; apply Nat.add_0_r|intros d c _; reflexivity]. Qed.

Lemma acts_trans (n m : nat) (a b c : state) :
  acts n F a b -> acts m F b c -> acts (n + m) F a c.
Proof.
  intros [Hn Ha] [Hm Hb]. split; [lia|].
  intros d k HF. now rewrite (Hb d k HF), (Ha d k HF).
Qed.

Lemma acts_count (n m : nat) (a b : state) :
  acts n F a b -> n = m -> acts m F a b.
Proof. now intros H <-. Qed.

Lemma acts_put (d : direction) (c : category) (p : pair) (v : value)
      (st : state) :
  F d c = false -> acts 0 F st (put d c p v st).
Proof.
  intros HF. split; [symmetry; apply Nat.add_0_r|]. intros d' c' HF'. cbn.
  destruct (direction_eqb d d' && category_eqb c c') eqn:E; [|reflexivity].
  apply andb_true_iff in E as [Ed Ec].
  apply direction_eqb_eq in Ed. apply category_eqb_eq in Ec. congruence.
Qed.

Lemma acts_append_processed (p : pair) (st : state) :
  acts 1 F st (append_processed p st).
Proof.
  split; [|intros d c _; reflexivity].
  unfold handled. cbn. rewrite length_app. cbn. lia.
Qed.

Lemma acts_append_unprocessed (p : pair) (st : state) :
  acts 1 F st (append_unprocessed p st).
Proof.
  split; [|intros d c _; reflexivity].
  unfold handled. cbn. rewrite length_app. cbn. lia.
Qed.

Lemma acts_set_exceptionPairs (e r : list pair) (st : state) :
  acts 0 F st (set_exceptionPairs e r st).
Proof. split; [symmetry; apply Nat.add_0_r|intros d c _; reflexivity]. Qed.

Lemma for_each_acts {A S : Type} (proj : S -> state)
      (body : S -> A -> result S) (n : nat) (l : list A) :
  (forall s a s', body s a = Ok s' -> acts n F (proj s) (proj s')) ->
  forall s s', for_each body l s = Ok s' ->
               acts (List.length l * n) F (proj s) (proj s').
Proof.
  intros Hbody. induction l as [|a l IH]; intros s s'; cbn.
  - intros [= <-]. apply acts_refl.
  - destruct (body s a) as [s1|] eqn:E; cbn; [|discriminate].
    intros Hl. eapply acts_trans; [eapply Hbody, E|apply IH, Hl].
Qed.

Hypothesis Hgge : forall d, F d glyph_glyph_exceptions = false.

Lemma member_step_acts (g2g : list pair) (r : bool) (glyph : string)
      (acc acc' : value * state) (m : string) :
  member_step g2g r glyph acc m = Ok acc' ->
  acts 0 F (snd acc) (snd acc').
Proof.
  unfold member_step. intros H.
  destruct (mem _ g2g).
  - destruct (getitem _ _) as [v|]; [|discriminate]. cbn [bind] in H.
    injection H as <-. cbn [snd]. apply acts_put, Hgge.
  - injection H as <-. apply acts_refl.
Qed.

Lemma put_loop_acts (d : direction) (l : list pair) (st st' : state) :
  for_each
    (fun st p =>
       v <- getitem (kerning st) p ;;
       Ok (put d glyph_glyph_exceptions p v st)) l st = Ok st' ->
  acts 0 F st st'.
Proof.
  intros H.
  apply (@for_each_acts _ _ (fun s => s) _ 0) in H.
  - eapply acts_count; [exact H|apply Nat.mul_0_r].
  - intros s a s' Hs.
    destruct (getitem _ _) as [v|]; [|discriminate]. cbn [bind] in Hs.
    injection Hs as <-. apply acts_put, Hgge.
Qed.

Lemma exception_pairs_pass_acts (g2g e r : list pair) (st st' : state) :
  exception_pairs_pass g2g e r st = Ok st' -> acts 0 F st st'.
Proof.
  unfold exception_pairs_pass. intros H.
  match type of H with
  | bind ?m _ = _ => destruct m as [st1|] eqn:E1; [|discriminate]
  end.
  cbn [bind] in H. apply put_loop_acts in E1, H.
  eapply (acts_trans (n:=0) (m:=0)); [apply acts_set_exceptionPairs|].
  eapply (acts_trans (n:=0) (m:=0)); eassumption.
Qed.

Lemma glyph_group_step_acts (g2g : list pair) (st st' : state) (p : pair) :
  (forall d, F d glyph_group = false) ->
  (forall d, F d glyph_group_exceptions = false) ->
  glyph_group_step g2g st p = Ok st' -> acts 1 F st st'.
Proof.
  intros Hgg Hgx. unfold glyph_group_step. intros H.
  destruct (getitem (kerning st) (fst p, snd p)) as [value|]; [|discriminate].
  destruct (getitem (groups st) (snd p)) as [groupList|]; [|discriminate].
  destruct (attr (grouped_left st)) as [gl|]; [|discriminate].
  cbn [bind] in H. destruct (mem (fst p) gl).
  - injection H as <-.
    eapply (acts_trans (n:=0) (m:=1));
      [apply acts_put, Hgx|apply acts_append_processed].
  - destruct (for_each _ groupList (value, st)) as [[value' st1]|] eqn:E;
      [|discriminate].
    apply (@for_each_acts _ _ snd _ 0) in E;
      [|intros s a s'; apply member_step_acts].
    rewrite Nat.mul_0_r in E. cbn [snd bind] in *.
    destruct (is_zero value'); injection H as <-.
    + eapply (acts_trans (n:=0) (m:=1));
        [exact E|apply acts_append_unprocessed].
    + eapply (acts_trans (n:=0) (m:=1)); [exact E|].
      eapply (acts_trans (n:=0) (m:=1));
        [apply acts_put, Hgg|apply acts_append_processed].
Qed.

Lemma glyph_group_pass_acts (g2g g2grp : list pair) (st st' : state) :
  (forall d, F d glyph_group = false) ->
  (forall d, F d glyph_group_exceptions = false) ->
  glyph_group_pass g2g g2grp st = Ok st' ->
  acts (List.length g2grp) F st st'.
Proof.
  intros Hgg Hgx H.
  apply (@for_each_acts _ _ (fun s => s) _ 1) in H.
  - eapply acts_count; [exact H|apply Nat.mul_1_r].
  - intros s a s'. now apply glyph_group_step_acts.
Qed.

Lemma glyph_glyph_step_acts (st st' : state) (p : pair) :
  (forall d, F d glyph_glyph = false) ->
  glyph_glyph_step st p = Ok st' -> acts 1 F st st'.
Proof.
  intros Hg. unfold glyph_glyph_step. intros H.
  destruct (getitem (kerning st) (fst p, snd p)) as [value|]; [|discriminate].
  destruct (attr (grouped_left st)) as [gl|]; [|discriminate].
  destruct (attr (grouped_right st)) as [gr|]; [|discriminate].
  cbn [bind] in H.
  destruct (mem (fst p) gl || mem (snd p) gr); cbn [bind] in H.
  - injection H as <-.
    eapply (acts_trans (n:=0) (m:=1));
      [apply acts_put, Hgge|apply acts_append_processed].
  - destruct (negb _ && negb _); cbn [bind] in H; injection H as <-.
    + eapply (acts_trans (n:=0) (m:=1));
        [apply acts_put, Hg|apply acts_append_processed].
    + apply acts_append_processed.
Qed.

Lemma glyph_glyph_pass_acts (g2g : list pair) (st st' : state) :
  (forall d, F d glyph_glyph = false) ->
  glyph_glyph_pass g2g st = Ok st' -> acts (List.length g2g) F st st'.
Proof.
  intros Hg H.
  apply (@for_each_acts _ _ (fun s => s) _ 1) in H.
  - eapply acts_count; [exact H|apply Nat.mul_1_r].
  - intros s a s'. now apply glyph_glyph_step_acts.
Qed.

Lemma group_item_step_untouched (acc acc' : state * list pair * list pair)
      (p : pair) :
  (forall d, F d group_group = false) ->
  (forall d, F d group_glyph_exceptions = false) ->
  group_item_step acc p = Ok acc' ->
  untouched F (fst (fst acc)) (fst (fst acc')).
Proof.
  intros Hgg Hgx.
  assert (Hput : forall d c q v s t,
             F d c = false -> untouched F t s ->
             untouched F t (put d c q v s)).
  { intros d c q v s t HF Hs d' c' HF'.
    rewrite <- (Hs d' c' HF').
    exact (proj2 (@acts_put d c q v s HF) d' c' HF'). }
  destruct acc as [[st e] r]. unfold group_item_step. intros H.
  destruct (getitem (kerning st) (fst p, snd p)) as [value|]; [|discriminate].
  destruct (getitem (groups st) (fst p)) as [lg|]; [|discriminate].
  assert (Hrefl : untouched F st st) by (intros d c _; reflexivity).
  destruct (_isGroup (snd p)) as [[|]|]; [| |discriminate]; cbn [bind] in H.
  - destruct (getitem (groups st) (snd p)) as [rg|]; [|discriminate].
    cbn [bind] in H.
    destruct (is_zero value); [|destruct (_isRTL _ _)];
      injection H as <-; cbn [fst]; auto.
    + exact (Hput RTL group_group _ _ st st (Hgg _) Hrefl).
    + exact (Hput LTR group_group _ _ st st (Hgg _) Hrefl).
  - destruct (attr (grouped_right st)) as [gr|]; [|discriminate].
    cbn [bind] in H.
    destruct (mem (snd p) gr); [destruct (_isRTL _ _)|]; cbn [bind] in H.
    + injection H as <-; cbn [fst].
      exact (Hput RTL group_glyph_exceptions _ _ st st (Hgx _) Hrefl).
    + injection H as <-; cbn [fst].
      exact (Hput LTR group_glyph_exceptions _ _ st st (Hgx _) Hrefl).
    + destruct (is_zero value); [|destruct (_isRTL _ _)];
        injection H as <-; cbn [fst]; auto.
      * exact (Hput RTL group_group _ _ st st (Hgg _) Hrefl).
      * exact (Hput LTR group_group _ _ st st (Hgg _) Hrefl).
Qed.

Lemma group_item_pass_untouched (g2i : list pair) (st : state)
      (acc' : state * list pair * list pair) :
  (forall d, F d group_group = false) ->
  (forall d, F d group_glyph_exceptions = false) ->
  group_item_pass g2i st = Ok acc' -> untouched F st (fst (fst acc')).
Proof.
  intros Hgg Hgx. unfold group_item_pass. intros H.
  apply (for_each_preserves
           group_item_step
           (fun a b => untouched F (fst (fst a)) (fst (fst b)))) in H;
    [exact H| | |].
  - intros s d c _. reflexivity.
  - intros a b c Hab Hbc d k HF. now rewrite (Hbc d k HF), (Hab d k HF).
  - intros s a s'. now apply group_item_step_untouched.
Qed.
End Footprint.

(* ------------------------------------------------------------------ *)
(** ** No pair in two dictionaries *)

Section Apart.
Import KernProcessor.

Lemma findExceptions_passes (st st' : state) :
  _findExceptions st = Ok st' ->
  exists st1 g2g g2grp g2i st2 st3 e r st4,
    strip_pairs st = Ok st1 /\
    filter_r is_glyph_2_glyph (dict_keys (kerning st1)) = Ok g2g /\
    filter_r is_glyph_2_group (dict_keys (kerning st1)) = Ok g2grp /\
    filter_r is_group_2_item (dict_keys (kerning st1)) = Ok g2i /\
    glyph_group_pass (sorted_pairs g2g) (sorted_pairs g2grp) st1 = Ok st2 /\
    group_item_pass (sorted_pairs g2i) st2 = Ok (st3, e, r) /\
    exception_pairs_pass (sorted_pairs g2g) e r st3 = Ok st4 /\
    glyph_glyph_pass (sorted_pairs g2g) st4 = Ok st'.
Proof.
  unfold _findExceptions. intros H.
  destruct (strip_pairs st) as [st1|] eqn:E1; [|discriminate]. cbn [bind] in H.
  destruct (filter_r is_glyph_2_glyph _) as [g2g|] eqn:Ea; [|discriminate].
  cbn [bind] in H.
  destruct (filter_r is_glyph_2_group _) as [g2grp|] eqn:Eb;
    [|discriminate].
  cbn [bind] in H.
  destruct (filter_r is_group_2_item _) as [g2i|] eqn:Ec; [|discriminate].
  cbn [bind] in H.
  destruct (glyph_group_pass _ _ st1) as [st2|] eqn:E2; [|discriminate].
  cbn [bind] in H.
  destruct (group_item_pass _ st2) as [[[st3 e] r]|] eqn:E3; [|discriminate].
  cbn [bind] in H.
  destruct (exception_pairs_pass _ e r st3) as [st4|] eqn:E4; [|discriminate].
  cbn [bind] in H.
  exists st1, g2g, g2grp, g2i, st2, st3, e, r, st4.
  repeat (split; [first [reflexivity|assumption]|]). exact H.
Qed.

Lemma bucket_put_other (d d' : direction) (c c' : category) (p : pair)
      (v : value) (st : state) :
  category_eqb c c' = false ->
  bucket (put d c p v st) d' c' = bucket st d' c'.
Proof. intros Hc. cbn. now rewrite Hc, andb_false_r. Qed.

Lemma bucket_put_keys (d d' : direction) (c c' : category) (p q : pair)
      (v : value) (st : state) :
  In q (dict_keys (bucket (put d c p v st) d' c')) ->
  q = p \/ In q (dict_keys (bucket st d' c')).
Proof.
  change (bucket (put d c p v st) d' c')
    with (if direction_eqb d d' && category_eqb c c'
          then dict_set (bucket st d' c') p v else bucket st d' c').
  destruct (direction_eqb d d' && category_eqb c c'); [|auto].
  rewrite dict_keys_set. destruct (dict_mem _ p); [auto|].
  intros Hq. apply in_app_or in Hq as [Hq|[<-|[]]]; auto.
Qed.

(** The glyph pairs stored as plain pairs so far are pairs the loop has
    visited, and none of them is stored as an exception. *)
Lemma glyph_glyph_step_apart (done : list pair) (p : pair) (st st' : state) :
  ~ In p done ->
  (forall d q,
      In q (dict_keys (bucket st d glyph_glyph)) ->
      In q done /\
      forall d', ~ In q (dict_keys (bucket st d' glyph_glyph_exceptions))) ->
  glyph_glyph_step st p = Ok st' ->
  forall d q,
    In q (dict_keys (bucket st' d glyph_glyph)) ->
    In q (done ++ [p]) /\
    forall d', ~ In q (dict_keys (bucket st' d' glyph_glyph_exceptions)).
Proof.
  intros Hfresh Hinv. destruct p as [g1 g2].
  unfold glyph_glyph_step. cbn [fst snd]. intros H.
  destruct (getitem (kerning st) (g1, g2)) as [value|]; [|discriminate].
  destruct (attr (grouped_left st)) as [gl|]; [|discriminate].
  destruct (attr (grouped_right st)) as [gr|]; [|discriminate].
  cbn [bind] in H.
  destruct (mem g1 gl || mem g2 gr); cbn [bind] in H.
  - injection H as <-. intros d q Hq.
    change (bucket (append_processed ?a ?s)) with (bucket s) in *.
    rewrite bucket_put_other in Hq by reflexivity.
    destruct (Hinv d q Hq) as [Hdone Hno].
    split; [apply in_or_app; auto|].
    intros d' Hin. apply bucket_put_keys in Hin as [->|Hin];
      [contradiction|exact (Hno d' Hin)].
  - destruct (negb (dict_mem (bucket st LTR glyph_glyph_exceptions) (g1, g2))
              && negb (dict_mem (bucket st RTL glyph_glyph_exceptions)
                                (g1, g2))) eqn:Ecase;
      cbn [bind] in H; injection H as <-; intros d q Hq;
      change (bucket (append_processed ?a ?s)) with (bucket s) in *.
    + assert (Hsame : forall d',
                 bucket (put (dir_of (_isRTL (reference_groups st) (g1, g2)))
                             glyph_glyph (g1, g2) value st)
                        d' glyph_glyph_exceptions
                 = bucket st d' glyph_glyph_exceptions).
      { intros d'. now apply bucket_put_other. }
      apply bucket_put_keys in Hq as [->|Hq].
      * split; [apply in_or_app; right; now left|].
        intros d'. rewrite Hsame. intros Hin. apply dict_mem_In in Hin.
        apply andb_true_iff in Ecase as [E1 E2].
        apply negb_true_iff in E1, E2. destruct d'; congruence.
      * destruct (Hinv d q Hq) as [Hdone Hno].
        split; [apply in_or_app; auto|].
        intros d'. rewrite Hsame. apply Hno.
    + destruct (Hinv d q Hq) as [Hdone Hno].
      split; [apply in_or_app; auto|exact Hno].
Qed.

Lemma glyph_glyph_pass_apart (g2g : list pair) (st st' : state) :
  NoDup g2g -> (forall d, bucket st d glyph_glyph = []) ->
  glyph_glyph_pass g2g st = Ok st' ->
  forall d d' q,
    In q (dict_keys (bucket st' d glyph_glyph)) ->
    ~ In q (dict_keys (bucket st' d' glyph_glyph_exceptions)).
Proof.
  intros Hnd Hempty Hpass d d' q Hq.
  refine (proj2 (@for_each_prefix
                   _ _ glyph_glyph_step
                   (fun done s =>
                      forall d q,
                        In q (dict_keys (bucket s d glyph_glyph)) ->
                        In q done /\
                        forall d',
                          ~ In q (dict_keys
                                    (bucket s d' glyph_glyph_exceptions)))
                   g2g _ st st' _ Hpass d q Hq) d').
  - intros done a rest s s' Hl Hinv Hstep.
    apply (@glyph_glyph_step_apart done a s s'); [|assumption..].
    rewrite Hl in Hnd. apply NoDup_remove_2 in Hnd.
    intros Hin. apply Hnd, in_or_app. now left.
  - intros d0 q0. rewrite Hempty. intros [].
Qed.

Lemma findExceptions_apart (st st' : state) :
  wf_dict (kerning st) -> (forall d c, bucket st d c = []) ->
  _findExceptions st = Ok st' ->
  forall d d' q,
    In q (dict_keys (bucket st' d glyph_glyph)) ->
    ~ In q (dict_keys (bucket st' d' glyph_glyph_exceptions)).
Proof.
  intros Hwf Hempty Hfind.
  destruct (findExceptions_passes st Hfind)
    as (st1 & g2g & g2grp & g2i & st2 & st3 & e & r & st4 &
        Hstrip & Eg2g & _ & _ & E2 & E3 & E4 & E5).
  set (F := fun (_ : direction) (c : category) => category_eqb c glyph_glyph).
  apply (@glyph_glyph_pass_apart (sorted_pairs g2g) st4 st');
    [| |exact E5].
  - apply NoDup_sorted.
    apply (@filter_r_NoDup _ is_glyph_2_glyph (dict_keys (kerning st1)));
      [|exact Eg2g].
    destruct (strip_pairs_spec st Hwf) as (st1' & Hstrip' & Hk & _).
    rewrite Hstrip in Hstrip'. injection Hstrip' as <-.
    rewrite Hk. apply wf_dict_filter, Hwf.
  - intros d.
    apply (@exception_pairs_pass_acts F) in E4; [|reflexivity].
    apply (@group_item_pass_untouched F) in E3; try reflexivity.
    apply (@glyph_group_pass_acts F) in E2; try reflexivity.
    rewrite (proj2 E4 d glyph_glyph eq_refl).
    cbn [fst] in E3. rewrite (E3 d glyph_glyph eq_refl).
    rewrite (proj2 E2 d glyph_glyph eq_refl).
    rewrite (strip_pairs_other_buckets st Hstrip) by reflexivity.
    apply Hempty.
Qed.

Lemma init_apart (groups : dict string (list string))
      (kerning : dict pair value) (option_dissolve : bool) (st : state) :
  __init__ groups kerning option_dissolve = Ok st ->
  forall d d' q,
    In q (dict_keys (bucket st d glyph_glyph)) ->
    ~ In q (dict_keys (bucket st d' glyph_glyph_exceptions)).
Proof.
  intros Hinit.
  destruct (init_returned _ _ _ Hinit)
    as (st0 & st1 & Hwf & Hempty & _ & _ & _ & Hfind & Hlast).
  pose proof (@findExceptions_apart st0 st1 Hwf Hempty Hfind) as H.
  destruct Hlast as [->|(o & ->)]; exact H.
Qed.
End Apart.

Section ApartBuckets.
Import KernProcessor.

Lemma entry_ok_key (K : dict pair value) (R : dict string (list string))
      (gl gr : list string) (d : direction) (c : category) (p : pair)
      (v : value) :
  c <> predefined_exceptions -> entry_ok K R gl gr d c p v ->
  In p (dict_keys K).
Proof.
  intros Hc Hok. destruct c; cbn in Hok; try congruence;
    repeat match type of Hok with _ /\ _ => destruct Hok as [? Hok] end;
    first [assumption|eapply dict_get_Some_key; eassumption].
Qed.

Lemma init_predefined_absent (groups : dict string (list string))
      (kerning : dict pair value) (option_dissolve : bool) (st : state) :
  __init__ groups kerning option_dissolve = Ok st ->
  forall d p,
    In p (dict_keys (bucket st d predefined_exceptions)) ->
    d = LTR /\ ~ In p (dict_keys (KernProcessor.kerning st)).
Proof.
  intros Hinit d p Hp.
  destruct (init_stripped _ _ _ Hinit) as (Hrtl & Hmoved & Hkept).
  destruct d; [|rewrite Hrtl in Hp; contradiction].
  split; [reflexivity|]. intros Hin.
  apply Hmoved, moved_stripped in Hp. apply Hkept in Hin. congruence.
Qed.
End ApartBuckets.

(** X12: in the object a run of [KernProcessor] returns, no pair is stored
    in two of the fourteen dictionaries, except that one pair may be in both
    [glyph_glyph_exceptions] and [rtl_glyph_glyph_exceptions]. *)
Theorem buckets_apart
        (groups : dict string (list string)) (kerning : dict pair value)
        (option_dissolve : bool) (st : KernProcessor.state) :
  KernProcessor.__init__ groups kerning option_dissolve = Ok st ->
  forall d c d' c' p,
    In p (dict_keys (KernProcessor.bucket st d c)) ->
    In p (dict_keys (KernProcessor.bucket st d' c')) ->
    (d = d' /\ c = c') \/
    (c = KernProcessor.glyph_glyph_exceptions /\
     c' = KernProcessor.glyph_glyph_exceptions).
Proof.
  intros Hinit d c d' c' p Hp Hp'.
  destruct (init_buckets_ok _ _ _ Hinit) as (gl & gr & Hb).
  pose proof (init_predefined_absent _ _ _ Hinit) as Hpre.
  pose proof (init_apart _ _ _ Hinit) as Hapart.
  destruct (In_key_get _ _ Hp) as (v & Hv).
  destruct (In_key_get _ _ Hp') as (v' & Hv').
  pose proof (Hb _ _ _ _ Hv) as Hok. pose proof (Hb _ _ _ _ Hv') as Hok'.
  assert (Hkey : c <> KernProcessor.predefined_exceptions ->
                 In p (dict_keys (KernProcessor.kerning st))).
  { intros Hc. eapply entry_ok_key; eassumption. }
  assert (Hkey' : c' <> KernProcessor.predefined_exceptions ->
                  In p (dict_keys (KernProcessor.kerning st))).
  { intros Hc. eapply entry_ok_key; eassumption. }
  destruct c, c';
    try (right; split; reflexivity);
    try (exfalso; apply (Hapart _ _ _ Hp Hp'));
    try (exfalso; apply (Hapart _ _ _ Hp' Hp));
    try (exfalso; apply (proj2 (Hpre _ _ Hp)), Hkey'; discriminate);
    try (exfalso; apply (proj2 (Hpre _ _ Hp')), Hkey; discriminate);
    try (left; split; [|reflexivity];
         rewrite (proj1 (Hpre _ _ Hp)), (proj1 (Hpre _ _ Hp'));
         reflexivity);
    cbn in Hok, Hok';
    repeat match goal with
           | H : _ /\ _ |- _ => destruct H
           | H : _ \/ _ |- _ => destruct H
           end;
    try congruence;
    left; split; congruence.
Qed.

Lemma buckets_apart_witness :
  exists st,
    KernProcessor.__init__
      [("@MMK_R_B_RTL", ["b"])]
      [(("x", "@MMK_R_B_RTL"), VInt 5); (("x", "b"), VInt 3)] false
    = Ok st /\
    In ("x", "b")
       (dict_keys (KernProcessor.bucket
                     st KernProcessor.LTR
                     KernProcessor.glyph_glyph_exceptions)) /\
    In ("x", "b")
       (dict_keys (KernProcessor.bucket
                     st KernProcessor.RTL
                     KernProcessor.glyph_glyph_exceptions)) /\
    ((KernProcessor.LTR = KernProcessor.RTL /\
      KernProcessor.glyph_glyph_exceptions
      = KernProcessor.glyph_glyph_exceptions) \/
     (KernProcessor.glyph_glyph_exceptions
      = KernProcessor.glyph_glyph_exceptions /\
      KernProcessor.glyph_glyph_exceptions
      = KernProcessor.glyph_glyph_exceptions)).
Proof.
  destruct (KernProcessor.__init__
              [("@MMK_R_B_RTL", ["b"])]
              [(("x", "@MMK_R_B_RTL"), VInt 5); (("x", "b"), VInt 3)]
              false) as [st|] eqn:Hinit;
    [|vm_compute in Hinit; discriminate].
  assert (Hl : In ("x", "b")
                  (dict_keys (KernProcessor.bucket
                                st KernProcessor.LTR
                                KernProcessor.glyph_glyph_exceptions))).
  { vm_compute in Hinit. injection Hinit as <-. now left. }
  assert (Hr : In ("x", "b")
                  (dict_keys (KernProcessor.bucket
                                st KernProcessor.RTL
                                KernProcessor.glyph_glyph_exceptions))).
  { vm_compute in Hinit. injection Hinit as <-. now left. }
  exists st. split; [reflexivity|]. split; [exact Hl|]. split; [exact Hr|].
  exact (@buckets_apart _ _ _ _ Hinit _ _ _ _ _ Hl Hr).
Defined.

(* ------------------------------------------------------------------ *)
(** ** The count of the sanity check *)

Section Count.
Import KernProcessor.

Lemma filter_r_partition (l a b c : list pair) :
  filter_r is_glyph_2_glyph l = Ok a ->
  filter_r is_glyph_2_group l = Ok b ->
  filter_r is_group_2_item l = Ok c ->
  List.length a + List.length b + List.length c = List.length l.
Proof.
  revert a b c. induction l as [|x l IH]; intros a b c; cbn.
  - now intros [= <-] [= <-] [= <-].
  - destruct (filter_r is_glyph_2_glyph l) as [a'|];
      [|destruct (is_glyph_2_glyph x); discriminate].
    destruct (filter_r is_glyph_2_group l) as [b'|];
      [|destruct (is_glyph_2_group x); discriminate].
    destruct (filter_r is_group_2_item l) as [c'|];
      [|destruct (is_group_2_item x); discriminate].
    specialize (IH a' b' c' eq_refl eq_refl eq_refl).
    unfold is_glyph_2_glyph, is_glyph_2_group, is_group_2_item.
    destruct (_isGroup (fst x)) as [[|]|]; cbn; try discriminate;
      [|destruct (_isGroup (snd x)) as [[|]|]; cbn; try discriminate];
      intros [= <-] [= <-] [= <-]; cbn; lia.
Qed.

Lemma length_sorted_pairs (l : list pair) :
  List.length (sorted_pairs l) = List.length l.
Proof. apply Permutation_length, sorted_perm. Qed.

(** The pairs on the two lists and the RTL exceptions of a group against a
    glyph: one more with every pair of the loop. *)
Lemma group_item_step_count (acc acc' : state * list pair * list pair)
      (p : pair) :
  ~ In p (dict_keys (bucket (fst (fst acc)) RTL group_glyph_exceptions)) ->
  group_item_step acc p = Ok acc' ->
  handled (fst (fst acc'))
  + List.length (bucket (fst (fst acc')) RTL group_glyph_exceptions)
  = handled (fst (fst acc))
    + List.length (bucket (fst (fst acc)) RTL group_glyph_exceptions) + 1 /\
  forall q,
    In q (dict_keys (bucket (fst (fst acc')) RTL group_glyph_exceptions)) ->
    q = p \/
    In q (dict_keys (bucket (fst (fst acc)) RTL group_glyph_exceptions)).
Proof.
  destruct acc as [[st e] r]. destruct p as [lg ri]. cbn [fst snd].
  intros Hfresh. unfold group_item_step. cbn [fst snd]. intros H.
  assert (Hp : forall s : state,
             bucket s RTL group_glyph_exceptions
             = bucket st RTL group_glyph_exceptions ->
             handled (append_processed (lg, ri) s) = handled st + 1 ->
             handled (append_processed (lg, ri) s)
             + List.length (bucket (append_processed (lg, ri) s) RTL
                                   group_glyph_exceptions)
             = handled st
               + List.length (bucket st RTL group_glyph_exceptions) + 1 /\
             forall q,
               In q (dict_keys (bucket (append_processed (lg, ri) s) RTL
                                       group_glyph_exceptions)) ->
               q = (lg, ri) \/
               In q (dict_keys (bucket st RTL group_glyph_exceptions))).
  { intros s Hs Hh.
    change (bucket (append_processed (lg, ri) s)) with (bucket s).
    rewrite Hs, Hh. split; [lia|auto]. }
  assert (Hone : forall s : state,
             pairs_processed s = pairs_processed st ->
             pairs_unprocessed s = pairs_unprocessed st ->
             handled (append_processed (lg, ri) s) = handled st + 1).
  { intros s H1 H2. unfold handled. cbn. rewrite length_app, H1, H2.
    cbn. lia. }
  destruct (getitem (kerning st) (lg, ri)) as [value|]; [|discriminate].
  destruct (getitem (groups st) lg) as [lgg|]; [|discriminate].
  destruct (_isGroup ri) as [[|]|]; [| |discriminate]; cbn [bind] in H.
  - destruct (getitem (groups st) ri) as [rg|]; [|discriminate].
    cbn [bind] in H.
    destruct (is_zero value); [|destruct (_isRTL _ _)];
      injection H as <-; cbn [fst].
    + split; [|auto]. unfold handled. cbn. rewrite length_app. cbn. lia.
    + apply Hp; [reflexivity|now apply Hone].
    + apply Hp; [reflexivity|now apply Hone].
  - destruct (attr (grouped_right st)) as [gr|]; [|discriminate].
    cbn [bind] in H.
    destruct (mem ri gr); [destruct (_isRTL _ _)|]; cbn [bind] in H.
    + injection H as <-; cbn [fst]. split.
      * rewrite bucket_put_same, dict_set_fresh by assumption.
        rewrite length_app. unfold handled. cbn. lia.
      * intros q. apply bucket_put_keys.
    + injection H as <-; cbn [fst].
      apply Hp; [reflexivity|now apply Hone].
    + destruct (is_zero value); [|destruct (_isRTL _ _)];
        injection H as <-; cbn [fst].
      * split; [|auto]. unfold handled. cbn. rewrite length_app. cbn. lia.
      * apply Hp; [reflexivity|now apply Hone].
      * apply Hp; [reflexivity|now apply Hone].
Qed.

Lemma group_item_pass_count (g2i : list pair) (st : state)
      (acc' : state * list pair * list pair) :
  NoDup g2i -> bucket st RTL group_glyph_exceptions = [] ->
  group_item_pass g2i st = Ok acc' ->
  handled (fst (fst acc'))
  + List.length (bucket (fst (fst acc')) RTL group_glyph_exceptions)
  = handled st + List.length g2i.
Proof.
  intros Hnd Hempty Hpass. unfold group_item_pass in Hpass.
  refine (proj1 (@for_each_prefix
                   _ _ group_item_step
                   (fun done acc =>
                      handled (fst (fst acc))
                      + List.length (bucket (fst (fst acc)) RTL
                                            group_glyph_exceptions)
                      = handled st + List.length done /\
                      forall q,
                        In q (dict_keys (bucket (fst (fst acc)) RTL
                                                group_glyph_exceptions)) ->
                        In q done)
                   g2i _ (st, [], []) acc' _ Hpass)).
  - intros done a rest s s' Hl [Hcount Hkeys] Hstep.
    assert (Hfresh : ~ In a (dict_keys (bucket (fst (fst s)) RTL
                                               group_glyph_exceptions))).
    { intros Hin. apply Hkeys in Hin.
      rewrite Hl in Hnd. apply NoDup_remove_2 in Hnd.
      apply Hnd, in_or_app. now left. }
    destruct (group_item_step_count s a Hfresh Hstep) as [Hc Hk].
    split.
    + rewrite Hc, Hcount, length_app. cbn. lia.
    + intros q Hq. apply in_or_app. destruct (Hk q Hq) as [->|Hin].
      * right. now left.
      * left. now apply Hkeys.
  - cbn [fst]. rewrite Hempty. cbn. split; [lia|intros q []].
Qed.

Lemma findExceptions_count (st st' : state) :
  wf_dict (kerning st) -> bucket st RTL group_glyph_exceptions = [] ->
  _findExceptions st = Ok st' ->
  handled st' + List.length (bucket st' RTL group_glyph_exceptions)
  = handled st + List.length (dict_keys (kerning st')).
Proof.
  intros Hwf Hempty Hfind.
  destruct (findExceptions_keeps st Hfind) as (st1' & Hstrip' & Hk' & _).
  destruct (findExceptions_passes st Hfind)
    as (st1 & g2g & g2grp & g2i & st2 & st3 & e & r & st4 &
        Hstrip & Eg2g & Eg2grp & Eg2i & E2 & E3 & E4 & E5).
  rewrite Hstrip in Hstrip'. injection Hstrip' as <-.
  destruct (strip_pairs_spec st Hwf)
    as (st1' & Hstrip' & Hk & _ & Hpp & Hpu & _).
  rewrite Hstrip in Hstrip'. injection Hstrip' as <-.
  set (F := fun (d : direction) (c : category) =>
              direction_eqb d RTL && category_eqb c group_glyph_exceptions).
  assert (Hwf1 : NoDup (dict_keys (kerning st1))).
  { rewrite Hk. apply wf_dict_filter, Hwf. }
  apply (@glyph_group_pass_acts F) in E2; try (intros []; reflexivity).
  apply (@exception_pairs_pass_acts F) in E4; try (intros []; reflexivity).
  apply (@glyph_glyph_pass_acts F) in E5; try (intros []; reflexivity).
  destruct E2 as [H2 B2], E4 as [H4 B4], E5 as [H5 B5].
  specialize (B2 RTL group_glyph_exceptions eq_refl).
  specialize (B4 RTL group_glyph_exceptions eq_refl).
  specialize (B5 RTL group_glyph_exceptions eq_refl).
  apply group_item_pass_count in E3.
  - cbn [fst] in E3.
    rewrite !length_sorted_pairs in *.
    pose proof (filter_r_partition _ Eg2g Eg2grp Eg2i) as Hpart.
    rewrite Hk', <- Hpart, B5, B4, H5, H4.
    assert (Hh1 : handled st1 = handled st).
    { unfold handled. now rewrite Hpp, Hpu. }
    lia.
  - apply NoDup_sorted.
    now apply (@filter_r_NoDup _ is_group_2_item (dict_keys (kerning st1))).
  - rewrite B2, (strip_pairs_other_buckets st Hstrip) by reflexivity.
    exact Hempty.
Qed.

Lemma init_count (groups : dict string (list string))
      (kerning : dict pair value) (option_dissolve : bool) (st : state) :
  __init__ groups kerning option_dissolve = Ok st ->
  List.length (dict_keys (KernProcessor.kerning st))
  = handled st + List.length (bucket st RTL group_glyph_exceptions).
Proof.
  intros Hinit.
  destruct (init_returned _ _ _ Hinit)
    as (st0 & st1 & Hwf & Hempty & Hpp & Hpu & _ & Hfind & Hlast).
  pose proof (@findExceptions_count st0 st1 Hwf (Hempty _ _) Hfind) as H.
  assert (H0 : handled st0 = 0) by (unfold handled; now rewrite Hpp, Hpu).
  rewrite H0 in H. cbn in H.
  destruct Hlast as [->|(o & ->)]; symmetry; exact H.
Qed.
End Count.

(** X13: in the object a run of [KernProcessor] returns, every pair left in
    the kerning is counted once: the number of pairs is the number of
    processed pairs plus the number of unprocessed pairs plus the number of
    entries of [rtl_group_glyph_exceptions].  So [_sanityCheck] prints
    nothing exactly when [rtl_group_glyph_exceptions] is empty. *)
Theorem pairs_accounted
        (groups : dict string (list string)) (kerning : dict pair value)
        (option_dissolve : bool) (st : KernProcessor.state) :
  KernProcessor.__init__ groups kerning option_dissolve = Ok st ->
  List.length (dict_keys (KernProcessor.kerning st))
  = List.length (KernProcessor.pairs_processed st)
    + List.length (KernProcessor.pairs_unprocessed st)
    + List.length (KernProcessor.bucket
                     st KernProcessor.RTL
                     KernProcessor.group_glyph_exceptions) /\
  (KernProcessor._sanityCheck st = None <->
   KernProcessor.bucket st KernProcessor.RTL
                        KernProcessor.group_glyph_exceptions = []).
Proof.
  intros Hinit. pose proof (init_count _ _ _ Hinit) as H.
  unfold KernProcessor.handled in H. split; [exact H|].
  unfold KernProcessor._sanityCheck. rewrite H.
  set (n := List.length (KernProcessor.pairs_processed st)) in *.
  set (m := List.length (KernProcessor.pairs_unprocessed st)) in *.
  destruct (KernProcessor.bucket st KernProcessor.RTL
                                 KernProcessor.group_glyph_exceptions)
    as [|x b]; cbn [List.length].
  - rewrite Nat.add_0_r, Nat2Z.inj_add, Z.eqb_refl. cbn. tauto.
  - destruct (Z.eqb_spec (Z.of_nat (n + m + S (List.length b)))
                         (Z.of_nat n + Z.of_nat m)) as [E|E]; [lia|].
    cbn. split; discriminate.
Qed.

Lemma pairs_accounted_witness :
  exists st,
    KernProcessor.__init__
      [("@MMK_L_A_RTL", ["a"]); ("@MMK_R_B_RTL", ["b"])]
      [(("@MMK_L_A_RTL", "@MMK_R_B_RTL"), VInt 5);
       (("@MMK_L_A_RTL", "b"), VInt 3)] false
    = Ok st /\
    List.length (dict_keys (KernProcessor.kerning st)) = 2 /\
    KernProcessor._sanityCheck st <> None.
Proof.
  destruct (KernProcessor.__init__
              [("@MMK_L_A_RTL", ["a"]); ("@MMK_R_B_RTL", ["b"])]
              [(("@MMK_L_A_RTL", "@MMK_R_B_RTL"), VInt 5);
               (("@MMK_L_A_RTL", "b"), VInt 3)] false)
    as [st|] eqn:Hinit; [|vm_compute in Hinit; discriminate].
  assert (Hb : KernProcessor.bucket st KernProcessor.RTL
                                    KernProcessor.group_glyph_exceptions
               <> []).
  { vm_compute in Hinit. injection Hinit as <-. discriminate. }
  assert (Hk : List.length (dict_keys (KernProcessor.kerning st)) = 2).
  { vm_compute in Hinit. injection Hinit as <-. reflexivity. }
  exists st. split; [reflexivity|]. split; [exact Hk|].
  intros Hnone. apply Hb.
  exact (proj1 (proj2 (@pairs_accounted _ _ _ _ Hinit)) Hnone).
Defined.

(* ------------------------------------------------------------------ *)
(** ** When the classification returns *)

Section Returns.
Import KernProcessor.

Variable K : dict pair value.
Variables G R : dict string (list string).
Variables gl gr : list string.

Lemma getitem_key {A V : Type} `{Key A} (d : dict A V) (k : A) :
  In k (dict_keys d) -> exists v, getitem d k = Ok v.
Proof.
  intros Hk. apply In_key_get in Hk as (v & Hv). exists v.
  unfold getitem. now rewrite Hv.
Qed.

Lemma glyph_group_step_returns (g2g : list pair) (st : state) (p : pair) :
  in_context K G R gl gr st -> glyph_pairs_of_kerning K g2g ->
  In p (dict_keys K) -> In (snd p) (dict_keys G) ->
  exists st', glyph_group_step g2g st p = Ok st'.
Proof.
  intros (Hk & Hg & _ & Hgl & _) Hg2g Hp Hgroup.
  destruct p as [a b]. cbn [fst snd] in *. unfold glyph_group_step.
  cbn [fst snd]. rewrite Hk, Hg, Hgl.
  destruct (getitem_key _ _ Hp) as (v & ->).
  destruct (getitem_key _ _ Hgroup) as (glyphs & ->). cbn [bind attr].
  destruct (mem a gl); [eauto|].
  destruct (@member_loop_spec g2g (_isRTL (reference_groups st) (a, b)) a
                              glyphs v st)
    as (v' & st' & -> & _).
  { intros q Hq. rewrite Hk. now apply Hg2g. }
  cbn [bind]. destruct (is_zero v'); eauto.
Qed.

Lemma group_item_step_returns (st : state) (e r : list pair) (p : pair) :
  in_context K G R gl gr st ->
  In p (dict_keys K) -> In (fst p) (dict_keys G) ->
  (exists b, _isGroup (snd p) = Ok b) ->
  (_isGroup (snd p) = Ok true -> In (snd p) (dict_keys G)) ->
  exists acc', group_item_step (st, e, r) p = Ok acc'.
Proof.
  intros (Hk & Hg & _ & _ & Hgr) Hp Hleft (b & Hb) Hright.
  destruct p as [a c]. cbn [fst snd] in *. unfold group_item_step.
  cbn [fst snd]. rewrite Hk, Hg, Hgr, Hb.
  destruct (getitem_key _ _ Hp) as (v & ->).
  destruct (getitem_key _ _ Hleft) as (lg & ->). cbn [bind attr].
  destruct b.
  - destruct (getitem_key _ _ (Hright Hb)) as (rg & ->). cbn [bind].
    destruct (is_zero v); [|destruct (_isRTL _ _)]; eauto.
  - cbn [bind].
    destruct (mem c gr); [destruct (_isRTL _ _)|]; cbn [bind]; eauto.
    destruct (is_zero v); [|destruct (_isRTL _ _)]; eauto.
Qed.

Lemma put_loop_returns (d : direction) (l : list pair) (st : state) :
  in_context K G R gl gr st ->
  (forall q, In q l -> In q (dict_keys K)) ->
  exists st',
    for_each
      (fun st p =>
         v <- getitem (kerning st) p ;;
         Ok (put d glyph_glyph_exceptions p v st)) l st = Ok st' /\
    in_context K G R gl gr st'.
Proof.
  intros Hctx Hl.
  apply (for_each_invariant _ (in_context K G R gl gr)); [|exact Hctx].
  intros s q Hq Hs. pose proof Hs as (Hk & _). rewrite Hk.
  destruct (getitem_key _ _ (Hl q Hq)) as (v & ->). cbn [bind].
  eexists. split; [reflexivity|]. exact Hs.
Qed.

Lemma exception_pairs_pass_returns (g2g e r : list pair) (st : state) :
  in_context K G R gl gr st -> glyph_pairs_of_kerning K g2g ->
  exists st', exception_pairs_pass g2g e r st = Ok st'.
Proof.
  intros Hctx Hg2g. unfold exception_pairs_pass.
  assert (Hkeys : forall l q,
             In q (filter (fun p => mem p g2g) l) -> In q (dict_keys K)).
  { intros l q Hq. apply filter_In in Hq as [_ Hq]. apply mem_In in Hq.
    destruct (Hg2g q Hq) as [Hget _].
    destruct (dict_get K q) as [v|] eqn:E; [|congruence].
    eapply dict_get_Some_key, E. }
  destruct (@put_loop_returns
              LTR (filter (fun p => mem p g2g) (to_set e))
              (set_exceptionPairs
                 (filter (fun p => mem p g2g) (to_set e))
                 (filter (fun p => mem p g2g) (to_set r)) st))
    as (st1 & -> & Hctx1); [exact Hctx|apply Hkeys|].
  cbn [bind].
  destruct (@put_loop_returns
              RTL (filter (fun p => mem p g2g) (to_set r)) st1)
    as (st2 & -> & _); [exact Hctx1|apply Hkeys|].
  eauto.
Qed.

Lemma glyph_glyph_step_returns (st : state) (p : pair) :
  in_context K G R gl gr st -> In p (dict_keys K) ->
  exists st', glyph_glyph_step st p = Ok st'.
Proof.
  intros (Hk & _ & _ & Hgl & Hgr) Hp.
  destruct p as [a b]. unfold glyph_glyph_step. cbn [fst snd].
  rewrite Hk, Hgl, Hgr.
  destruct (getitem_key _ _ Hp) as (v & ->). cbn [bind attr].
  destruct (mem a gl || mem b gr); cbn [bind]; [eauto|].
  destruct (negb _ && negb _); cbn [bind]; eauto.
Qed.
End Returns.

Section ReturnsRun.
Import KernProcessor.

(** With the grouped glyphs set, names that are not empty and every group
    of a pair defined, [_findExceptions] raises nothing. *)
Lemma findExceptions_returns (st : state) (gl gr : list string) :
  wf_dict (kerning st) ->
  grouped_left st = Some gl -> grouped_right st = Some gr ->
  (forall p item,
      In p (dict_keys (kerning st)) -> item = fst p \/ item = snd p ->
      exists b, _isGroup item = Ok b /\
                (b = true -> In item (dict_keys (groups st)))) ->
  exists st', _findExceptions st = Ok st'.
Proof.
  intros Hwf Hgl Hgr Hitems.
  destruct (strip_pairs_spec st Hwf)
    as (st1 & Hstrip & Hk1 & (Hc1 & Hc2 & Hc3 & Hc4) & _).
  unfold _findExceptions. rewrite Hstrip. cbn [bind].
  set (K := kerning st1) in *.
  set (G := groups st) in *. set (R := reference_groups st) in *.
  assert (Hctx1 : in_context K G R gl gr st1).
  { repeat split; congruence. }
  assert (Hsub : forall p, In p (dict_keys K) -> In p (dict_keys (kerning st))).
  { intros p Hp. rewrite Hk1 in Hp. unfold dict_keys in *.
    apply in_map_iff in Hp as (pv & <- & Hin).
    apply filter_In in Hin as [Hin _]. now apply in_map. }
  assert (Hshape : forall p, In p (dict_keys K) ->
                             (exists a, _isGroup (fst p) = Ok a) /\
                             (exists b, _isGroup (snd p) = Ok b)).
  { intros p Hp. apply Hsub in Hp.
    destruct (Hitems p (fst p) Hp (or_introl eq_refl)) as (a & Ha & _).
    destruct (Hitems p (snd p) Hp (or_intror eq_refl)) as (b & Hb & _).
    eauto. }
  assert (Hdef : forall p item,
             In p (dict_keys K) -> item = fst p \/ item = snd p ->
             _isGroup item = Ok true -> In item (dict_keys G)).
  { intros p item Hp Hitem Hgroup. apply Hsub in Hp.
    destruct (Hitems p item Hp Hitem) as (b & Hb & Hin).
    apply Hin. congruence. }
  destruct (@filter_r_returns _ is_glyph_2_glyph (dict_keys K))
    as (g2g & Eg2g).
  { intros p Hp. destruct (Hshape p Hp) as ((a & Ha) & (b & Hb)).
    unfold is_glyph_2_glyph. rewrite Ha. cbn [bind].
    destruct a; cbn; [eauto|]. rewrite Hb. cbn. eauto. }
  destruct (@filter_r_returns _ is_glyph_2_group (dict_keys K))
    as (g2grp & Eg2grp).
  { intros p Hp. destruct (Hshape p Hp) as ((a & Ha) & (b & Hb)).
    unfold is_glyph_2_group. rewrite Ha. cbn [bind].
    destruct a; cbn; eauto. }
  destruct (@filter_r_returns _ is_group_2_item (dict_keys K))
    as (g2i & Eg2i).
  { intros p Hp. destruct (Hshape p Hp) as (Ha & _). exact Ha. }
  rewrite Eg2g, Eg2grp, Eg2i. cbn [bind].
  assert (Hg2g : glyph_pairs_of_kerning K (sorted_pairs g2g)).
  { intros q Hq. apply (sorted_filter_r_In _ _ q Eg2g) in Hq as [Hq Hs].
    apply is_glyph_2_glyph_true in Hs.
    split; [|exact Hs]. apply In_key_get in Hq as (v & ->). discriminate. }
  destruct (for_each_invariant
              (glyph_group_step (sorted_pairs g2g))
              (in_context K G R gl gr) (sorted_pairs g2grp))
    with (s := st1) as (st2 & E2 & Hctx2); [|exact Hctx1|].
  { intros s p Hp Hs.
    apply (sorted_filter_r_In _ _ p Eg2grp) in Hp as [Hp Hpshape].
    apply is_glyph_2_group_true in Hpshape as [_ Hr].
    destruct (@glyph_group_step_returns K G R gl gr (sorted_pairs g2g) s p)
      as (s' & Hs'); try assumption.
    { eapply Hdef; eauto. }
    exists s'. split; [exact Hs'|].
    eapply in_context_keeps; [exact Hs|].
    eapply glyph_group_step_keeps, Hs'. }
  unfold glyph_group_pass. rewrite E2. cbn [bind].
  destruct (for_each_invariant
              group_item_step
              (fun acc => in_context K G R gl gr (fst (fst acc)))
              (sorted_pairs g2i))
    with (s := (st2, @nil pair, @nil pair)) as ([[st3 e] r] & E3 & Hctx3);
    [|exact Hctx2|].
  { intros [[s e] r] p Hp Hs. cbn [fst] in Hs.
    apply (sorted_filter_r_In _ _ p Eg2i) in Hp as [Hp Hl].
    unfold is_group_2_item in Hl.
    destruct (@group_item_step_returns K G R gl gr s e r p)
      as (acc' & Hacc'); try assumption.
    { eapply Hdef; eauto. }
    { apply (Hshape p Hp). }
    { intros Hr. eapply Hdef; eauto. }
    exists acc'. split; [exact Hacc'|].
    eapply in_context_keeps; [exact Hs|].
    apply group_item_step_keeps in Hacc'. exact Hacc'. }
  unfold group_item_pass. rewrite E3. cbn [bind fst] in *.
  destruct (@exception_pairs_pass_returns K G R gl gr (sorted_pairs g2g)
                                          e r st3 Hctx3 Hg2g)
    as (st4 & E4).
  rewrite E4. cbn [bind].
  assert (Hctx4 : in_context K G R gl gr st4).
  { eapply in_context_keeps; [exact Hctx3|].
    eapply exception_pairs_pass_keeps, E4. }
  destruct (for_each_invariant
              glyph_glyph_step (in_context K G R gl gr) (sorted_pairs g2g))
    with (s := st4) as (st5 & E5 & _); [|exact Hctx4|].
  { intros s p Hp Hs.
    apply (sorted_filter_r_In _ _ p Eg2g) in Hp as [Hp _].
    destruct (@glyph_glyph_step_returns K G R gl gr s p Hs Hp) as (s' & Hs').
    exists s'. split; [exact Hs'|].
    eapply in_context_keeps; [exact Hs|].
    eapply glyph_glyph_step_keeps, Hs'. }
  unfold glyph_glyph_pass. eauto.
Qed.
End ReturnsRun.

Section ReturnsInit.
Import KernProcessor.

Lemma isGroup_remap (x : string) (b : bool) :
  _isGroup x = Ok b -> _isGroup (_remap_group_name x) = Ok b.
Proof.
  destruct b; [apply remap_group_stays|apply remap_glyph_name].
Qed.

Lemma remap_items_defined (G : dict string (list string))
      (K : dict pair value) :
  items_defined G K -> items_defined (_remap_groups G) (_remap_kerning K).
Proof.
  intros Hdef p item Hp Hitem. unfold _remap_kerning in Hp.
  apply (dict_keys_fold_set
           (fun pv : pair * value =>
              (_remap_group_name (fst (fst pv)),
               _remap_group_name (snd (fst pv))))
           (@snd pair value)) in Hp.
  destruct Hp as [[]|Hp].
  apply in_map_iff in Hp as ([q w] & <- & Hq). cbn [fst snd] in Hitem.
  assert (Hkey : In q (dict_keys K)).
  { unfold dict_keys. apply in_map_iff. exists (q, w). auto. }
  assert (Hone : forall x, x = fst q \/ x = snd q ->
                           exists b, _isGroup (_remap_group_name x) = Ok b /\
                                     (b = true ->
                                      In (_remap_group_name x)
                                         (dict_keys (_remap_groups G)))).
  { intros x Hx. destruct (Hdef q x Hkey Hx) as (b & Hb & Hin).
    exists b. split; [now apply isGroup_remap|].
    intros Hbt. specialize (Hin Hbt). unfold _remap_groups.
    apply (dict_keys_fold_set
             (fun gl : string * list string => _remap_group_name (fst gl))
             (@snd string (list string))).
    right. unfold dict_keys in Hin.
    apply in_map_iff in Hin as (gl & <- & Hgl).
    apply in_map_iff. exists gl. auto. }
  destruct Hitem as [->| ->]; apply Hone; auto.
Qed.

Lemma grouped_body_returns (st : state) (acc : list string * list string)
      (p : pair) :
  (exists a, _isGroup (fst p) = Ok a) -> (exists b, _isGroup (snd p) = Ok b) ->
  exists acc', grouped_body st acc p = Ok acc'.
Proof.
  intros (a & Ha) (b & Hb). unfold grouped_body. rewrite Ha. cbn [bind].
  destruct (extend_side st a (fst p) (fst acc)) as (L & -> & _). cbn [bind].
  rewrite Hb. cbn [bind].
  destruct (extend_side st b (snd p) (snd acc)) as (R & -> & _). cbn [bind].
  eauto.
Qed.

Lemma getAllGroupedGlyphs_returns (st : state) (s : side) :
  items_defined (groups st) (kerning st) ->
  exists grouped, _getAllGroupedGlyphs st s = Ok grouped.
Proof.
  intros Hdef. unfold _getAllGroupedGlyphs.
  change (for_each _ (dict_keys (kerning st)) ([], []))
    with (for_each (grouped_body st) (dict_keys (kerning st)) ([], [])).
  destruct (for_each_invariant
              (grouped_body st) (fun _ => True) (dict_keys (kerning st)))
    with (s := (@nil string, @nil string)) as ([L R] & -> & _); [|trivial|].
  - intros acc p Hp _.
    destruct (@grouped_body_returns st acc p) as (acc' & Hacc').
    + destruct (Hdef p (fst p) Hp (or_introl eq_refl)) as (a & Ha & _). eauto.
    + destruct (Hdef p (snd p) Hp (or_intror eq_refl)) as (b & Hb & _). eauto.
    + eauto.
  - cbn [bind]. destruct s; eauto.
Qed.

(** The run from the remapped dictionaries on. *)
Lemma run_returns (R G : dict string (list string)) (K : dict pair value) :
  items_defined G K ->
  let st := new_state R (_remap_groups G) (_remap_kerning K) in
  exists l r st',
    _getAllGroupedGlyphs st left = Ok l /\
    _getAllGroupedGlyphs st right = Ok r /\
    _findExceptions (set_grouped l r st) = Ok st'.
Proof.
  intros Hdef st. apply remap_items_defined in Hdef.
  destruct (@getAllGroupedGlyphs_returns st left Hdef) as (l & Hl).
  destruct (@getAllGroupedGlyphs_returns st right Hdef) as (r & Hr).
  destruct (@findExceptions_returns (set_grouped l r st) l r)
    as (st' & Hst'); try reflexivity.
  - apply remap_kerning_wf.
  - exact Hdef.
  - exists l, r, st'. auto.
Qed.

Lemma used_groups_keys (groups : dict string (list string))
      (kerning sanitized : dict pair value) (names : list string)
      (used : dict string (list string)) :
  sanitize_kerning groups kerning = Ok sanitized ->
  _get_used_groups sanitized = Ok names ->
  used_groups_of groups names = Ok used ->
  used = map (fun g => (g, dict_get_default groups g [])) names /\
  forall g, In g names -> dict_mem groups g = true.
Proof.
  intros Hsan Hnames Hused.
  assert (Hdef : forall g, In g names -> dict_mem groups g = true).
  { intros g Hg. apply (get_used_groups_In _ Hnames) in Hg
      as (p & Hp & Hitem & Hgroup).
    eapply sanitized_group_defined; eauto. }
  assert (Hnd : NoDup names).
  { unfold _get_used_groups in Hnames.
    destruct (for_each _ _ _) as [groupList|]; [|discriminate].
    injection Hnames as <-. apply NoDup_sorted, NoDup_to_set. }
  split; [|exact Hdef]. unfold used_groups_of in Hused.
  rewrite (@used_groups_of_loop groups names [] Hdef Hnd) in Hused.
  now injection Hused as <-.
Qed.

Lemma used_items_defined (groups : dict string (list string))
      (kerning sanitized : dict pair value) (names : list string)
      (used : dict string (list string)) :
  sanitize_kerning groups kerning = Ok sanitized ->
  _get_used_groups sanitized = Ok names ->
  used_groups_of groups names = Ok used ->
  items_defined used sanitized.
Proof.
  intros Hsan Hnames Hused p item Hp Hitem.
  destruct (used_groups_keys _ _ Hsan Hnames Hused) as [-> _].
  assert (Hb : exists b, _isGroup item = Ok b).
  { destruct (sanitize_items_nonempty
                groups kerning p Hsan (sanitized_keys groups kerning p Hsan Hp))
      as [Ha Hb].
    destruct Hitem as [->| ->]; assumption. }
  destruct Hb as (b & Hb). exists b. split; [exact Hb|]. intros ->.
  unfold dict_keys. rewrite map_map. cbn [fst]. rewrite map_id.
  apply (get_used_groups_In _ Hnames). eauto.
Qed.

Lemma dissolved_item_cases (G : dict string (list string)) (x : string) :
  (dict_get (singleGroups_of G) x = None /\
   dissolved_item (singleGroups_of G) x = x) \/
  exists glyphs, In (x, glyphs) G /\
                 In (dissolved_item (singleGroups_of G) x) glyphs.
Proof.
  unfold dissolved_item, dict_get_default.
  destruct (dict_get (singleGroups_of G) x) as [glyphs|] eqn:E; [|now left].
  right. exists glyphs. apply dict_get_In, In_singleGroups in E
    as (Hin & Hlen & _).
  split; [exact Hin|].
  destruct glyphs as [|m [|m' rest]]; try discriminate. now left.
Qed.

Lemma dissolve_items_defined (G : dict string (list string))
      (K : dict pair value) :
  items_defined G K ->
  (forall g glyphs m, In (g, glyphs) G -> In m glyphs ->
                      _isGroup m = Ok false) ->
  items_defined (fst (_dissolveSingleGroups G K))
                (snd (_dissolveSingleGroups G K)).
Proof.
  intros Hdef Hmembers. unfold _dissolveSingleGroups.
  destruct (singleGroups_of G) as [|sg0 sgs] eqn:Esg; [exact Hdef|].
  rewrite <- Esg. cbn [fst snd]. intros p item Hp Hitem.
  apply (dict_keys_fold_set
           (fun pv : pair * value =>
              dissolved_pair (singleGroups_of G) (fst pv))
           (@snd pair value)) in Hp.
  destruct Hp as [[]|Hp].
  apply in_map_iff in Hp as ([q w] & <- & Hq). cbn [fst snd] in Hitem.
  assert (Hkey : In q (dict_keys K)).
  { unfold dict_keys. apply in_map_iff. exists (q, w). auto. }
  assert (Hone : forall x,
             x = fst q \/ x = snd q ->
             exists b,
               _isGroup (dissolved_item (singleGroups_of G) x) = Ok b /\
               (b = true ->
                In (dissolved_item (singleGroups_of G) x)
                   (dict_keys
                      (filter
                         (fun gl : string * list string =>
                            negb (dict_mem (singleGroups_of G) (fst gl)))
                         G)))).
  { intros x Hx.
    destruct (dissolved_item_cases G x) as [[Hnone ->]|(glyphs & Hin & Hm)].
    - destruct (Hdef q x Hkey Hx) as (b & Hb & Hgroup).
      exists b. split; [exact Hb|]. intros Hbt. specialize (Hgroup Hbt).
      unfold dict_keys in *. apply in_map_iff in Hgroup as ([g gs] & <- & Hg).
      apply in_map_iff. exists (g, gs). split; [reflexivity|].
      apply filter_In. split; [exact Hg|]. cbn [fst] in *.
      unfold dict_mem. now rewrite Hnone.
    - exists false. split; [|discriminate]. eapply Hmembers; eassumption. }
  unfold dissolved_pair in Hitem. cbn [fst snd] in Hitem.
  destruct Hitem as [->| ->]; apply Hone; auto.
Qed.
End ReturnsInit.

(** X14: [KernProcessor(groups, kerning, option_dissolve)] raises nothing
    when no item of a pair has the empty name and some pair with a group
    among its items survives sanitizing (each of its groups is a key of
    [groups]); with [option_dissolve], provided also that the members of the
    groups are glyph names. *)
Theorem init_returns
        (groups : dict string (list string)) (kerning : dict pair value)
        (option_dissolve : bool) :
  (forall p, In p (dict_keys kerning) -> fst p <> "" /\ snd p <> "") ->
  (option_dissolve = true ->
   forall g glyphs m,
     In (g, glyphs) groups -> In m glyphs ->
     KernProcessor._isGroup m = Ok false) ->
  (exists p,
      In p (dict_keys kerning) /\
      (KernProcessor._isGroup (fst p) = Ok true \/
       KernProcessor._isGroup (snd p) = Ok true) /\
      forall item,
        item = fst p \/ item = snd p ->
        KernProcessor._isGroup item = Ok true ->
        dict_mem groups item = true) ->
  exists st, KernProcessor.__init__ groups kerning option_dissolve = Ok st.
Proof.
  intros Hnames Hmembers (p0 & Hp0 & Hgroup0 & Hdef0).
  destruct (@filter_r_returns
              _ KernProcessor._isGroup
              (to_set (flat_map (fun p : pair => [fst p; snd p])
                                (dict_keys kerning))))
    as (all_kerned_groups & Ef).
  { intros item Hitem. apply In_kerned_items in Hitem as (p & Hp & Hitem).
    apply isGroup_returns. destruct (Hnames p Hp) as [Ha Hb].
    destruct Hitem as [->| ->]; assumption. }
  assert (Hsan : exists sk,
             KernProcessor.sanitize_kerning groups kerning = Ok sk).
  { unfold KernProcessor.sanitize_kerning. rewrite Ef. cbn [bind]. eauto. }
  destruct Hsan as (sk & Hsan).
  assert (Hkept : In p0 (dict_keys sk)).
  { destruct (sanitize_returned groups kerning Hsan) as (bad & -> & Hbad).
    unfold dict_keys in *. apply in_map_iff in Hp0 as ([q v] & <- & Hin).
    apply in_map_iff. exists (q, v). split; [reflexivity|].
    apply filter_In. split; [exact Hin|]. cbn [fst] in *.
    apply negb_true_iff, orb_false_iff.
    split; apply mem_not_In; intros Hb; apply Hbad in Hb
      as (_ & Hg & Hm); rewrite Hdef0 in Hm; auto; discriminate. }
  assert (Hused : exists names,
             KernProcessor._get_used_groups sk = Ok names).
  { unfold KernProcessor._get_used_groups.
    match goal with
    | |- exists _, bind (for_each ?body ?l ?s0) _ = _ =>
        destruct (@for_each_invariant _ _ body (fun _ => True) l)
          with (s := s0) as (groupList & -> & _)
    end; [|trivial|cbn [bind]; eauto].
    intros acc p Hp _.
    destruct (sanitize_items_nonempty
                groups kerning p Hsan (sanitized_keys groups kerning p Hsan Hp))
      as [(a & ->) (b & ->)].
    cbn [bind]. eauto. }
  destruct Hused as (names & Hnames_eq).
  destruct (@used_groups_defined groups kerning sk Hsan names Hnames_eq)
    as (used & Hused).
  pose proof (used_items_defined _ _ Hsan Hnames_eq Hused) as Hdef.
  destruct (used_groups_keys _ _ Hsan Hnames_eq Hused) as [Hshape Hin_groups].
  assert (Hsome : exists u rest, used = u :: rest).
  { assert (Hg : exists g, In g names).
    { destruct Hgroup0 as [Hg|Hg]; [exists (fst p0)|exists (snd p0)];
        apply (get_used_groups_In _ Hnames_eq); exists p0; auto. }
    destruct Hg as (g & Hg). rewrite Hshape.
    destruct names as [|n names]; [destruct Hg|]. cbn [map]. eauto. }
  destruct Hsome as (u & rest & Eu).
  assert (Hmem_used : forall g glyphs,
             In (g, glyphs) used -> In (g, glyphs) groups).
  { intros g glyphs Hg. rewrite Hshape in Hg.
    apply in_map_iff in Hg as (g' & [= <- <-] & Hg').
    apply Hin_groups in Hg'. unfold dict_mem in Hg'.
    unfold dict_get_default.
    destruct (dict_get groups g') as [gs|] eqn:Eg; [|discriminate].
    now apply dict_get_In. }
  set (R := filter (fun gl : string * list string =>
                      negb (KernProcessor._isKerningGroup (fst gl))) groups).
  assert (Hrun : forall G K,
             KernProcessor.items_defined G K ->
             exists st,
               (st0 <-
                  (l <- KernProcessor._getAllGroupedGlyphs
                          (KernProcessor.new_state
                             R (KernProcessor._remap_groups G)
                             (KernProcessor._remap_kerning K))
                          KernProcessor.left ;;
                   r <- KernProcessor._getAllGroupedGlyphs
                          (KernProcessor.new_state
                             R (KernProcessor._remap_groups G)
                             (KernProcessor._remap_kerning K))
                          KernProcessor.right ;;
                   Ok (KernProcessor.set_grouped
                         l r
                         (KernProcessor.new_state
                            R (KernProcessor._remap_groups G)
                            (KernProcessor._remap_kerning K)))) ;;
                st1 <- KernProcessor._findExceptions st0 ;;
                match KernProcessor.kerning st1 with
                | _ :: _ =>
                    Ok (KernProcessor.set_group_order
                          (sorted_names
                             (dict_keys (KernProcessor.groups st1))) st1)
                | [] => Ok st1
                end) = Ok st).
  { intros G K HGK.
    destruct (@run_returns R G K HGK) as (l & r & st' & -> & -> & Hfind).
    cbn [bind]. rewrite Hfind. cbn [bind].
    destruct (KernProcessor.kerning st'); eauto. }
  unfold KernProcessor.__init__. rewrite Hsan. cbn [bind].
  rewrite Hnames_eq. cbn [bind]. rewrite Hused. cbn [bind].
  fold R. clear Hshape. subst used. cbv beta iota.
  destruct option_dissolve.
  - pose proof (@dissolve_items_defined (u :: rest) sk Hdef) as Hd.
    destruct (KernProcessor._dissolveSingleGroups (u :: rest) sk)
      as [dg dk].
    apply Hrun, Hd. intros g glyphs m Hg Hm.
    apply (Hmembers eq_refl g glyphs m); [|exact Hm]. now apply Hmem_used.
  - apply Hrun, Hdef.
Qed.

Lemma init_returns_witness :
  exists st,
    KernProcessor.__init__
      [("@MMK_L_A", ["a"]); ("@MMK_R_B", ["b"; "c"])]
      [(("@MMK_L_A", "@MMK_R_B"), VInt 5); (("x", "b"), VInt 3)]
      true = Ok st.
Proof.
  apply init_returns.
  - intros p [<-|[<-|[]]]; split; discriminate.
  - intros _ g glyphs m [[= <- <-]|[[= <- <-]|[]]] Hm; cbn in Hm;
      repeat (destruct Hm as [<-|Hm]; [reflexivity|]); destruct Hm.
  - exists ("@MMK_L_A", "@MMK_R_B"). split; [now left|].
    split; [now left|].
    intros item [->| ->] _; reflexivity.
Defined.

(* ------------------------------------------------------------------ *)
(** ** The assignments of the classification *)

Section Evolution.
Import KernProcessor.

Lemma evolves_trans (a b c : state) :
  evolves a b -> evolves b c -> evolves a c.
Proof.
  intros Hab Hbc. induction Hbc; [assumption|constructor; assumption..].
Qed.

Ltac evolved :=
  repeat first [apply evolves_refl
               |assumption
               |apply evolves_put
               |apply evolves_processed
               |apply evolves_unprocessed
               |apply evolves_del
               |apply evolves_exceptionPairs].

Lemma strip_step_evolves (st st' : state) (p : pair) :
  strip_step st p = Ok st' -> evolves st st'.
Proof.
  unfold strip_step. destruct (ignored p).
  - intros [= <-]. evolved.
  - destruct (predefined p); [|intros [= <-]; evolved].
    destruct (getitem _ _) as [v|]; [|discriminate].
    intros [= <-]. evolved.
Qed.

Lemma member_step_evolves (g2g : list pair) (r : bool) (glyph : string)
      (acc acc' : value * state) (m : string) :
  member_step g2g r glyph acc m = Ok acc' -> evolves (snd acc) (snd acc').
Proof.
  unfold member_step. destruct (mem _ g2g).
  - destruct (getitem _ _) as [v|]; [|discriminate].
    intros [= <-]. cbn [snd]. evolved.
  - intros [= <-]. evolved.
Qed.

Lemma glyph_group_step_evolves (g2g : list pair) (st st' : state)
      (p : pair) :
  glyph_group_step g2g st p = Ok st' -> evolves st st'.
Proof.
  unfold glyph_group_step. intros H.
  destruct (getitem (kerning st) (fst p, snd p)) as [v0|]; [|discriminate].
  destruct (getitem (groups st) (snd p)) as [groupList|]; [|discriminate].
  destruct (attr (grouped_left st)) as [gl|]; [|discriminate].
  cbn [bind] in H. destruct (mem (fst p) gl).
  - injection H as <-. evolved.
  - destruct (for_each _ groupList (v0, st)) as [[value' st1]|] eqn:E;
      [|discriminate].
    apply (for_each_preserves
             _ (fun a b : value * state =>
                  evolves (snd a) (snd b))) in E.
    + cbn [snd bind] in *. destruct (is_zero value'); injection H as <-;
        evolved.
    + intros s. evolved.
    + intros a b c. apply evolves_trans.
    + intros s a s'. apply member_step_evolves.
Qed.

Lemma group_item_step_evolves (acc acc' : state * list pair * list pair)
      (p : pair) :
  group_item_step acc p = Ok acc' ->
  evolves (fst (fst acc)) (fst (fst acc')).
Proof.
  destruct acc as [[st e] r]. unfold group_item_step. intros H.
  destruct (getitem (kerning st) (fst p, snd p)) as [value|]; [|discriminate].
  destruct (getitem (groups st) (fst p)) as [lg|]; [|discriminate].
  destruct (_isGroup (snd p)) as [[|]|]; [| |discriminate]; cbn [bind] in H.
  - destruct (getitem (groups st) (snd p)) as [rg|]; [|discriminate].
    cbn [bind] in H.
    destruct (is_zero value); [|destruct (_isRTL _ _)];
      injection H as <-; cbn [fst]; evolved.
  - destruct (attr (grouped_right st)) as [gr|]; [|discriminate].
    cbn [bind] in H.
    destruct (mem (snd p) gr); [destruct (_isRTL _ _)|]; cbn [bind] in H.
    + injection H as <-; cbn [fst]; evolved.
    + injection H as <-; cbn [fst]; evolved.
    + destruct (is_zero value); [|destruct (_isRTL _ _)];
        injection H as <-; cbn [fst]; evolved.
Qed.

Lemma put_loop_evolves (d : direction) (l : list pair) (st st' : state) :
  for_each
    (fun st p =>
       v <- getitem (kerning st) p ;;
       Ok (put d glyph_glyph_exceptions p v st)) l st = Ok st' ->
  evolves st st'.
Proof.
  apply (for_each_preserves _ evolves).
  - intros s. evolved.
  - apply evolves_trans.
  - intros s a s' H. destruct (getitem _ _) as [v|]; [|discriminate].
    injection H as <-. evolved.
Qed.

Lemma exception_pairs_pass_evolves (g2g e r : list pair) (st st' : state) :
  exception_pairs_pass g2g e r st = Ok st' -> evolves st st'.
Proof.
  unfold exception_pairs_pass. intros H.
  match type of H with
  | bind ?m _ = _ => destruct m as [st1|] eqn:E1; [|discriminate]
  end.
  cbn [bind] in H. apply put_loop_evolves in E1, H.
  eapply evolves_trans; [|exact H].
  eapply evolves_trans; [|exact E1]. evolved.
Qed.

Lemma glyph_glyph_step_evolves (st st' : state) (p : pair) :
  glyph_glyph_step st p = Ok st' -> evolves st st'.
Proof.
  unfold glyph_glyph_step. intros H.
  destruct (getitem (kerning st) (fst p, snd p)) as [value|]; [|discriminate].
  destruct (attr (grouped_left st)) as [gl|]; [|discriminate].
  destruct (attr (grouped_right st)) as [gr|]; [|discriminate].
  cbn [bind] in H.
  destruct (mem (fst p) gl || mem (snd p) gr); cbn [bind] in H.
  - injection H as <-. evolved.
  - destruct (negb _ && negb _); cbn [bind] in H; injection H as <-; evolved.
Qed.

Lemma findExceptions_evolves (st st' : state) :
  _findExceptions st = Ok st' -> evolves st st'.
Proof.
  intros Hfind.
  destruct (findExceptions_passes st Hfind)
    as (st1 & g2g & g2grp & g2i & st2 & st3 & e & r & st4 &
        Hstrip & _ & _ & _ & E2 & E3 & E4 & E5).
  apply (for_each_preserves strip_step evolves) in Hstrip;
    [|intros s; evolved|apply evolves_trans
     |intros s a s'; apply strip_step_evolves].
  apply (for_each_preserves (glyph_group_step _) evolves) in E2;
    [|intros s; evolved|apply evolves_trans
     |intros s a s'; apply glyph_group_step_evolves].
  apply (for_each_preserves
           group_item_step
           (fun a b : state * list pair * list pair =>
              evolves (fst (fst a)) (fst (fst b)))) in E3;
    [|intros s; evolved|intros a b c; apply evolves_trans
     |intros s a s'; apply group_item_step_evolves].
  apply exception_pairs_pass_evolves in E4.
  apply (for_each_preserves glyph_glyph_step evolves) in E5;
    [|intros s; evolved|apply evolves_trans
     |intros s a s'; apply glyph_glyph_step_evolves].
  cbn [fst] in E3.
  eapply evolves_trans; [exact Hstrip|].
  eapply evolves_trans; [exact E2|].
  eapply evolves_trans; [exact E3|].
  eapply evolves_trans; eassumption.
Qed.

(** What no assignment of the classification undoes or touches. *)
Lemma evolves_keeps (st st' : state) :
  evolves st st' ->
  group_order st' = group_order st /\
  same_context st st' /\
  (forall d c, wf_dict (bucket st d c) -> wf_dict (bucket st' d c)) /\
  (forall d c q, In q (dict_keys (bucket st d c)) ->
                 In q (dict_keys (bucket st' d c))) /\
  (forall q, In q (pairs_processed st) -> In q (pairs_processed st')) /\
  (forall q, In q (pairs_unprocessed st) -> In q (pairs_unprocessed st')).
Proof.
  induction 1 as [|s d c p v _ IH|s p _ IH|s p _ IH|s p _ IH|s e r _ IH].
  - repeat split; auto.
  - destruct IH as (Ho & Hc & Hwf & Hk & Hp & Hu).
    split; [exact Ho|]. split; [exact Hc|].
    split; [|split; [|split; assumption]].
    + intros d' c' Hw. specialize (Hwf d' c' Hw).
      change (bucket (put d c p v s) d' c')
        with (if direction_eqb d d' && category_eqb c c'
              then dict_set (bucket s d' c') p v else bucket s d' c').
      destruct (direction_eqb d d' && category_eqb c c');
        [apply wf_dict_set|]; assumption.
    + intros d' c' q Hq. specialize (Hk d' c' q Hq).
      change (bucket (put d c p v s) d' c')
        with (if direction_eqb d d' && category_eqb c c'
              then dict_set (bucket s d' c') p v else bucket s d' c').
      destruct (direction_eqb d d' && category_eqb c c'); [|assumption].
      rewrite dict_keys_set. destruct (dict_mem _ p); [assumption|].
      apply in_or_app. now left.
  - destruct IH as (Ho & Hc & Hwf & Hk & Hp & Hu).
    repeat (split; [assumption|]). split; [|assumption].
    intros q Hq. cbn. apply in_or_app. left. now apply Hp.
  - destruct IH as (Ho & Hc & Hwf & Hk & Hp & Hu).
    repeat (split; [assumption|]).
    intros q Hq. cbn. apply in_or_app. left. now apply Hu.
  - destruct IH as (Ho & Hc & Hwf & Hk & Hp & Hu).
    repeat (split; [assumption|]). assumption.
  - destruct IH as (Ho & Hc & Hwf & Hk & Hp & Hu).
    repeat (split; [assumption|]). assumption.
Qed.
End Evolution.

(* ------------------------------------------------------------------ *)
(** ** The list of groups in the output *)

Section GroupOrder.
Import KernProcessor.

Lemma init_group_order (groups : dict string (list string))
      (kerning : dict pair value) (option_dissolve : bool) (st' : state) :
  __init__ groups kerning option_dissolve = Ok st' ->
  exists st0 st1,
    group_order st0 = None /\
    _findExceptions st0 = Ok st1 /\
    match KernProcessor.kerning st1 with
    | [] => st' = st1
    | _ :: _ =>
        st' = set_group_order
                (sorted_names (dict_keys (KernProcessor.groups st1))) st1
    end.
Proof.
  unfold __init__. intros H.
  destruct (sanitize_kerning groups kerning) as [sk|]; [|discriminate].
  cbn [bind] in H.
  destruct (_get_used_groups sk) as [names|]; [|discriminate].
  cbn [bind] in H.
  destruct (used_groups_of groups names) as [used|]; [|discriminate].
  cbn [bind] in H.
  match type of H with
  | bind ?m _ = _ => destruct m as [st0|] eqn:E0; [|discriminate]
  end.
  cbn [bind] in H.
  destruct (_findExceptions st0) as [st1|] eqn:Efind; [|discriminate].
  cbn [bind] in H.
  exists st0, st1. split; [|split; [exact Efind|]].
  - destruct used as [|u used].
    + injection E0 as <-. reflexivity.
    + match type of E0 with
      | bind (_getAllGroupedGlyphs ?s left) _ = _ =>
          destruct (_getAllGroupedGlyphs s left) as [l|]; [|discriminate];
          cbn [bind] in E0;
          destruct (_getAllGroupedGlyphs s right) as [r|]; [|discriminate];
          cbn [bind] in E0; injection E0 as <-
      end.
      destruct option_dissolve;
        [destruct (_dissolveSingleGroups _ _)|]; reflexivity.
  - destruct (KernProcessor.kerning st1); now injection H as <-.
Qed.

Lemma group_lines_loop (G : dict string (list string)) (l : list string) :
  forall output,
    (forall g, In g l -> In g (dict_keys G)) ->
    for_each
      (fun output groupName =>
         glyphList <- getitem G groupName ;;
         match glyphList with
         | [] => Ok output
         | _ :: _ => Ok (output ++ [run.group_line groupName glyphList])
         end)
      l output
    = Ok (output
            ++ flat_map
                 (fun g =>
                    match dict_get G g with
                    | Some (x :: glyphs) => [run.group_line g (x :: glyphs)]
                    | _ => []
                    end) l).
Proof.
  induction l as [|g l IH]; intros output Hl; cbn [for_each flat_map].
  - now rewrite app_nil_r.
  - destruct (In_key_get _ _ (Hl g (or_introl eq_refl))) as (glyphs & Hg).
    unfold getitem at 1. rewrite Hg. cbn [bind].
    destruct glyphs as [|x glyphs]; cbn [bind app];
      rewrite IH by (intros; apply Hl; now right).
    + reflexivity.
    + now rewrite <- app_assoc.
Qed.
End GroupOrder.

(** X15: the loop of [_makeOutputData] that lists the groups reads
    [kp.group_order], which [KernProcessor] sets only when a pair is left
    in its kerning.  On the object a run returns, the loop raises
    [AttributeError] when no pair is left; otherwise it raises nothing and
    writes one line for every group of [kp.groups] that has glyphs, in the
    order of the sorted group names. *)
Theorem group_listing
        (groups : dict string (list string)) (kerning : dict pair value)
        (option_dissolve : bool) (st : KernProcessor.state) :
  KernProcessor.__init__ groups kerning option_dissolve = Ok st ->
  (KernProcessor.kerning st = [] ->
   run.group_lines st = Raise AttributeError) /\
  (KernProcessor.kerning st <> [] ->
   run.group_lines st
   = Ok (flat_map
           (fun g =>
              match dict_get (KernProcessor.groups st) g with
              | Some (x :: glyphs) => [run.group_line g (x :: glyphs)]
              | _ => []
              end)
           (sorted_names (dict_keys (KernProcessor.groups st))))).
Proof.
  intros Hinit.
  destruct (init_group_order _ _ _ Hinit) as (st0 & st1 & H0 & Hfind & Hlast).
  destruct (evolves_keeps (findExceptions_evolves st0 Hfind)) as (Ho & _).
  rewrite H0 in Ho. unfold run.group_lines.
  destruct (KernProcessor.kerning st1) as [|pv K] eqn:Ek; subst st.
  - split; [|congruence]. intros _. now rewrite Ho.
  - split; [cbn; rewrite Ek; discriminate|]. intros _.
    cbn [KernProcessor.group_order KernProcessor.set_group_order attr bind
         KernProcessor.groups].
    apply (group_lines_loop (KernProcessor.groups st1)
                            (sorted_names
                               (dict_keys (KernProcessor.groups st1))) []).
    intros g Hg. now apply In_sorted in Hg.
Qed.

Lemma group_listing_witness :
  exists st,
    KernProcessor.__init__
      [] [(("EXC_a", "b"), VInt 5)] false = Ok st /\
    run.group_lines st = Raise AttributeError.
Proof.
  destruct (KernProcessor.__init__ [] [(("EXC_a", "b"), VInt 5)] false)
    as [st|] eqn:Hinit; [|vm_compute in Hinit; discriminate].
  exists st. split; [reflexivity|].
  apply (proj1 (@group_listing _ _ _ _ Hinit)).
  vm_compute in Hinit. now injection Hinit as <-.
Defined.

(* ------------------------------------------------------------------ *)
(** ** Subtables of the dictionaries of a run *)

Section RunSubtables.
Import KernProcessor.

(** No dictionary of a run holds a key twice. *)
Lemma init_buckets_wf (groups : dict string (list string))
      (kerning : dict pair value) (option_dissolve : bool) (st : state) :
  __init__ groups kerning option_dissolve = Ok st ->
  forall d c, wf_dict (bucket st d c).
Proof.
  intros Hinit d c.
  destruct (init_returned _ _ _ Hinit)
    as (st0 & st1 & _ & Hempty & _ & _ & _ & Hfind & Hlast).
  destruct (evolves_keeps (findExceptions_evolves st0 Hfind))
    as (_ & _ & Hwf & _).
  assert (H1 : wf_dict (bucket st1 d c)).
  { apply Hwf. rewrite Hempty. constructor. }
  destruct Hlast as [->|(o & ->)]; exact H1.
Qed.
End RunSubtables.

(** X16: [MakeMeasuredSubtables] applied, as [_makeOutputData] applies it,
    to a dictionary of a [KernProcessor] run with the kerning and the groups
    of that run raises nothing; its subtables hold the pairs of the
    dictionary, each once; and every pair has the value the kerning
    gives it, so [kerning.get] finds every pair and no [None] is stored.
    The values do not come from the dictionary itself. *)
Theorem subtables_of_run
        (groups : dict string (list string)) (kerning : dict pair value)
        (option_dissolve : bool) (st : KernProcessor.state)
        (d : KernProcessor.direction) (c : KernProcessor.category)
        (maxSubtableSize : Z) :
  KernProcessor.__init__ groups kerning option_dissolve = Ok st ->
  c <> KernProcessor.predefined_exceptions ->
  exists subtables,
    MakeMeasuredSubtables.__init__
      (KernProcessor.bucket st d c) (KernProcessor.kerning st)
      (KernProcessor.groups st) maxSubtableSize = Ok subtables /\
    Permutation
      (List.concat (map (@dict_keys pair (option value)) subtables))
      (dict_keys (KernProcessor.bucket st d c)) /\
    forall t p v,
      In t subtables -> In (p, v) t ->
      exists z, v = Some z /\
                dict_get (KernProcessor.kerning st) p = Some z.
Proof.
  intros Hinit Hc.
  pose proof (init_buckets_wf _ _ _ Hinit d c) as Hwf.
  destruct (init_buckets_ok _ _ _ Hinit) as (gl & gr & Hb).
  destruct (init_spec (KernProcessor.kerning st) (KernProcessor.groups st)
                      maxSubtableSize Hwf)
    as (measured & _ & Hcat & Hsub).
  eexists. split; [exact Hsub|]. split.
  - rewrite keys_subtables, Hcat. now apply pairs_of_leftItems_perm.
  - intros t p v Ht Hin. apply in_map_iff in Ht as (l & <- & _).
    unfold MakeMeasuredSubtables.entries_of in Hin.
    apply in_map_iff in Hin as (q & [= <- <-] & Hq).
    apply in_flat_map in Hq as (item & _ & Hq).
    apply In_pairs_of in Hq as [Hq _].
    apply In_key_get in Hq as (w & Hw).
    pose proof (Hb _ _ _ _ Hw) as Hok.
    apply entry_ok_key in Hok; [|exact Hc].
    apply In_key_get in Hok as (z & Hz). exists z. auto.
Qed.

Lemma subtables_of_run_witness :
  exists st subtables,
    KernProcessor.__init__
      [("@MMK_R_B_RTL", ["b"])]
      [(("x", "@MMK_R_B_RTL"), VInt 5); (("x", "b"), VInt 3)] false
    = Ok st /\
    dict_get (KernProcessor.bucket st KernProcessor.RTL
                                   KernProcessor.glyph_group)
             ("x", "@MMK_R_B_RTL") = Some (VInt 3) /\
    MakeMeasuredSubtables.__init__
      (KernProcessor.bucket st KernProcessor.RTL KernProcessor.glyph_group)
      (KernProcessor.kerning st) (KernProcessor.groups st) 1000
    = Ok subtables /\
    forall t p v, In t subtables -> In (p, v) t -> v = Some (VInt 5).
Proof.
  destruct (KernProcessor.__init__
              [("@MMK_R_B_RTL", ["b"])]
              [(("x", "@MMK_R_B_RTL"), VInt 5); (("x", "b"), VInt 3)] false)
    as [st|] eqn:Hinit; [|vm_compute in Hinit; discriminate].
  destruct (@subtables_of_run _ _ _ _ KernProcessor.RTL
                              KernProcessor.glyph_group 1000 Hinit)
    as (subtables & Hsub & Hperm & Hvalues); [discriminate|].
  exists st, subtables. split; [reflexivity|].
  vm_compute in Hinit. injection Hinit as <-.
  split; [reflexivity|]. split; [exact Hsub|].
  intros t p v Ht Hin. destruct (Hvalues t p v Ht Hin) as (z & -> & Hz).
  apply Permutation_sym in Hperm.
  assert (Hp : In p (List.concat
                      (map (@dict_keys pair (option value)) subtables))).
  { apply in_concat. exists (dict_keys t). split; [now apply in_map|].
    unfold dict_keys. apply in_map_iff. exists (p, Some z). auto. }
  apply (Permutation_in _ (Permutation_sym Hperm)) in Hp.
  destruct Hp as [<-|[]]. cbn in Hz. congruence.
Defined.

(* ------------------------------------------------------------------ *)
(** ** Every pair is classified *)

Section Covered.
Import KernProcessor.

Lemma covered_evolves (st st' : state) (q : pair) :
  evolves st st' -> covered st q -> covered st' q.
Proof.
  intros Hev [(d & c & Hc & Hin)|Hin];
    destruct (evolves_keeps Hev) as (_ & _ & _ & Hk & _ & Hu).
  - left. exists d, c. auto.
  - right. auto.
Qed.

Lemma covered_put (d : direction) (c : category) (p : pair) (v : value)
      (st : state) :
  c <> predefined_exceptions -> covered (put d c p v st) p.
Proof.
  intros Hc. left. exists d, c. split; [exact Hc|].
  rewrite bucket_put_same, dict_keys_set.
  destruct (dict_mem (bucket st d c) p) eqn:E.
  - now apply dict_mem_In.
  - apply in_or_app. right. now left.
Qed.

Lemma covered_unprocessed (p : pair) (st : state) :
  covered (append_unprocessed p st) p.
Proof. right. cbn. apply in_or_app. right. now left. Qed.

Lemma covered_processed (p q : pair) (st : state) :
  covered st q -> covered (append_processed p st) q.
Proof. apply covered_evolves. constructor. constructor. Qed.

Lemma glyph_group_step_covers (g2g : list pair) (st st' : state)
      (p : pair) :
  glyph_group_step g2g st p = Ok st' -> covered st' p.
Proof.
  destruct p as [a b]. unfold glyph_group_step. cbn [fst snd]. intros H.
  destruct (getitem (kerning st) (a, b)) as [value|]; [|discriminate].
  destruct (getitem (groups st) b) as [groupList|]; [|discriminate].
  destruct (attr (grouped_left st)) as [gl|]; [|discriminate].
  cbn [bind] in H. destruct (mem a gl).
  - injection H as <-. apply covered_processed, covered_put. discriminate.
  - destruct (for_each _ groupList (value, st)) as [[value' st1]|];
      [|discriminate].
    cbn [bind] in H. destruct (is_zero value'); injection H as <-.
    + apply covered_unprocessed.
    + apply covered_processed, covered_put. discriminate.
Qed.

Lemma group_item_step_covers (acc acc' : state * list pair * list pair)
      (p : pair) :
  group_item_step acc p = Ok acc' -> covered (fst (fst acc')) p.
Proof.
  destruct acc as [[st e] r]. destruct p as [a b].
  unfold group_item_step. cbn [fst snd]. intros H.
  destruct (getitem (kerning st) (a, b)) as [value|]; [|discriminate].
  destruct (getitem (groups st) a) as [lg|]; [|discriminate].
  destruct (_isGroup b) as [[|]|]; [| |discriminate]; cbn [bind] in H.
  - destruct (getitem (groups st) b) as [rg|]; [|discriminate].
    cbn [bind] in H.
    destruct (is_zero value); [|destruct (_isRTL _ _)];
      injection H as <-; cbn [fst];
      first [apply covered_unprocessed
            |apply covered_processed, covered_put; discriminate].
  - destruct (attr (grouped_right st)) as [gr|]; [|discriminate].
    cbn [bind] in H.
    destruct (mem b gr); [destruct (_isRTL _ _)|]; cbn [bind] in H.
    + injection H as <-; cbn [fst]. apply covered_put. discriminate.
    + injection H as <-; cbn [fst].
      apply covered_processed, covered_put. discriminate.
    + destruct (is_zero value); [|destruct (_isRTL _ _)];
        injection H as <-; cbn [fst];
        first [apply covered_unprocessed
              |apply covered_processed, covered_put; discriminate].
Qed.

Lemma glyph_glyph_step_covers (st st' : state) (p : pair) :
  glyph_glyph_step st p = Ok st' -> covered st' p.
Proof.
  destruct p as [a b]. unfold glyph_glyph_step. cbn [fst snd]. intros H.
  destruct (getitem (kerning st) (a, b)) as [value|]; [|discriminate].
  destruct (attr (grouped_left st)) as [gl|]; [|discriminate].
  destruct (attr (grouped_right st)) as [gr|]; [|discriminate].
  cbn [bind] in H.
  destruct (mem a gl || mem b gr); cbn [bind] in H.
  - injection H as <-. apply covered_processed, covered_put. discriminate.
  - destruct (negb (dict_mem (bucket st LTR glyph_glyph_exceptions) (a, b))
              && negb (dict_mem (bucket st RTL glyph_glyph_exceptions)
                                (a, b))) eqn:Ecase;
      cbn [bind] in H; injection H as <-; apply covered_processed.
    + apply covered_put. discriminate.
    + left. apply andb_false_iff in Ecase as [E|E];
        apply negb_false_iff, dict_mem_In in E;
        [exists LTR|exists RTL]; exists glyph_glyph_exceptions;
        (split; [discriminate|exact E]).
Qed.

(** A loop whose step covers its pair and undoes nothing covers its
    list. *)
Lemma for_each_covers {S : Type} (proj : S -> state)
      (body : S -> pair -> result S) (l : list pair) :
  (forall s a s', body s a = Ok s' ->
                  evolves (proj s) (proj s') /\ covered (proj s') a) ->
  forall s s', for_each body l s = Ok s' ->
               forall q, In q l -> covered (proj s') q.
Proof.
  intros Hbody s s' Hloop.
  refine (@for_each_prefix
            _ _ body (fun done s => forall q, In q done -> covered (proj s) q)
            l _ s s' _ Hloop).
  - intros done a rest s0 s1 _ Hinv Hstep q Hq.
    destruct (Hbody s0 a s1 Hstep) as [Hev Hcov].
    apply in_app_or in Hq as [Hq|[<-|[]]]; [|exact Hcov].
    eapply covered_evolves; [exact Hev|]. now apply Hinv.
  - intros q [].
Qed.

Lemma filter_r_defined {A : Type} (cond : A -> result bool) (l r : list A) :
  filter_r cond l = Ok r -> forall a, In a l -> exists b, cond a = Ok b.
Proof.
  revert r. induction l as [|x l IH]; intros r; cbn; [intros _ a []|].
  destruct (cond x) as [b|] eqn:Ex; cbn; [|discriminate].
  destruct (filter_r cond l) as [r'|]; cbn; [|discriminate].
  intros _ a [<-|Ha]; [eauto|]. now apply (IH r').
Qed.

Lemma findExceptions_covers (st st' : state) :
  _findExceptions st = Ok st' ->
  forall q, In q (dict_keys (kerning st')) -> covered st' q.
Proof.
  intros Hfind q Hq.
  destruct (findExceptions_keeps st Hfind) as (st1' & Hstrip' & Hk' & _).
  destruct (findExceptions_passes st Hfind)
    as (st1 & g2g & g2grp & g2i & st2 & st3 & e & r & st4 &
        Hstrip & Eg2g & Eg2grp & Eg2i & E2 & E3 & E4 & E5).
  rewrite Hstrip in Hstrip'. injection Hstrip' as <-. rewrite Hk' in Hq.
  assert (Hev5 : evolves st4 st').
  { apply (for_each_preserves glyph_glyph_step evolves) in E5;
      [exact E5|intros s; constructor|apply evolves_trans
      |intros s a s'; apply glyph_glyph_step_evolves]. }
  pose proof (exception_pairs_pass_evolves _ _ _ _ E4) as Hev4.
  destruct (filter_r_defined _ _ Eg2i q Hq) as (a & Ha).
  unfold is_group_2_item in Ha.
  destruct a.
  - (* a group on the left *)
    eapply covered_evolves; [exact Hev5|].
    eapply covered_evolves; [exact Hev4|].
    apply (for_each_covers
             (fun acc : state * list pair * list pair => fst (fst acc))
             group_item_step (sorted_pairs g2i))
      with (s := (st2, [], [])) (s' := (st3, e, r)) (q := q).
    + intros s x s' Hs. split;
        [eapply group_item_step_evolves|eapply group_item_step_covers];
        exact Hs.
    + exact E3.
    + apply (sorted_filter_r_In _ _ q Eg2i). auto.
  - destruct (filter_r_defined _ _ Eg2grp q Hq) as (b & Hb).
    unfold is_glyph_2_group in Hb. rewrite Ha in Hb. cbn in Hb.
    destruct b.
    + (* a glyph against a group *)
      eapply covered_evolves; [exact Hev5|].
      eapply covered_evolves; [exact Hev4|].
      assert (Hev3 : evolves st2 st3).
      { apply (for_each_preserves
                 group_item_step
                 (fun a b : state * list pair * list pair =>
                    evolves (fst (fst a)) (fst (fst b)))) in E3;
          [exact E3|intros s; constructor|intros a b c; apply evolves_trans
          |intros s a s'; apply group_item_step_evolves]. }
      eapply covered_evolves; [exact Hev3|].
      apply (for_each_covers (fun s : state => s)
                             (glyph_group_step (sorted_pairs g2g))
                             (sorted_pairs g2grp))
        with (s := st1) (s' := st2) (q := q).
      * intros s x s' Hs. split;
          [eapply glyph_group_step_evolves|eapply glyph_group_step_covers];
          exact Hs.
      * exact E2.
      * apply (sorted_filter_r_In _ _ q Eg2grp). split; [exact Hq|].
        unfold is_glyph_2_group. rewrite Ha. exact Hb.
    + (* two glyphs *)
      apply (for_each_covers (fun s : state => s) glyph_glyph_step
                             (sorted_pairs g2g))
        with (s := st4) (s' := st') (q := q).
      * intros s x s' Hs. split;
          [eapply glyph_glyph_step_evolves|eapply glyph_glyph_step_covers];
          exact Hs.
      * exact E5.
      * apply (sorted_filter_r_In _ _ q Eg2g). split; [exact Hq|].
        unfold is_glyph_2_glyph. rewrite Ha. cbn. rewrite Hb. reflexivity.
Qed.
End Covered.

(** X17: in the object a run of [KernProcessor] returns, every pair left in
    the kerning has been classified: it is stored in one of the twelve
    dictionaries other than the two of pre-defined exceptions, or it is on
    the list of unprocessed pairs. *)
Theorem every_pair_classified
        (groups : dict string (list string)) (kerning : dict pair value)
        (option_dissolve : bool) (st : KernProcessor.state) (p : pair) :
  KernProcessor.__init__ groups kerning option_dissolve = Ok st ->
  In p (dict_keys (KernProcessor.kerning st)) ->
  (exists d c,
      c <> KernProcessor.predefined_exceptions /\
      In p (dict_keys (KernProcessor.bucket st d c))) \/
  In p (KernProcessor.pairs_unprocessed st).
Proof.
  intros Hinit Hp.
  destruct (init_returned _ _ _ Hinit)
    as (st0 & st1 & _ & _ & _ & _ & _ & Hfind & Hlast).
  pose proof (findExceptions_covers st0 Hfind) as Hcov.
  destruct Hlast as [->|(o & ->)]; exact (Hcov p Hp).
Qed.

Lemma every_pair_classified_witness :
  exists st,
    KernProcessor.__init__
      [("@MMK_L_A", ["a"]); ("@MMK_R_B", ["b"])]
      [(("@MMK_L_A", "@MMK_R_B"), VInt 0); (("x", "y"), VInt 3)] false
    = Ok st /\
    In ("@MMK_L_A", "@MMK_R_B") (KernProcessor.pairs_unprocessed st).
Proof.
  destruct (KernProcessor.__init__
              [("@MMK_L_A", ["a"]); ("@MMK_R_B", ["b"])]
              [(("@MMK_L_A", "@MMK_R_B"), VInt 0); (("x", "y"), VInt 3)]
              false) as [st|] eqn:Hinit;
    [|vm_compute in Hinit; discriminate].
  exists st. split; [reflexivity|].
  assert (Hkey : In ("@MMK_L_A", "@MMK_R_B")
                    (dict_keys (KernProcessor.kerning st))).
  { vm_compute in Hinit. injection Hinit as <-. now left. }
  destruct (@every_pair_classified _ _ _ _ _ Hinit Hkey)
    as [(d & c & Hc & Hin)|Hin]; [exfalso|exact Hin].
  vm_compute in Hinit. injection Hinit as <-.
  destruct d, c; cbn in Hin; try congruence;
    repeat (destruct Hin as [Hin|Hin]; [discriminate Hin|]); exact Hin.
Defined.

(* ------------------------------------------------------------------ *)
(** ** Trimming in [_dict2pos] *)

Section Trimming.
Import run.

Variable write_trimmed_pairs : bool.
Variable minimum : Z.

(** [abs(kernValue) < minimum], for a value that is a number. *)
Let small (pv : pair * value) : bool :=
  match snd pv with
  | VInt z => (Z.abs z <? minimum)%Z
  | VMaster _ => false
  end.

Let lines_of (pv : pair * value) : list line :=
  if small pv then
    if write_trimmed_pairs then [hash (pos (fst pv) (snd pv))] else []
  else [pos (fst pv) (snd pv)].

Lemma dict2pos_numbers_from (d : dict pair value) :
  forall (data : list line) (t : Z),
    (forall pv, In pv d -> exists z, snd pv = VInt z) ->
    for_each (dict2pos_step false write_trimmed_pairs minimum false) d
             (data, t)
    = Ok (data ++ flat_map lines_of d,
          (t + Z.of_nat (List.length (filter small d)))%Z).
Proof.
  induction d as [|pv d IH]; intros data t Hd; cbn [for_each flat_map filter].
  - rewrite app_nil_r. cbn. now rewrite Z.add_0_r.
  - destruct (Hd pv (or_introl eq_refl)) as (z & Hz).
    unfold dict2pos_step at 1. unfold lines_of at 1, small at 1 2.
    rewrite Hz.
    destruct (Z.abs z <? minimum)%Z; cbn [bind];
      rewrite IH by (intros; apply Hd; now right).
    + cbn [List.length]. rewrite Nat2Z.inj_succ, <- Z.add_1_l, Z.add_assoc.
      destruct write_trimmed_pairs; cbn [app];
        rewrite <- ?app_assoc; reflexivity.
    + rewrite <- app_assoc. reflexivity.
Qed.

Lemma nothing_small (d : dict pair value) :
  (minimum <= 0)%Z -> filter small d = [] /\ flat_map lines_of d
                                            = map (fun pv => pos (fst pv) (snd pv)) d.
Proof.
  intros Hmin.
  assert (Hsmall : forall pv, small pv = false).
  { intros pv. unfold small. destruct (snd pv) as [z|m]; [|reflexivity].
    apply Z.ltb_ge. lia. }
  split.
  - induction d as [|pv d IH]; cbn; [reflexivity|]. now rewrite Hsmall.
  - induction d as [|pv d IH]; cbn; [reflexivity|].
    unfold lines_of at 1. now rewrite Hsmall, IH.
Qed.
End Trimming.

(** X18: for a dictionary of numbers in a font that is not Multiple Master,
    [_dict2pos] without [enum] goes through the pairs in order: a pair
    whose absolute value is below [minimum] is counted as trimmed and
    written as a comment or, without [write_trimmed_pairs], not at all; any
    other pair gets its [pos] line.  With a [minimum] of 0 or less, as for
    the dictionaries of exceptions, nothing is trimmed. *)
Theorem dict2pos_trims
        (write_trimmed_pairs : bool) (d : dict pair value) (minimum : Z) :
  (forall pv, In pv d -> exists z, snd pv = VInt z) ->
  let small (pv : pair * value) : bool :=
    match snd pv with
    | VInt z => (Z.abs z <? minimum)%Z
    | VMaster _ => false
    end in
  run._dict2pos false write_trimmed_pairs d minimum false
  = Ok (flat_map
          (fun pv =>
             if small pv then
               if write_trimmed_pairs
               then [run.hash (run.pos (fst pv) (snd pv))] else []
             else [run.pos (fst pv) (snd pv)]) d,
        Z.of_nat (List.length (filter small d))) /\
  ((minimum <= 0)%Z ->
   run._dict2pos false write_trimmed_pairs d minimum false
   = Ok (map (fun pv => run.pos (fst pv) (snd pv)) d, 0%Z)).
Proof.
  intros Hd small. unfold run._dict2pos.
  rewrite (dict2pos_numbers_from write_trimmed_pairs minimum d [] 0 Hd).
  cbn [app Z.add]. split; [reflexivity|].
  intros Hmin.
  destruct (nothing_small write_trimmed_pairs d Hmin) as [-> ->].
  reflexivity.
Qed.

Lemma dict2pos_trims_witness :
  run._dict2pos false false
                [(("a", "b"), VInt 2); (("c", "d"), VInt (-7))] 3 false
  = Ok ([run.pos ("c", "d") (VInt (-7))], 1%Z).
Proof.
  assert (H : forall pv : pair * value,
             In pv [(("a", "b"), VInt 2); (("c", "d"), VInt (-7))] ->
             exists z, snd pv = VInt z).
  { intros pv [<-|[<-|[]]]; eexists; reflexivity. }
  exact (proj1 (@dict2pos_trims false _ 3 H)).
Defined.

(* ------------------------------------------------------------------ *)
(** ** The number of kerned glyphs *)

Lemma fold_left_extend {A B C : Type} (f : A -> list B) (g : A -> list C)
      (l : list A) :
  forall (a : list B) (b : list C),
    fold_left (fun (acc : list B * list C) (x : A) =>
                 (fst acc ++ f x, snd acc ++ g x)) l (a, b)
    = (a ++ flat_map f l, b ++ flat_map g l).
Proof.
  induction l as [|x l IH]; intros a b; cbn [fold_left flat_map fst snd].
  - now rewrite !app_nil_r.
  - now rewrite IH, <- !app_assoc.
Qed.

(** X19: [_getNumberOfKernedGlyphs] counts every kerned glyph once: its
    result is the number of distinct names among the glyphs that the left
    and right items of the pairs stand for, a group standing for its
    glyphs and any other item for itself.  A glyph kerned on both sides is
    counted once. *)
Theorem getNumberOfKernedGlyphs_spec
        (kerning : dict pair value) (groups : dict string (list string)) :
  exists glyphs,
    NoDup glyphs /\
    (forall x,
        In x glyphs <->
        exists p,
          In p (dict_keys kerning) /\
          (In x (MakeMeasuredSubtables.expand groups (fst p)) \/
           In x (MakeMeasuredSubtables.expand groups (snd p)))) /\
    MakeMeasuredSubtables._getNumberOfKernedGlyphs kerning groups
    = List.length glyphs.
Proof.
  unfold MakeMeasuredSubtables._getNumberOfKernedGlyphs.
  rewrite (fold_left_extend
             (fun p : pair => MakeMeasuredSubtables.expand groups (fst p))
             (fun p : pair => MakeMeasuredSubtables.expand groups (snd p))).
  cbn [fst snd app]. eexists. split; [|split; [|reflexivity]].
  - apply NoDup_set_update, NoDup_to_set.
  - intros x. rewrite In_set_update, !In_to_set, !in_flat_map. split.
    + intros [(p & Hp & Hx)|(p & Hp & Hx)]; exists p; auto.
    + intros (p & Hp & [Hx|Hx]); [left|right]; exists p; auto.
Qed.

(* ------------------------------------------------------------------ *)
(** ** Empty subtables *)

Section Empties.
Import MakeMeasuredSubtables.
Variables kernDict kerning : dict pair value.
Variable groups : dict string (list string).
Variable maxSubtableSize : Z.

Let coverageTableSize : Z :=
  (2 + 2 * Z.of_nat (_getNumberOfKernedGlyphs kerning groups))%Z.

(** Only the first list of left items can be empty. *)
Lemma measure_later_nonempty (measured : list (list string)) :
  measure kernDict kerning groups maxSubtableSize = Ok measured ->
  forall l, In l (tl measured) -> l <> [].
Proof.
  unfold measure. fold coverageTableSize.
  destruct (for_each_invariant
              (measure_item kernDict groups coverageTableSize maxSubtableSize)
              (fun v => forall l,
                   In l (tl (measuredSubtables v ++ [subtable v])) ->
                   l <> [])
              (leftItems kernDict))
    with (s := mkLocals [] [] [] [] [] [] None) as (v & -> & Hv).
  - intros v item Hitem Hv.
    destruct (measure_item_spec kernDict groups maxSubtableSize
                                coverageTableSize v item Hitem)
      as (v' & Hstep & _ & Hshape).
    exists v'. split; [exact Hstep|]. intros l Hl.
    destruct Hshape as [[Hm Hs]|[Hm Hs]]; rewrite Hm, Hs in Hl.
    + destruct (measuredSubtables v) as [|f more]; [destruct Hl|].
      cbn [app tl] in Hl, Hv. apply in_app_or in Hl as [Hl|[<-|[]]].
      * apply Hv, in_or_app. now left.
      * now destruct (subtable v).
    + destruct (measuredSubtables v) as [|f more]; cbn [app tl] in Hl, Hv.
      * destruct Hl as [<-|[]]. discriminate.
      * apply in_app_or in Hl as [Hl|[<-|[]]]; [|discriminate].
        apply Hv. exact Hl.
  - intros l [].
  - cbn [bind]. intros Hm l Hl.
    destruct (subtable v) as [|x t] eqn:Es; injection Hm as <-.
    + apply Hv. destruct (measuredSubtables v); [destruct Hl|].
      cbn [app tl] in *. apply in_or_app. now left.
    + now apply Hv.
Qed.

(** When the first left item fits, it opens the first subtable, and no
    list of left items is empty. *)
Lemma measure_fitting_nonempty (item : string) (rest : list string)
      (measured : list (list string)) :
  leftItems kernDict = item :: rest ->
  (first_item_cost kernDict kerning groups item < maxSubtableSize)%Z ->
  measure kernDict kerning groups maxSubtableSize = Ok measured ->
  forall l, In l measured -> l <> [].
Proof.
  intros Hleft Hfits. unfold measure. fold coverageTableSize.
  rewrite Hleft. cbn [for_each].
  assert (Hin : In item (leftItems kernDict)) by (rewrite Hleft; now left).
  unfold measure_item at 1.
  pose proof (absorb_pairs_fields groups coverageTableSize
                (pairs_of kernDict item) (mkLocals [] [] [] [] [] [] None))
    as (Hm & Hs & Hz).
  cbn zeta in Hm, Hs, Hz.
  unfold first_item_cost in Hfits. fold coverageTableSize in Hfits.
  cbn zeta in Hfits.
  set (v1 := fold_left (absorb_pair groups coverageTableSize)
                       (pairs_of kernDict item)
                       (mkLocals [] [] [] [] [] [] None)) in *.
  assert (Hsome : sizes v1 <> None).
  { apply Hz. left. now apply pairs_of_leftItem. }
  destruct (sizes v1) as [[m s]|] eqn:E; [|congruence].
  apply Z.ltb_lt in Hfits. rewrite Hfits, Hm, Hs. cbn [bind app].
  match goal with
  | |- bind (for_each ?body rest ?v0) _ = _ -> _ =>
      destruct (for_each_invariant
                  body
                  (fun v => forall l,
                       In l (measuredSubtables v ++ [subtable v]) -> l <> [])
                  rest)
        with (s := v0) as (v & -> & Hv)
  end.
  - intros v a Ha Hv.
    destruct (measure_item_spec kernDict groups maxSubtableSize
                                coverageTableSize v a)
      as (v' & Hstep & _ & Hshape).
    { rewrite Hleft. now right. }
    exists v'. split; [exact Hstep|]. intros l Hl.
    destruct Hshape as [[Hm' Hs']|[Hm' Hs']]; rewrite Hm', Hs' in Hl.
    + apply in_app_or in Hl as [Hl|[<-|[]]].
      * apply Hv, in_or_app. now left.
      * now destruct (subtable v).
    + apply in_app_or in Hl as [Hl|[<-|[]]]; [now apply Hv|discriminate].
  - cbn. intros l [<-|[]]. discriminate.
  - cbn [bind]. intros Hmeasured l Hl.
    destruct (subtable v) as [|x t] eqn:Es; injection Hmeasured as <-.
    + apply Hv, in_or_app. now left.
    + now apply Hv.
Qed.

Lemma entries_of_nonempty (l : list string) :
  l <> [] -> (forall item, In item l -> In item (leftItems kernDict)) ->
  entries_of kernDict kerning l <> [].
Proof.
  destruct l as [|item l]; [congruence|]. intros _ Hl.
  unfold entries_of. cbn [flat_map].
  pose proof (pairs_of_leftItem kernDict item (Hl item (or_introl eq_refl)))
    as Hne.
  destruct (pairs_of kernDict item); [congruence|discriminate].
Qed.
End Empties.

(** X20: [MakeMeasuredSubtables] leaves no empty subtable after the first
    one; and when the estimate for the pairs of the first left item is below
    [maxSubtableSize], the first subtable is not empty either, so none
    is. *)
Theorem subtables_nonempty
        (kernDict kerning : dict pair value)
        (groups : dict string (list string)) (maxSubtableSize : Z) :
  wf_dict kernDict ->
  exists subtables,
    MakeMeasuredSubtables.__init__ kernDict kerning groups maxSubtableSize
    = Ok subtables /\
    (forall t, In t (tl subtables) -> t <> []) /\
    (forall item rest,
        MakeMeasuredSubtables.leftItems kernDict = item :: rest ->
        (MakeMeasuredSubtables.first_item_cost kernDict kerning groups item
         < maxSubtableSize)%Z ->
        forall t, In t subtables -> t <> []).
Proof.
  intros Hwf.
  destruct (init_spec kerning groups maxSubtableSize Hwf)
    as (measured & Hm & Hcat & Hinit).
  assert (Hitems : forall l item,
             In l measured -> In item l ->
             In item (MakeMeasuredSubtables.leftItems kernDict)).
  { intros l item Hl Hitem. rewrite <- Hcat. apply in_concat. eauto. }
  eexists. split; [exact Hinit|]. split.
  - intros t Ht.
    assert (Hin : exists l, In l (tl measured) /\
                            t = MakeMeasuredSubtables.entries_of
                                  kernDict kerning l).
    { destruct measured as [|f more]; [destruct Ht|]. cbn [map tl] in *.
      apply in_map_iff in Ht as (l & <- & Hl). eauto. }
    destruct Hin as (l & Hl & ->).
    apply entries_of_nonempty.
    + eapply measure_later_nonempty; eassumption.
    + intros item. apply Hitems.
      destruct measured; [destruct Hl|]. now right.
  - intros item rest Hleft Hfits t Ht.
    apply in_map_iff in Ht as (l & <- & Hl).
    apply entries_of_nonempty.
    + eapply measure_fitting_nonempty; eassumption.
    + intros x. now apply Hitems.
Qed.

Lemma subtables_nonempty_witness :
  exists subtables,
    MakeMeasuredSubtables.__init__
      [(("b", "@X"), VInt 1); (("a", "@X"), VInt 2)]
      [(("b", "@X"), VInt 1); (("a", "@X"), VInt 2)]
      [("@X", ["x"])] 10
    = Ok subtables /\
    forall t, In t (tl subtables) -> t <> [].
Proof.
  destruct (@subtables_nonempty
              [(("b", "@X"), VInt 1); (("a", "@X"), VInt 2)]
              [(("b", "@X"), VInt 1); (("a", "@X"), VInt 2)]
              [("@X", ["x"])] 10)
    as (subtables & Hsub & Hlater & _).
  - repeat constructor; cbn; intuition discriminate.
  - exists subtables. split; assumption.
Defined.

(* ------------------------------------------------------------------ *)
(** ** Glyph pairs under a pair of groups *)

Section Exploded.
Import KernProcessor.

Lemma getitem_Ok {A V : Type} `{Key A} (d : dict A V) (k : A) (v : V) :
  getitem d k = Ok v -> dict_get d k = Some v.
Proof.
  unfold getitem. destruct (dict_get d k); [|discriminate].
  now intros [= <-].
Qed.

(** A pair newly stored as group to group brings its glyph pairs to the
    list of its side. *)
Lemma exploded_put (st : state) (d : direction) (p : pair) (v : value)
      (lg rg : list string) (l : list pair) :
  dict_get (groups st) (fst p) = Some lg -> right_glyphs st p rg ->
  exploded st d l ->
  exploded (append_processed p (put d group_group p v st)) d
           (l ++ _explode lg rg).
Proof.
  intros Hlg Hrg Hl p0 lg0 rg0 q Hp0 Hlg0 Hrg0 Hq.
  change (bucket (append_processed p (put d group_group p v st)))
    with (bucket (put d group_group p v st)) in Hp0.
  change (groups (append_processed p (put d group_group p v st)))
    with (groups st) in Hlg0.
  assert (Hrg0' : right_glyphs st p0 rg0) by exact Hrg0.
  apply in_or_app. apply bucket_put_keys in Hp0 as [->|Hp0].
  - right. rewrite Hlg in Hlg0. injection Hlg0 as <-.
    destruct Hrg as [[Hg Hr]|[Hg ->]], Hrg0' as [[Hg0 Hr0]|[Hg0 ->]];
      congruence.
  - left. eapply Hl; eassumption.
Qed.

Lemma exploded_other (st st' : state) (d : direction) (l l' : list pair) :
  bucket st' d group_group = bucket st d group_group ->
  groups st' = groups st ->
  (forall q, In q l -> In q l') ->
  exploded st d l -> exploded st' d l'.
Proof.
  intros Hb Hg Hsub Hl p lg rg q Hp Hlg Hrg Hq.
  rewrite Hb in Hp. rewrite Hg in Hlg. unfold right_glyphs in Hrg.
  rewrite Hg in Hrg. apply Hsub. eapply Hl; eassumption.
Qed.

Lemma group_item_step_exploded (st st' : state) (e r e' r' : list pair)
      (p : pair) :
  group_item_step (st, e, r) p = Ok (st', e', r') ->
  exploded st LTR e -> exploded st RTL r ->
  exploded st' LTR e' /\ exploded st' RTL r'.
Proof.
  destruct p as [a b]. unfold group_item_step. cbn [fst snd].
  intros H HL HR.
  destruct (getitem (kerning st) (a, b)) as [v|]; [|discriminate].
  destruct (getitem (groups st) a) as [lg|] eqn:Elg; [|discriminate].
  apply getitem_Ok in Elg.
  destruct (_isGroup b) as [[|]|] eqn:Eb; [| |discriminate];
    cbn [bind] in H.
  - destruct (getitem (groups st) b) as [rg|] eqn:Erg; [|discriminate].
    apply getitem_Ok in Erg. cbn [bind] in H.
    assert (Hrg : right_glyphs st (a, b) rg) by (left; auto).
    destruct (is_zero v); [|destruct (_isRTL _ _)];
      injection H as <- <- <-.
    + split; eapply exploded_other; eauto.
    + split.
      * eapply exploded_other; eauto.
      * now apply exploded_put.
    + split.
      * now apply exploded_put.
      * eapply exploded_other; eauto.
  - destruct (attr (grouped_right st)) as [gr|]; [|discriminate].
    cbn [bind] in H.
    assert (Hrg : right_glyphs st (a, b) [b]) by (right; auto).
    destruct (mem b gr); [destruct (_isRTL _ _)|]; cbn [bind] in H.
    + injection H as <- <- <-. split; eapply exploded_other; eauto.
    + injection H as <- <- <-. split; eapply exploded_other; eauto.
    + destruct (is_zero v); [|destruct (_isRTL _ _)];
        injection H as <- <- <-.
      * split; eapply exploded_other; eauto.
      * split.
        -- eapply exploded_other; eauto.
        -- now apply exploded_put.
      * split.
        -- now apply exploded_put.
        -- eapply exploded_other; eauto.
Qed.

Lemma put_loop_all (d : direction) (l : list pair) (st st' : state) :
  for_each
    (fun st p =>
       v <- getitem (kerning st) p ;;
       Ok (put d glyph_glyph_exceptions p v st)) l st = Ok st' ->
  forall q, In q l -> In q (dict_keys (bucket st' d glyph_glyph_exceptions)).
Proof.
  intros Hloop.
  refine (@for_each_prefix
            _ _ _
            (fun done s =>
               forall q, In q done ->
                         In q (dict_keys (bucket s d glyph_glyph_exceptions)))
            l _ st st' _ Hloop).
  - intros done a rest s s' _ Hinv Hstep q Hq.
    destruct (getitem (kerning s) a) as [v|]; [|discriminate].
    cbn [bind] in Hstep. injection Hstep as <-.
    rewrite bucket_put_same, dict_keys_set.
    apply in_app_or in Hq as [Hq|[<-|[]]].
    + specialize (Hinv q Hq).
      destruct (dict_mem _ a); [|apply in_or_app; left]; exact Hinv.
    + destruct (dict_mem _ a) eqn:E; [now apply dict_mem_In|].
      apply in_or_app. right. now left.
  - intros q [].
Qed.

Lemma exception_pairs_pass_all (g2g e r : list pair) (st st' : state) :
  exception_pairs_pass g2g e r st = Ok st' ->
  (forall q, In q e -> In q g2g ->
             In q (dict_keys (bucket st' LTR glyph_glyph_exceptions))) /\
  (forall q, In q r -> In q g2g ->
             In q (dict_keys (bucket st' RTL glyph_glyph_exceptions))).
Proof.
  unfold exception_pairs_pass. intros H.
  match type of H with
  | bind ?m _ = _ => destruct m as [st1|] eqn:E1; [|discriminate]
  end.
  cbn [bind] in H.
  pose proof (put_loop_all _ _ _ E1) as H1.
  pose proof (put_loop_all _ _ _ H) as H2.
  apply put_loop_evolves in H.
  destruct (evolves_keeps H) as (_ & _ & _ & Hmono & _).
  split; intros q Hq Hg.
  - apply Hmono, H1, filter_In. split; [now apply In_to_set|].
    now apply mem_In.
  - apply H2, filter_In. split; [now apply In_to_set|]. now apply mem_In.
Qed.

Lemma findExceptions_exploded (st st' : state) :
  (forall d, bucket st d group_group = []) ->
  _findExceptions st = Ok st' ->
  forall d p lg rg q,
    In p (dict_keys (bucket st' d group_group)) ->
    dict_get (groups st') (fst p) = Some lg -> right_glyphs st' p rg ->
    In q (_explode lg rg) ->
    In q (dict_keys (kerning st')) -> glyph_pair q ->
    In q (dict_keys (bucket st' d glyph_glyph_exceptions)).
Proof.
  intros Hempty Hfind d p lg rg q Hp Hlg Hrg Hq Hkey Hglyph.
  destruct (findExceptions_keeps st Hfind) as (st1' & Hstrip' & Hk' & _).
  destruct (findExceptions_passes st Hfind)
    as (st1 & g2g & g2grp & g2i & st2 & st3 & e & r & st4 &
        Hstrip & Eg2g & _ & _ & E2 & E3 & E4 & E5).
  rewrite Hstrip in Hstrip'. injection Hstrip' as <-.
  set (F := fun (_ : direction) (c : category) => category_eqb c group_group).
  pose proof (@glyph_group_pass_acts F (fun _ => eq_refl) _ _ _ _
                                     (fun _ => eq_refl) (fun _ => eq_refl) E2)
    as [_ B2].
  pose proof (@exception_pairs_pass_acts F (fun _ => eq_refl) _ _ _ _ _ E4)
    as [_ B4].
  pose proof (@glyph_glyph_pass_acts F (fun _ => eq_refl) _ _ _
                                     (fun _ => eq_refl) E5) as [_ B5].
  assert (Hempty2 : forall d, bucket st2 d group_group = []).
  { intros d0. rewrite (B2 d0 group_group eq_refl).
    rewrite (strip_pairs_other_buckets st Hstrip) by reflexivity.
    apply Hempty. }
  assert (H3 : exploded st3 LTR e /\ exploded st3 RTL r).
  { unfold group_item_pass in E3.
    apply (for_each_returned
             group_item_step
             (fun acc : state * list pair * list pair =>
                exploded (fst (fst acc)) LTR (snd (fst acc)) /\
                exploded (fst (fst acc)) RTL (snd acc))
             (sorted_pairs g2i)) with (s := (st2, [], [])) in E3;
      [exact E3| |].
    - intros [[s0 e0] r0] x [[s1 e1] r1] _ [HL HR] Hstep. cbn [fst snd] in *.
      eapply group_item_step_exploded; eassumption.
    - cbn [fst snd]. split; intros p0 lg0 rg0 q0 Hp0;
        rewrite Hempty2 in Hp0; destruct Hp0. }
  pose proof (exception_pairs_pass_keeps _ _ _ _ E4) as (_ & (Hg4 & _) & _).
  pose proof (glyph_glyph_pass_keeps _ _ E5) as (_ & (Hg5 & _) & _).
  assert (Hev5 : evolves st4 st').
  { apply (for_each_preserves glyph_glyph_step evolves) in E5;
      [exact E5|intros s; constructor|apply evolves_trans
      |intros s a s'; apply glyph_glyph_step_evolves]. }
  destruct (evolves_keeps Hev5) as (_ & _ & _ & Hmono & _).
  destruct (exception_pairs_pass_all _ _ _ _ E4) as [HallL HallR].
  assert (Hb : bucket st' d group_group = bucket st3 d group_group).
  { now rewrite (B5 d group_group eq_refl), (B4 d group_group eq_refl). }
  assert (Hg : groups st' = groups st3) by congruence.
  assert (Hin : In q (sorted_pairs g2g)).
  { apply (sorted_filter_r_In _ _ q Eg2g). split; [congruence|].
    now apply is_glyph_2_glyph_true. }
  rewrite Hb in Hp. rewrite Hg in Hlg. unfold right_glyphs in Hrg.
  rewrite Hg in Hrg. apply Hmono.
  destruct H3 as [HL HR].
  destruct d; [apply HallL|apply HallR]; try exact Hin;
    [eapply HL|eapply HR]; eassumption.
Qed.
End Exploded.

(** X21: in the object a run of [KernProcessor] returns, every kerned glyph
    pair that lies under a pair stored as group to group (or group to
    ungrouped glyph) is stored as a glyph-to-glyph exception on the same
    side: if [p] is in [group_group] (or [rtl_group_group]), then every pair
    of glyph names made of a glyph of the left group of [p] and a glyph of
    its right item that is a key of the kerning is in
    [glyph_glyph_exceptions] (or [rtl_glyph_glyph_exceptions]). *)
Theorem glyph_pairs_under_group_pair
        (groups : dict string (list string)) (kerning : dict pair value)
        (option_dissolve : bool) (st : KernProcessor.state)
        (d : KernProcessor.direction) (p q : pair) (lg rg : list string) :
  KernProcessor.__init__ groups kerning option_dissolve = Ok st ->
  In p (dict_keys (KernProcessor.bucket st d KernProcessor.group_group)) ->
  dict_get (KernProcessor.groups st) (fst p) = Some lg ->
  KernProcessor.right_glyphs st p rg ->
  In (fst q) lg -> In (snd q) rg ->
  In q (dict_keys (KernProcessor.kerning st)) ->
  KernProcessor.glyph_pair q ->
  In q (dict_keys (KernProcessor.bucket
                     st d KernProcessor.glyph_glyph_exceptions)).
Proof.
  intros Hinit Hp Hlg Hrg Hl Hr Hkey Hglyph.
  destruct (init_returned _ _ _ Hinit)
    as (st0 & st1 & _ & Hempty & _ & _ & _ & Hfind & Hlast).
  assert (Hq : In q (KernProcessor._explode lg rg)).
  { destruct q as [x y]. apply in_prod; assumption. }
  pose proof (@findExceptions_exploded st0 st1 (fun d => Hempty d _) Hfind)
    as H.
  destruct Hlast as [->|(o & ->)]; eapply H; eassumption.
Qed.

Lemma glyph_pairs_under_group_pair_witness :
  exists st,
    KernProcessor.__init__
      [("@MMK_L_A", ["a"]); ("@MMK_R_B", ["b"])]
      [(("@MMK_L_A", "@MMK_R_B"), VInt 5); (("a", "b"), VInt 3)] false
    = Ok st /\
    In ("a", "b")
       (dict_keys (KernProcessor.bucket
                     st KernProcessor.LTR
                     KernProcessor.glyph_glyph_exceptions)).
Proof.
  destruct (KernProcessor.__init__
              [("@MMK_L_A", ["a"]); ("@MMK_R_B", ["b"])]
              [(("@MMK_L_A", "@MMK_R_B"), VInt 5); (("a", "b"), VInt 3)]
              false) as [st|] eqn:Hinit;
    [|vm_compute in Hinit; discriminate].
  exists st. split; [reflexivity|].
  apply (@glyph_pairs_under_group_pair
           _ _ _ st KernProcessor.LTR ("@MMK_L_A", "@MMK_R_B") ("a", "b")
           ["a"] ["b"] Hinit);
    vm_compute in Hinit; injection Hinit as <-.
  - now left.
  - reflexivity.
  - left. split; reflexivity.
  - now left.
  - now left.
  - right. now left.
  - split; reflexivity.
Defined.

(* ------------------------------------------------------------------ *)
(** ** When everything fits *)

Lemma length_set_add {K : Type} `{Key K} (s : list K) (x : K) :
  List.length s <= List.length (set_add s x).
Proof.
  unfold set_add. destruct (mem x s); [lia|]. rewrite length_app. lia.
Qed.

Lemma length_set_update {K : Type} `{Key K} (l s : list K) :
  List.length s <= List.length (set_update s l).
Proof.
  unfold set_update. revert s. induction l as [|x l IH]; intros s; cbn; [lia|].
  etransitivity; [apply (length_set_add s x)|apply IH].
Qed.

Section Whole.
Import MakeMeasuredSubtables.
Variables kernDict kerning : dict pair value.
Variable groups : dict string (list string).
Variable maxSubtableSize : Z.

Let coverageTableSize : Z :=
  (2 + 2 * Z.of_nat (_getNumberOfKernedGlyphs kerning groups))%Z.

Let absorb := absorb_pair groups coverageTableSize.

Lemma fold_with_subtable (t : list string) (l : list pair) (v : locals) :
  fold_left absorb l (with_subtable t v)
  = with_subtable t (fold_left absorb l v).
Proof.
  revert v. induction l as [|p l IH]; intros v; cbn [fold_left];
    [reflexivity|].
  now rewrite <- IH.
Qed.

Lemma absorb_measured (v : locals) (p : pair) :
  measured_ok coverageTableSize (absorb v p).
Proof. reflexivity. Qed.

Lemma absorb_cost (v : locals) (p : pair) :
  measured_ok coverageTableSize v -> (cost v <= cost (absorb v p))%Z.
Proof.
  intros Hv. unfold cost. rewrite Hv, (absorb_measured v p).
  unfold absorb, absorb_pair. cbn [groupedGlyphsLeft groupedGlyphsRight
                                   usedGroupsLeft usedGroupsRight].
  pose proof (length_set_update (expand groups (fst p))
                                (groupedGlyphsLeft v)).
  pose proof (length_set_update (expand groups (snd p))
                                (groupedGlyphsRight v)).
  pose proof (length_set_add (usedGroupsLeft v) (fst p)).
  pose proof (length_set_add (usedGroupsRight v) (snd p)).
  nia.
Qed.

Lemma fold_measured (l : list pair) (v : locals) :
  measured_ok coverageTableSize v ->
  measured_ok coverageTableSize (fold_left absorb l v) /\
  (cost v <= cost (fold_left absorb l v))%Z.
Proof.
  revert v. induction l as [|p l IH]; intros v Hv; cbn [fold_left].
  - split; [assumption|lia].
  - destruct (IH (absorb v p) (absorb_measured v p)) as [Hm Hc].
    split; [assumption|]. pose proof (absorb_cost p Hv). lia.
Qed.

(** The estimate after a part of the pairs is at most the one after all
    of them. *)
Lemma prefix_cost (l1 l2 : list pair) (v : locals) :
  l1 <> [] ->
  (cost (fold_left absorb l1 v) <= cost (fold_left absorb (l1 ++ l2) v))%Z.
Proof.
  intros Hne. rewrite fold_left_app. apply fold_measured.
  destruct l1 as [|p l1]; [congruence|]. cbn [fold_left].
  apply (fold_measured l1), absorb_measured.
Qed.

Hypothesis fits : (whole_cost kernDict kerning groups < maxSubtableSize)%Z.

Lemma measure_loop_whole (rest : list string) :
  forall done,
    leftItems kernDict = done ++ rest ->
    for_each (measure_item kernDict groups coverageTableSize maxSubtableSize)
             rest
             (with_subtable
                done
                (fold_left absorb (flat_map (pairs_of kernDict) done)
                           (mkLocals [] [] [] [] [] [] None)))
    = Ok (with_subtable
            (done ++ rest)
            (fold_left absorb (flat_map (pairs_of kernDict) (done ++ rest))
                       (mkLocals [] [] [] [] [] [] None))).
Proof.
  induction rest as [|item rest IH]; intros done Hleft; cbn [for_each].
  - now rewrite app_nil_r.
  - assert (Hin : In item (leftItems kernDict)).
    { rewrite Hleft. apply in_or_app. right. now left. }
    pose proof (pairs_of_leftItem kernDict item Hin) as Hne.
    unfold measure_item at 1. fold absorb.
    rewrite fold_with_subtable, <- fold_left_app.
    assert (Hflat : flat_map (pairs_of kernDict) done ++ pairs_of kernDict item
                    = flat_map (pairs_of kernDict) (done ++ [item])).
    { rewrite flat_map_app. cbn. now rewrite app_nil_r. }
    rewrite Hflat.
    set (v1 := fold_left absorb (flat_map (pairs_of kernDict) (done ++ [item]))
                         (mkLocals [] [] [] [] [] [] None)).
    assert (Hcost : (cost v1 < maxSubtableSize)%Z).
    { eapply Z.le_lt_trans; [|exact fits].
      unfold whole_cost. fold coverageTableSize. cbn zeta. fold absorb.
      rewrite Hleft.
      replace (done ++ item :: rest) with ((done ++ [item]) ++ rest)
        by now rewrite <- app_assoc.
      rewrite (flat_map_app _ (done ++ [item]) rest).
      apply prefix_cost. rewrite <- Hflat.
      destruct (pairs_of kernDict item); [congruence|].
      now destruct (flat_map (pairs_of kernDict) done). }
    assert (Hm1 : measured_ok coverageTableSize v1).
    { unfold v1. rewrite <- Hflat, fold_left_app.
      destruct (pairs_of kernDict item) as [|p ps]; [congruence|].
      cbn [fold_left]. apply (fold_measured ps), absorb_measured. }
    unfold cost in Hcost. cbn [sizes with_subtable]. rewrite Hm1 in Hcost |- *.
    apply Z.ltb_lt in Hcost. rewrite Hcost. cbn [bind].
    specialize (IH (done ++ [item])).
    rewrite <- app_assoc in IH. cbn [app] in IH.
    rewrite <- (IH Hleft). unfold with_subtable.
    cbn [measuredSubtables subtable groupedGlyphsLeft groupedGlyphsRight
         usedGroupsLeft usedGroupsRight sizes].
    fold v1. now rewrite Hm1.
Qed.

Lemma measure_whole :
  measure kernDict kerning groups maxSubtableSize
  = Ok (match leftItems kernDict with
        | [] => []
        | _ :: _ => [leftItems kernDict]
        end).
Proof.
  unfold measure. fold coverageTableSize.
  pose proof (measure_loop_whole (leftItems kernDict) [] eq_refl) as Hloop.
  cbn [flat_map fold_left app] in Hloop.
  change (with_subtable [] (mkLocals [] [] [] [] [] [] None))
    with (mkLocals [] [] [] [] [] [] None) in Hloop.
  rewrite Hloop. cbn [bind subtable with_subtable measuredSubtables].
  pose proof (absorb_pairs_fields
                groups coverageTableSize
                (flat_map (pairs_of kernDict) (leftItems kernDict))
                (mkLocals [] [] [] [] [] [] None)) as (Hm & _).
  cbn zeta in Hm. fold absorb in Hm. rewrite Hm. cbn [measuredSubtables app].
  now destruct (leftItems kernDict).
Qed.
End Whole.

(** X22: when the estimate for all the pairs of the dictionary together is
    below [maxSubtableSize], [MakeMeasuredSubtables] does not split: a
    dictionary with pairs gives one subtable, which holds all of them. *)
Theorem whole_dictionary_fits
        (kernDict kerning : dict pair value)
        (groups : dict string (list string)) (maxSubtableSize : Z) :
  wf_dict kernDict -> kernDict <> [] ->
  (MakeMeasuredSubtables.whole_cost kernDict kerning groups
   < maxSubtableSize)%Z ->
  exists subtable,
    MakeMeasuredSubtables.__init__ kernDict kerning groups maxSubtableSize
    = Ok [subtable] /\
    Permutation (dict_keys subtable) (dict_keys kernDict) /\
    forall p v, In (p, v) subtable -> v = dict_get kerning p.
Proof.
  intros Hwf Hne Hfits.
  destruct (init_spec kerning groups maxSubtableSize Hwf)
    as (measured & Hm & _ & Hinit).
  rewrite (@measure_whole kernDict kerning groups maxSubtableSize Hfits) in Hm.
  assert (Hleft : MakeMeasuredSubtables.leftItems kernDict <> []).
  { destruct kernDict as [|[p v] rest]; [congruence|].
    intros Hnil.
    assert (Hin : In (fst p) (MakeMeasuredSubtables.leftItems
                                ((p, v) :: rest))).
    { apply In_leftItems. exists p. split; [now left|reflexivity]. }
    rewrite Hnil in Hin. destruct Hin. }
  destruct (MakeMeasuredSubtables.leftItems kernDict) as [|x l] eqn:El;
    [congruence|].
  injection Hm as <-. cbn [map] in Hinit. rewrite <- El in Hinit.
  eexists. split; [exact Hinit|]. split.
  - rewrite keys_entries_of. now apply pairs_of_leftItems_perm.
  - intros p v Hin. unfold MakeMeasuredSubtables.entries_of in Hin.
    apply in_map_iff in Hin as (q & [= <- <-] & _). reflexivity.
Qed.

Lemma whole_dictionary_fits_witness :
  exists subtable,
    MakeMeasuredSubtables.__init__
      [(("b", "@X"), VInt 1); (("a", "@X"), VInt 2)]
      [(("b", "@X"), VInt 1); (("a", "@X"), VInt 2)]
      [("@X", ["x"])] 100
    = Ok [subtable] /\
    Permutation (dict_keys subtable) [("b", "@X"); ("a", "@X")].
Proof.
  destruct (@whole_dictionary_fits
              [(("b", "@X"), VInt 1); (("a", "@X"), VInt 2)]
              [(("b", "@X"), VInt 1); (("a", "@X"), VInt 2)]
              [("@X", ["x"])] 100)
    as (subtable & Hsub & Hperm & _).
  - repeat constructor; cbn; intuition discriminate.
  - discriminate.
  - reflexivity.
  - exists subtable. split; assumption.
Defined.

(* ------------------------------------------------------------------ *)
(** ** Unprocessed pairs are stored nowhere *)

Section Tidy.
Import KernProcessor.

Variable done : list pair.
Hypothesis done_groups : forall q, In q done -> ~ glyph_pair q.

Lemma tidy_processed (p : pair) (st : state) :
  tidy done st -> tidy done (append_processed p st).
Proof. intros H. exact H. Qed.

Lemma tidy_exceptionPairs (e r : list pair) (st : state) :
  tidy done st -> tidy done (set_exceptionPairs e r st).
Proof. intros H. exact H. Qed.

Lemma tidy_put_glyph (d : direction) (c : category) (p : pair) (v : value)
      (st : state) :
  glyph_pair p -> tidy done st -> tidy done (put d c p v st).
Proof.
  intros Hg [HU HB]. split.
  - intros q Hq. destruct (HU q Hq) as [Hd Hno]. split; [exact Hd|].
    intros d' c' Hc Hin. apply bucket_put_keys in Hin as [->|Hin].
    + now apply (done_groups Hd).
    + now apply (Hno d' c').
  - intros d' c' q Hc Hin. apply bucket_put_keys in Hin as [->|Hin].
    + now right.
    + now apply (HB d' c').
Qed.

Lemma tidy_put_next (d : direction) (c : category) (p : pair) (v : value)
      (st : state) :
  ~ In p done -> tidy done st -> tidy (done ++ [p]) (put d c p v st).
Proof.
  intros Hfresh [HU HB]. split.
  - intros q Hq. destruct (HU q Hq) as [Hd Hno].
    split; [apply in_or_app; now left|].
    intros d' c' Hc Hin. apply bucket_put_keys in Hin as [->|Hin].
    + contradiction.
    + now apply (Hno d' c').
  - intros d' c' q Hc Hin. apply bucket_put_keys in Hin as [->|Hin].
    + left. apply in_or_app. right. now left.
    + destruct (HB d' c' q Hc Hin) as [Hd|Hg]; [left|now right].
      apply in_or_app. now left.
Qed.

Lemma tidy_unprocessed_next (p : pair) (st : state) :
  ~ In p done -> ~ glyph_pair p -> tidy done st ->
  tidy (done ++ [p]) (append_unprocessed p st).
Proof.
  intros Hfresh Hgroup [HU HB]. split.
  - intros q Hq. cbn in Hq. apply in_app_or in Hq as [Hq|[<-|[]]].
    + destruct (HU q Hq) as [Hd Hno].
      split; [apply in_or_app; now left|exact Hno].
    + split; [apply in_or_app; right; now left|].
      intros d c Hc Hin. destruct (HB d c p Hc Hin); contradiction.
  - intros d c q Hc Hin. destruct (HB d c q Hc Hin) as [Hd|Hg];
      [left|now right].
    apply in_or_app. now left.
Qed.

Variable g2g : list pair.
Hypothesis g2g_glyphs : forall q, In q g2g -> glyph_pair q.

Lemma member_step_tidy (r : bool) (glyph : string)
      (acc acc' : value * state) (m : string) :
  member_step g2g r glyph acc m = Ok acc' ->
  tidy done (snd acc) -> tidy done (snd acc').
Proof.
  unfold member_step. destruct (mem (K:=pair) (glyph, m) g2g) eqn:E.
  - destruct (getitem _ _) as [v|]; [|discriminate].
    intros [= <-] H. cbn [snd]. apply tidy_put_glyph; [|exact H].
    apply g2g_glyphs. now apply mem_In.
  - now intros [= <-].
Qed.

Lemma glyph_group_step_tidy (st st' : state) (p : pair) :
  ~ In p done -> ~ glyph_pair p ->
  glyph_group_step g2g st p = Ok st' ->
  tidy done st -> tidy (done ++ [p]) st'.
Proof.
  intros Hfresh Hgroup. destruct p as [a b]. unfold glyph_group_step.
  cbn [fst snd]. intros H Ht.
  destruct (getitem (kerning st) (a, b)) as [v0|]; [|discriminate].
  destruct (getitem (groups st) b) as [groupList|]; [|discriminate].
  destruct (attr (grouped_left st)) as [gl|]; [|discriminate].
  cbn [bind] in H. destruct (mem a gl).
  - injection H as <-. now apply (tidy_put_next _ _ _ _ Hfresh).
  - destruct (for_each _ groupList (v0, st)) as [[value' st1]|] eqn:E;
      [|discriminate].
    apply (for_each_returned
             _ (fun acc : value * state => tidy done (snd acc))) in E;
      [|intros s x s' _ Hs Hstep; eapply member_step_tidy; eassumption
       |exact Ht].
    cbn [snd bind] in *. destruct (is_zero value'); injection H as <-.
    + now apply tidy_unprocessed_next.
    + now apply (tidy_put_next _ _ _ _ Hfresh).
Qed.

Lemma group_item_step_tidy (acc acc' : state * list pair * list pair)
      (p : pair) :
  ~ In p done -> ~ glyph_pair p ->
  group_item_step acc p = Ok acc' ->
  tidy done (fst (fst acc)) -> tidy (done ++ [p]) (fst (fst acc')).
Proof.
  intros Hfresh Hgroup. destruct acc as [[st e] r]. destruct p as [a b].
  unfold group_item_step. cbn [fst snd]. intros H Ht.
  destruct (getitem (kerning st) (a, b)) as [v|]; [|discriminate].
  destruct (getitem (groups st) a) as [lg|]; [|discriminate].
  destruct (_isGroup b) as [[|]|]; [| |discriminate]; cbn [bind] in H.
  - destruct (getitem (groups st) b) as [rg|]; [|discriminate].
    cbn [bind] in H.
    destruct (is_zero v); [|destruct (_isRTL _ _)];
      injection H as <-; cbn [fst];
      first [now apply tidy_unprocessed_next
            |now apply (tidy_put_next _ _ _ _ Hfresh)].
  - destruct (attr (grouped_right st)) as [gr|]; [|discriminate].
    cbn [bind] in H.
    destruct (mem b gr); [destruct (_isRTL _ _)|]; cbn [bind] in H.
    + injection H as <-; cbn [fst]. now apply (tidy_put_next _ _ _ _ Hfresh).
    + injection H as <-; cbn [fst]. now apply (tidy_put_next _ _ _ _ Hfresh).
    + destruct (is_zero v); [|destruct (_isRTL _ _)];
        injection H as <-; cbn [fst];
        first [now apply tidy_unprocessed_next
              |now apply (tidy_put_next _ _ _ _ Hfresh)].
Qed.

Lemma put_loop_tidy (d : direction) (l : list pair) (st st' : state) :
  (forall q, In q l -> glyph_pair q) ->
  for_each
    (fun st p =>
       v <- getitem (kerning st) p ;;
       Ok (put d glyph_glyph_exceptions p v st)) l st = Ok st' ->
  tidy done st -> tidy done st'.
Proof.
  intros Hl Hloop Ht.
  refine (@for_each_returned _ _ _ (tidy done) l _ st st' Ht Hloop).
  intros s a s' Ha Hs Hstep.
  destruct (getitem _ _) as [v|]; [|discriminate]. injection Hstep as <-.
  apply tidy_put_glyph; [now apply Hl|exact Hs].
Qed.

Lemma exception_pairs_pass_tidy (e r : list pair) (st st' : state) :
  exception_pairs_pass g2g e r st = Ok st' ->
  tidy done st -> tidy done st'.
Proof.
  unfold exception_pairs_pass. intros H Ht.
  match type of H with
  | bind ?m _ = _ => destruct m as [st1|] eqn:E1; [|discriminate]
  end.
  cbn [bind] in H.
  assert (Hglyph : forall l q, In q (filter (fun p => mem p g2g) l) ->
                               glyph_pair q).
  { intros l q Hq. apply filter_In in Hq as [_ Hq].
    apply g2g_glyphs. now apply mem_In. }
  eapply put_loop_tidy; [apply Hglyph|exact H|].
  eapply put_loop_tidy; [apply Hglyph|exact E1|].
  now apply tidy_exceptionPairs.
Qed.

Lemma glyph_glyph_step_tidy (st st' : state) (p : pair) :
  glyph_pair p -> glyph_glyph_step st p = Ok st' ->
  tidy done st -> tidy done st'.
Proof.
  intros Hg. destruct p as [a b]. unfold glyph_glyph_step. cbn [fst snd].
  intros H Ht.
  destruct (getitem (kerning st) (a, b)) as [v|]; [|discriminate].
  destruct (attr (grouped_left st)) as [gl|]; [|discriminate].
  destruct (attr (grouped_right st)) as [gr|]; [|discriminate].
  cbn [bind] in H.
  destruct (mem a gl || mem b gr); cbn [bind] in H.
  - injection H as <-. now apply tidy_processed, tidy_put_glyph.
  - destruct (negb _ && negb _); cbn [bind] in H; injection H as <-.
    + now apply tidy_processed, tidy_put_glyph.
    + now apply tidy_processed.
Qed.
End Tidy.

Section TidyRun.
Import KernProcessor.

Lemma findExceptions_tidy (st st' : state) :
  wf_dict (kerning st) -> (forall d c, bucket st d c = []) ->
  pairs_unprocessed st = [] ->
  _findExceptions st = Ok st' ->
  forall q,
    In q (pairs_unprocessed st') ->
    In q (dict_keys (kerning st')) /\ ~ glyph_pair q /\
    forall d c, c <> predefined_exceptions ->
                ~ In q (dict_keys (bucket st' d c)).
Proof.
  intros Hwf Hempty Hu0 Hfind.
  destruct (findExceptions_keeps st Hfind) as (st1' & Hstrip' & Hk' & _).
  destruct (findExceptions_passes st Hfind)
    as (st1 & g2g & g2grp & g2i & st2 & st3 & e & r & st4 &
        Hstrip & Eg2g & Eg2grp & Eg2i & E2 & E3 & E4 & E5).
  rewrite Hstrip in Hstrip'. injection Hstrip' as <-.
  destruct (strip_pairs_spec st Hwf)
    as (st1' & Hstrip' & Hk & _ & _ & Hpu & _).
  rewrite Hstrip in Hstrip'. injection Hstrip' as <-.
  assert (Hwf1 : NoDup (dict_keys (kerning st1))).
  { rewrite Hk. apply wf_dict_filter, Hwf. }
  set (L1 := sorted_pairs g2grp) in *. set (L2 := sorted_pairs g2i) in *.
  assert (Hg2g : forall q, In q (sorted_pairs g2g) -> glyph_pair q).
  { intros q Hq. apply (sorted_filter_r_In _ _ q Eg2g) in Hq as [_ Hq].
    now apply is_glyph_2_glyph_true. }
  assert (HL1 : forall q, In q L1 ->
                          In q (dict_keys (kerning st1)) /\
                          _isGroup (fst q) = Ok false /\
                          _isGroup (snd q) = Ok true).
  { intros q Hq. apply (sorted_filter_r_In _ _ q Eg2grp) in Hq as [Hq Hs].
    split; [exact Hq|]. now apply is_glyph_2_group_true. }
  assert (HL2 : forall q, In q L2 ->
                          In q (dict_keys (kerning st1)) /\
                          _isGroup (fst q) = Ok true).
  { intros q Hq. apply (sorted_filter_r_In _ _ q Eg2i) in Hq as [Hq Hs].
    split; [exact Hq|exact Hs]. }
  assert (Hgroups : forall q, In q (L1 ++ L2) -> ~ glyph_pair q).
  { intros q Hq [Ha Hb]. apply in_app_or in Hq as [Hq|Hq].
    - apply HL1 in Hq as (_ & _ & Hq). congruence.
    - apply HL2 in Hq as (_ & Hq). congruence. }
  assert (Hnd1 : NoDup L1).
  { apply NoDup_sorted.
    now apply (@filter_r_NoDup _ is_glyph_2_group (dict_keys (kerning st1))). }
  assert (Hnd2 : NoDup L2).
  { apply NoDup_sorted.
    now apply (@filter_r_NoDup _ is_group_2_item (dict_keys (kerning st1))). }
  assert (H1 : tidy [] st1).
  { split.
    - intros q Hq. rewrite Hpu, Hu0 in Hq. destruct Hq.
    - intros d c q Hc Hq.
      rewrite (strip_pairs_other_buckets st Hstrip), Hempty in Hq;
        [destruct Hq|now destruct c]. }
  assert (H2 : tidy L1 st2).
  { refine (@for_each_prefix
              _ _ (glyph_group_step (sorted_pairs g2g))
              (fun done s => tidy done s) L1 _ st1 st2 H1 E2).
    intros done a rest s s' Hl Hs Hstep.
    assert (Hsub : forall q, In q (done ++ [a]) -> In q (L1 ++ L2)).
    { intros q Hq. apply in_or_app. left. rewrite Hl.
      apply in_app_or in Hq as [Hq|[<-|[]]]; apply in_or_app;
        [now left|right; now left]. }
    eapply (@glyph_group_step_tidy done); try eassumption.
    - intros q Hq. apply Hgroups, Hsub, in_or_app. now left.
    - rewrite Hl in Hnd1. apply NoDup_remove_2 in Hnd1.
      intros Hin. apply Hnd1, in_or_app. now left.
    - apply Hgroups, Hsub, in_or_app. right. now left. }
  assert (H3 : tidy (L1 ++ L2) st3).
  { unfold group_item_pass in E3.
    refine (@for_each_prefix
              _ _ group_item_step
              (fun done (acc : state * list pair * list pair) =>
                 tidy (L1 ++ done) (fst (fst acc)))
              L2 _ (st2, [], []) (st3, e, r) _ E3).
    - intros done a rest s s' Hl Hs Hstep.
      assert (Hsub : forall q, In q (L1 ++ done ++ [a]) -> In q (L1 ++ L2)).
      { intros q Hq. apply in_app_or in Hq as [Hq|Hq]; apply in_or_app;
          [now left|right].
        rewrite Hl. apply in_app_or in Hq as [Hq|[<-|[]]]; apply in_or_app;
          [now left|right; now left]. }
      rewrite app_assoc.
      eapply (@group_item_step_tidy (L1 ++ done)); try eassumption.
      + intros Hin. apply in_app_or in Hin as [Hin|Hin].
        * apply HL1 in Hin as (_ & Hin & _).
          assert (Ha : In a L2).
          { rewrite Hl. apply in_or_app. right. now left. }
          apply HL2 in Ha as (_ & Ha). congruence.
        * rewrite Hl in Hnd2. apply NoDup_remove_2 in Hnd2.
          apply Hnd2, in_or_app. now left.
      + apply Hgroups, Hsub. apply in_or_app. right.
        apply in_or_app. right. now left.
    - cbn [fst]. now rewrite app_nil_r. }
  assert (H4 : tidy (L1 ++ L2) st4).
  { eapply (@exception_pairs_pass_tidy (L1 ++ L2)); eassumption. }
  assert (H5 : tidy (L1 ++ L2) st').
  { refine (@for_each_returned
              _ _ glyph_glyph_step (tidy (L1 ++ L2)) (sorted_pairs g2g)
              _ st4 st' H4 E5).
    intros s a s' Ha Hs Hstep.
    eapply (@glyph_glyph_step_tidy (L1 ++ L2)); try eassumption.
    now apply Hg2g. }
  intros q Hq. destruct H5 as [HU _]. destruct (HU q Hq) as [Hd Hno].
  split; [|split; [now apply Hgroups|exact Hno]].
  rewrite Hk'. apply in_app_or in Hd as [Hd|Hd].
  - now apply HL1 in Hd.
  - now apply HL2 in Hd.
Qed.
End TidyRun.

(** X23: in the object a run of [KernProcessor] returns, a pair on
    [pairs_unprocessed] is a pair of the kerning with a group among its
    items, and it is stored in none of the fourteen dictionaries: what is
    counted as unprocessed is written nowhere. *)
Theorem unprocessed_stored_nowhere
        (groups : dict string (list string)) (kerning : dict pair value)
        (option_dissolve : bool) (st : KernProcessor.state) (q : pair) :
  KernProcessor.__init__ groups kerning option_dissolve = Ok st ->
  In q (KernProcessor.pairs_unprocessed st) ->
  In q (dict_keys (KernProcessor.kerning st)) /\
  ~ KernProcessor.glyph_pair q /\
  forall d c, ~ In q (dict_keys (KernProcessor.bucket st d c)).
Proof.
  intros Hinit Hq.
  destruct (init_returned _ _ _ Hinit)
    as (st0 & st1 & Hwf & Hempty & _ & Hu0 & _ & Hfind & Hlast).
  pose proof (@findExceptions_tidy st0 st1 Hwf Hempty Hu0 Hfind) as H.
  assert (H' : In q (dict_keys (KernProcessor.kerning st)) /\
               ~ KernProcessor.glyph_pair q /\
               forall d c, c <> KernProcessor.predefined_exceptions ->
                           ~ In q (dict_keys (KernProcessor.bucket st d c))).
  { destruct Hlast as [->|(o & ->)]; exact (H q Hq). }
  destruct H' as (Hkey & Hgroup & Hno).
  split; [exact Hkey|]. split; [exact Hgroup|].
  intros d c Hin.
  destruct (KernProcessor.category_eqb c KernProcessor.predefined_exceptions)
    eqn:Ec.
  - apply category_eqb_eq in Ec. subst c.
    now apply (init_predefined_absent _ _ _ Hinit) in Hin as [_ Hin].
  - apply (Hno d c); [|exact Hin]. intros ->. discriminate.
Qed.

Lemma unprocessed_stored_nowhere_witness :
  exists st,
    KernProcessor.__init__
      [("@MMK_L_A", ["a"]); ("@MMK_R_B", ["b"])]
      [(("@MMK_L_A", "@MMK_R_B"), VInt 0); (("x", "y"), VInt 3)] false
    = Ok st /\
    ~ In ("@MMK_L_A", "@MMK_R_B")
         (dict_keys (KernProcessor.bucket st KernProcessor.LTR
                                          KernProcessor.group_group)).
Proof.
  destruct (KernProcessor.__init__
              [("@MMK_L_A", ["a"]); ("@MMK_R_B", ["b"])]
              [(("@MMK_L_A", "@MMK_R_B"), VInt 0); (("x", "y"), VInt 3)]
              false) as [st|] eqn:Hinit;
    [|vm_compute in Hinit; discriminate].
  exists st. split; [reflexivity|].
  apply (@unprocessed_stored_nowhere _ _ _ st _ Hinit).
  vm_compute in Hinit. injection Hinit as <-. now left.
Defined.

(* ------------------------------------------------------------------ *)
(** ** Empty subtables in the output *)

Section SubtableOutput.
Import run.
Variable S : Type.
Variable dict2pos :
  dict pair (option value) -> bool -> S -> result (string * S).

Let has_pairs (table : dict pair (option value)) : bool :=
  match table with
  | [] => false
  | _ :: _ => true
  end.

Lemma build_loop_skips (RTL : bool) (l : list (dict pair (option value))) :
  forall acc,
    for_each (build_step dict2pos RTL) l acc
    = for_each (build_step dict2pos RTL) (filter has_pairs l) acc.
Proof.
  induction l as [|table l IH]; intros acc; [reflexivity|].
  destruct table as [|pv table]; cbn [filter has_pairs for_each].
  - destruct acc as [[out created] s]. cbn [build_step bind]. apply IH.
  - destruct (build_step dict2pos RTL acc (pv :: table)); cbn [bind];
      [apply IH|reflexivity].
Qed.

Lemma total_skips (l : list (dict pair (option value))) :
  fold_right Z.add 0%Z
             (map (fun subtable : dict pair (option value) =>
                     Z.of_nat (List.length (dict_keys subtable)))
                  (filter has_pairs l))
  = fold_right Z.add 0%Z
               (map (fun subtable : dict pair (option value) =>
                       Z.of_nat (List.length (dict_keys subtable))) l).
Proof.
  induction l as [|table l IH]; [reflexivity|].
  destruct table as [|pv table]; cbn [filter has_pairs map fold_right].
  - rewrite IH. reflexivity.
  - now rewrite IH.
Qed.

Lemma build_loop_counts (RTL : bool) (l : list (dict pair (option value))) :
  forall out created s out' created' s',
    for_each (build_step dict2pos RTL) l (out, created, s)
    = Ok (out', created', s') ->
    let n := Z.of_nat (List.length (filter has_pairs l)) in
    if RTL then
      RTLsubtablesCreated created' = (RTLsubtablesCreated created + n)%Z /\
      subtablesCreated created' = subtablesCreated created
    else
      subtablesCreated created' = (subtablesCreated created + n)%Z /\
      RTLsubtablesCreated created' = RTLsubtablesCreated created.
Proof.
  induction l as [|table l IH]; intros out created s out' created' s'.
  - cbn. intros [= _ <- _]. destruct RTL; split; lia.
  - destruct table as [|pv table]; cbn [filter has_pairs for_each].
    + cbn [build_step bind]. apply IH.
    + cbn [build_step].
      destruct (dict2pos (pv :: table) RTL s) as [[text s1]|];
        [|discriminate].
      cbn [bind]. intros Hloop. apply IH in Hloop. cbn zeta in *.
      cbn [List.length]. rewrite Nat2Z.inj_succ.
      destruct RTL; cbn [subtablesCreated RTLsubtablesCreated] in Hloop;
        destruct Hloop as [H1 H2]; split; lia.
Qed.
End SubtableOutput.

(** X24: [_buildSubtableOutput] passes over empty subtables: with or
    without them in [subtableList] it returns the same list, leaves the
    same counters and makes the same calls of [_dict2pos]; and when it
    returns, the counter of its side ([subtablesCreated], or
    [RTLsubtablesCreated] with [RTL]) has grown by the number of subtables
    that are not empty, the other counter being as before. *)
Theorem buildSubtableOutput_skips_empty
        (S : Type)
        (dict2pos : dict pair (option value) -> bool -> S ->
                    result (string * S))
        (subtableList : list (dict pair (option value))) (comment : string)
        (RTL : bool) (created : run.counters) (s : S) :
  let has_pairs (table : dict pair (option value)) : bool :=
    match table with
    | [] => false
    | _ :: _ => true
    end in
  run._buildSubtableOutput dict2pos subtableList comment RTL created s
  = run._buildSubtableOutput dict2pos (filter has_pairs subtableList)
                             comment RTL created s /\
  forall out created' s',
    run._buildSubtableOutput dict2pos subtableList comment RTL created s
    = Ok (out, created', s') ->
    let n := Z.of_nat (List.length (filter has_pairs subtableList)) in
    if RTL then
      run.RTLsubtablesCreated created'
      = (run.RTLsubtablesCreated created + n)%Z /\
      run.subtablesCreated created' = run.subtablesCreated created
    else
      run.subtablesCreated created' = (run.subtablesCreated created + n)%Z /\
      run.RTLsubtablesCreated created' = run.RTLsubtablesCreated created.
Proof.
  intros has_pairs. subst has_pairs. unfold run._buildSubtableOutput. split.
  - rewrite (total_skips subtableList).
    apply (build_loop_skips dict2pos RTL subtableList).
  - intros out created' s' H.
    exact (build_loop_counts dict2pos RTL subtableList _ _ _ H).
Qed.

Lemma buildSubtableOutput_skips_empty_witness :
  exists out created' s',
    run._buildSubtableOutput
      (fun (_ : dict pair (option value)) (_ : bool) (s : unit) =>
         Ok ("pos a b 1;", s))
      [[]; [(("a", "b"), Some (VInt 1))]] "# glyph, group:" false
      (run.mkCounters 0 0) tt
    = Ok (out, created', s') /\
    run.subtablesCreated created' = 1%Z.
Proof.
  eexists _, _, _. split; [reflexivity|].
  exact (proj1 (proj2 (@buildSubtableOutput_skips_empty
                         unit
                         (fun (_ : dict pair (option value)) (_ : bool)
                              (s : unit) => Ok ("pos a b 1;", s))
                         [[]; [(("a", "b"), Some (VInt 1))]]
                         "# glyph, group:" false (run.mkCounters 0 0) tt)
                      _ _ _ eq_refl)).
Defined.

(* ------------------------------------------------------------------ *)
(** ** What each dictionary holds *)

Section Shapes.
Import KernProcessor.

Lemma init_grouped (groups : dict string (list string))
      (kerning : dict pair value) (option_dissolve : bool) (st : state) :
  __init__ groups kerning option_dissolve = Ok st ->
  (exists gl gr,
      grouped_left st = Some gl /\ grouped_right st = Some gr /\
      buckets_ok (KernProcessor.kerning st) (reference_groups st) gl gr st) \/
  (grouped_left st = None /\
   forall d c, c <> predefined_exceptions -> bucket st d c = []).
Proof.
  intros Hinit.
  destruct (init_returned _ _ _ Hinit)
    as (st0 & st1 & Hwf & Hempty & _ & _ & Hgrouped & Hfind & Hlast).
  assert (H1 : (exists gl gr,
                   grouped_left st1 = Some gl /\ grouped_right st1 = Some gr /\
                   buckets_ok (KernProcessor.kerning st1)
                              (reference_groups st1) gl gr st1) \/
               (grouped_left st1 = None /\
                forall d c, c <> predefined_exceptions ->
                            bucket st1 d c = [])).
  { destruct Hgrouped as [(gl & gr & Hgl & Hgr)|[Hgl Hglyph]].
    - left. exists gl, gr.
      destruct (@findExceptions_classified gl gr st0 st1
                                           Hwf Hgl Hgr Hempty Hfind)
        as (_ & (_ & _ & Hr & Hl' & Hr') & Hb).
      rewrite Hr. auto.
    - right.
      destruct (evolves_keeps (findExceptions_evolves st0 Hfind))
        as (_ & (_ & _ & Hl' & _) & _).
      split; [congruence|].
      destruct (@findExceptions_none st0 st1 Hwf Hgl Hglyph Hfind)
        as (st1' & Hstrip & _ & ->).
      intros d c Hc. cbn [set_exceptionPairs bucket].
      rewrite (strip_pairs_other_buckets st0 Hstrip); [apply Hempty|].
      destruct c; try reflexivity. congruence. }
  destruct Hlast as [->|(o & ->)]; exact H1.
Qed.
End Shapes.

(** X25: what the dictionaries of a run hold, by the shape of the pairs.
    With [grouped_left] and [grouped_right] the lists of grouped glyphs of
    the object: a pair in [glyph_glyph] has two glyph names, neither of
    them grouped on its side; a pair in [glyph_glyph_exceptions] has two
    glyph names; in [glyph_group] a glyph not grouped on the left, then a
    group; in [glyph_group_exceptions] a glyph grouped on the left, then a
    group; in [group_glyph_exceptions] a group, then a glyph grouped on the
    right; in [group_group] a group, then a group or a glyph not grouped on
    the right, with a value that is not zero.  The same holds of the [rtl_]
    dictionaries.  When no group is used the lists are not set and all
    these dictionaries are empty. *)
Theorem dictionaries_by_shape
        (groups : dict string (list string)) (kerning : dict pair value)
        (option_dissolve : bool) (st : KernProcessor.state) :
  KernProcessor.__init__ groups kerning option_dissolve = Ok st ->
  (KernProcessor.grouped_left st = None ->
   forall d c, c <> KernProcessor.predefined_exceptions ->
               KernProcessor.bucket st d c = []) /\
  (forall gl gr d c p v,
      KernProcessor.grouped_left st = Some gl ->
      KernProcessor.grouped_right st = Some gr ->
      dict_get (KernProcessor.bucket st d c) p = Some v ->
      let left_group := KernProcessor._isGroup (fst p) in
      let right_group := KernProcessor._isGroup (snd p) in
      match c with
      | KernProcessor.predefined_exceptions => True
      | KernProcessor.glyph_glyph =>
          left_group = Ok false /\ right_group = Ok false /\
          mem (fst p) gl = false /\ mem (snd p) gr = false
      | KernProcessor.glyph_glyph_exceptions =>
          left_group = Ok false /\ right_group = Ok false
      | KernProcessor.glyph_group =>
          left_group = Ok false /\ right_group = Ok true /\
          mem (fst p) gl = false
      | KernProcessor.glyph_group_exceptions =>
          left_group = Ok false /\ right_group = Ok true /\
          mem (fst p) gl = true
      | KernProcessor.group_glyph_exceptions =>
          left_group = Ok true /\ right_group = Ok false /\
          mem (snd p) gr = true
      | KernProcessor.group_group =>
          left_group = Ok true /\
          (right_group = Ok true \/
           (right_group = Ok false /\ mem (snd p) gr = false)) /\
          is_zero v = false
      end).
Proof.
  intros Hinit.
  destruct (init_grouped _ _ _ Hinit)
    as [(gl0 & gr0 & Hgl0 & Hgr0 & Hb)|[Hnone Hempty]].
  - split; [congruence|].
    intros gl gr d c p v Hgl Hgr Hget. rewrite Hgl0 in Hgl.
    rewrite Hgr0 in Hgr. injection Hgl as <-. injection Hgr as <-.
    specialize (Hb d c p v Hget). cbn zeta.
    destruct c; cbn in Hb; tauto.
  - split; [intros _; exact Hempty|].
    intros gl gr d c p v Hgl. congruence.
Qed.

Lemma dictionaries_by_shape_witness :
  exists st,
    KernProcessor.__init__
      [("@MMK_L_A", ["a"]); ("@MMK_R_B", ["b"])]
      [(("@MMK_L_A", "@MMK_R_B"), VInt 5); (("a", "b"), VInt 3)] false
    = Ok st /\
    KernProcessor._isGroup "a" = Ok false.
Proof.
  destruct (KernProcessor.__init__
              [("@MMK_L_A", ["a"]); ("@MMK_R_B", ["b"])]
              [(("@MMK_L_A", "@MMK_R_B"), VInt 5); (("a", "b"), VInt 3)]
              false) as [st|] eqn:Hinit;
    [|vm_compute in Hinit; discriminate].
  exists st. split; [reflexivity|].
  refine (proj1 (proj2 (@dictionaries_by_shape _ _ _ st Hinit)
                       ["a"] ["b"] KernProcessor.LTR
                       KernProcessor.glyph_glyph_exceptions
                       ("a", "b") (VInt 3) _ _ _));
    vm_compute in Hinit; injection Hinit as <-; reflexivity.
Defined.

(* ------------------------------------------------------------------ *)
(** ** What is never trimmed *)




(* ------------------------------------------------------------------ *)
(** ** Why a glyph pair is an exception *)

Section Grouped.
Import KernProcessor.

Variable K : dict pair value.
Variables G R : dict string (list string).
Variables gl gr : list string.
Hypothesis cover : grouped_cover K G gl gr.

Lemma exceptions_grouped_other (d : direction) (c : category) (p : pair)
      (v : value) (st : state) :
  category_eqb c glyph_glyph_exceptions = false ->
  exceptions_grouped gl gr st -> exceptions_grouped gl gr (put d c p v st).
Proof.
  intros Hc H d' q Hq. rewrite bucket_put_other in Hq by exact Hc.
  now apply (H d').
Qed.

Lemma exceptions_grouped_put (d : direction) (p : pair) (v : value)
      (st : state) :
  mem (fst p) gl = true \/ mem (snd p) gr = true ->
  exceptions_grouped gl gr st ->
  exceptions_grouped gl gr (put d glyph_glyph_exceptions p v st).
Proof.
  intros Hp H d' q Hq. apply bucket_put_keys in Hq as [->|Hq];
    [exact Hp|now apply (H d')].
Qed.

Lemma member_step_grouped (g2g : list pair) (r : bool) (glyph : string)
      (acc acc' : value * state) (m : string) :
  mem m gr = true ->
  member_step g2g r glyph acc m = Ok acc' ->
  exceptions_grouped gl gr (snd acc) -> exceptions_grouped gl gr (snd acc').
Proof.
  intros Hm. unfold member_step. destruct (mem _ g2g).
  - destruct (getitem _ _) as [v|]; [|discriminate].
    intros [= <-] H. cbn [snd]. apply exceptions_grouped_put; [|exact H].
    now right.
  - now intros [= <-].
Qed.

Lemma glyph_group_step_grouped (g2g : list pair) (st st' : state)
      (p : pair) :
  in_context K G R gl gr st ->
  In p (dict_keys K) -> _isGroup (snd p) = Ok true ->
  glyph_group_step g2g st p = Ok st' ->
  exceptions_grouped gl gr st -> exceptions_grouped gl gr st'.
Proof.
  intros (Hk & Hg & _) Hp Hgroup. destruct p as [a b]. cbn [fst snd] in *.
  unfold glyph_group_step. cbn [fst snd]. rewrite Hg. intros H Hx.
  destruct (getitem (kerning st) (a, b)) as [v0|]; [|discriminate].
  destruct (getitem G b) as [groupList|] eqn:Eg; [|discriminate].
  apply getitem_Ok in Eg.
  destruct (attr (grouped_left st)) as [gl'|]; [|discriminate].
  cbn [bind] in H. destruct (mem a gl').
  - injection H as <-. now apply exceptions_grouped_other.
  - destruct (for_each _ groupList (v0, st)) as [[value' st1]|] eqn:E;
      [|discriminate].
    apply (for_each_returned
             _ (fun acc : value * state =>
                  exceptions_grouped gl gr (snd acc))) in E;
      [| |exact Hx].
    + cbn [snd bind] in *. destruct (is_zero value'); injection H as <-;
        [exact E|now apply exceptions_grouped_other].
    + intros s m s' Hm Hs Hstep.
      eapply member_step_grouped; [|exact Hstep|exact Hs].
      exact (proj2 cover (a, b) groupList m Hp Hgroup Eg Hm).
Qed.

Lemma group_item_step_grouped (st st' : state) (e r e' r' : list pair)
      (p : pair) :
  in_context K G R gl gr st ->
  In p (dict_keys K) -> _isGroup (fst p) = Ok true ->
  group_item_step (st, e, r) p = Ok (st', e', r') ->
  exceptions_grouped gl gr st /\
  (forall q, In q e \/ In q r -> mem (fst q) gl = true) ->
  exceptions_grouped gl gr st' /\
  (forall q, In q e' \/ In q r' -> mem (fst q) gl = true).
Proof.
  intros (Hk & Hg & _) Hp Hgroup. destruct p as [a b]. cbn [fst snd] in *.
  unfold group_item_step. cbn [fst snd]. rewrite Hg. intros H [Hx He].
  destruct (getitem (kerning st) (a, b)) as [v|]; [|discriminate].
  destruct (getitem G a) as [lg|] eqn:Elg; [|discriminate].
  apply getitem_Ok in Elg.
  assert (Hnew : forall rg q,
             In q e \/ In q r \/ In q (_explode lg rg) ->
             mem (fst q) gl = true).
  { intros rg q [Hq|[Hq|Hq]]; [apply He; now left|apply He; now right|].
    destruct q as [x y]. apply in_prod_iff in Hq as [Hx' _].
    exact (proj1 cover (a, b) lg x Hp Hgroup Elg Hx'). }
  destruct (_isGroup b) as [[|]|]; [| |discriminate]; cbn [bind] in H.
  - destruct (getitem G b) as [rg|]; [|discriminate].
    cbn [bind] in H.
    destruct (is_zero v); [|destruct (_isRTL _ _)];
      injection H as <- <- <-.
    + split; assumption.
    + split; [now apply exceptions_grouped_other|].
      intros q [Hq|Hq]; apply (Hnew rg); rewrite ?in_app_iff in *; tauto.
    + split; [now apply exceptions_grouped_other|].
      intros q [Hq|Hq]; apply (Hnew rg); rewrite ?in_app_iff in *; tauto.
  - destruct (attr (grouped_right st)) as [gr'|]; [|discriminate].
    cbn [bind] in H.
    destruct (mem b gr'); [destruct (_isRTL _ _)|]; cbn [bind] in H.
    + injection H as <- <- <-.
      split; [now apply exceptions_grouped_other|assumption].
    + injection H as <- <- <-.
      split; [now apply exceptions_grouped_other|assumption].
    + destruct (is_zero v); [|destruct (_isRTL _ _)];
        injection H as <- <- <-.
      * split; assumption.
      * split; [now apply exceptions_grouped_other|].
        intros q [Hq|Hq]; apply (Hnew [b]); rewrite ?in_app_iff in *; tauto.
      * split; [now apply exceptions_grouped_other|].
        intros q [Hq|Hq]; apply (Hnew [b]); rewrite ?in_app_iff in *; tauto.
Qed.

Lemma put_loop_grouped (d : direction) (l : list pair) (st st' : state) :
  (forall q, In q l -> mem (fst q) gl = true) ->
  for_each
    (fun st p =>
       v <- getitem (kerning st) p ;;
       Ok (put d glyph_glyph_exceptions p v st)) l st = Ok st' ->
  exceptions_grouped gl gr st -> exceptions_grouped gl gr st'.
Proof.
  intros Hl Hloop Hx.
  refine (@for_each_returned _ _ _ (exceptions_grouped gl gr) l _ st st'
                             Hx Hloop).
  intros s a s' Ha Hs Hstep.
  destruct (getitem _ _) as [v|]; [|discriminate]. injection Hstep as <-.
  apply exceptions_grouped_put; [|exact Hs]. left. now apply Hl.
Qed.

Lemma exception_pairs_pass_grouped (g2g e r : list pair) (st st' : state) :
  (forall q, In q e \/ In q r -> mem (fst q) gl = true) ->
  exception_pairs_pass g2g e r st = Ok st' ->
  exceptions_grouped gl gr st -> exceptions_grouped gl gr st'.
Proof.
  intros He. unfold exception_pairs_pass. intros H Hx.
  match type of H with
  | bind ?m _ = _ => destruct m as [st1|] eqn:E1; [|discriminate]
  end.
  cbn [bind] in H.
  eapply put_loop_grouped; [|exact H|].
  { intros q Hq. apply filter_In in Hq as [Hq _]. rewrite In_to_set in Hq.
    apply He. now right. }
  eapply put_loop_grouped; [|exact E1|exact Hx].
  intros q Hq. apply filter_In in Hq as [Hq _]. rewrite In_to_set in Hq.
  apply He. now left.
Qed.

Lemma glyph_glyph_step_grouped (st st' : state) (p : pair) :
  in_context K G R gl gr st ->
  glyph_glyph_step st p = Ok st' ->
  exceptions_grouped gl gr st -> exceptions_grouped gl gr st'.
Proof.
  intros (_ & _ & _ & Hgl & Hgr). destruct p as [a b].
  unfold glyph_glyph_step. cbn [fst snd]. rewrite Hgl, Hgr. intros H Hx.
  destruct (getitem (kerning st) (a, b)) as [v|]; [|discriminate].
  cbn [bind attr] in H.
  destruct (mem a gl || mem b gr) eqn:Ecase; cbn [bind] in H.
  - injection H as <-. apply orb_true_iff in Ecase.
    now apply exceptions_grouped_put.
  - destruct (negb _ && negb _); cbn [bind] in H; injection H as <-;
      [now apply exceptions_grouped_other|exact Hx].
Qed.
End Grouped.

Section GroupedRun.
Import KernProcessor.

Lemma getAllGroupedGlyphs_cover (st : state) (l r : list string) :
  _getAllGroupedGlyphs st left = Ok l ->
  _getAllGroupedGlyphs st right = Ok r ->
  grouped_cover (kerning st) (groups st) l r.
Proof.
  unfold _getAllGroupedGlyphs.
  change (for_each _ (dict_keys (kerning st)) ([], []))
    with (for_each (grouped_body st) (dict_keys (kerning st)) ([], [])).
  destruct (for_each (grouped_body st) _ ([], [])) as [[L R]|] eqn:Eloop;
    [|discriminate].
  cbn [bind]. intros [= <-] [= <-].
  destruct (grouped_loop st _ _ Eloop) as [HL HR]. cbn [fst snd] in HL, HR.
  split; intros p glyphs x Hp Hgroup Hget Hx; apply mem_In;
    unfold sorted_names; rewrite In_sorted, In_to_set.
  - apply HL. right. exists p, glyphs. auto.
  - apply HR. right. exists p, glyphs. auto.
Qed.

(** [__init__], up to the call of [_findExceptions], when groups are
    used. *)
Lemma init_returned_cover (groups : dict string (list string))
      (kerning : dict pair value) (option_dissolve : bool) (st' : state) :
  __init__ groups kerning option_dissolve = Ok st' ->
  exists st0 st1,
    wf_dict (KernProcessor.kerning st0) /\
    (forall d c, bucket st0 d c = []) /\
    (grouped_left st0 = None \/
     exists gl gr,
       grouped_left st0 = Some gl /\ grouped_right st0 = Some gr /\
       grouped_cover (KernProcessor.kerning st0) (KernProcessor.groups st0)
                     gl gr) /\
    _findExceptions st0 = Ok st1 /\
    (st' = st1 \/ exists o, st' = set_group_order o st1).
Proof.
  unfold __init__. intros H.
  destruct (sanitize_kerning groups kerning) as [sk|]; [|discriminate].
  cbn [bind] in H.
  destruct (_get_used_groups sk) as [names|]; [|discriminate].
  cbn [bind] in H.
  destruct (used_groups_of groups names) as [used|]; [|discriminate].
  cbn [bind] in H.
  match type of H with
  | bind ?m _ = _ => destruct m as [st0|] eqn:E0; [|discriminate]
  end.
  cbn [bind] in H.
  destruct (_findExceptions st0) as [st1|] eqn:Efind; [|discriminate].
  cbn [bind] in H.
  exists st0, st1.
  assert (Hlast : st' = st1 \/ exists o, st' = set_group_order o st1).
  { destruct (KernProcessor.kerning st1); injection H as <-; eauto. }
  destruct used as [|u used].
  - injection E0 as <-.
    split; [apply remap_kerning_wf|]. split; [reflexivity|].
    split; [now left|]. split; assumption.
  - match type of E0 with
    | bind (_getAllGroupedGlyphs ?s left) _ = _ =>
        destruct (_getAllGroupedGlyphs s left) as [l|] eqn:El;
        [|discriminate];
        cbn [bind] in E0;
        destruct (_getAllGroupedGlyphs s right) as [r|] eqn:Er;
        [|discriminate];
        cbn [bind] in E0; injection E0 as <-
    end.
    pose proof (getAllGroupedGlyphs_cover _ El Er) as Hcover.
    split.
    { destruct option_dissolve;
        [destruct (_dissolveSingleGroups _ _)|]; apply remap_kerning_wf. }
    split.
    { intros d c. destruct option_dissolve;
        [destruct (_dissolveSingleGroups _ _)|]; reflexivity. }
    split; [|split; assumption].
    right. exists l, r. split; [reflexivity|]. split; [reflexivity|].
    exact Hcover.
Qed.

Lemma findExceptions_grouped (st st' : state) (gl gr : list string) :
  wf_dict (kerning st) ->
  grouped_left st = Some gl -> grouped_right st = Some gr ->
  (forall d c, bucket st d c = []) ->
  grouped_cover (kerning st) (groups st) gl gr ->
  _findExceptions st = Ok st' ->
  grouped_left st' = Some gl /\ grouped_right st' = Some gr /\
  grouped_cover (kerning st') (groups st') gl gr /\
  exceptions_grouped gl gr st'.
Proof.
  intros Hwf Hgl Hgr Hempty Hcover Hfind.
  destruct (findExceptions_passes st Hfind)
    as (st1 & g2g & g2grp & g2i & st2 & st3 & e & r & st4 &
        Hstrip & Eg2g & Eg2grp & Eg2i & E2 & E3 & E4 & E5).
  destruct (strip_pairs_spec st Hwf)
    as (st1' & Hstrip' & Hk1 & (Hc1 & Hc2 & Hc3 & Hc4) & _).
  rewrite Hstrip in Hstrip'. injection Hstrip' as <-.
  set (K := kerning st1) in *.
  set (G := groups st) in *. set (R := reference_groups st) in *.
  assert (Hctx1 : in_context K G R gl gr st1).
  { repeat split; congruence. }
  assert (Hsub : forall p, In p (dict_keys K) -> In p (dict_keys (kerning st))).
  { intros p Hp. rewrite Hk1 in Hp. unfold dict_keys in *.
    apply in_map_iff in Hp as (pv & <- & Hin).
    apply filter_In in Hin as [Hin _]. now apply in_map. }
  assert (HcoverK : grouped_cover K G gl gr).
  { destruct Hcover as [HL HR]. split; intros p glyphs x Hp; [apply HL|apply HR];
      now apply Hsub. }
  assert (Hx1 : exceptions_grouped gl gr st1).
  { intros d q Hq.
    rewrite (strip_pairs_other_buckets st Hstrip), Hempty in Hq
      by reflexivity.
    destruct Hq. }
  assert (H2 : in_context K G R gl gr st2 /\ exceptions_grouped gl gr st2).
  { refine (@for_each_returned
              _ _ (glyph_group_step (sorted_pairs g2g))
              (fun s => in_context K G R gl gr s /\
                        exceptions_grouped gl gr s)
              (sorted_pairs g2grp) _ st1 st2 (conj Hctx1 Hx1) E2).
    intros s p s' Hp [Hctx Hx] Hstep.
    apply (sorted_filter_r_In _ _ p Eg2grp) in Hp as [Hp Hshape].
    apply is_glyph_2_group_true in Hshape as [_ Hr].
    split.
    - eapply in_context_keeps; [exact Hctx|].
      eapply glyph_group_step_keeps, Hstep.
    - eapply (@glyph_group_step_grouped K G R gl gr HcoverK); eassumption. }
  destruct H2 as [Hctx2 Hx2].
  assert (H3 : in_context K G R gl gr st3 /\
               (exceptions_grouped gl gr st3 /\
                forall q, In q e \/ In q r -> mem (fst q) gl = true)).
  { unfold group_item_pass in E3.
    refine (@for_each_returned
              _ _ group_item_step
              (fun acc : state * list pair * list pair =>
                 in_context K G R gl gr (fst (fst acc)) /\
                 (exceptions_grouped gl gr (fst (fst acc)) /\
                  forall q, In q (snd (fst acc)) \/ In q (snd acc) ->
                            mem (fst q) gl = true))
              (sorted_pairs g2i) _ (st2, [], []) (st3, e, r) _ E3).
    - intros [[s0 e0] r0] p [[s1 e1] r1] Hp [Hctx Hx] Hstep.
      cbn [fst snd] in *.
      apply (sorted_filter_r_In _ _ p Eg2i) in Hp as [Hp Hshape].
      unfold is_group_2_item in Hshape.
      split.
      + eapply in_context_keeps; [exact Hctx|].
        apply group_item_step_keeps in Hstep. exact Hstep.
      + eapply (@group_item_step_grouped K G R gl gr HcoverK); eassumption.
    - cbn [fst snd]. split; [exact Hctx2|]. split; [exact Hx2|].
      intros q [[]|[]]. }
  destruct H3 as (Hctx3 & Hx3 & He).
  assert (Hx4 : exceptions_grouped gl gr st4).
  { eapply exception_pairs_pass_grouped; eassumption. }
  assert (Hctx4 : in_context K G R gl gr st4).
  { eapply in_context_keeps; [exact Hctx3|].
    eapply exception_pairs_pass_keeps, E4. }
  assert (H5 : in_context K G R gl gr st' /\ exceptions_grouped gl gr st').
  { refine (@for_each_returned
              _ _ glyph_glyph_step
              (fun s => in_context K G R gl gr s /\
                        exceptions_grouped gl gr s)
              (sorted_pairs g2g) _ st4 st' (conj Hctx4 Hx4) E5).
    intros s p s' Hp [Hctx Hx] Hstep. split.
    - eapply in_context_keeps; [exact Hctx|].
      eapply glyph_glyph_step_keeps, Hstep.
    - eapply (@glyph_glyph_step_grouped K G R gl gr); eassumption. }
  destruct H5 as [(Hk5 & Hg5 & _ & Hgl5 & Hgr5) Hx5].
  split; [exact Hgl5|]. split; [exact Hgr5|]. split; [|exact Hx5].
  rewrite Hk5, Hg5. exact HcoverK.
Qed.
End GroupedRun.

(** X27: in the object a run of [KernProcessor] returns, with its lists
    [grouped_left] and [grouped_right]: the lists hold the glyphs of every
    group that stands on the left, or on the right, of a pair left in the
    kerning; and every pair stored in [glyph_glyph_exceptions] or
    [rtl_glyph_glyph_exceptions] has its left glyph in [grouped_left] or
    its right glyph in [grouped_right].  So a pair for which the last loop
    finds neither glyph grouped is in neither dictionary of exceptions. *)
Theorem exceptions_have_grouped_glyph
        (groups : dict string (list string)) (kerning : dict pair value)
        (option_dissolve : bool) (st : KernProcessor.state)
        (gl gr : list string) :
  KernProcessor.__init__ groups kerning option_dissolve = Ok st ->
  KernProcessor.grouped_left st = Some gl ->
  KernProcessor.grouped_right st = Some gr ->
  KernProcessor.grouped_cover (KernProcessor.kerning st)
                              (KernProcessor.groups st) gl gr /\
  forall d q,
    In q (dict_keys (KernProcessor.bucket
                       st d KernProcessor.glyph_glyph_exceptions)) ->
    mem (fst q) gl = true \/ mem (snd q) gr = true.
Proof.
  intros Hinit Hgl Hgr.
  destruct (init_returned_cover _ _ _ Hinit)
    as (st0 & st1 & Hwf & Hempty & Hgrouped & Hfind & Hlast).
  destruct (evolves_keeps (findExceptions_evolves st0 Hfind))
    as (_ & (_ & _ & Hl' & Hr') & _).
  assert (Hgl1 : KernProcessor.grouped_left st1 = Some gl).
  { destruct Hlast as [->|(o & ->)]; exact Hgl. }
  assert (Hgr1 : KernProcessor.grouped_right st1 = Some gr).
  { destruct Hlast as [->|(o & ->)]; exact Hgr. }
  destruct Hgrouped as [Hnone|(gl0 & gr0 & Hgl0 & Hgr0 & Hcover)];
    [congruence|].
  assert (gl0 = gl) by congruence. assert (gr0 = gr) by congruence.
  subst gl0 gr0.
  destruct (@findExceptions_grouped st0 st1 gl gr Hwf Hgl0 Hgr0 Hempty
                                    Hcover Hfind)
    as (_ & _ & Hc & Hx).
  destruct Hlast as [->|(o & ->)]; split; assumption.
Qed.

Lemma exceptions_have_grouped_glyph_witness :
  exists st,
    KernProcessor.__init__
      [("@MMK_R_B_RTL", ["b"])]
      [(("x", "@MMK_R_B_RTL"), VInt 5); (("x", "b"), VInt 3)] false
    = Ok st /\
    (mem "x" (@nil string) = true \/ mem "b" ["b"] = true).
Proof.
  destruct (KernProcessor.__init__
              [("@MMK_R_B_RTL", ["b"])]
              [(("x", "@MMK_R_B_RTL"), VInt 5); (("x", "b"), VInt 3)] false)
    as [st|] eqn:Hinit; [|vm_compute in Hinit; discriminate].
  exists st. split; [reflexivity|].
  refine (proj2 (@exceptions_have_grouped_glyph _ _ _ st [] ["b"] Hinit _ _)
                KernProcessor.LTR ("x", "b") _);
    vm_compute in Hinit; injection Hinit as <-; [reflexivity..|now left].
Defined.

(* ------------------------------------------------------------------ *)
(** ** The glyph pairs under a glyph-to-group pair, in the object returned *)

(** A loop whose steps all lie in a preorder runs its body on every element
    of the list: from a state that the first state is related to, and to a
    state that is related to the last. *)
Lemma for_each_In {A S : Type} (body : S -> A -> result S)
      (R : S -> S -> Prop) (l : list A) :
  (forall s, R s s) -> (forall a b c, R a b -> R b c -> R a c) ->
  (forall s a s', body s a = Ok s' -> R s s') ->
  forall s s' a,
    for_each body l s = Ok s' -> In a l ->
    exists s1 s2, R s s1 /\ body s1 a = Ok s2 /\ R s2 s'.
Proof.
  intros Hrefl Htrans Hstep.
  induction l as [|b l IH]; intros s s' a Hrun Hin; [destruct Hin|].
  cbn [for_each] in Hrun.
  destruct (body s b) as [s0|] eqn:Eb; cbn [bind] in Hrun; [|discriminate].
  destruct Hin as [->|Hin].
  - exists s, s0. split; [apply Hrefl|]. split; [exact Eb|].
    exact (@for_each_preserves _ _ body R l Hrefl Htrans Hstep s0 s' Hrun).
  - destruct (IH s0 s' a Hrun Hin) as (s1 & s2 & H1 & H2 & H3).
    exists s1, s2. split; [|split; assumption].
    apply Htrans with s0; [eapply Hstep, Eb|exact H1].
Qed.

Section MemberRun.
Import KernProcessor.

(** What every step of the passes after the first loop does to the
    object. *)
Let later (a b : state) : Prop := evolves a b /\ keeps_inputs a b.

Lemma later_refl (s : state) : later s s.
Proof. split; [apply evolves_refl|apply keeps_refl]. Qed.

Lemma later_trans (a b c : state) : later a b -> later b c -> later a c.
Proof.
  intros [E1 K1] [E2 K2]. split.
  - eapply evolves_trans; eassumption.
  - eapply keeps_trans; eassumption.
Qed.

(** The last loop stores every glyph pair with a glyph that is grouped on
    its side as an exception, on the side of the RTL test of the pair. *)
Lemma glyph_glyph_pass_files (g2g : list pair) (st st' : state)
      (gl gr : list string) (q : pair) :
  grouped_left st = Some gl -> grouped_right st = Some gr ->
  glyph_glyph_pass g2g st = Ok st' -> In q g2g ->
  mem (fst q) gl || mem (snd q) gr = true ->
  In q (dict_keys (bucket st' (dir_of (_isRTL (reference_groups st) q))
                          glyph_glyph_exceptions)).
Proof.
  intros Hgl Hgr Hrun Hq Hm. unfold glyph_glyph_pass in Hrun.
  assert (Hlater : forall s a s0, glyph_glyph_step s a = Ok s0 -> later s s0).
  { intros s a s0 Hs. split;
      [eapply glyph_glyph_step_evolves|eapply glyph_glyph_step_keeps];
      exact Hs. }
  destruct (@for_each_In _ _ glyph_glyph_step later g2g
                         later_refl later_trans Hlater st st' q Hrun Hq)
    as (s1 & s2 & [_ Hk1] & Hstep & [He2 _]).
  destruct Hk1 as (_ & (_ & HR & HL & HRr) & _).
  apply (proj1 (proj2 (proj2 (proj2 (evolves_keeps He2))))).
  destruct q as [a b]. cbn [fst snd] in *.
  unfold glyph_glyph_step in Hstep. cbn [fst snd] in Hstep.
  destruct (getitem (kerning s1) (a, b)) as [v|] eqn:Ev;
    cbn [bind] in Hstep; [|discriminate].
  rewrite HL, Hgl, HRr, Hgr in Hstep. cbn [attr bind] in Hstep.
  rewrite Hm in Hstep. cbn [bind] in Hstep. injection Hstep as <-.
  rewrite HR.
  change (bucket (append_processed (a, b) ?s)) with (bucket s).
  rewrite bucket_put_same, dict_keys_set.
  match goal with
  | |- context [dict_mem ?d ?k] => destruct (dict_mem d k) eqn:Ed
  end.
  - now apply dict_mem_In.
  - apply in_or_app. right. now left.
Qed.

(** The loop over the glyph-to-group pairs stores the glyph pair of a glyph
    that is not grouped on the left and a member of the group as an
    exception, on the side of the RTL test of the glyph-to-group pair. *)
Lemma glyph_group_pass_files (g2g g2grp : list pair) (st st' : state)
      (gl groupList : list string) (glyph group member : string) :
  grouped_left st = Some gl ->
  (forall q, In q g2g -> dict_get (kerning st) q <> None) ->
  glyph_group_pass g2g g2grp st = Ok st' -> In (glyph, group) g2grp ->
  mem glyph gl = false ->
  dict_get (groups st) group = Some groupList -> In member groupList ->
  In (glyph, member) g2g ->
  In (glyph, member)
     (dict_keys (bucket st'
                        (dir_of (_isRTL (reference_groups st) (glyph, group)))
                        glyph_glyph_exceptions)).
Proof.
  intros Hgl Hkeys Hrun Hp Hm Hg Hmember Hq. unfold glyph_group_pass in Hrun.
  assert (Hlater : forall s a s0,
             glyph_group_step g2g s a = Ok s0 -> later s s0).
  { intros s a s0 Hs. split;
      [eapply glyph_group_step_evolves|eapply glyph_group_step_keeps];
      exact Hs. }
  destruct (@for_each_In _ _ (glyph_group_step g2g) later g2grp
                         later_refl later_trans Hlater st st' (glyph, group)
                         Hrun Hp)
    as (s1 & s2 & [_ Hk1] & Hstep & [He2 _]).
  destruct Hk1 as (HK & (HG & HR & HL & _) & _).
  apply (proj1 (proj2 (proj2 (proj2 (evolves_keeps He2))))).
  assert (Hv : exists v, dict_get (kerning s1) (glyph, group) = Some v).
  { unfold glyph_group_step in Hstep. cbn [fst snd] in Hstep.
    destruct (getitem (kerning s1) (glyph, group)) as [v|] eqn:Ev;
      [|discriminate Hstep].
    exists v. now apply getitem_Ok. }
  destruct Hv as [v Hv].
  destruct (@glyph_group_step_members g2g s1 glyph group v groupList gl)
    as (s2' & Hstep' & Hcheck & _).
  { exact Hv. }
  { now rewrite HG. }
  { now rewrite HL. }
  { intros q Hin. rewrite HK. now apply Hkeys. }
  rewrite Hstep in Hstep'. injection Hstep' as <-.
  specialize (Hcheck Hm member Hmember Hq). rewrite HR in Hcheck.
  destruct (dict_get (kerning s1) (glyph, member)) as [w|] eqn:Ew.
  - eapply dict_get_Some_key, Hcheck.
  - rewrite HK in Ew. now apply Hkeys in Hq.
Qed.

(** Where no list of grouped glyphs was set, the loop over the
    glyph-to-group pairs returns only when there is no such pair. *)
Lemma glyph_group_pass_unset (g2g g2grp : list pair) (st st' : state)
      (p : pair) :
  grouped_left st = None ->
  glyph_group_pass g2g g2grp st = Ok st' -> ~ In p g2grp.
Proof.
  intros Hgl Hrun Hp. unfold glyph_group_pass in Hrun.
  assert (Hlater : forall s a s0,
             glyph_group_step g2g s a = Ok s0 -> later s s0).
  { intros s a s0 Hs. split;
      [eapply glyph_group_step_evolves|eapply glyph_group_step_keeps];
      exact Hs. }
  destruct (@for_each_In _ _ (glyph_group_step g2g) later g2grp
                         later_refl later_trans Hlater st st' p Hrun Hp)
    as (s1 & s2 & [_ Hk1] & Hstep & _).
  destruct Hk1 as (_ & (_ & _ & HL & _) & _).
  unfold glyph_group_step in Hstep.
  destruct (getitem (kerning s1) _); cbn [bind] in Hstep; [|discriminate].
  destruct (getitem (groups s1) _); cbn [bind] in Hstep; [|discriminate].
  rewrite HL, Hgl in Hstep. discriminate Hstep.
Qed.

(** The step of a glyph-to-group pair whose glyph is grouped on the left
    writes to no dictionary of glyph-to-glyph exceptions. *)
Lemma glyph_group_step_grouped_left (g2g : list pair) (s s' : state)
      (gl : list string) (p : pair) :
  grouped_left s = Some gl -> mem (fst p) gl = true ->
  glyph_group_step g2g s p = Ok s' ->
  forall d, bucket s' d glyph_glyph_exceptions
            = bucket s d glyph_glyph_exceptions.
Proof.
  intros Hgl Hm Hstep d. unfold glyph_group_step in Hstep.
  destruct (getitem (kerning s) _); cbn [bind] in Hstep; [|discriminate].
  destruct (getitem (groups s) _); cbn [bind] in Hstep; [|discriminate].
  rewrite Hgl in Hstep. cbn [attr bind] in Hstep. rewrite Hm in Hstep.
  injection Hstep as <-.
  change (bucket (append_processed ?q ?s0)) with (bucket s0).
  now apply bucket_put_other.
Qed.

(** In the object [_findExceptions] leaves, the glyph pair of the glyph of
    a glyph-to-group pair and a member of the group is an exception on the
    side of its own RTL test, and when the glyph is not grouped on the
    left also on the side of the RTL test of the glyph-to-group pair. *)
Lemma findExceptions_members (st st' : state) (gl gr groupList : list string)
      (glyph group member : string) (w : value) :
  wf_dict (kerning st) ->
  grouped_left st = Some gl -> grouped_right st = Some gr ->
  (forall d c, bucket st d c = []) ->
  grouped_cover (kerning st) (groups st) gl gr ->
  _findExceptions st = Ok st' ->
  In (glyph, group) (dict_keys (kerning st')) ->
  _isGroup glyph = Ok false -> _isGroup group = Ok true ->
  dict_get (groups st') group = Some groupList -> In member groupList ->
  dict_get (kerning st') (glyph, member) = Some w ->
  _isGroup member = Ok false ->
  dict_get (bucket st' (dir_of (_isRTL (reference_groups st')
                                       (glyph, member)))
                   glyph_glyph_exceptions) (glyph, member) = Some w /\
  (mem glyph gl = false ->
   dict_get (bucket st' (dir_of (_isRTL (reference_groups st')
                                        (glyph, group)))
                    glyph_glyph_exceptions) (glyph, member) = Some w).
Proof.
  intros Hwf Hgl Hgr Hempty Hcover Hfind Hp Hglyph Hgroup Hg Hmember Hw Hm.
  destruct (@findExceptions_grouped st st' gl gr Hwf Hgl Hgr Hempty Hcover
                                    Hfind)
    as (Hgl' & Hgr' & [_ Hright] & _).
  destruct (@findExceptions_classified gl gr st st' Hwf Hgl Hgr Hempty Hfind)
    as (_ & _ & Hok).
  assert (Hstored : forall d,
             In (glyph, member)
                (dict_keys (bucket st' d glyph_glyph_exceptions)) ->
             dict_get (bucket st' d glyph_glyph_exceptions) (glyph, member)
             = Some w).
  { intros d Hin. apply In_key_get in Hin as [w' Hw'].
    pose proof (Hok _ _ _ _ Hw') as (_ & _ & Hk).
    pose proof (eq_trans (eq_sym Hk) Hw) as E. injection E as ->.
    exact Hw'. }
  assert (Hmr : mem member gr = true).
  { exact (Hright (glyph, group) groupList member Hp Hgroup Hg Hmember). }
  destruct (findExceptions_passes st Hfind)
    as (st1 & g2g & g2grp & g2i & st2 & st3 & e & r & st4 &
        Hstrip & Eg2g & Eg2grp & _ & E2 & E3 & E4 & E5).
  pose proof (glyph_group_pass_keeps _ _ _ E2) as K2.
  pose proof (group_item_pass_keeps _ _ E3) as K3. cbn [fst] in K3.
  pose proof (exception_pairs_pass_keeps _ _ _ _ E4) as K4.
  pose proof (glyph_glyph_pass_keeps _ _ E5) as K5.
  pose proof (keeps_trans K2 (keeps_trans K3 K4)) as K24.
  pose proof (keeps_trans K24 K5) as K25.
  destruct K5 as (_ & (_ & HR5 & HL5 & HRr5) & _).
  destruct K25 as (HK & (HG & HR & HL & _) & _).
  assert (Hq : In (glyph, member) (sorted_pairs g2g)).
  { apply (sorted_filter_r_In _ _ (glyph, member) Eg2g). split.
    - rewrite <- HK. eapply dict_get_Some_key, Hw.
    - apply is_glyph_2_glyph_true. auto. }
  split.
  - apply Hstored. rewrite HR5.
    apply (@glyph_glyph_pass_files (sorted_pairs g2g) st4 st' gl gr);
      try assumption; try congruence.
    cbn [fst snd]. rewrite Hmr. apply orb_true_r.
  - intros Hml. apply Hstored. rewrite HR.
    assert (He : evolves st2 st').
    { apply (for_each_preserves
               group_item_step
               (fun a b : state * list pair * list pair =>
                  evolves (fst (fst a)) (fst (fst b)))) in E3;
        [|intros s; apply evolves_refl|intros a b c; apply evolves_trans
         |intros s a s'; apply group_item_step_evolves].
      apply exception_pairs_pass_evolves in E4.
      apply (for_each_preserves glyph_glyph_step evolves) in E5;
        [|intros s; apply evolves_refl|apply evolves_trans
         |intros s a s'; apply glyph_glyph_step_evolves].
      cbn [fst] in E3.
      eapply evolves_trans; [exact E3|].
      eapply evolves_trans; eassumption. }
    apply (proj1 (proj2 (proj2 (proj2 (evolves_keeps He))))).
    apply (@glyph_group_pass_files (sorted_pairs g2g) (sorted_pairs g2grp)
                                   st1 st2 gl groupList).
    + congruence.
    + intros q Hin.
      apply (sorted_filter_r_In _ _ q Eg2g) in Hin as [Hin _].
      apply In_key_get in Hin as [v Hv]. congruence.
    + exact E2.
    + apply (sorted_filter_r_In _ _ (glyph, group) Eg2grp). split.
      * now rewrite <- HK.
      * apply is_glyph_2_group_true. auto.
    + exact Hml.
    + now rewrite <- HG.
    + exact Hmember.
    + exact Hq.
Qed.

(** Without lists of grouped glyphs, the object [_findExceptions] leaves
    has no glyph-to-group pair in its kerning. *)
Lemma findExceptions_unset (st st' : state) (p : pair) :
  grouped_left st = None -> wf_dict (kerning st) ->
  _findExceptions st = Ok st' ->
  In p (dict_keys (kerning st')) ->
  _isGroup (fst p) = Ok false -> _isGroup (snd p) = Ok true -> False.
Proof.
  intros Hgl Hwf Hfind Hp Hl Hr.
  destruct (findExceptions_passes st Hfind)
    as (st1 & g2g & g2grp & g2i & st2 & st3 & e & r & st4 &
        Hstrip & _ & Eg2grp & _ & E2 & E3 & E4 & E5).
  destruct (strip_pairs_spec st Hwf)
    as (st1' & Hstrip' & _ & (_ & _ & HL1 & _) & _).
  rewrite Hstrip in Hstrip'. injection Hstrip' as <-.
  pose proof (glyph_group_pass_keeps _ _ _ E2) as K2.
  pose proof (group_item_pass_keeps _ _ E3) as K3. cbn [fst] in K3.
  pose proof (exception_pairs_pass_keeps _ _ _ _ E4) as K4.
  pose proof (glyph_glyph_pass_keeps _ _ E5) as K5.
  pose proof (keeps_trans (keeps_trans K2 (keeps_trans K3 K4)) K5)
    as (HK & _).
  apply (@glyph_group_pass_unset _ _ st1 st2 p) in E2; [|congruence].
  apply E2. apply (sorted_filter_r_In _ _ p Eg2grp). split.
  - now rewrite <- HK.
  - apply is_glyph_2_group_true. auto.
Qed.
End MemberRun.

(** C5, amended: for every glyph-to-group pair (glyph, group) of the kerning
    of the object that [KernProcessor] returns and every member of the
    group, if the pair (glyph, member) is among the glyph-to-glyph pairs of
    that kerning, the object holds that pair with its own value in
    [glyph_glyph_exceptions] or in the RTL sibling: on the side of the RTL
    test of the pair (glyph, member) itself, whether or not the glyph is
    grouped on the left; and, when the glyph is not grouped on the left,
    also on the side of the RTL test of the glyph-to-group pair, where the
    check of the members has stored it.  That check does not run for every
    glyph-to-group pair: the step of a pair whose glyph is grouped on the
    left writes to neither dictionary. *)
Theorem member_override_check
        (groups : dict string (list string)) (kerning : dict pair value)
        (option_dissolve : bool) (st : KernProcessor.state)
        (glyph group member : string) (groupList : list string) :
  KernProcessor.__init__ groups kerning option_dissolve = Ok st ->
  In (glyph, group) (dict_keys (KernProcessor.kerning st)) ->
  KernProcessor._isGroup glyph = Ok false ->
  KernProcessor._isGroup group = Ok true ->
  dict_get (KernProcessor.groups st) group = Some groupList ->
  In member groupList ->
  In (glyph, member) (dict_keys (KernProcessor.kerning st)) ->
  KernProcessor._isGroup member = Ok false ->
  exists gl w,
    KernProcessor.grouped_left st = Some gl /\
    dict_get (KernProcessor.kerning st) (glyph, member) = Some w /\
    dict_get
      (KernProcessor.bucket
         st
         (KernProcessor.dir_of
            (KernProcessor._isRTL (KernProcessor.reference_groups st)
                                  (glyph, member)))
         KernProcessor.glyph_glyph_exceptions)
      (glyph, member) = Some w /\
    (mem glyph gl = false ->
     dict_get
       (KernProcessor.bucket
          st
          (KernProcessor.dir_of
             (KernProcessor._isRTL (KernProcessor.reference_groups st)
                                   (glyph, group)))
          KernProcessor.glyph_glyph_exceptions)
       (glyph, member) = Some w) /\
    (forall glyph_2_glyph s s',
        KernProcessor.grouped_left s = Some gl -> mem glyph gl = true ->
        KernProcessor.glyph_group_step glyph_2_glyph s (glyph, group)
        = Ok s' ->
        forall d,
          KernProcessor.bucket s' d KernProcessor.glyph_glyph_exceptions
          = KernProcessor.bucket s d KernProcessor.glyph_glyph_exceptions).
Proof.
  intros Hinit Hp Hglyph Hgroup Hg Hmember Hq Hm.
  destruct (init_returned_cover _ _ _ Hinit)
    as (st0 & st1 & Hwf & Hempty & Hgrouped & Hfind & Hst).
  assert (Hsame : KernProcessor.kerning st = KernProcessor.kerning st1 /\
                  KernProcessor.groups st = KernProcessor.groups st1 /\
                  KernProcessor.reference_groups st
                  = KernProcessor.reference_groups st1 /\
                  KernProcessor.grouped_left st
                  = KernProcessor.grouped_left st1 /\
                  KernProcessor.bucket st = KernProcessor.bucket st1).
  { destruct Hst as [->|(o & ->)]; repeat split. }
  destruct Hsame as (HK & HG & HR & HL & HB).
  rewrite HK in Hp, Hq. rewrite HG in Hg.
  rewrite HK, HR, HL, HB.
  destruct Hgrouped as [Hnone|(gl & gr & Hgl & Hgr & Hcover)].
  { destruct (@findExceptions_unset st0 st1 (glyph, group) Hnone Hwf Hfind
                                    Hp Hglyph Hgroup). }
  apply In_key_get in Hq as [w Hw].
  destruct (@findExceptions_members
              st0 st1 gl gr groupList glyph group member w
              Hwf Hgl Hgr Hempty Hcover Hfind Hp Hglyph Hgroup Hg Hmember
              Hw Hm) as [Hown Hcheck].
  destruct (@findExceptions_grouped st0 st1 gl gr Hwf Hgl Hgr Hempty Hcover
                                    Hfind)
    as (Hgl' & _).
  exists gl, w. split; [exact Hgl'|]. split; [exact Hw|].
  split; [exact Hown|]. split; [exact Hcheck|].
  intros g2g s s' Hs Hml Hstep.
  exact (@glyph_group_step_grouped_left g2g s s' gl (glyph, group)
                                        Hs Hml Hstep).
Qed.

Lemma member_override_check_witness :
  (exists st,
      KernProcessor.__init__
        [("@MMK_L_A", ["x"]); ("@MMK_R_B", ["b"])]
        [(("x", "@MMK_R_B"), VInt 5); (("x", "b"), VInt 7);
         (("@MMK_L_A", "q"), VInt 3)] false
      = Ok st /\
      KernProcessor.grouped_left st = Some ["x"] /\
      dict_get (KernProcessor.bucket st KernProcessor.LTR
                                     KernProcessor.glyph_glyph_exceptions)
               ("x", "b") = Some (VInt 7)) /\
  (exists st,
      KernProcessor.__init__
        [("@MMK_R_B_RTL", ["b"])]
        [(("x", "@MMK_R_B_RTL"), VInt 5); (("x", "b"), VInt 3)] false
      = Ok st /\
      KernProcessor.grouped_left st = Some [] /\
      dict_get (KernProcessor.bucket st KernProcessor.LTR
                                     KernProcessor.glyph_glyph_exceptions)
               ("x", "b") = Some (VInt 3) /\
      dict_get (KernProcessor.bucket st KernProcessor.RTL
                                     KernProcessor.glyph_glyph_exceptions)
               ("x", "b") = Some (VInt 3)).
Proof.
  split.
  - destruct (KernProcessor.__init__
                [("@MMK_L_A", ["x"]); ("@MMK_R_B", ["b"])]
                [(("x", "@MMK_R_B"), VInt 5); (("x", "b"), VInt 7);
                 (("@MMK_L_A", "q"), VInt 3)] false) as [st|] eqn:Hinit;
      [|vm_compute in Hinit; discriminate].
    exists st. split; [reflexivity|].
    destruct (@member_override_check
                _ _ _ st "x" "@MMK_R_B" "b" ["b"] Hinit)
      as (gl & w & Hgl & Hw & Hown & _);
      vm_compute in Hinit; injection Hinit as <-.
    + now left.
    + reflexivity.
    + reflexivity.
    + reflexivity.
    + now left.
    + right. now left.
    + reflexivity.
    + assert (Ew : w = VInt 7) by (vm_compute in Hw; congruence).
      subst w. split; [reflexivity|exact Hown].
  - destruct (KernProcessor.__init__
                [("@MMK_R_B_RTL", ["b"])]
                [(("x", "@MMK_R_B_RTL"), VInt 5); (("x", "b"), VInt 3)]
                false) as [st|] eqn:Hinit;
      [|vm_compute in Hinit; discriminate].
    exists st. split; [reflexivity|].
    destruct (@member_override_check
                _ _ _ st "x" "@MMK_R_B_RTL" "b" ["b"] Hinit)
      as (gl & w & Hgl & Hw & Hown & Hcheck & _);
      vm_compute in Hinit; injection Hinit as <-.
    + now left.
    + reflexivity.
    + reflexivity.
    + reflexivity.
    + now left.
    + right. now left.
    + reflexivity.
    + assert (Ew : w = VInt 3) by (vm_compute in Hw; congruence).
      assert (Eg : gl = []) by (vm_compute in Hgl; congruence).
      subst w gl. split; [reflexivity|].
      split; [exact Hown|exact (Hcheck eq_refl)].
Defined.

(* ------------------------------------------------------------------ *)
(** ** The processed pairs *)

Section Processed.
Import KernProcessor.

Lemma accounted_evolves (st st' : state) (q : pair) :
  evolves st st' -> accounted st q -> accounted st' q.
Proof.
  intros Hev. destruct (evolves_keeps Hev) as (_ & _ & _ & Hk & Hp & Hu).
  intros [H|[H|H]]; [left|right; left|right; right]; auto.
Qed.

Lemma placed_evolves (st st' : state) (q : pair) :
  evolves st st' -> placed st q -> placed st' q.
Proof.
  intros Hev (d & c & Hc & Hn & Hin).
  destruct (evolves_keeps Hev) as (_ & _ & _ & Hk & _).
  exists d, c. auto.
Qed.

Lemma placed_put (d : direction) (c : category) (p : pair) (v : value)
      (st : state) :
  c <> predefined_exceptions -> ~ (d = RTL /\ c = group_glyph_exceptions) ->
  placed (put d c p v st) p.
Proof.
  intros Hc Hn. exists d, c. split; [exact Hc|]. split; [exact Hn|].
  rewrite bucket_put_same, dict_keys_set.
  destruct (dict_mem (bucket st d c) p) eqn:E.
  - now apply dict_mem_In.
  - apply in_or_app. right. now left.
Qed.

Lemma processed_step_put (d : direction) (c : category) (p : pair)
      (v : value) (st st1 : state) :
  evolves st st1 -> pairs_processed st1 = pairs_processed st ->
  c <> predefined_exceptions -> ~ (d = RTL /\ c = group_glyph_exceptions) ->
  processed_step st (append_processed p (put d c p v st1)) p.
Proof.
  intros Hev Hpp Hc Hn. split; [|split].
  - now repeat constructor.
  - left. cbn. apply in_or_app. right. now left.
  - intros q Hq. cbn in Hq. rewrite Hpp in Hq.
    apply in_app_or in Hq as [Hq|[<-|[]]]; [now left|right].
    split; [reflexivity|]. exact (@placed_put d c p v st1 Hc Hn).
Qed.

Lemma processed_step_unprocessed (p : pair) (st st1 : state) :
  evolves st st1 -> pairs_processed st1 = pairs_processed st ->
  processed_step st (append_unprocessed p st1) p.
Proof.
  intros Hev Hpp. split; [|split].
  - now constructor.
  - right. left. cbn. apply in_or_app. right. now left.
  - intros q Hq. cbn in Hq. rewrite Hpp in Hq. now left.
Qed.

Lemma member_loop_processed (g2g : list pair) (r : bool) (glyph : string)
      (l : list string) (acc acc' : value * state) :
  for_each (member_step g2g r glyph) l acc = Ok acc' ->
  evolves (snd acc) (snd acc') /\
  pairs_processed (snd acc') = pairs_processed (snd acc).
Proof.
  apply (for_each_preserves
           (member_step g2g r glyph)
           (fun a b : value * state =>
              evolves (snd a) (snd b) /\
              pairs_processed (snd b) = pairs_processed (snd a))).
  - intros s. split; [constructor|reflexivity].
  - intros a b c [H1 H2] [H3 H4]. split; [eapply evolves_trans; eassumption|].
    congruence.
  - intros s m s' Hstep. split; [eapply member_step_evolves, Hstep|].
    unfold member_step in Hstep. destruct (mem _ g2g).
    + destruct (getitem _ _) as [v|]; [|discriminate].
      now injection Hstep as <-.
    + now injection Hstep as <-.
Qed.

Lemma glyph_group_step_processed (g2g : list pair) (st st' : state)
      (p : pair) :
  glyph_group_step g2g st p = Ok st' -> processed_step st st' p.
Proof.
  destruct p as [a b]. unfold glyph_group_step. cbn [fst snd]. intros H.
  destruct (getitem (kerning st) (a, b)) as [v0|]; [|discriminate].
  destruct (getitem (groups st) b) as [groupList|]; [|discriminate].
  destruct (attr (grouped_left st)) as [gl|]; [|discriminate].
  cbn [bind] in H. destruct (mem a gl).
  - injection H as <-.
    apply processed_step_put;
      [constructor|reflexivity|discriminate|intros [_ [=]]].
  - destruct (for_each _ groupList (v0, st)) as [[value' st1]|] eqn:E;
      [|discriminate].
    apply member_loop_processed in E as [Hev Hpp]. cbn [snd bind] in *.
    destruct (is_zero value'); injection H as <-.
    + now apply processed_step_unprocessed.
    + apply processed_step_put;
        [assumption|assumption|discriminate|intros [_ [=]]].
Qed.

Lemma group_item_step_processed (acc acc' : state * list pair * list pair)
      (p : pair) :
  group_item_step acc p = Ok acc' ->
  processed_step (fst (fst acc)) (fst (fst acc')) p.
Proof.
  destruct acc as [[st e] r]. destruct p as [a b].
  unfold group_item_step. cbn [fst snd]. intros H.
  destruct (getitem (kerning st) (a, b)) as [v|]; [|discriminate].
  destruct (getitem (groups st) a) as [lg|]; [|discriminate].
  destruct (_isGroup b) as [[|]|]; [| |discriminate]; cbn [bind] in H.
  - destruct (getitem (groups st) b) as [rg|]; [|discriminate].
    cbn [bind] in H.
    destruct (is_zero v); [|destruct (_isRTL _ _)];
      injection H as <-; cbn [fst];
      first [apply processed_step_unprocessed; [constructor|reflexivity]
            |apply processed_step_put;
             [constructor|reflexivity|discriminate|intros [_ [=]]]].
  - destruct (attr (grouped_right st)) as [gr|]; [|discriminate].
    cbn [bind] in H.
    destruct (mem b gr); [destruct (_isRTL _ _)|]; cbn [bind] in H.
    + injection H as <-; cbn [fst]. split; [|split].
      * repeat constructor.
      * right. right. rewrite bucket_put_same, dict_keys_set.
        destruct (dict_mem (bucket st RTL group_glyph_exceptions) (a, b))
          eqn:E; [now apply dict_mem_In|].
        apply in_or_app. right. now left.
      * intros q Hq. now left.
    + injection H as <-; cbn [fst].
      apply processed_step_put;
        [constructor|reflexivity|discriminate|intros [[=] _]].
    + destruct (is_zero v); [|destruct (_isRTL _ _)];
        injection H as <-; cbn [fst];
        first [apply processed_step_unprocessed; [constructor|reflexivity]
              |apply processed_step_put;
               [constructor|reflexivity|discriminate|intros [_ [=]]]].
Qed.

Lemma glyph_glyph_step_processed (st st' : state) (p : pair) :
  glyph_glyph_step st p = Ok st' -> processed_step st st' p.
Proof.
  destruct p as [a b]. unfold glyph_glyph_step. cbn [fst snd]. intros H.
  destruct (getitem (kerning st) (a, b)) as [v|]; [|discriminate].
  destruct (attr (grouped_left st)) as [gl|]; [|discriminate].
  destruct (attr (grouped_right st)) as [gr|]; [|discriminate].
  cbn [bind] in H.
  destruct (mem a gl || mem b gr); cbn [bind] in H.
  - injection H as <-.
    apply processed_step_put;
      [constructor|reflexivity|discriminate|intros [_ [=]]].
  - destruct (negb (dict_mem (bucket st LTR glyph_glyph_exceptions) (a, b))
              && negb (dict_mem (bucket st RTL glyph_glyph_exceptions)
                                (a, b))) eqn:Ecase;
      cbn [bind] in H; injection H as <-.
    + apply processed_step_put;
        [constructor|reflexivity|discriminate|intros [_ [=]]].
    + split; [repeat constructor|]. split.
      * left. cbn. apply in_or_app. right. now left.
      * intros q Hq. cbn in Hq.
        apply in_app_or in Hq as [Hq|[<-|[]]]; [now left|right].
        split; [reflexivity|].
        apply andb_false_iff in Ecase as [E|E];
          apply negb_false_iff, dict_mem_In in E;
          [exists LTR|exists RTL]; exists glyph_glyph_exceptions;
          (split; [discriminate|split; [intros [_ [=]]|exact E]]).
Qed.

(** A loop of such steps: every pair of its list is accounted for, and
    the processed pairs are stored if they were before. *)
Lemma for_each_processed {S : Type} (proj : S -> state)
      (body : S -> pair -> result S) (l : list pair) :
  (forall s a s', body s a = Ok s' -> processed_step (proj s) (proj s') a) ->
  forall s s',
    for_each body l s = Ok s' ->
    evolves (proj s) (proj s') /\
    (forall q, In q l -> accounted (proj s') q) /\
    ((forall q, In q (pairs_processed (proj s)) -> placed (proj s) q) ->
     forall q, In q (pairs_processed (proj s')) -> placed (proj s') q).
Proof.
  intros Hbody. induction l as [|a l IH]; intros s s'; cbn [for_each].
  - intros [= <-]. split; [constructor|]. split; [intros q []|auto].
  - destruct (body s a) as [s1|] eqn:E; cbn [bind]; [|discriminate].
    intros Hloop. destruct (IH s1 s' Hloop) as (Hev & Hacc & Hpl).
    destruct (Hbody s a s1 E) as (Hev1 & Hacc1 & Hnew).
    split; [eapply evolves_trans; eassumption|]. split.
    + intros q [<-|Hq]; [|now apply Hacc].
      eapply accounted_evolves; eassumption.
    + intros Hs. apply Hpl. intros q Hq.
      destruct (Hnew q Hq) as [Hold|[-> Hp]]; [|exact Hp].
      eapply placed_evolves; [exact Hev1|]. now apply Hs.
Qed.

Lemma findExceptions_processed (st st' : state) :
  pairs_processed st = [] ->
  _findExceptions st = Ok st' ->
  (forall q, In q (dict_keys (kerning st')) -> accounted st' q) /\
  (forall q, In q (pairs_processed st') -> placed st' q).
Proof.
  intros Hpp0 Hfind.
  destruct (findExceptions_keeps st Hfind) as (st1' & Hstrip' & Hk' & _).
  destruct (findExceptions_passes st Hfind)
    as (st1 & g2g & g2grp & g2i & st2 & st3 & e & r & st4 &
        Hstrip & Eg2g & Eg2grp & Eg2i & E2 & E3 & E4 & E5).
  rewrite Hstrip in Hstrip'. injection Hstrip' as <-.
  assert (Hpp1 : pairs_processed st1 = []).
  { unfold strip_pairs in Hstrip.
    apply (for_each_returned
             strip_step (fun s => pairs_processed s = [])
             (rev (dict_keys (kerning st)))) with (s := st) in Hstrip;
      [exact Hstrip| |exact Hpp0].
    intros s a s' _ Hs Hstep. unfold strip_step in Hstep.
    destruct (ignored a); [now injection Hstep as <-|].
    destruct (predefined a); [|now injection Hstep as <-].
    destruct (getitem _ _); [|discriminate]. now injection Hstep as <-. }
  destruct (@for_each_processed
              state (fun s => s) (glyph_group_step (sorted_pairs g2g))
              (sorted_pairs g2grp)
              (fun s a s' => @glyph_group_step_processed _ s s' a)
              st1 st2 E2) as (Hev2 & Hacc2 & Hpl2).
  destruct (@for_each_processed
              (state * list pair * list pair) (fun acc => fst (fst acc))
              group_item_step (sorted_pairs g2i)
              (fun s a s' => @group_item_step_processed s s' a)
              (st2, [], []) (st3, e, r) E3) as (Hev3 & Hacc3 & Hpl3).
  cbn [fst] in Hev3, Hacc3, Hpl3.
  pose proof (exception_pairs_pass_evolves _ _ _ _ E4) as Hev4.
  assert (Hpp4 : pairs_processed st4 = pairs_processed st3).
  { set (F := fun (_ : direction) (_ : category) => false).
    unfold exception_pairs_pass in E4.
    match type of E4 with
    | bind ?m _ = _ => destruct m as [s1|] eqn:E1; [|discriminate]
    end.
    cbn [bind] in E4.
    assert (Hloop : forall d l s s',
               for_each
                 (fun st p =>
                    v <- getitem (kerning st) p ;;
                    Ok (put d glyph_glyph_exceptions p v st)) l s = Ok s' ->
               pairs_processed s' = pairs_processed s).
    { intros d l s s'.
      apply (for_each_preserves
               _ (fun a b : state => pairs_processed b = pairs_processed a)).
      - reflexivity.
      - intros a b c H1 H2. congruence.
      - intros s0 a s0' Hstep.
        destruct (getitem _ _); [|discriminate]. now injection Hstep as <-. }
    rewrite (Hloop _ _ _ _ E4), (Hloop _ _ _ _ E1). reflexivity. }
  destruct (@for_each_processed
              state (fun s => s) glyph_glyph_step (sorted_pairs g2g)
              (fun s a s' => @glyph_glyph_step_processed s s' a)
              st4 st' E5) as (Hev5 & Hacc5 & Hpl5).
  assert (Hpl : forall q, In q (pairs_processed st') -> placed st' q).
  { apply Hpl5. intros q Hq. rewrite Hpp4 in Hq.
    eapply placed_evolves; [exact Hev4|]. revert q Hq.
    apply Hpl3, Hpl2. rewrite Hpp1. intros q []. }
  split; [|exact Hpl].
  intros q Hq. rewrite Hk' in Hq.
  destruct (filter_r_defined _ _ Eg2i q Hq) as (a & Ha).
  unfold is_group_2_item in Ha. destruct a.
  - eapply accounted_evolves; [exact Hev5|].
    eapply accounted_evolves; [exact Hev4|].
    apply Hacc3. apply (sorted_filter_r_In _ _ q Eg2i). auto.
  - destruct (filter_r_defined _ _ Eg2grp q Hq) as (b & Hb).
    unfold is_glyph_2_group in Hb. rewrite Ha in Hb. cbn in Hb.
    destruct b.
    + eapply accounted_evolves; [exact Hev5|].
      eapply accounted_evolves; [exact Hev4|].
      eapply accounted_evolves; [exact Hev3|].
      apply Hacc2. apply (sorted_filter_r_In _ _ q Eg2grp).
      split; [exact Hq|]. unfold is_glyph_2_group. rewrite Ha. exact Hb.
    + apply Hacc5. apply (sorted_filter_r_In _ _ q Eg2g).
      split; [exact Hq|]. unfold is_glyph_2_glyph. rewrite Ha. cbn.
      rewrite Hb. reflexivity.
Qed.
End Processed.

(** X28: in the object a run of [KernProcessor] returns, the pairs on
    [pairs_processed] are exactly the pairs stored in a dictionary of the
    classification other than [rtl_group_glyph_exceptions]: every processed
    pair is stored, and every stored pair is processed but for the RTL
    exceptions of a group against a glyph. *)
Theorem processed_pairs
        (groups : dict string (list string)) (kerning : dict pair value)
        (option_dissolve : bool) (st : KernProcessor.state) (q : pair) :
  KernProcessor.__init__ groups kerning option_dissolve = Ok st ->
  In q (KernProcessor.pairs_processed st) <->
  exists d c,
    c <> KernProcessor.predefined_exceptions /\
    ~ (d = KernProcessor.RTL /\ c = KernProcessor.group_glyph_exceptions) /\
    In q (dict_keys (KernProcessor.bucket st d c)).
Proof.
  intros Hinit.
  destruct (init_returned _ _ _ Hinit)
    as (st0 & st1 & Hwf & Hempty & Hpp0 & Hu0 & _ & Hfind & Hlast).
  destruct (findExceptions_processed st0 Hpp0 Hfind) as [Hacc Hpl].
  pose proof (@findExceptions_tidy st0 st1 Hwf Hempty Hu0 Hfind) as Htidy.
  destruct (init_buckets_ok _ _ _ Hinit) as (gl & gr & Hb).
  assert (H1 : (forall x, In x (dict_keys (KernProcessor.kerning st)) ->
                          KernProcessor.accounted st x) /\
               (forall x, In x (KernProcessor.pairs_processed st) ->
                          KernProcessor.placed st x) /\
               (forall x, In x (KernProcessor.pairs_unprocessed st) ->
                          forall d c,
                            c <> KernProcessor.predefined_exceptions ->
                            ~ In x (dict_keys (KernProcessor.bucket st d c)))).
  { destruct Hlast as [->|(o & ->)];
      (split; [exact Hacc|split; [exact Hpl|]]);
      intros x Hx; now apply Htidy. }
  destruct H1 as (Hacc' & Hpl' & Htidy').
  split; [apply Hpl'|].
  intros (d & c & Hc & Hn & Hin).
  destruct (In_key_get _ _ Hin) as (v & Hv).
  pose proof (Hb _ _ _ _ Hv) as Hok.
  pose proof (entry_ok_key _ _ _ _ _ _ _ Hc Hok) as Hkey.
  destruct (Hacc' q Hkey) as [Hp|[Hu|Hr]]; [exact Hp| |]; exfalso.
  - exact (Htidy' q Hu d c Hc Hin).
  - destruct (In_key_get _ _ Hr) as (w & Hw).
    pose proof (Hb _ _ _ _ Hw) as Hok'. cbn in Hok'.
    destruct Hok' as (Hl & Hr' & Hm & Hd & _).
    destruct c; cbn in Hok; try congruence;
      repeat match goal with
             | H : _ /\ _ |- _ => destruct H
             | H : _ \/ _ |- _ => destruct H
             end;
      try congruence.
    all: apply Hn; split; [congruence|reflexivity].
Qed.

Lemma processed_pairs_witness :
  exists st,
    KernProcessor.__init__
      [("@MMK_L_A", ["a"]); ("@MMK_R_B", ["b"])]
      [(("@MMK_L_A", "@MMK_R_B"), VInt 5); (("a", "b"), VInt 3)] false
    = Ok st /\
    In ("a", "b") (KernProcessor.pairs_processed st).
Proof.
  destruct (KernProcessor.__init__
              [("@MMK_L_A", ["a"]); ("@MMK_R_B", ["b"])]
              [(("@MMK_L_A", "@MMK_R_B"), VInt 5); (("a", "b"), VInt 3)]
              false) as [st|] eqn:Hinit;
    [|vm_compute in Hinit; discriminate].
  exists st. split; [reflexivity|].
  apply (proj2 (@processed_pairs _ _ _ st ("a", "b") Hinit)).
  exists KernProcessor.LTR, KernProcessor.glyph_glyph_exceptions.
  split; [discriminate|]. split; [intros [[=] _]|].
  vm_compute in Hinit. injection Hinit as <-. now left.
Defined.
